(** * Constraint encoders of the MODADD, MODSUB and OR components

    A shallow embedding of [claasp/components/modadd_component.py],
    [modsub_component.py] and [or_component.py]: the functions that turn a
    component (identity, wiring, width, operand count) into variable ids and
    constraints for the SAT, CMS, SMT, CP and algebraic models, followed by the
    properties of these encodings. *)

From Stdlib Require Import String Ascii DecimalString.
From Stdlib Require Import ZArith Bool List Lia.
Import ListNotations.
Local Open Scope Z_scope.
Local Open Scope list_scope.

(** ** Python values and errors *)

(** The exceptions the encoders can raise. *)
Inductive exn : Type :=
| IndexError
| TypeError
| ValueError
| ZeroDivisionError.

Inductive result (A : Type) : Type :=
| Ok (a : A)
| Err (e : exn).
Arguments Ok {A} a.
Arguments Err {A} e.

Definition bind {A B : Type} (r : result A) (f : A -> result B) : result B :=
  match r with
  | Ok a => f a
  | Err e => Err e
  end.

Notation "x <- c ;; k" := (bind c (fun x => k))
  (at level 61, c at next level, right associativity).

Definition is_ok {A : Type} (r : result A) : bool :=
  match r with Ok _ => true | Err _ => false end.

(** A [for] loop whose body may raise: the state is threaded through the
    iterations and the first exception ends the loop. *)
Fixpoint mapM {A B : Type} (f : A -> result B) (l : list A) : result (list B) :=
  match l with
  | [] => Ok []
  | a :: l' => b <- f a ;; bs <- mapM f l' ;; Ok (b :: bs)
  end.

Fixpoint foldM {A S : Type} (body : S -> A -> result S) (l : list A) (s : S)
  : result S :=
  match l with
  | [] => Ok s
  | a :: l' => s' <- body s a ;; foldM body l' s'
  end.

Module Py.

(** [l[i]]: a negative index counts from the end, an index out of range
    raises [IndexError]. *)
Definition getitem {A : Type} (l : list A) (i : Z) : result A :=
  let n := Z.of_nat (length l) in
  let j := if i <? 0 then i + n else i in
  if (0 <=? j) && (j <? n)
  then match nth_error l (Z.to_nat j) with
       | Some a => Ok a
       | None => Err IndexError
       end
  else Err IndexError.

(** [l[lo:hi]] for non-negative bounds; a slice never raises. *)
Definition slice {A : Type} (l : list A) (lo hi : nat) : list A :=
  firstn (hi - lo) (skipn lo l).

(** [l[lo:]] *)
Definition slice_from {A : Type} (l : list A) (lo : nat) : list A :=
  skipn lo l.

(** [l[:hi]] *)
Definition slice_to {A : Type} (l : list A) (hi : nat) : list A :=
  firstn hi l.

(** [l[i] = v] for a non-negative index. *)
Fixpoint setitem {A : Type} (l : list A) (i : nat) (v : A) : result (list A) :=
  match l, i with
  | [], _ => Err IndexError
  | _ :: l', O => Ok (v :: l')
  | a :: l', S k => l'' <- setitem l' k v ;; Ok (a :: l'')
  end.

(** [range(0, stop, step)] *)
Definition range_step (stop step : nat) : result (list nat) :=
  match step with
  | O => Err ValueError
  | S _ => Ok (map (fun q => q * step)%nat (seq 0 ((stop + step - 1) / step)))
  end.

(** [l[:-1]] *)
Definition but_last {A : Type} (l : list A) : list A := removelast l.

(** [l[start::step]] for [step >= 1]. *)
Fixpoint every {A : Type} (skip step : nat) (l : list A) : list A :=
  match l with
  | [] => []
  | a :: l' =>
      match skip with
      | O => a :: every (step - 1) step l'
      | S k => every k step l'
      end
  end.
Definition slice_step {A : Type} (l : list A) (start step : nat) : list A :=
  every start step l.

(** [a // b] for non-negative integers. *)
Definition floordiv (a b : nat) : result nat :=
  match b with
  | O => Err ZeroDivisionError
  | S _ => Ok (a / b)%nat
  end.

(** [range(a, b)] *)
Definition range (a b : nat) : list nat := seq a (b - a).

(** [zip] stops at the shortest argument. *)
Fixpoint zip3 {A B C : Type} (la : list A) (lb : list B) (lc : list C)
  : list (A * B * C) :=
  match la, lb, lc with
  | a :: la', b :: lb', c :: lc' => (a, b, c) :: zip3 la' lb' lc'
  | _, _, _ => []
  end.

Fixpoint zip4 {A B C D : Type}
  (la : list A) (lb : list B) (lc : list C) (ld : list D)
  : list (A * B * C * D) :=
  match la, lb, lc, ld with
  | a :: la', b :: lb', c :: lc', d :: ld' =>
      (a, b, c, d) :: zip4 la' lb' lc' ld'
  | _, _, _, _ => []
  end.

Fixpoint zip5 {A B C D E : Type}
  (la : list A) (lb : list B) (lc : list C) (ld : list D) (le : list E)
  : list (A * B * C * D * E) :=
  match la, lb, lc, ld, le with
  | a :: la', b :: lb', c :: lc', d :: ld', e :: le' =>
      (a, b, c, d, e) :: zip5 la' lb' lc' ld' le'
  | _, _, _, _, _ => []
  end.

(** [str(z)] and the format [{n:03}] of a non-negative integer. *)
Definition str (z : Z) : string := NilEmpty.string_of_int (Z.to_int z).

Fixpoint zeros (n : nat) : string :=
  match n with
  | O => EmptyString
  | S k => String "0"%char (zeros k)
  end.

Definition str03 (n : nat) : string :=
  let s := str (Z.of_nat n) in
  String.append (zeros (3 - String.length s)) s.

(** The values met by [+] in the encoders: a string or a list of strings.
    Python concatenates two lists or two strings and raises [TypeError] for
    a list and a string. *)
Inductive value : Type :=
| VStr (s : string)
| VList (l : list string).

Definition add (a b : value) : result value :=
  match a, b with
  | VList l1, VList l2 => Ok (VList (l1 ++ l2))
  | VStr s1, VStr s2 => Ok (VStr (String.append s1 s2))
  | _, _ => Err TypeError
  end.

End Py.

Notation "a +s b" := (String.append a b)
  (at level 60, right associativity).

(** ** Components *)

(** The attributes of a component the encoders read.  [description_1] is
    [self.description[1]], the operand count. *)
Record component : Type := {
  id : string;
  input_id_links : list string;
  input_bit_positions : list (list nat);
  output_bit_size : nat;
  description_1 : nat
}.

(** Modelled from the spec: [Component.input_bit_size] is declared in the
    base class, which is not under src/; it is "the total selected input
    bits" of the data model, the number of positions of all input sources. *)
Definition input_bit_size (c : component) : nat :=
  length (concat (input_bit_positions c)).

(** Modelled from the spec: [Component._generate_input_ids] and
    [Component._generate_output_ids] are declared in the base class, which is
    not under src/.  They derive one identifier per bit from the id of the
    source and the bit position ("deterministic string identifiers derived
    from component id, round/position, and role"); the input ids follow the
    wiring source by source, as [cp_constraints] does with [all_inputs].  The
    format of a bit name is the parameter [bit_id]. *)
Definition generate_input_ids (bit_id : string -> nat -> string)
  (c : component) : nat * list string :=
  let ids :=
    flat_map (fun lp => map (bit_id (fst lp)) (snd lp))
      (combine (input_id_links c) (input_bit_positions c)) in
  (length ids, ids).

Definition generate_output_ids (bit_id : string -> nat -> string)
  (c : component) : nat * list string :=
  (output_bit_size c,
   map (bit_id (id c)) (Py.range 0 (output_bit_size c))).

(** The bit name printed in the examples of modadd_component.py
    ([modadd_0_1_013], [plaintext_029]). *)
Definition bit_id_03 (link : string) (j : nat) : string :=
  link +s "_" +s Py.str03 j.

(** ** Bits and words *)

Definition maj (x y z : bool) : bool := (x && y) || (x && z) || (y && z).
Definition xor3 (x y z : bool) : bool := xorb (xorb x y) z.

(** The value of a word whose index 0 is the most significant bit. *)
Definition word_msb (bs : list bool) : Z :=
  fold_left (fun acc b => 2 * acc + Z.b2z b) bs 0.

(** The value of a word whose index 0 is the least significant bit. *)
Fixpoint word_lsb (bs : list bool) : Z :=
  match bs with
  | [] => 0
  | b :: bs' => Z.b2z b + 2 * word_lsb bs'
  end.

#[local] Set Warnings "-register-all".

(** ** Constraint languages of the four models *)

(** An assignment of the boolean variables. *)
Definition assignment : Type := string -> bool.

Module Sat.

(** A literal is a variable name, prefixed by [-] when negated. *)
Definition literal : Type := (bool * string)%type.
Definition pos (v : string) : literal := (true, v).
Definition neg (v : string) : literal := (false, v).
Definition clause : Type := list literal.

Definition eval_literal (rho : assignment) (l : literal) : bool :=
  if fst l then rho (snd l) else negb (rho (snd l)).
Definition eval_clause (rho : assignment) (c : clause) : bool :=
  existsb (eval_literal rho) c.
Definition eval (rho : assignment) (cs : list clause) : bool :=
  forallb (eval_clause rho) cs.

(** The text of a clause: the literals separated by spaces. *)
Definition render_literal (l : literal) : string :=
  if fst l then snd l else "-" +s snd l.
Definition render (c : clause) : string :=
  String.concat " " (map render_literal c).

(** The clauses stating that the exclusive or of [vars] is [parity]. *)
Fixpoint xor_clauses (vars : list string) (parity : bool) : list clause :=
  match vars with
  | [] => if parity then [[]] else []
  | v :: vs =>
      map (cons (neg v)) (xor_clauses vs (negb parity))
      ++ map (cons (pos v)) (xor_clauses vs parity)
  end.

(** Modelled from the spec: the helpers of [sat.utils.utils] are not under
    src/.  They are the "bitwise primitive encoders" of the spec, each a
    fixed clause set for one boolean relation: "AND of 2 bits", "majority
    of 3 bits", 2-input XOR, and the "3-input XOR (using an auxiliary
    intermediate variable for the first two inputs, then XOR-ing with the
    third)". *)
Definition cnf_and (result : string) (variables : list string) : list clause :=
  map (fun v => [neg result; pos v]) variables
  ++ [pos result :: map neg variables].

Definition cnf_carry (carry variable_0 variable_1 previous_carry : string)
  : list clause :=
  [ [pos carry; neg variable_0; neg variable_1];
    [pos carry; neg variable_0; neg previous_carry];
    [pos carry; neg variable_1; neg previous_carry];
    [neg carry; pos variable_0; pos variable_1];
    [neg carry; pos variable_0; pos previous_carry];
    [neg carry; pos variable_1; pos previous_carry] ].

Definition cnf_xor (result : string) (variables : list string) : list clause :=
  xor_clauses (result :: variables) false.

Definition cnf_result (result variable_0 variable_1 carry intermediate : string)
  : list clause :=
  cnf_xor intermediate [variable_0; variable_1]
  ++ cnf_xor result [intermediate; carry].

(** Modelled from the spec: the helpers of the two's-complement chain,
    not under src/ either.  The chain is "bitwise complement of b, a carry
    chain seeded with a forced carry-in of 1 at the least-significant
    position", and "the complement inequality check at the top bit
    replaces the addition-chain's AND"; the relations are those
    [MODSUB.smt_constraints] spells out. *)
Definition cnf_carry_comp2 (carry variable previous_carry : string)
  : list clause :=
  [ [neg carry; neg variable];
    [neg carry; pos previous_carry];
    [pos carry; pos variable; neg previous_carry] ].

Definition cnf_inequality (left_var right_var : string) : list clause :=
  [ [pos left_var; pos right_var]; [neg left_var; neg right_var] ].

Definition cnf_result_comp2 (result variable carry : string) : list clause :=
  xor_clauses [result; variable; carry] true.

Fixpoint cnf_equivalent (variables : list string) : list clause :=
  match variables with
  | a :: ((b :: _) as rest) =>
      [neg a; pos b] :: [pos a; neg b] :: cnf_equivalent rest
  | _ => []
  end.

End Sat.

Module Cms.

(** A CryptoMiniSat constraint: a clause, or a line [x l1 ... ln] stating
    that the exclusive or of the literals is true. *)
Inductive constraint : Type :=
| Clause (c : Sat.clause)
| XorClause (c : Sat.clause).

Definition eval_constraint (rho : assignment) (c : constraint) : bool :=
  match c with
  | Clause c => Sat.eval_clause rho c
  | XorClause c => fold_right xorb false (map (Sat.eval_literal rho) c)
  end.
Definition eval (rho : assignment) (cs : list constraint) : bool :=
  forallb (eval_constraint rho) cs.

Definition render (c : constraint) : string :=
  match c with
  | Clause c => Sat.render c
  | XorClause c => "x " +s Sat.render c
  end.

End Cms.

Module Smt.

(** SMT-LIB terms over boolean variables. *)
Inductive term : Type :=
| Var (v : string)
| Not (t : term)
| And (ts : list term)
| Or (ts : list term)
| Xor (ts : list term)
| Equal (a b : term)
| Distinct (a b : term)
| Assert (t : term).

Fixpoint eval (rho : assignment) (t : term) : bool :=
  match t with
  | Var v => rho v
  | Not t => negb (eval rho t)
  | And ts => forallb (eval rho) ts
  | Or ts => existsb (eval rho) ts
  | Xor ts => fold_right xorb false (map (eval rho) ts)
  | Equal a b => Bool.eqb (eval rho a) (eval rho b)
  | Distinct a b => xorb (eval rho a) (eval rho b)
  | Assert t => eval rho t
  end.

Definition eval_all (rho : assignment) (ts : list term) : bool :=
  forallb (eval rho) ts.

(** Modelled from the spec: the helpers of [smt.utils.utils] are not under
    src/.  They build the "boolean equivalences" of the spec
    ([carry_i <=> (x AND y) OR (x AND c) OR (y AND c)],
    [out_i <=> XOR(x,y,c)]) "wrapped as assertions", with the shapes the
    examples of [smt_constraints] print. *)
Definition smt_and (formulae : list term) : term := And formulae.
Definition smt_not (formula : term) : term := Not formula.
Definition smt_xor (formulae : list term) : term := Xor formulae.
Definition smt_or (formulae : list term) : term := Or formulae.
Definition smt_carry (x y previous_carry : string) : term :=
  Or [And [Var x; Var y]; And [Var x; Var previous_carry];
      And [Var y; Var previous_carry]].
Definition smt_equivalent (a b : term) : term := Equal a b.
Definition smt_distinct (a b : string) : term := Distinct (Var a) (Var b).
Definition smt_assert (t : term) : term := Assert t.

End Smt.

Module Cp.

(** Integer expressions over array elements [name[index]]. *)
Inductive expr : Type :=
| Elem (a : string) (i : Z)
| Lit (z : Z)
| Add (e1 e2 : expr)
| Mul (e1 e2 : expr)
| Mod2 (e : expr).

(** [constraint lhs = rhs;] *)
Inductive constraint : Type :=
| Eq (lhs rhs : expr).

(** [array[lo..hi] of var 0..1: name;] and
    [array[lo..hi] of var 0..1: name = array1d(lo..hi, values);] *)
Inductive declaration : Type :=
| Array01 (lo hi : Z) (name : string)
| Array01Init (lo hi : Z) (name : string) (values : list Z).

(** An assignment gives every array element an integer. *)
Definition store : Type := string -> Z -> Z.

Fixpoint eval_expr (sigma : store) (e : expr) : Z :=
  match e with
  | Elem a i => sigma a i
  | Lit z => z
  | Add e1 e2 => eval_expr sigma e1 + eval_expr sigma e2
  | Mul e1 e2 => eval_expr sigma e1 * eval_expr sigma e2
  | Mod2 e => eval_expr sigma e mod 2
  end.

Definition holds (sigma : store) (c : constraint) : Prop :=
  match c with
  | Eq lhs rhs => eval_expr sigma lhs = eval_expr sigma rhs
  end.

Definition declared (sigma : store) (d : declaration) : Prop :=
  match d with
  | Array01 lo hi name =>
      forall i, lo <= i <= hi -> sigma name i = 0 \/ sigma name i = 1
  | Array01Init lo hi name values =>
      forall i, lo <= i <= hi ->
        nth_error values (Z.to_nat (i - lo)) = Some (sigma name i)
  end.

Definition model (sigma : store) (ds : list declaration)
  (cs : list constraint) : Prop :=
  Forall (declared sigma) ds /\ Forall (holds sigma) cs.

End Cp.

Module Poly.

(** Polynomials over the field with two elements, as the encoder builds
    them; each is implicitly asserted equal to zero. *)
Inductive poly : Type :=
| Var (v : string)
| Const (b : bool)
| Add (p q : poly)
| Mul (p q : poly).

Fixpoint eval (rho : assignment) (p : poly) : bool :=
  match p with
  | Var v => rho v
  | Const b => b
  | Add p q => xorb (eval rho p) (eval rho q)
  | Mul p q => eval rho p && eval rho q
  end.

(** A common zero of a list of polynomials. *)
Definition zero (rho : assignment) (ps : list poly) : bool :=
  forallb (fun p => negb (eval rho p)) ps.

End Poly.

(** The attributes of the algebraic model the encoders read. *)
Record algebraic_model : Type := {
  input_postfix : string;
  output_postfix : string
}.

(** ** The MODADD component: modadd_component.py *)

Module Modadd.

(** The CMS modular addition between 2 addenda. *)
Definition cms_modadd (output_ids input0_ids input1_ids carry_ids : list string)
  : result (list Cms.constraint) :=
  let constraints :=
    flat_map
      (fun t =>
         match t with
         | (carry_id, input0_id, input1_id, previous_carry_id) =>
             map Cms.Clause
               (Sat.cnf_carry carry_id input0_id input1_id previous_carry_id)
         end)
      (Py.zip4 carry_ids (Py.slice_from input0_ids 1)
         (Py.slice_from input1_ids 1) (Py.slice_from carry_ids 1)) in
  carry_last <- Py.getitem carry_ids (-1) ;;
  input0_last <- Py.getitem input0_ids (-1) ;;
  input1_last <- Py.getitem input1_ids (-1) ;;
  let constraints :=
    constraints
    ++ map Cms.Clause (Sat.cnf_and carry_last [input0_last; input1_last]) in
  let constraints :=
    constraints
    ++ map
         (fun t =>
            match t with
            | (output_id, input0_id, input1_id, carry_id) =>
                Cms.XorClause [Sat.neg output_id; Sat.pos input0_id;
                               Sat.pos input1_id; Sat.pos carry_id]
            end)
         (Py.zip4 output_ids input0_ids input1_ids carry_ids) in
  output_last <- Py.getitem output_ids (-1) ;;
  input0_last <- Py.getitem input0_ids (-1) ;;
  input1_last <- Py.getitem input1_ids (-1) ;;
  Ok (constraints
      ++ [Cms.XorClause [Sat.neg output_last; Sat.pos input0_last;
                         Sat.pos input1_last]]).

(** The CMS modular addition between more than 2 addenda. *)
Definition cms_modadd_seq (outputs_ids inputs_ids carries_ids : list (list string))
  : result (list Cms.constraint) :=
  output_0 <- Py.getitem outputs_ids 0 ;;
  input_0 <- Py.getitem inputs_ids 0 ;;
  input_1 <- Py.getitem inputs_ids 1 ;;
  carry_0 <- Py.getitem carries_ids 0 ;;
  constraints <- cms_modadd output_0 input_0 input_1 carry_0 ;;
  foldM (fun constraints i =>
           output_i <- Py.getitem outputs_ids (Z.of_nat i) ;;
           output_prev <- Py.getitem outputs_ids (Z.of_nat i - 1) ;;
           input_next <- Py.getitem inputs_ids (Z.of_nat i + 1) ;;
           carry_i <- Py.getitem carries_ids (Z.of_nat i) ;;
           more <- cms_modadd output_i output_prev input_next carry_i ;;
           Ok (constraints ++ more))
        (Py.range 1 (length outputs_ids)) constraints.

Definition cp_twoterms (input_1 input_2 out : string) (input_length : nat)
  (cp_constraints : list Cp.constraint) (cp_declarations : list Cp.declaration)
  : list Cp.declaration * list Cp.constraint :=
  let carry := "carry_" +s out in
  let last := Z.of_nat input_length - 1 in
  let cp_declarations := cp_declarations ++ [Cp.Array01 1 last carry] in
  let cp_constraints :=
    cp_constraints
    ++ map (fun n =>
              let i := Z.of_nat n in
              Cp.Eq (Cp.Elem carry i)
                (Cp.Mod2
                   (Cp.Add
                      (Cp.Add
                         (Cp.Mul (Cp.Elem input_1 i) (Cp.Elem input_2 i))
                         (Cp.Mul (Cp.Elem input_1 i) (Cp.Elem carry (i + 1))))
                      (Cp.Mul (Cp.Elem carry (i + 1)) (Cp.Elem input_2 i)))))
         (Py.range 1 (input_length - 1)) in
  let cp_constraints :=
    cp_constraints
    ++ [Cp.Eq (Cp.Elem carry last)
          (Cp.Mod2 (Cp.Mul (Cp.Elem input_1 last) (Cp.Elem input_2 last)))] in
  let cp_constraints :=
    cp_constraints
    ++ map (fun n =>
              let i := Z.of_nat n in
              Cp.Eq (Cp.Elem out i)
                (Cp.Mod2
                   (Cp.Add (Cp.Add (Cp.Elem input_1 i) (Cp.Elem input_2 i))
                      (Cp.Elem carry (i + 1)))))
         (Py.range 0 (input_length - 1)) in
  let cp_constraints :=
    cp_constraints
    ++ [Cp.Eq (Cp.Elem out last)
          (Cp.Mod2 (Cp.Add (Cp.Elem input_1 last) (Cp.Elem input_2 last)))] in
  (cp_declarations, cp_constraints).

(** The SAT modular addition between 2 addenda. *)
Definition sat_modadd
  (output_ids input0_ids input1_ids carry_ids intermediate_ids : list string)
  : result (list Sat.clause) :=
  let constraints :=
    flat_map
      (fun t =>
         match t with
         | (carry_id, input0_id, input1_id, previous_carry_id) =>
             Sat.cnf_carry carry_id input0_id input1_id previous_carry_id
         end)
      (Py.zip4 carry_ids (Py.slice_from input0_ids 1)
         (Py.slice_from input1_ids 1) (Py.slice_from carry_ids 1)) in
  carry_last <- Py.getitem carry_ids (-1) ;;
  input0_last <- Py.getitem input0_ids (-1) ;;
  input1_last <- Py.getitem input1_ids (-1) ;;
  let constraints :=
    constraints ++ Sat.cnf_and carry_last [input0_last; input1_last] in
  let constraints :=
    constraints
    ++ flat_map
         (fun t =>
            match t with
            | (output_id, input0_id, input1_id, carry_id, intermediate_id) =>
                Sat.cnf_result output_id input0_id input1_id carry_id
                  intermediate_id
            end)
         (Py.zip5 output_ids input0_ids input1_ids carry_ids
            intermediate_ids) in
  output_last <- Py.getitem output_ids (-1) ;;
  input0_last <- Py.getitem input0_ids (-1) ;;
  input1_last <- Py.getitem input1_ids (-1) ;;
  Ok (constraints ++ Sat.cnf_xor output_last [input0_last; input1_last]).

(** The SAT modular addition between more than 2 addenda. *)
Definition sat_modadd_seq
  (outputs_ids inputs_ids carries_ids intermediates_ids : list (list string))
  : result (list Sat.clause) :=
  output_0 <- Py.getitem outputs_ids 0 ;;
  input_0 <- Py.getitem inputs_ids 0 ;;
  input_1 <- Py.getitem inputs_ids 1 ;;
  carry_0 <- Py.getitem carries_ids 0 ;;
  intermediate_0 <- Py.getitem intermediates_ids 0 ;;
  constraints <- sat_modadd output_0 input_0 input_1 carry_0 intermediate_0 ;;
  foldM (fun constraints i =>
           output_i <- Py.getitem outputs_ids (Z.of_nat i) ;;
           output_prev <- Py.getitem outputs_ids (Z.of_nat i - 1) ;;
           input_next <- Py.getitem inputs_ids (Z.of_nat i + 1) ;;
           carry_i <- Py.getitem carries_ids (Z.of_nat i) ;;
           intermediate_i <- Py.getitem intermediates_ids (Z.of_nat i) ;;
           more <- sat_modadd output_i output_prev input_next carry_i
                     intermediate_i ;;
           Ok (constraints ++ more))
        (Py.range 1 (length outputs_ids)) constraints.

(** The SMT modular addition between 2 addenda. *)
Definition smt_modadd (output_ids input0_ids input1_ids carry_ids : list string)
  : result (list Smt.term) :=
  (* carries *)
  let constraints :=
    map
      (fun t =>
         match t with
         | (carry_id, input0_id, input1_id, previous_carry_id) =>
             let operation :=
               Smt.smt_carry input0_id input1_id previous_carry_id in
             let equation := Smt.smt_equivalent (Smt.Var carry_id) operation in
             Smt.smt_assert equation
         end)
      (Py.zip4 carry_ids (Py.slice_from input0_ids 1)
         (Py.slice_from input1_ids 1) (Py.slice_from carry_ids 1)) in
  input0_last <- Py.getitem input0_ids (-1) ;;
  input1_last <- Py.getitem input1_ids (-1) ;;
  let operation := Smt.smt_and [Smt.Var input0_last; Smt.Var input1_last] in
  carry_last <- Py.getitem carry_ids (-1) ;;
  let equation := Smt.smt_equivalent (Smt.Var carry_last) operation in
  let constraints := constraints ++ [Smt.smt_assert equation] in
  (* result *)
  let constraints :=
    constraints
    ++ map
         (fun t =>
            match t with
            | (output_id, input0_id, input1_id, carry_id) =>
                let operation :=
                  Smt.smt_xor [Smt.Var input0_id; Smt.Var input1_id;
                               Smt.Var carry_id] in
                let equation :=
                  Smt.smt_equivalent (Smt.Var output_id) operation in
                Smt.smt_assert equation
            end)
         (Py.zip4 output_ids input0_ids input1_ids carry_ids) in
  input0_last <- Py.getitem input0_ids (-1) ;;
  input1_last <- Py.getitem input1_ids (-1) ;;
  let operation := Smt.smt_xor [Smt.Var input0_last; Smt.Var input1_last] in
  output_last <- Py.getitem output_ids (-1) ;;
  let equation := Smt.smt_equivalent (Smt.Var output_last) operation in
  Ok (constraints ++ [Smt.smt_assert equation]).

(** The SMT modular addition between more than 2 addenda. *)
Definition smt_modadd_seq (outputs_ids inputs_ids carries_ids : list (list string))
  : result (list Smt.term) :=
  output_0 <- Py.getitem outputs_ids 0 ;;
  input_0 <- Py.getitem inputs_ids 0 ;;
  input_1 <- Py.getitem inputs_ids 1 ;;
  carry_0 <- Py.getitem carries_ids 0 ;;
  constraints <- smt_modadd output_0 input_0 input_1 carry_0 ;;
  foldM (fun constraints i =>
           output_i <- Py.getitem outputs_ids (Z.of_nat i) ;;
           output_prev <- Py.getitem outputs_ids (Z.of_nat i - 1) ;;
           input_next <- Py.getitem inputs_ids (Z.of_nat i + 1) ;;
           carry_i <- Py.getitem carries_ids (Z.of_nat i) ;;
           more <- smt_modadd output_i output_prev input_next carry_i ;;
           Ok (constraints ++ more))
        (Py.range 1 (length outputs_ids)) constraints.

Section Methods.

Variable bit_id : string -> nat -> string.

(** The lists of ids shared by [cms_constraints], [sat_constraints] and
    [smt_constraints]. *)
Definition inputs_ids_of (input_ids : list string)
  (output_len num_of_addenda : nat) : list (list string) :=
  map (fun i => Py.slice input_ids (i * output_len) ((i + 1) * output_len))
    (Py.range 0 num_of_addenda).

Definition carries_ids_of (output_ids : list string) (num_of_addenda : nat)
  : list (list string) :=
  map (fun i =>
         map (fun output_id => "carry_" +s Py.str03 i +s "_" +s output_id)
           (Py.but_last output_ids))
    (Py.range 0 (num_of_addenda - 1)).

Definition intermediates_ids_of (output_ids : list string)
  (num_of_addenda : nat) : list (list string) :=
  map (fun i =>
         map (fun output_id =>
                "modadd_intermediate_" +s Py.str03 i +s "_" +s output_id)
           output_ids)
    (Py.range 0 (num_of_addenda - 1)).

Definition outputs_ids_of (output_ids : list string) (num_of_addenda : nat)
  : list (list string) :=
  map (fun i =>
         map (fun output_id =>
                "modadd_output_" +s Py.str03 i +s "_" +s output_id)
           output_ids)
    (Py.range 0 (num_of_addenda - 2))
  ++ [output_ids].

Definition algebraic_polynomials (c : component) (model : algebraic_model)
  : result (list Poly.poly) :=
  let component_id := id c in
  let ninput_words := description_1 c in
  let nadditions := (ninput_words - 1)%nat in
  let ninput_bits := input_bit_size c in
  let word_size := output_bit_size c in
  let noutput_bits := word_size in
  let input_vars :=
    map (fun i => Poly.Var (component_id +s "_" +s input_postfix model
                            +s Py.str (Z.of_nat i)))
      (Py.range 0 ninput_bits) in
  let output_vars :=
    map (fun i => Poly.Var (component_id +s "_" +s output_postfix model
                            +s Py.str (Z.of_nat i)))
      (Py.range 0 noutput_bits) in
  let carries_vars :=
    map (fun n =>
           map (fun i => Poly.Var (component_id +s "_c"
                                   +s Py.str (Z.of_nat n) +s "_"
                                   +s Py.str (Z.of_nat i)))
             (Py.range 0 word_size))
      (Py.range 0 nadditions) in
  let aux_outputs_vars :=
    map (fun n =>
           map (fun i => Poly.Var (component_id +s "_o"
                                   +s Py.str (Z.of_nat n) +s "_"
                                   +s Py.str (Z.of_nat i)))
             (Py.range 0 word_size))
      (Py.range 0 (nadditions - 1)) in
  let maj xi yi zi :=
    Poly.Add (Poly.Add (Poly.Mul xi yi) (Poly.Mul xi zi)) (Poly.Mul yi zi) in
  foldM
    (fun polynomials n =>  (* z = x + y *)
       x <- (if (n =? 0)%nat then Ok (Py.slice_to input_vars word_size)
             else Py.getitem aux_outputs_vars (Z.of_nat n - 1)) ;;
       z <- (if (n =? nadditions - 1)%nat then Ok output_vars
             else Py.getitem aux_outputs_vars (Z.of_nat n)) ;;
       let y := Py.slice input_vars ((n + 1) * word_size)
                  ((n + 1) * word_size + word_size) in
       c <- Py.getitem carries_vars (Z.of_nat n) ;;
       c0 <- Py.getitem c 0 ;;
       let polynomials := polynomials ++ [Poly.Add c0 (Poly.Const false)] in
       x0 <- Py.getitem x 0 ;;
       y0 <- Py.getitem y 0 ;;
       z0 <- Py.getitem z 0 ;;
       c0 <- Py.getitem c 0 ;;
       let polynomials :=
         polynomials
         ++ [Poly.Add (Poly.Add (Poly.Add x0 y0) z0) c0] in
       foldM
         (fun polynomials i =>
            ci <- Py.getitem c (Z.of_nat i) ;;
            xp <- Py.getitem x (Z.of_nat i - 1) ;;
            yp <- Py.getitem y (Z.of_nat i - 1) ;;
            cp <- Py.getitem c (Z.of_nat i - 1) ;;
            let polynomials :=
              polynomials ++ [Poly.Add ci (maj xp yp cp)] in
            xi <- Py.getitem x (Z.of_nat i) ;;
            yi <- Py.getitem y (Z.of_nat i) ;;
            zi <- Py.getitem z (Z.of_nat i) ;;
            ci <- Py.getitem c (Z.of_nat i) ;;
            Ok (polynomials
                ++ [Poly.Add (Poly.Add (Poly.Add xi yi) zi) ci]))
         (Py.range 1 word_size) polynomials)
    (Py.range 0 nadditions) [].

Definition cms_constraints (c : component)
  : result (list string * list Cms.constraint) :=
  let input_ids := snd (generate_input_ids bit_id c) in
  let output_len := fst (generate_output_ids bit_id c) in
  let output_ids := snd (generate_output_ids bit_id c) in
  let num_of_addenda := description_1 c in
  (* reformat of the in_ids *)
  let inputs_ids := inputs_ids_of input_ids output_len num_of_addenda in
  (* carries *)
  let carries_ids := carries_ids_of output_ids num_of_addenda in
  (* reformat of the outputs_ids *)
  let outputs_ids := outputs_ids_of output_ids num_of_addenda in
  constraints <- cms_modadd_seq outputs_ids inputs_ids carries_ids ;;
  (* flattening lists *)
  let ids := concat carries_ids ++ concat outputs_ids in
  Ok (ids, constraints).

Definition pre (output_id_link : string) (i : Z) : string :=
  "pre_" +s output_id_link +s "_" +s Py.str i.

Definition cp_constraints (c : component)
  : result (list Cp.declaration * list Cp.constraint) :=
  let output_size := output_bit_size c in
  let output_id_link := id c in
  let num_add := description_1 c in
  let all_inputs :=
    flat_map (fun lp =>
                map (fun position => Cp.Elem (fst lp) (Z.of_nat position))
                  (snd lp))
      (combine (input_id_links c) (input_bit_positions c)) in
  input_len <- Py.floordiv (length all_inputs) num_add ;;
  st <- foldM
          (fun st i =>
             let cp_declarations :=
               fst st ++ [Cp.Array01 0 (Z.of_nat input_len - 1)
                            (pre output_id_link (Z.of_nat i))] in
             more <- mapM
                       (fun j =>
                          source <- Py.getitem all_inputs
                                      (Z.of_nat (i * input_len + j)) ;;
                          Ok (Cp.Eq (Cp.Elem (pre output_id_link (Z.of_nat i))
                                       (Z.of_nat j))
                                source))
                       (Py.range 0 input_len) ;;
             Ok (cp_declarations, snd st ++ more))
          (Py.range 0 num_add) ([], []) ;;
  let cp_declarations :=
    fst st
    ++ map (fun i => Cp.Array01 0 (Z.of_nat input_len - 1)
                       (pre output_id_link (Z.of_nat i)))
         (Py.range num_add (2 * num_add - 2)) in
  let st :=
    fold_left
      (fun st i =>
         cp_twoterms (pre output_id_link (Z.of_nat num_add - 1))
           (pre output_id_link (Z.of_nat i + 1))
           (pre output_id_link (Z.of_nat num_add + Z.of_nat i))
           output_size (snd st) (fst st))
      (Py.range 0 (num_add - 2)) (cp_declarations, snd st) in
  Ok (cp_twoterms (pre output_id_link (2 * Z.of_nat num_add - 3))
        (pre output_id_link 0) output_id_link output_size
        (snd st) (fst st)).

Definition sat_constraints (c : component)
  : result (list string * list Sat.clause) :=
  let input_ids := snd (generate_input_ids bit_id c) in
  let output_len := fst (generate_output_ids bit_id c) in
  let output_ids := snd (generate_output_ids bit_id c) in
  let num_of_addenda := description_1 c in
  (* reformat of the in_ids *)
  let inputs_ids := inputs_ids_of input_ids output_len num_of_addenda in
  (* carries *)
  let carries_ids := carries_ids_of output_ids num_of_addenda in
  (* intermediates *)
  let intermediates_ids := intermediates_ids_of output_ids num_of_addenda in
  (* reformat of the outputs_ids *)
  let outputs_ids := outputs_ids_of output_ids num_of_addenda in
  constraints <- sat_modadd_seq outputs_ids inputs_ids carries_ids
                   intermediates_ids ;;
  (* flattening lists *)
  let ids :=
    concat carries_ids ++ concat intermediates_ids ++ concat outputs_ids in
  Ok (ids, constraints).

Definition smt_constraints (c : component)
  : result (list string * list Smt.term) :=
  let input_ids := snd (generate_input_ids bit_id c) in
  let output_len := fst (generate_output_ids bit_id c) in
  let output_ids := snd (generate_output_ids bit_id c) in
  let num_of_addenda := description_1 c in
  (* reformat of the in_ids *)
  let inputs_ids := inputs_ids_of input_ids output_len num_of_addenda in
  (* carries *)
  let carries_ids := carries_ids_of output_ids num_of_addenda in
  (* reformat of the outputs_ids *)
  let outputs_ids := outputs_ids_of output_ids num_of_addenda in
  constraints <- smt_modadd_seq outputs_ids inputs_ids carries_ids ;;
  (* flattening lists *)
  let ids := concat carries_ids ++ concat outputs_ids in
  Ok (ids, constraints).

(** The declarations and the constraint that
    [cp_twoterms_xor_differential_probability] emits:
    [array[0..hi] of var 0..1: Shi_x = LShift(x,1);],
    [array[0..hi] of var 0..1: eq_out = Eq(Shi_inp1, Shi_inp2, Shi_out);]
    and the constraint that ties the three words, their shifts and [eq_out]
    to the probability slot [p[c] = bound - 100 * sum(eq_out)]. *)
Inductive xdp_declaration : Type :=
| ShiftDecl (hi : Z) (x : string)
| EqDecl (hi : Z) (out inp1 inp2 : string).

Record xdp_constraint : Type := {
  xdp_hi : Z;
  xdp_inp1 : string;
  xdp_inp2 : string;
  xdp_out : string;
  xdp_slot : Z;
  xdp_bound : Z
}.

(** [model.modadd_twoterms_mant] is the last argument and the last
    component of the result. *)
Definition cp_twoterms_xor_differential_probability
  (inp1 inp2 out : string) (inplen : Z)
  (cp_constraints : list xdp_constraint)
  (cp_declarations : list xdp_declaration)
  (c : Z) (modadd_twoterms_mant : list string)
  : list xdp_declaration * list xdp_constraint * list string :=
  let shift (x : string) (st : list xdp_declaration * list string) :=
    if negb (existsb (String.eqb x) (snd st))
    then (fst st ++ [ShiftDecl (inplen - 1) x], snd st ++ [x])
    else st in
  let st := shift inp1 (cp_declarations, modadd_twoterms_mant) in
  let st := shift inp2 st in
  let st := shift out st in
  let cp_declarations := fst st ++ [EqDecl (inplen - 1) out inp1 inp2] in
  let cp_constraints :=
    cp_constraints
    ++ [{| xdp_hi := inplen - 1; xdp_inp1 := inp1; xdp_inp2 := inp2;
           xdp_out := out; xdp_slot := c; xdp_bound := 100 * inplen |}] in
  (cp_declarations, cp_constraints, snd st).

End Methods.

End Modadd.

(** ** The MODSUB component: modsub_component.py *)

Module Modsub.

(** The constraints of the CP model of MODSUB: equations between array
    elements, and calls [constraint modadd(a, b, c);] of the predicate
    [modadd] of the CP model. *)
Inductive cp_constraint : Type :=
| Equation (c : Cp.constraint)
| ModaddCall (a b c : string).

Definition cp_twoterms (input_1 input_2 out component_name : string)
  (input_length : nat)
  (cp_constraints : list cp_constraint) (cp_declarations : list Cp.declaration)
  : list Cp.declaration * list cp_constraint :=
  let last := Z.of_nat input_length - 1 in
  let cp_declarations :=
    cp_declarations ++ [Cp.Array01 0 last ("pre_minus_" +s input_2)] in
  let cp_declarations :=
    cp_declarations ++ [Cp.Array01 0 last ("minus_" +s input_2)] in
  let cp_constraints :=
    cp_constraints
    ++ map (fun n =>
              let i := Z.of_nat n in
              Equation
                (Cp.Eq (Cp.Elem ("pre_minus_" +s input_2) i)
                   (Cp.Mod2 (Cp.Add (Cp.Elem input_2 i) (Cp.Lit 1)))))
         (Py.range 0 input_length) in
  let cp_constraints :=
    cp_constraints
    ++ [ModaddCall ("pre_minus_" +s input_2) ("constant_" +s component_name)
          ("minus_" +s input_2)] in
  let cp_constraints :=
    cp_constraints ++ [ModaddCall input_1 ("minus_" +s input_2) out] in
  (cp_declarations, cp_constraints).

Definition two_complement_sat_constraints
  (twocomp_result_ids input_ids : list string)
  : result (list string * list Sat.clause) :=
  let twocomp_carry_ids :=
    map (fun input_id => "twocomp_carry_" +s input_id)
      (Py.but_last input_ids) in
  (* carries 2 complement *)
  let constraints :=
    flat_map
      (fun t =>
         match t with
         | (carry_id, input_id, previous_carry_id) =>
             Sat.cnf_carry_comp2 carry_id input_id previous_carry_id
         end)
      (Py.zip3 twocomp_carry_ids (Py.slice_from input_ids 1)
         (Py.slice_from twocomp_carry_ids 1)) in
  carry_last <- Py.getitem twocomp_carry_ids (-1) ;;
  input_last <- Py.getitem input_ids (-1) ;;
  let constraints := constraints ++ Sat.cnf_inequality carry_last input_last in
  (* results 2 complement *)
  let constraints :=
    constraints
    ++ flat_map
         (fun t =>
            match t with
            | (result_id, input_id, carry_id) =>
                Sat.cnf_result_comp2 result_id input_id carry_id
            end)
         (Py.zip3 twocomp_result_ids input_ids twocomp_carry_ids) in
  result_last <- Py.getitem twocomp_result_ids (-1) ;;
  input_last <- Py.getitem input_ids (-1) ;;
  let constraints :=
    constraints ++ Sat.cnf_equivalent [result_last; input_last] in
  Ok (twocomp_carry_ids, constraints).

Definition temp (output_id_link : string) (i : Z) : string :=
  "temp_" +s output_id_link +s "_" +s Py.str i.

Definition cp_constraints (c : component)
  : result (list Cp.declaration * list cp_constraint) :=
  let output_size := output_bit_size c in
  let input_id_link := input_id_links c in
  let numb_of_inp := length input_id_link in
  let output_id_link := id c in
  let input_bit_positions := input_bit_positions c in
  let num_add := description_1 c in
  let pre := Modadd.pre output_id_link in
  all_inputs <-
    foldM
      (fun all_inputs i =>
         positions <- Py.getitem input_bit_positions (Z.of_nat i) ;;
         more <- mapM
                   (fun j =>
                      link <- Py.getitem input_id_link (Z.of_nat i) ;;
                      positions <- Py.getitem input_bit_positions
                                     (Z.of_nat i) ;;
                      position <- Py.getitem positions (Z.of_nat j) ;;
                      Ok (Cp.Elem link (Z.of_nat position)))
                   (Py.range 0 (length positions)) ;;
         Ok (all_inputs ++ more))
      (Py.range 0 numb_of_inp) [] ;;
  let total_input_len := length all_inputs in
  input_len <- Py.floordiv total_input_len num_add ;;
  let cp_declarations :=
    [Cp.Array01Init 0 (Z.of_nat output_size - 1)
       ("constant_" +s output_id_link)
       (repeat 0 (output_size - 1) ++ [1]);
     Cp.Array01 0 (Z.of_nat output_size - 1) output_id_link] in
  st <- foldM
          (fun st i =>
             let cp_declarations :=
               fst st ++ [Cp.Array01 0 (Z.of_nat input_len - 1)
                            (pre (Z.of_nat i))] in
             more <- mapM
                       (fun j =>
                          source <- Py.getitem all_inputs
                                      (Z.of_nat (i * input_len + j)) ;;
                          Ok (Equation
                                (Cp.Eq (Cp.Elem (pre (Z.of_nat i)) (Z.of_nat j))
                                   source)))
                       (Py.range 0 input_len) ;;
             Ok (cp_declarations, snd st ++ more))
          (Py.range 0 num_add) (cp_declarations, []) ;;
  let cp_declarations :=
    fst st
    ++ map (fun i => Cp.Array01 0 (Z.of_nat output_size - 1)
                       (temp output_id_link (Z.of_nat i)))
         (Py.range 0 (num_add - 2)) in
  let cp_constraints := snd st in
  if (num_add =? 2)%nat then
    Ok (cp_twoterms (pre 0) (pre 1) output_id_link output_id_link output_size
          cp_constraints cp_declarations)
  else if (2 <? num_add)%nat then
    let st :=
      cp_twoterms (pre 0) (pre 1) (temp output_id_link 0) output_id_link
        output_size cp_constraints cp_declarations in
    Ok (fold_left
          (fun st n =>
             let i := Z.of_nat n in
             let st :=
               cp_twoterms (pre (i + 1)) (temp output_id_link (i - 1))
                 (temp output_id_link i) output_id_link output_size
                 (snd st) (fst st) in
             cp_twoterms (pre (Z.of_nat num_add - 1))
               (temp output_id_link (Z.of_nat num_add - 3))
               output_id_link output_id_link output_size (snd st) (fst st))
          (Py.range 1 (num_add - 2)) st)
  else Ok (cp_declarations, cp_constraints).

Section Methods.

Variable bit_id : string -> nat -> string.

Definition cms_constraints (c : component)
  : result (list string * list Cms.constraint) :=
  let input_ids := snd (generate_input_ids bit_id c) in
  let output_len := fst (generate_output_ids bit_id c) in
  let output_ids := snd (generate_output_ids bit_id c) in
  let input1_ids := Py.slice_from input_ids output_len in
  let twocomp_result_ids :=
    map (fun input_id => "twocomp_result_" +s input_id) input1_ids in
  tc <- two_complement_sat_constraints twocomp_result_ids input1_ids ;;
  let twocomp_carry_ids := fst tc in
  let constraints := map Cms.Clause (snd tc) in
  let carry_ids :=
    map (fun output_id => "carry_" +s output_id) (Py.but_last output_ids) in
  more <- Modadd.cms_modadd output_ids (Py.slice_to input_ids output_len)
            twocomp_result_ids carry_ids ;;
  Ok (twocomp_carry_ids ++ twocomp_result_ids ++ carry_ids ++ output_ids,
      constraints ++ more).

Definition sat_constraints (c : component)
  : result (list string * list Sat.clause) :=
  let input_ids := snd (generate_input_ids bit_id c) in
  let output_len := fst (generate_output_ids bit_id c) in
  let output_ids := snd (generate_output_ids bit_id c) in
  let input1_ids := Py.slice_from input_ids output_len in
  let twocomp_result_ids :=
    map (fun input_id => "twocomp_result_" +s input_id) input1_ids in
  tc <- two_complement_sat_constraints twocomp_result_ids input1_ids ;;
  let twocomp_carry_ids := fst tc in
  let constraints := snd tc in
  let carry_ids :=
    map (fun output_id => "carry_" +s output_id) (Py.but_last output_ids) in
  let intermediate_ids :=
    map (fun output_id => "intermediate_" +s output_id) output_ids in
  more <- Modadd.sat_modadd output_ids (Py.slice_to input_ids output_len)
            twocomp_result_ids carry_ids intermediate_ids ;;
  Ok (twocomp_carry_ids ++ twocomp_result_ids ++ carry_ids
      ++ intermediate_ids ++ output_ids,
      constraints ++ more).

Definition smt_constraints (c : component)
  : result (list string * list Smt.term) :=
  let input_ids := snd (generate_input_ids bit_id c) in
  let output_len := fst (generate_output_ids bit_id c) in
  let output_ids := snd (generate_output_ids bit_id c) in
  let input1_ids := Py.slice_from input_ids output_len in
  let twocomp_carry_ids :=
    map (fun input_id => "twocomp_carry_" +s input_id)
      (Py.but_last input1_ids) in
  let twocomp_result_ids :=
    map (fun input_id => "twocomp_result_" +s input_id) input1_ids in
  let carry_ids :=
    map (fun output_id => "carry_" +s output_id) (Py.but_last output_ids) in
  (* carries 2 complement *)
  let constraints :=
    map
      (fun t =>
         match t with
         | (carry_id, input_id, previous_carry_id) =>
             let operation :=
               Smt.smt_and [Smt.smt_not (Smt.Var input_id);
                            Smt.Var previous_carry_id] in
             let equation :=
               Smt.smt_equivalent (Smt.Var carry_id) operation in
             Smt.smt_assert equation
         end)
      (Py.zip3 twocomp_carry_ids (Py.slice_from input1_ids 1)
         (Py.slice_from twocomp_carry_ids 1)) in
  carry_last <- Py.getitem twocomp_carry_ids (-1) ;;
  input_last <- Py.getitem input1_ids (-1) ;;
  let distinction := Smt.smt_distinct carry_last input_last in
  let constraints := constraints ++ [Smt.smt_assert distinction] in
  (* results 2 complement *)
  let constraints :=
    constraints
    ++ map
         (fun t =>
            match t with
            | (result_id, input_id, carry_id) =>
                let operation :=
                  Smt.smt_xor [Smt.smt_not (Smt.Var input_id);
                               Smt.Var carry_id] in
                let equation :=
                  Smt.smt_equivalent (Smt.Var result_id) operation in
                Smt.smt_assert equation
            end)
         (Py.zip3 twocomp_result_ids input1_ids twocomp_carry_ids) in
  result_last <- Py.getitem twocomp_result_ids (-1) ;;
  input_last <- Py.getitem input1_ids (-1) ;;
  let equation :=
    Smt.smt_equivalent (Smt.Var result_last) (Smt.Var input_last) in
  let constraints := constraints ++ [Smt.smt_assert equation] in
  (* final modadd *)
  more <- Modadd.smt_modadd output_ids (Py.slice_to input_ids output_len)
            twocomp_result_ids carry_ids ;;
  let ids := twocomp_carry_ids ++ twocomp_result_ids ++ carry_ids
             ++ output_ids in
  Ok (ids, constraints ++ more).

End Methods.

End Modsub.

(** ** The OR component: or_component.py *)

Module Or.

(** [or_LAT] of [generic_sign_linear_constraints]. *)
Definition or_LAT : list (list (list Z)) :=
  [[[1; -1]; [0; 1]]; [[0; 1]; [0; 1]]].

Definition generic_sign_linear_constraints (c : component)
  (inputs outputs : list Z) : result Z :=
  let input_size := input_bit_size c in
  let output_size := output_bit_size c in
  foldM (fun sign i =>
           a <- Py.getitem inputs (Z.of_nat i) ;;
           plane <- Py.getitem or_LAT a ;;
           b <- Py.getitem inputs (Z.of_nat (input_size / 2 + i)) ;;
           row <- Py.getitem plane b ;;
           o <- Py.getitem outputs (Z.of_nat i) ;;
           entry <- Py.getitem row o ;;
           Ok (sign * entry))
        (Py.range 0 output_size) 1.

(** The sign as the spec words it: the product, over the output bit
    positions, of the entries of the fixed 2x2x2 table indexed by
    (left input bit, right input bit, output bit). *)
Definition table_entry (a b o : Z) : Z :=
  match a, b, o with
  | 0, 0, 0 => 1
  | 0, 0, 1 => -1
  | 0, 1, 0 => 0
  | 0, 1, 1 => 1
  | 1, 0, 0 => 0
  | 1, 0, 1 => 1
  | 1, 1, 0 => 0
  | 1, 1, 1 => 1
  | _, _, _ => 0
  end.

Definition sign_product (left right out : list Z) : Z :=
  fold_right Z.mul 1
    (map (fun t => match t with (a, b, o) => table_entry a b o end)
       (Py.zip3 left right out)).


Definition or_polynomial (x0 x1 : Poly.poly) : Poly.poly :=
  Poly.Add (Poly.Add (Poly.Mul x0 x1) x0) x1.

Definition algebraic_polynomials (c : component) (model : algebraic_model)
  : result (list Poly.poly) :=
  let ninputs := input_bit_size c in
  let noutputs := output_bit_size c in
  let word_size := noutputs in
  let input_vars :=
    map (fun i => id c +s "_" +s input_postfix model +s Py.str (Z.of_nat i))
      (Py.range 0 ninputs) in
  let output_vars :=
    map (fun i => id c +s "_" +s output_postfix model +s Py.str (Z.of_nat i))
      (Py.range 0 noutputs) in
  starts <- Py.range_step ninputs word_size ;;
  let words_vars :=
    map (fun i => Py.slice (map Poly.Var input_vars) i (i + word_size))
      starts in
  let x := map (fun _ => Poly.Const true) (Py.range 0 noutputs) in
  x <- foldM
         (fun x word_vars =>
            foldM
              (fun x i =>
                 xi <- Py.getitem x (Z.of_nat i) ;;
                 wi <- Py.getitem word_vars (Z.of_nat i) ;;
                 Py.setitem x i (or_polynomial xi wi))
              (Py.range 0 noutputs) x)
         words_vars x ;;
  let y := map Poly.Var output_vars in
  mapM (fun i =>
          yi <- Py.getitem y (Z.of_nat i) ;;
          xi <- Py.getitem x (Z.of_nat i) ;;
          Ok (Poly.Add yi xi))
    (Py.range 0 noutputs).

Section Methods.

Variable bit_id : string -> nat -> string.

(** [sat.utils.utils.cnf_or_seq] is not under src/; it receives what the
    caller computes, which may be a list of names or a single string. *)
Variable cnf_or_seq : Py.value -> list string -> list Sat.clause.

Definition sat_constraints (c : component)
  : result (list string * list Sat.clause) :=
  let input_bit_ids := snd (generate_input_ids bit_id c) in
  let output_bit_len := fst (generate_output_ids bit_id c) in
  let output_bit_ids := snd (generate_output_ids bit_id c) in
  let number_of_intermediates := (description_1 c - 2)%nat in
  constraints <-
    foldM
      (fun constraints i =>
         intermediate_ids <-
           mapM (fun j =>
                   output_bit_id <- Py.getitem output_bit_ids (Z.of_nat i) ;;
                   Ok ("int_" +s Py.str03 j +s "_" +s output_bit_id))
             (Py.range 0 number_of_intermediates) ;;
         output_bit_id <- Py.getitem output_bit_ids (Z.of_nat i) ;;
         results <- Py.add (Py.VList intermediate_ids)
                      (Py.VStr output_bit_id) ;;
         let operands := Py.slice_step input_bit_ids i output_bit_len in
         Ok (constraints ++ cnf_or_seq results operands))
      (Py.range 0 output_bit_len) [] ;;
  Ok (output_bit_ids, constraints).

Definition smt_constraints (c : component)
  : result (list string * list Smt.term) :=
  let input_bit_ids := snd (generate_input_ids bit_id c) in
  let output_bit_len := fst (generate_output_ids bit_id c) in
  let output_bit_ids := snd (generate_output_ids bit_id c) in
  constraints <-
    foldM
      (fun constraints i =>
         let operation :=
           Smt.smt_or
             (map Smt.Var (Py.slice_step input_bit_ids i output_bit_len)) in
         output_bit_id <- Py.getitem output_bit_ids (Z.of_nat i) ;;
         let equation :=
           Smt.smt_equivalent (Smt.Var output_bit_id) operation in
         Ok (constraints ++ [Smt.smt_assert equation]))
      (Py.range 0 output_bit_len) [] ;;
  Ok (output_bit_ids, constraints).

(** The constraints of the CP model of OR: equations between array
    elements, and calls [constraint or(a, b, c);] of the predicate [or] of
    the CP model. *)
Inductive cp_constraint : Type :=
| Equation (c : Cp.constraint)
| OrCall (a b c : string).

Definition temp (output_id_link : string) (i : Z) : string :=
  "temp_" +s output_id_link +s "_" +s Py.str i.

Definition cp_constraints (c : component)
  : result (list Cp.declaration * list cp_constraint) :=
  let output_size := output_bit_size c in
  let input_id_link := input_id_links c in
  let numb_of_inp := length input_id_link in
  let output_id_link := id c in
  let input_bit_positions := input_bit_positions c in
  let pre := Modadd.pre output_id_link in
  let num_add := description_1 c in
  all_inputs <-
    foldM
      (fun all_inputs i =>
         positions <- Py.getitem input_bit_positions (Z.of_nat i) ;;
         more <- mapM
                   (fun j =>
                      link <- Py.getitem input_id_link (Z.of_nat i) ;;
                      positions <- Py.getitem input_bit_positions
                                     (Z.of_nat i) ;;
                      position <- Py.getitem positions (Z.of_nat j) ;;
                      Ok (Cp.Elem link (Z.of_nat position)))
                   (Py.range 0 (length positions)) ;;
         Ok (all_inputs ++ more))
      (Py.range 0 numb_of_inp) [] ;;
  let total_input_len := length all_inputs in
  input_len <- Py.floordiv total_input_len num_add ;;
  let cp_declarations :=
    [Cp.Array01 0 (Z.of_nat output_size - 1) output_id_link] in
  st <- foldM
          (fun st i =>
             let cp_declarations :=
               fst st ++ [Cp.Array01 0 (Z.of_nat input_len - 1)
                            (pre (Z.of_nat i))] in
             more <- mapM
                       (fun j =>
                          source <- Py.getitem all_inputs
                                      (Z.of_nat (i * input_len + j)) ;;
                          Ok (Equation
                                (Cp.Eq (Cp.Elem (pre (Z.of_nat i)) (Z.of_nat j))
                                   source)))
                       (Py.range 0 input_len) ;;
             Ok (cp_declarations, snd st ++ more))
          (Py.range 0 num_add) (cp_declarations, []) ;;
  let cp_declarations :=
    fst st
    ++ map (fun i => Cp.Array01 0 (Z.of_nat output_size - 1)
                       (temp output_id_link (Z.of_nat i)))
         (Py.range 0 (num_add - 2)) in
  let cp_constraints := snd st in
  if (num_add =? 2)%nat then
    Ok (cp_declarations,
        cp_constraints ++ [OrCall (pre 0) (pre 1) output_id_link])
  else if (2 <? num_add)%nat then
    let cp_constraints :=
      cp_constraints ++ [OrCall (pre 0) (pre 1) (temp output_id_link 0)] in
    let cp_constraints :=
      cp_constraints
      ++ map (fun n =>
                let i := Z.of_nat n in
                OrCall (pre (i + 1)) (temp output_id_link (i - 1))
                  (temp output_id_link i))
           (Py.range 1 (num_add - 2)) in
    Ok (cp_declarations,
        cp_constraints
        ++ [OrCall (pre (Z.of_nat num_add - 1))
              (temp output_id_link (Z.of_nat num_add - 3)) output_id_link])
  else Ok (cp_declarations, cp_constraints).

(** The declarations and constraints of the CP model of the linear mask
    propagation: [array[lo..hi] of var int: name;],
    [array[lo..hi] of var 0..1:name;], a table constraint over cells
    [name[index]] joined by [++], and [constraint p[slot] = sum(name);]. *)
Inductive lin_declaration : Type :=
| ArrayInt (lo hi : Z) (name : string)
| ArrayBit (lo hi : Z) (name : string).

Inductive lin_constraint : Type :=
| Table (cells : list (string * Z)) (lat : string)
| ProbSum (slot : Z) (name : string).

(** The attributes of the CP model the encoder reads and writes: the
    counter [model.c] and the dictionary [model.component_and_probability]. *)
Record lin_model : Type := {
  model_c : Z;
  component_and_probability : string -> option Z
}.

Definition dict_set (d : string -> option Z) (key : string) (v : Z)
  : string -> option Z :=
  fun key' => if String.eqb key' key then Some v else d key'.

(** The model is written only after the division, so an exception leaves
    it as it was. *)
Definition cp_xor_linear_mask_propagation_constraints (c : component)
  (model : lin_model)
  : result (list lin_declaration * list lin_constraint * lin_model) :=
  let input_size := input_bit_size c in
  let output_size := output_bit_size c in
  let output_id_link := id c in
  let num_add := description_1 c in
  input_len <- Py.floordiv input_size num_add ;;
  let cp_declarations :=
    [ArrayInt 0 (Z.of_nat output_size - 1) ("p_" +s output_id_link);
     ArrayBit 0 (Z.of_nat input_size - 1) (output_id_link +s "_i");
     ArrayBit 0 (Z.of_nat output_size - 1) (output_id_link +s "_o")] in
  let model :=
    {| model_c := model_c model;
       component_and_probability :=
         dict_set (component_and_probability model) output_id_link 0 |} in
  let p_count := 0 in
  let st :=
    fold_left
      (fun (st : list lin_constraint * Z) i =>
         let p_count := snd st in
         let cells :=
           map (fun j => (output_id_link +s "_i",
                           Z.of_nat (i + input_len * j)))
             (Py.range 0 num_add) in
         let cells :=
           cells ++ [(output_id_link +s "_o", Z.of_nat i);
                     ("p_" +s output_id_link, p_count)] in
         (fst st
          ++ [Table cells
                ("and" +s Py.str (Z.of_nat num_add) +s "inputs_LAT")],
          p_count + 1))
      (Py.range 0 output_size) ([], p_count) in
  let cp_constraints :=
    fst st ++ [ProbSum (model_c model) ("p_" +s output_id_link)] in
  let model :=
    {| model_c := model_c model;
       component_and_probability :=
         dict_set (component_and_probability model) output_id_link
           (model_c model) |} in
  let model :=
    {| model_c := model_c model + 1;
       component_and_probability := component_and_probability model |} in
  Ok (cp_declarations, cp_constraints, model).

End Methods.

End Or.

Definition is_bit (z : Z) : Prop := z = 0 \/ z = 1.

(** ** Ripple-carry addition on words *)

(** Words with index 0 most significant.  [carry_out x y] is the carry out
    of the addition of [x] and [y]; [carries x y] lists, for every position
    but the last, the carry that enters it; [sum_bits x y] is the sum. *)
Fixpoint carry_out (x y : list bool) : bool :=
  match x, y with
  | a :: x', b :: y' => maj a b (carry_out x' y')
  | _, _ => false
  end.

Fixpoint carries (x y : list bool) : list bool :=
  match x, y with
  | _ :: ((_ :: _) as x'), _ :: y' => carry_out x' y' :: carries x' y'
  | _, _ => []
  end.

Fixpoint sum_bits (x y : list bool) : list bool :=
  match x, y with
  | a :: x', b :: y' => xor3 a b (carry_out x' y') :: sum_bits x' y'
  | _, _ => []
  end.

(** Words with index 0 least significant: the carries entering each
    position and the sum, from the carry [c] that enters position 0. *)
Fixpoint carries_lsb (c : bool) (x y : list bool) : list bool :=
  match x, y with
  | a :: x', b :: y' => c :: carries_lsb (maj a b c) x' y'
  | _, _ => []
  end.

Fixpoint sum_lsb (c : bool) (x y : list bool) : list bool :=
  match x, y with
  | a :: x', b :: y' => xor3 a b c :: sum_lsb (maj a b c) x' y'
  | _, _ => []
  end.

Fixpoint carry_out_lsb (c : bool) (x y : list bool) : bool :=
  match x, y with
  | a :: x', b :: y' => carry_out_lsb (maj a b c) x' y'
  | _, _ => c
  end.

(** The [i]-th operand among the input ids of a component of width [w], and
    the sum of the values of the [k] operands under an assignment. *)
Definition operand {A : Type} (input_ids : list A) (w i : nat) : list A :=
  Py.slice input_ids (i * w) ((i + 1) * w).

Definition sum_list (zs : list Z) : Z := fold_right Z.add 0 zs.

Definition sum_operands {A : Type} (value : list A -> Z) (input_ids : list A)
  (w k : nat) : Z :=
  sum_list (map (fun i => value (operand input_ids w i)) (seq 0 k)).

(** A component with [k] operands of [w] bits: every input source has its
    list of positions and the selected bits are [k * w]. *)
Definition well_formed (c : component) (k w : nat) : Prop :=
  description_1 c = k
  /\ output_bit_size c = w
  /\ length (input_id_links c) = length (input_bit_positions c)
  /\ input_bit_size c = (k * w)%nat.

(** ** The relations of one carry chain *)

Section Chain.

Variable rho : assignment.

Definition last_id (l : list string) : string := last l EmptyString.

Definition carry_rel (t : string * string * string * string) : Prop :=
  match t with
  | (c, a, b, p) => rho c = maj (rho a) (rho b) (rho p)
  end.

Definition result_rel (t : string * string * string * string) : Prop :=
  match t with
  | (o, a, b, c) => rho o = xor3 (rho a) (rho b) (rho c)
  end.

Definition intermediate_rel
  (t : string * string * string * string * string) : Prop :=
  match t with
  | (o, a, b, c, m) => rho m = xorb (rho a) (rho b) /\ rho o = xorb (rho m) (rho c)
  end.

(** The relations among the variables of one 2-operand addition, in the
    order the encoders emit them. *)
Definition chain (out x y carry : list string) : Prop :=
  Forall carry_rel
    (Py.zip4 carry (Py.slice_from x 1) (Py.slice_from y 1)
       (Py.slice_from carry 1))
  /\ rho (last_id carry) = rho (last_id x) && rho (last_id y)
  /\ Forall result_rel (Py.zip4 out x y carry)
  /\ rho (last_id out) = xorb (rho (last_id x)) (rho (last_id y)).

Definition sat_chain (out x y carry intermediate : list string) : Prop :=
  Forall carry_rel
    (Py.zip4 carry (Py.slice_from x 1) (Py.slice_from y 1)
       (Py.slice_from carry 1))
  /\ rho (last_id carry) = rho (last_id x) && rho (last_id y)
  /\ Forall intermediate_rel (Py.zip5 out x y carry intermediate)
  /\ rho (last_id out) = xorb (rho (last_id x)) (rho (last_id y)).

Definition bit (l : list string) (i : nat) : bool := rho (nth i l EmptyString).

(** The same relations by index, for words of [w] bits: [carry] has the
    indices [0 .. w-2]. *)
Definition chain_by_index (w : nat) (out x y carry : list string) : Prop :=
  (forall i, (i + 2 < w)%nat ->
     bit carry i = maj (bit x (i + 1)) (bit y (i + 1)) (bit carry (i + 1)))
  /\ bit carry (w - 2) = bit x (w - 1) && bit y (w - 1)
  /\ (forall i, (i + 1 < w)%nat ->
        bit out i = xor3 (bit x i) (bit y i) (bit carry i))
  /\ bit out (w - 1) = xorb (bit x (w - 1)) (bit y (w - 1)).

(** The relations as the spec words them, for carries [c 0 .. c (w-1)]:
    [c_{w-1} = AND(x_{w-1}, y_{w-1})], [c_i = MAJ(x_i, y_i, c_{i+1})] for
    [i] from [w-2] down to [0], every output bit with an incoming carry is
    [XOR(x_i, y_i, c_i)], and the last output bit is [XOR(x, y)]. *)
Definition spec_chain (w : nat) (c : nat -> bool) (out x y : list string)
  : Prop :=
  c (w - 1)%nat = bit x (w - 1) && bit y (w - 1)
  /\ (forall i, (i + 2 <= w)%nat ->
        c i = maj (bit x i) (bit y i) (c (i + 1)%nat))
  /\ (forall i, (i + 1 < w)%nat ->
        bit out i = xor3 (bit x i) (bit y i) (c i))
  /\ bit out (w - 1) = xorb (bit x (w - 1)) (bit y (w - 1)).

End Chain.

(** ** Words, values and assignments used in the statements *)

(** The list a computation returned, empty when it raised. *)
Definition unwrap {A : Type} (r : result (list A)) : list A :=
  match r with
  | Ok cs => cs
  | Err _ => []
  end.

(** The value of the word of the variables [ids], index 0 most
    significant. *)
Definition value_msb (rho : assignment) (ids : list string) : Z :=
  word_msb (map rho ids).

(** [maj] of [algebraic_polynomials], and the element [l[i]] of a list of
    polynomials. *)
Definition pmaj (xi yi zi : Poly.poly) : Poly.poly :=
  Poly.Add (Poly.Add (Poly.Mul xi yi) (Poly.Mul xi zi)) (Poly.Mul yi zi).

Definition pnth (l : list Poly.poly) (i : nat) : Poly.poly :=
  nth i l (Poly.Const false).

(** The polynomials of one addition [z = x + y] with carries [c]. *)
Definition stage_polys (w : nat) (x y z c : list Poly.poly) : list Poly.poly :=
  [Poly.Add (pnth c 0) (Poly.Const false);
   Poly.Add (Poly.Add (Poly.Add (pnth x 0) (pnth y 0)) (pnth z 0)) (pnth c 0)]
  ++ flat_map
       (fun i =>
          [Poly.Add (pnth c i)
             (pmaj (pnth x (i - 1)) (pnth y (i - 1)) (pnth c (i - 1)));
           Poly.Add (Poly.Add (Poly.Add (pnth x i) (pnth y i)) (pnth z i))
             (pnth c i)])
       (Py.range 1 w).

(** The relations of one addition on words with index 0 least significant:
    [cin] enters position 0. *)
Definition lsb_rel (w : nat) (cin : bool) (X Y Z C : list bool) : Prop :=
  nth 0 C false = cin
  /\ (forall i, (i < w)%nat ->
        nth i Z false = xor3 (nth i X false) (nth i Y false) (nth i C false))
  /\ (forall i, (S i < w)%nat ->
        nth (S i) C false
        = maj (nth i X false) (nth i Y false) (nth i C false)).

(** The lists of variables [algebraic_polynomials] builds, and the words
    [x], [y], [z] of its addition number [n]. *)
Definition alg_input_vars (c : component) (model : algebraic_model)
  : list Poly.poly :=
  map (fun i => Poly.Var (id c +s "_" +s input_postfix model
                          +s Py.str (Z.of_nat i)))
    (Py.range 0 (input_bit_size c)).

Definition alg_output_vars (c : component) (model : algebraic_model)
  : list Poly.poly :=
  map (fun i => Poly.Var (id c +s "_" +s output_postfix model
                          +s Py.str (Z.of_nat i)))
    (Py.range 0 (output_bit_size c)).

Definition alg_word (c : component) (tag : string) (n : nat)
  : list Poly.poly :=
  map (fun i => Poly.Var (id c +s tag +s Py.str (Z.of_nat n) +s "_"
                          +s Py.str (Z.of_nat i)))
    (Py.range 0 (output_bit_size c)).

Definition alg_left (c : component) (model : algebraic_model) (n : nat)
  : list Poly.poly :=
  match n with
  | O => Py.slice_to (alg_input_vars c model) (output_bit_size c)
  | S m => alg_word c "_o" m
  end.

Definition alg_right (c : component) (model : algebraic_model) (n : nat)
  : list Poly.poly :=
  Py.slice (alg_input_vars c model) ((n + 1) * output_bit_size c)
    ((n + 1) * output_bit_size c + output_bit_size c).

Definition alg_result (c : component) (model : algebraic_model) (n : nat)
  : list Poly.poly :=
  if (n =? description_1 c - 1 - 1)%nat then alg_output_vars c model
  else alg_word c "_o" n.

(** The names of the operand and output variables of the algebraic model,
    and the value of a word with index 0 least significant. *)
Definition alg_input_names (c : component) (model : algebraic_model)
  : list string :=
  map (fun i => id c +s "_" +s input_postfix model +s Py.str (Z.of_nat i))
    (Py.range 0 (input_bit_size c)).

Definition alg_output_names (c : component) (model : algebraic_model)
  : list string :=
  map (fun i => id c +s "_" +s output_postfix model +s Py.str (Z.of_nat i))
    (Py.range 0 (output_bit_size c)).

Definition value_lsb (rho : assignment) (ids : list string) : Z :=
  word_lsb (map rho ids).

Definition pvalue_lsb (rho : assignment) (ps : list Poly.poly) : Z :=
  word_lsb (map (Poly.eval rho) ps).

(** The bits and the value, index 0 most significant, of the first [w]
    elements of the array [a]; [bits01] says that they are 0 or 1. *)
Definition cp_bit (sigma : Cp.store) (a : string) (i : nat) : bool :=
  sigma a (Z.of_nat i) =? 1.

Definition cp_bits (sigma : Cp.store) (a : string) (w : nat) : list bool :=
  map (cp_bit sigma a) (seq 0 w).

Definition cp_value (sigma : Cp.store) (a : string) (w : nat) : Z :=
  word_msb (cp_bits sigma a w).

Definition bits01 (sigma : Cp.store) (a : string) (w : nat) : Prop :=
  forall i, (i < w)%nat ->
    sigma a (Z.of_nat i) = 0 \/ sigma a (Z.of_nat i) = 1.

(** [all_inputs] of [cp_constraints], the value of a word of such
    expressions, and the declaration and the equations of the array
    [pre_i]. *)
Definition cp_all_inputs (c : component) : list Cp.expr :=
  flat_map (fun lp =>
              map (fun position => Cp.Elem (fst lp) (Z.of_nat position))
                (snd lp))
    (combine (input_id_links c) (input_bit_positions c)).

Definition cp_word (sigma : Cp.store) (es : list Cp.expr) : Z :=
  word_msb (map (fun e => Cp.eval_expr sigma e =? 1) es).

Definition pre_declaration (c : component) (w : nat) (i : nat)
  : Cp.declaration :=
  Cp.Array01 0 (Z.of_nat w - 1) (Modadd.pre (id c) (Z.of_nat i)).

Definition pre_equations (c : component) (w : nat) (i : nat)
  : list Cp.constraint :=
  map (fun j =>
         Cp.Eq (Cp.Elem (Modadd.pre (id c) (Z.of_nat i)) (Z.of_nat j))
           (nth (i * w + j) (cp_all_inputs c) (Cp.Lit 0)))
    (seq 0 w).

(** The intermediate variable [m] is the XOR of the bits [a] and [b]. *)
Definition mid_rel (rho : assignment)
  (t : string * string * string * string) : Prop :=
  match t with
  | (a, b, _, m) => rho m = xorb (rho a) (rho b)
  end.

(** A small instance: the words [x = y = 10] of two bits, with the sum
    [00] and the carry [0]. *)
Section TwoBitWords.
Local Open Scope string_scope.
Definition two_out : list string := ["o0"; "o1"].
Definition two_x : list string := ["x0"; "x1"].
Definition two_y : list string := ["y0"; "y1"].
Definition two_carry : list string := ["c0"].
Definition two_mid : list string := ["m0"; "m1"].
Definition rho_two_two : assignment :=
  fun v => String.eqb v "x0" || String.eqb v "y0".
End TwoBitWords.

(** A 2-operand OR component of two bits. *)
Section OrExample.
Local Open Scope string_scope.
Definition or_two : component :=
  {| id := "or_31_14";
     input_id_links := ["xor_0_7"; "key"];
     input_bit_positions := [[0; 1]; [12; 13]]%nat;
     output_bit_size := 2;
     description_1 := 2 |}.
End OrExample.

(** A 2-operand component of one bit. *)
Section OneBit.
Local Open Scope string_scope.
Definition one_bit : component :=
  {| id := "modadd_0_1";
     input_id_links := ["rot_0_0"; "plaintext"];
     input_bit_positions := [[0]; [1]]%nat;
     output_bit_size := 1;
     description_1 := 2 |}.
End OneBit.

(** A 3-operand OR component of one bit. *)
Section OrThree.
Local Open Scope string_scope.
Definition or_three : component :=
  {| id := "or_0_4";
     input_id_links := ["xor_0_3"; "xor_0_1"; "key"];
     input_bit_positions := [[0]; [0]; [0]]%nat;
     output_bit_size := 1;
     description_1 := 3 |}.
End OrThree.

(** Every polynomial of [x] evaluates to 1. *)
Definition all_one (rho : assignment) (x : list Poly.poly) : Prop :=
  Forall (fun p => Poly.eval rho p = true) x.

(** The expression [e] reads the array [name]. *)
Fixpoint expr_mentions (name : string) (e : Cp.expr) : bool :=
  match e with
  | Cp.Elem a _ => String.eqb a name
  | Cp.Lit _ => false
  | Cp.Add e1 e2 | Cp.Mul e1 e2 => expr_mentions name e1 || expr_mentions name e2
  | Cp.Mod2 e => expr_mentions name e
  end.

(** A constraint of the CP model of MODSUB mentions the array [name]. *)
Definition cp_mentions (name : string) (c : Modsub.cp_constraint) : bool :=
  match c with
  | Modsub.Equation (Cp.Eq lhs rhs) =>
      expr_mentions name lhs || expr_mentions name rhs
  | Modsub.ModaddCall a b r =>
      String.eqb a name || String.eqb b name || String.eqb r name
  end.

(** The calls of [modadd] among the constraints, as (left, right, result). *)
Definition modadd_calls (cs : list Modsub.cp_constraint)
  : list (string * string * string) :=
  flat_map (fun c =>
              match c with
              | Modsub.ModaddCall a b r => [(a, b, r)]
              | Modsub.Equation _ => []
              end) cs.

Section ThreeOperands.
Local Open Scope string_scope.

(** A 3-operand MODSUB component of two bits. *)
Definition modsub_three : component :=
  {| id := "modsub_0_7";
     input_id_links := ["a"; "b"; "c"];
     input_bit_positions := [[0; 1]; [0; 1]; [0; 1]]%nat;
     output_bit_size := 2;
     description_1 := 3 |}.

Definition modsub_three_calls : list (string * string * string) :=
  [("pre_minus_pre_modsub_0_7_1", "constant_modsub_0_7",
    "minus_pre_modsub_0_7_1");
   ("pre_modsub_0_7_0", "minus_pre_modsub_0_7_1", "temp_modsub_0_7_0")].

(** A 4-operand MODADD component of two bits, and a store in which the
    second operand is 1 and every other operand is 0. *)
Definition modadd_four : component :=
  {| id := "modadd_0_0";
     input_id_links := ["a"; "b"; "c"; "d"];
     input_bit_positions := [[0; 1]; [0; 1]; [0; 1]; [0; 1]]%nat;
     output_bit_size := 2;
     description_1 := 4 |}.

Definition sigma_four : Cp.store :=
  fun name i =>
    if ((i =? 1)%Z
        && (String.eqb name "b" || String.eqb name "pre_modadd_0_0_1"
            || String.eqb name "pre_modadd_0_0_4"))%bool
    then 1%Z else 0%Z.

End ThreeOperands.

Section SharedWiring.
Local Open Scope string_scope.

(** Two MODSUB components of two bits that subtract the same word [y]. *)
Definition modsub_left : component :=
  {| id := "modsub_0_7";
     input_id_links := ["x"; "y"];
     input_bit_positions := [[0; 1]; [0; 1]]%nat;
     output_bit_size := 2;
     description_1 := 2 |}.

Definition modsub_right : component :=
  {| id := "modsub_1_7";
     input_id_links := ["z"; "y"];
     input_bit_positions := [[0; 1]; [0; 1]]%nat;
     output_bit_size := 2;
     description_1 := 2 |}.

Definition shared_name : string := "twocomp_carry_y_000".

(** A MODSUB component that subtracts the word [y[1], y[2]], which overlaps
    the word [y[0], y[1]] that [modsub_left] subtracts. *)
Definition modsub_shifted : component :=
  {| id := "modsub_1_7";
     input_id_links := ["z"; "y"];
     input_bit_positions := [[0; 1]; [1; 2]]%nat;
     output_bit_size := 2;
     description_1 := 2 |}.

Definition shared_result : string := "twocomp_result_y_001".

Definition free_input : string := "y_002".

(** Two assignments in which [y_002] is 1: [x - y[0..1]] is [00 - 00 = 00],
    and [z - y[1..2]] is [00 - 01 = 11]. *)
Definition rho_left : assignment :=
  fun v => String.eqb v "y_002" || String.eqb v "twocomp_carry_y_000".

Definition rho_shifted : assignment :=
  fun v =>
    String.eqb v "y_002" || String.eqb v "twocomp_result_y_001"
    || String.eqb v "twocomp_result_y_002"
    || String.eqb v "intermediate_modsub_1_7_000"
    || String.eqb v "modsub_1_7_000" || String.eqb v "modsub_1_7_001".

End SharedWiring.

(** Words with index 0 most significant.  [tc_carry_out b] is the carry out
    of [~b + 1]; [tc_carries b] lists, for every position but the last, the
    carry that enters it; [tc_bits b] is the word [~b + 1]. *)
Fixpoint tc_carry_out (b : list bool) : bool :=
  match b with
  | a :: b' => negb a && tc_carry_out b'
  | [] => true
  end.

Fixpoint tc_carries (b : list bool) : list bool :=
  match b with
  | _ :: ((_ :: _) as b') => tc_carry_out b' :: tc_carries b'
  | _ => []
  end.

Fixpoint tc_bits (b : list bool) : list bool :=
  match b with
  | a :: b' => xorb (negb a) (tc_carry_out b') :: tc_bits b'
  | [] => []
  end.

Section TcChain.

Variable rho : assignment.

Definition tc_carry_rel (t : string * string * string) : Prop :=
  match t with
  | (c, a, p) => rho c = negb (rho a) && rho p
  end.

Definition tc_result_rel (t : string * string * string) : Prop :=
  match t with
  | (r, a, c) => rho r = xorb (negb (rho a)) (rho c)
  end.

(** The relations among the variables of the two's complement of [b],
    with result [r] and carries [t], in the order the encoders emit
    them. *)
Definition tc_chain (r b t : list string) : Prop :=
  Forall tc_carry_rel
    (Py.zip3 t (Py.slice_from b 1) (Py.slice_from t 1))
  /\ rho (last_id t) = negb (rho (last_id b))
  /\ Forall tc_result_rel (Py.zip3 r b t)
  /\ rho (last_id r) = rho (last_id b).

End TcChain.

(** The ids of a 2-operand MODSUB component. *)
Definition modsub_a (bit_id : string -> nat -> string) (c : component)
  : list string :=
  Py.slice_to (snd (generate_input_ids bit_id c))
    (fst (generate_output_ids bit_id c)).

Definition modsub_b (bit_id : string -> nat -> string) (c : component)
  : list string :=
  Py.slice_from (snd (generate_input_ids bit_id c))
    (fst (generate_output_ids bit_id c)).

Definition modsub_r (bit_id : string -> nat -> string) (c : component)
  : list string :=
  map (fun input_id => "twocomp_result_" +s input_id) (modsub_b bit_id c).

Definition modsub_t (bit_id : string -> nat -> string) (c : component)
  : list string :=
  map (fun input_id => "twocomp_carry_" +s input_id)
    (Py.but_last (modsub_b bit_id c)).

Definition modsub_carry (bit_id : string -> nat -> string) (c : component)
  : list string :=
  map (fun output_id => "carry_" +s output_id)
    (Py.but_last (snd (generate_output_ids bit_id c))).

Definition modsub_mid (bit_id : string -> nat -> string) (c : component)
  : list string :=
  map (fun output_id => "intermediate_" +s output_id)
    (snd (generate_output_ids bit_id c)).

(** What the constraints of MODSUB say, on words of [w] bits with index 0
    most significant: the auxiliary word [r] is the complement of [b] plus
    one, the output is [a - b], which is [a + r], and the two carry words
    are the carries of the two chains. *)
Definition modsub_rel (rho : assignment) (w : nat)
  (a b r t carry out : list string) : Prop :=
  value_msb rho r = (word_msb (map negb (map rho b)) + 1) mod 2 ^ Z.of_nat w
  /\ value_msb rho out
     = (value_msb rho a - value_msb rho b) mod 2 ^ Z.of_nat w
  /\ value_msb rho out
     = (value_msb rho a + value_msb rho r) mod 2 ^ Z.of_nat w
  /\ map rho t = tc_carries (map rho b)
  /\ map rho carry = carries (map rho a) (map rho r).

Section AddTwo.
Local Open Scope string_scope.

(** A 2-operand MODADD component of two bits and the algebraic model of
    the examples. *)
Definition add_two : component :=
  {| id := "modadd_1_9";
     input_id_links := ["x"; "y"];
     input_bit_positions := [[0; 1]; [0; 1]]%nat;
     output_bit_size := 2;
     description_1 := 2 |}.

Definition xy_model : algebraic_model :=
  {| input_postfix := "x"; output_postfix := "y" |}.

(** Both operands are the word [01] and the output is [00]. *)
Definition rho_low_bits : assignment :=
  fun v => String.eqb v "modadd_1_9_x1" || String.eqb v "modadd_1_9_x3".

End AddTwo.

(** The first value bound to [v] in an association list. *)
Fixpoint lookup (al : list (string * bool)) (v : string) : option bool :=
  match al with
  | [] => None
  | (k, b) :: al' => if String.eqb k v then Some b else lookup al' v
  end.

(** [extend rho names values] gives the variables [names] the [values] and
    leaves every other variable as [rho] has it. *)
Definition extend (rho : assignment) (names : list string)
  (values : list bool) : assignment :=
  fun v =>
    match lookup (combine names values) v with
    | Some b => b
    | None => rho v
    end.

(** The bitwise XOR of two words. *)
Fixpoint xor_bits (x y : list bool) : list bool :=
  match x, y with
  | a :: x', b :: y' => xorb a b :: xor_bits x' y'
  | _, _ => []
  end.

(** The partial sums of the operands [ops 0], [ops 1], ... under the
    two-operand addition [add]: what the stages of a sequence compute. *)
Fixpoint partial_sum (add : list bool -> list bool -> list bool)
  (ops : nat -> list bool) (n : nat) : list bool :=
  match n with
  | O => ops 0%nat
  | S m => add (partial_sum add ops m) (ops (S m))
  end.

(** Two assignments that give the same value to every name of [l]. *)
Definition agree (l : list string) (rho rho' : assignment) : Prop :=
  forall v, In v l -> rho' v = rho v.

(** Membership, distinctness and disjointness of lists of names, as
    computations. *)
Definition mem (v : string) (l : list string) : bool :=
  existsb (String.eqb v) l.

Fixpoint distinct (l : list string) : bool :=
  match l with
  | [] => true
  | v :: l' => negb (mem v l') && distinct l'
  end.

Definition disjoint (l1 l2 : list string) : bool :=
  forallb (fun v => negb (mem v l2)) l1.

(** The names of the variables of [alg_word] and [alg_result]. *)
Definition alg_word_names (c : component) (tag : string) (n : nat)
  : list string :=
  map (fun i => id c +s tag +s Py.str (Z.of_nat n) +s "_"
                +s Py.str (Z.of_nat i))
    (Py.range 0 (output_bit_size c)).

Definition alg_result_names (c : component) (model : algebraic_model)
  (n : nat) : list string :=
  if (n =? description_1 c - 1 - 1)%nat then alg_output_names c model
  else alg_word_names c "_o" n.

(** The variables the polynomials add to those of the operands: the carry
    words, the partial results and the output word. *)
Definition alg_new_names (c : component) (model : algebraic_model)
  : list string :=
  concat (map (alg_word_names c "_c") (seq 0 (description_1 c - 1))
          ++ map (alg_result_names c model) (seq 0 (description_1 c - 1))).

(** A store with the arrays of [binds] replaced. *)
Fixpoint cp_extend (sigma : Cp.store) (binds : list (string * (Z -> Z)))
  : Cp.store :=
  match binds with
  | [] => sigma
  | (a, f) :: rest =>
      fun a' i => if String.eqb a' a then f i else cp_extend sigma rest a' i
  end.

(** The array that holds the bits of [l], and the array of the carries of
    [X + Y]: element [j] is the carry that leaves position [j]. *)
Definition word_fn (l : list bool) : Z -> Z :=
  fun j => Z.b2z (nth (Z.to_nat j) l false).

Definition carry_fn (X Y : list bool) : Z -> Z :=
  fun j => Z.b2z (carry_out (skipn (Z.to_nat j) X) (skipn (Z.to_nat j) Y)).

(** Two stores that agree on the arrays of [names]. *)
Definition cp_agree (names : list string) (sigma sigma' : Cp.store) : Prop :=
  forall a, In a names -> forall i, sigma' a i = sigma a i.

(** Every expression of [es] has the value 0 or 1. *)
Definition inputs01 (sigma : Cp.store) (es : list Cp.expr) : Prop :=
  Forall (fun e => Cp.eval_expr sigma e = 0 \/ Cp.eval_expr sigma e = 1) es.

(** The arrays the CP encoding declares. *)
Definition cp_new_names (c : component) : list string :=
  let k := description_1 c in
  map (fun i => Modadd.pre (id c) (Z.of_nat i)) (Py.range 0 (2 * k - 2))
  ++ map (fun i => "carry_" +s Modadd.pre (id c) (Z.of_nat (k + i)))
       (Py.range 0 (k - 2))
  ++ ["carry_" +s id c].

(** The bits of operand [i] under [sigma]. *)
Definition cp_operand_bits (sigma : Cp.store) (c : component) (w i : nat)
  : list bool :=
  map (fun e => Cp.eval_expr sigma e =? 1) (operand (cp_all_inputs c) w i).

(** The variables the SAT encoding adds to those of the operands: carries,
    intermediate XORs, partial results and the output. *)
Definition sat_new_ids (bit_id : string -> nat -> string) (c : component)
  : list string :=
  let output_ids := snd (generate_output_ids bit_id c) in
  concat (Modadd.carries_ids_of output_ids (description_1 c))
  ++ concat (Modadd.intermediates_ids_of output_ids (description_1 c))
  ++ concat (Modadd.outputs_ids_of output_ids (description_1 c)).

(** The shape shared by [cms_modadd_seq] and [smt_modadd_seq]: the
    encoder [two] of one addition applied stage after stage. *)
Definition modadd_seq_of {C : Type}
  (two : list string -> list string -> list string -> list string
         -> result (list C))
  (outputs_ids inputs_ids carries_ids : list (list string))
  : result (list C) :=
  output_0 <- Py.getitem outputs_ids 0 ;;
  input_0 <- Py.getitem inputs_ids 0 ;;
  input_1 <- Py.getitem inputs_ids 1 ;;
  carry_0 <- Py.getitem carries_ids 0 ;;
  constraints <- two output_0 input_0 input_1 carry_0 ;;
  foldM (fun constraints i =>
           output_i <- Py.getitem outputs_ids (Z.of_nat i) ;;
           output_prev <- Py.getitem outputs_ids (Z.of_nat i - 1) ;;
           input_next <- Py.getitem inputs_ids (Z.of_nat i + 1) ;;
           carry_i <- Py.getitem carries_ids (Z.of_nat i) ;;
           more <- two output_i output_prev input_next carry_i ;;
           Ok (constraints ++ more))
        (Py.range 1 (length outputs_ids)) constraints.

(** The variables the CMS and SMT encodings of MODADD add to those of the
    operands: carries, partial results and the output. *)
Definition chain_new_ids (bit_id : string -> nat -> string) (c : component)
  : list string :=
  let output_ids := snd (generate_output_ids bit_id c) in
  concat (Modadd.carries_ids_of output_ids (description_1 c))
  ++ concat (Modadd.outputs_ids_of output_ids (description_1 c)).

Section AddOne.
Local Open Scope string_scope.

(** A MODADD component of two bits with a single operand. *)
Definition add_one : component :=
  {| id := "modadd_0_2";
     input_id_links := ["x"];
     input_bit_positions := [[0; 1]]%nat;
     output_bit_size := 2;
     description_1 := 1 |}.

End AddOne.

(** The degree of a polynomial as it is written: a bound on its degree. *)
Fixpoint pdegree (p : Poly.poly) : nat :=
  match p with
  | Poly.Var _ => 1
  | Poly.Const _ => 0
  | Poly.Add p q => Nat.max (pdegree p) (pdegree q)
  | Poly.Mul p q => pdegree p + pdegree q
  end.

(** The variables that occur in a list of clauses. *)
Definition clause_vars (cs : list Sat.clause) : list string :=
  flat_map (map snd) cs.

(** The variables one addition of the SAT model can mention: the words it
    is given, the intermediate variables only where there is a carry. *)
Definition sat_stage_vars (out x y carry mid : list string) : list string :=
  out ++ x ++ y ++ carry ++ firstn (length carry) mid.

(** The words whose shift [Shi_x] a list of declarations declares. *)
Definition shi_names (ds : list Modadd.xdp_declaration) : list string :=
  flat_map (fun d =>
              match d with
              | Modadd.ShiftDecl _ x => [x]
              | Modadd.EqDecl _ _ _ _ => []
              end) ds.

(** A call of [cp_twoterms_xor_differential_probability], and a sequence of
    calls that share the declarations, the constraints and the list
    [modadd_twoterms_mant] of the model, all empty at the start. *)
Record xdp_call : Type := {
  call_inp1 : string;
  call_inp2 : string;
  call_out : string;
  call_inplen : Z;
  call_c : Z
}.

Definition xdp_step
  (st : list Modadd.xdp_declaration * list Modadd.xdp_constraint
        * list string)
  (call : xdp_call)
  : list Modadd.xdp_declaration * list Modadd.xdp_constraint * list string :=
  Modadd.cp_twoterms_xor_differential_probability
    (call_inp1 call) (call_inp2 call) (call_out call) (call_inplen call)
    (snd (fst st)) (fst (fst st)) (call_c call) (snd st).

Definition xdp_run (calls : list xdp_call)
  : list Modadd.xdp_declaration * list Modadd.xdp_constraint * list string :=
  fold_left xdp_step calls ([], [], []).

(** The cells of a table constraint of the linear model of OR. *)
Definition table_cells (t : Or.lin_constraint) : list (string * Z) :=
  match t with
  | Or.Table cells _ => cells
  | Or.ProbSum _ _ => []
  end.

(** The indices [i + w * j] of the input cells of the tables, for [i < w]
    and [j < k]. *)
Definition strided (k w : nat) : list nat :=
  flat_map (fun i => map (fun j => (i + w * j)%nat) (seq 0 k)) (seq 0 w).

(** The calls [or(a, b, r)] and the equations among the constraints of the
    CP model of OR. *)
Definition or_calls (cs : list Or.cp_constraint)
  : list (string * string * string) :=
  flat_map (fun x =>
              match x with
              | Or.OrCall a b r => [(a, b, r)]
              | Or.Equation _ => []
              end) cs.

Definition or_equations (cs : list Or.cp_constraint) : list Cp.constraint :=
  flat_map (fun x =>
              match x with
              | Or.OrCall _ _ _ => []
              | Or.Equation e => [e]
              end) cs.

(** The array that holds the OR of the operands [0 .. n] of a component of
    [k] operands: a [temp_] array, or the output for the last one. *)
Definition or_acc (c : component) (k n : nat) : string :=
  if (n =? k - 1)%nat then id c else Or.temp (id c) (Z.of_nat n - 1).

(** The calls of a component of [k >= 2] operands. *)
Definition or_chain (c : component) (k : nat)
  : list (string * string * string) :=
  (Modadd.pre (id c) 0, Modadd.pre (id c) 1, or_acc c k 1)
  :: map (fun n =>
            (Modadd.pre (id c) (Z.of_nat n + 1), or_acc c k n,
             or_acc c k (n + 1)))
       (seq 1 (k - 2)).

(** A component whose operand count is 0, and one with fewer lists of
    positions than links. *)
Section OrEdges.
Local Open Scope string_scope.
Definition or_none : component :=
  {| id := "or_0_2";
     input_id_links := ["x"];
     input_bit_positions := [[0; 1]]%nat;
     output_bit_size := 2;
     description_1 := 0 |}.

Definition or_unpaired : component :=
  {| id := "or_0_3";
     input_id_links := ["x"; "y"];
     input_bit_positions := [[0; 1]]%nat;
     output_bit_size := 2;
     description_1 := 2 |}.
End OrEdges.

(** The declaration and the constraints that one call of [cp_twoterms] of
    MODADD adds. *)
Definition twoterms_declaration (out : string) (w : nat) : Cp.declaration :=
  Cp.Array01 1 (Z.of_nat w - 1) ("carry_" +s out).

Definition twoterms_added (input_1 input_2 out : string) (w : nat)
  : list Cp.constraint :=
  snd (Modadd.cp_twoterms input_1 input_2 out w [] []).

(** The sum of the operands 0, [k - 2] and [k - 1] of a component. *)
Definition cp_three_sum (sigma : Cp.store) (c : component) (w k : nat) : Z :=
  cp_word sigma (operand (cp_all_inputs c) w 0)
  + cp_word sigma (operand (cp_all_inputs c) w (k - 2))
  + cp_word sigma (operand (cp_all_inputs c) w (k - 1)).

(** The array a declaration declares, and the arrays a constraint reads
    or writes. *)
Definition declaration_name (d : Cp.declaration) : string :=
  match d with
  | Cp.Array01 _ _ name => name
  | Cp.Array01Init _ _ name _ => name
  end.

Fixpoint expr_arrays (e : Cp.expr) : list string :=
  match e with
  | Cp.Elem a _ => [a]
  | Cp.Lit _ => []
  | Cp.Add e1 e2 => expr_arrays e1 ++ expr_arrays e2
  | Cp.Mul e1 e2 => expr_arrays e1 ++ expr_arrays e2
  | Cp.Mod2 e => expr_arrays e
  end.

Definition constraint_arrays (c : Cp.constraint) : list string :=
  match c with
  | Cp.Eq lhs rhs => expr_arrays lhs ++ expr_arrays rhs
  end.

(** A constraint of the CP model of MODSUB holds in a store, given what a
    call of the predicate [modadd] says of a store. *)
Definition modsub_holds
  (call : Cp.store -> string -> string -> string -> Prop)
  (sigma : Cp.store) (x : Modsub.cp_constraint) : Prop :=
  match x with
  | Modsub.Equation e => Cp.holds sigma e
  | Modsub.ModaddCall a b r => call sigma a b r
  end.

(** The predicate adds two arrays of [w] bits modulo [2^w], index 0 being
    the most significant bit. *)
Definition adds_words (w : nat)
  (call : Cp.store -> string -> string -> string -> Prop) : Prop :=
  forall sigma a b r,
    call sigma a b r
    <-> cp_value sigma r w
        = (cp_value sigma a w + cp_value sigma b w) mod 2 ^ Z.of_nat w.

(** The arrays the CP encoding of a 2-operand MODSUB declares, the output
    apart. *)
Definition cp_modsub_names (c : component) : list string :=
  ["constant_" +s id c;
   Modadd.pre (id c) 0;
   Modadd.pre (id c) 1;
   "pre_minus_" +s Modadd.pre (id c) 1;
   "minus_" +s Modadd.pre (id c) 1].

(** The word 1 on [w] bits. *)
Definition one_word (w : nat) : list bool := repeat false (w - 1) ++ [true].

(** ** Properties *)

Lemma getitem_nat {A : Type} (l : list A) (i : nat) (a : A) :
  nth_error l i = Some a -> Py.getitem l (Z.of_nat i) = Ok a.
Proof.
  intros H. unfold Py.getitem.
  assert (Hlt : (i < length l)%nat) by (apply nth_error_Some; congruence).
  destruct (Z.ltb_spec (Z.of_nat i) 0); [lia|].
  destruct (Z.leb_spec 0 (Z.of_nat i)); [|lia].
  destruct (Z.ltb_spec (Z.of_nat i) (Z.of_nat (length l))); [|lia].
  simpl. rewrite Nat2Z.id, H. reflexivity.
Qed.

Lemma getitem_bit {A : Type} (x y : A) (z : Z) :
  is_bit z -> Py.getitem [x; y] z = Ok (if z =? 0 then x else y).
Proof. intros [-> | ->]; reflexivity. Qed.

Section SignLoop.

Variables (inputs outputs : list Z) (half : nat).

Let body := fun (sign : Z) (i : nat) =>
  a <- Py.getitem inputs (Z.of_nat i) ;;
  plane <- Py.getitem Or.or_LAT a ;;
  b <- Py.getitem inputs (Z.of_nat (half + i)) ;;
  row <- Py.getitem plane b ;;
  o <- Py.getitem outputs (Z.of_nat i) ;;
  entry <- Py.getitem row o ;;
  Ok (sign * entry).

Hypothesis Hin : Forall is_bit inputs.
Hypothesis Hout : Forall is_bit outputs.

Lemma sign_loop (m k : nat) (sign : Z) :
  (half + k + m <= length inputs)%nat ->
  (k + m <= half)%nat ->
  (k + m = length outputs)%nat ->
  foldM body (seq k m) sign =
  Ok (sign * Or.sign_product (skipn k (firstn half inputs))
               (skipn (half + k) inputs) (skipn k outputs)).
Proof.
  revert k sign. induction m as [|m IH]; intros k sign H1 H2 H3.
  - simpl. replace (skipn k outputs) with (@nil Z)
      by (symmetry; apply skipn_all2; lia).
    assert (Hnil : forall la lb : list Z,
               Py.zip3 la lb (@nil Z) = @nil (Z * Z * Z))
      by (intros [|? ?] [|? ?]; reflexivity).
    unfold Or.sign_product. rewrite Hnil. simpl. f_equal. lia.
  - assert (Ha : exists a, nth_error inputs k = Some a).
    { destruct (nth_error inputs k) eqn:E; eauto.
      apply nth_error_None in E. lia. }
    assert (Hb : exists b, nth_error inputs (half + k) = Some b).
    { destruct (nth_error inputs (half + k)) eqn:E; eauto.
      apply nth_error_None in E. lia. }
    assert (Ho : exists o, nth_error outputs k = Some o).
    { destruct (nth_error outputs k) eqn:E; eauto.
      apply nth_error_None in E. lia. }
    destruct Ha as [a Ha], Hb as [b Hb], Ho as [o Ho].
    assert (Ba : is_bit a).
    { eapply Forall_forall; [exact Hin|]. eapply nth_error_In; eauto. }
    assert (Bb : is_bit b).
    { eapply Forall_forall; [exact Hin|]. eapply nth_error_In; eauto. }
    assert (Bo : is_bit o).
    { eapply Forall_forall; [exact Hout|]. eapply nth_error_In; eauto. }
    cbn [seq foldM]. unfold body at 1.
    rewrite (getitem_nat _ _ _ Ha), (getitem_nat _ _ _ Hb),
      (getitem_nat _ _ _ Ho).
    cbn [bind]. unfold Or.or_LAT. rewrite (getitem_bit _ _ a Ba).
    cbn [bind].
    assert (Hentry :
      (x <- (row <- Py.getitem (if a =? 0 then [[1; -1]; [0; 1]]
                                 else [[0; 1]; [0; 1]]) b ;;
             entry <- Py.getitem row o ;; Ok (sign * entry)) ;;
       foldM body (seq (S k) m) x) =
      foldM body (seq (S k) m) (sign * Or.table_entry a b o)).
    { destruct Ba as [-> | ->], Bb as [-> | ->], Bo as [-> | ->];
        reflexivity. }
    etransitivity; [exact Hentry|].
    rewrite IH by lia.
    assert (E1 : skipn k (firstn half inputs) =
                 a :: skipn (S k) (firstn half inputs)).
    { assert (Hk : nth_error (firstn half inputs) k = Some a)
        by (rewrite nth_error_firstn;
            destruct (Nat.ltb_spec k half); [exact Ha | lia]).
      clear - Hk. revert k Hk.
      induction (firstn half inputs) as [|x l IHl]; intros [|k] Hk;
        simpl in *; try discriminate.
      - congruence.
      - apply IHl; assumption. }
    assert (E2 : forall (l : list Z) n x, nth_error l n = Some x ->
                   skipn n l = x :: skipn (S n) l).
    { clear. induction l as [|y l IHl]; intros [|n] x Hx;
        simpl in *; try discriminate.
      - congruence.
      - apply IHl; assumption. }
    rewrite E1, (E2 _ _ _ Hb), (E2 _ _ _ Ho).
    replace (half + S k)%nat with (S (half + k)) by lia.
    unfold Or.sign_product. cbn [Py.zip3 map fold_right]. f_equal. lia.
Qed.

End SignLoop.

(** C10: for a 2-operand OR component and 0/1 input and output lists of the
    sizes of the component, [generic_sign_linear_constraints] returns the
    product over the output bit positions [i] of the table entry selected by
    [inputs[i]], [inputs[input_size/2 + i]] and [outputs[i]]; with every bit
    zero the result is [+1], and the entry [or_LAT[1][1][1]] is [1]. *)
Theorem generic_sign_is_table_product (c : component) (inputs outputs : list Z) :
  input_bit_size c = (2 * output_bit_size c)%nat ->
  length inputs = input_bit_size c ->
  length outputs = output_bit_size c ->
  Forall is_bit inputs ->
  Forall is_bit outputs ->
  Or.generic_sign_linear_constraints c inputs outputs =
    Ok (Or.sign_product (firstn (output_bit_size c) inputs)
          (skipn (output_bit_size c) inputs) outputs)
  /\ (Forall (fun z => z = 0) inputs -> Forall (fun z => z = 0) outputs ->
      Or.generic_sign_linear_constraints c inputs outputs = Ok 1)
  /\ (a <- Py.getitem Or.or_LAT 1 ;; b <- Py.getitem a 1 ;; Py.getitem b 1)
     = Ok 1.
Proof.
  intros Hsz Hli Hlo Bi Bo.
  assert (Hhalf : (input_bit_size c / 2 = output_bit_size c)%nat).
  { rewrite Hsz. rewrite Nat.mul_comm. apply Nat.div_mul. lia. }
  assert (Hmain : Or.generic_sign_linear_constraints c inputs outputs =
    Ok (Or.sign_product (firstn (output_bit_size c) inputs)
          (skipn (output_bit_size c) inputs) outputs)).
  { unfold Or.generic_sign_linear_constraints, Py.range.
    rewrite Hhalf, Nat.sub_0_r.
    rewrite (sign_loop inputs outputs (output_bit_size c) Bi Bo) by lia.
    rewrite Nat.add_0_r. simpl skipn. f_equal. lia. }
  split; [exact Hmain|]. split; [|reflexivity].
  intros Zi Zo. rewrite Hmain. f_equal.
  assert (Hz : forall l r o : list Z,
             Forall (fun z => z = 0) l -> Forall (fun z => z = 0) r ->
             Forall (fun z => z = 0) o -> Or.sign_product l r o = 1).
  { clear. induction l as [|a l IH]; intros r o Hl Hr Ho; [reflexivity|].
    destruct r as [|b r]; [reflexivity|]. destruct o as [|x o]; [reflexivity|].
    inversion Hl; inversion Hr; inversion Ho; subst.
    unfold Or.sign_product in *. cbn [Py.zip3 map fold_right].
    rewrite IH by assumption. reflexivity. }
  apply Hz; auto.
  - rewrite <- (firstn_skipn (output_bit_size c) inputs) in Zi.
    apply Forall_app in Zi. tauto.
  - rewrite <- (firstn_skipn (output_bit_size c) inputs) in Zi.
    apply Forall_app in Zi. tauto.
Qed.

(** ** Python helpers *)

Lemma getitem_last {A : Type} (l : list A) (d : A) :
  l <> [] -> Py.getitem l (-1) = Ok (last l d).
Proof.
  intros Hl. unfold Py.getitem.
  destruct l as [|a l]; [congruence|]. clear Hl.
  change (-1 <? 0) with true. cbv iota.
  assert (Hn : -1 + Z.of_nat (length (a :: l)) = Z.of_nat (length l))
    by (simpl length; lia).
  rewrite Hn.
  destruct (Z.leb_spec 0 (Z.of_nat (length l))); [|lia].
  destruct (Z.ltb_spec (Z.of_nat (length l)) (Z.of_nat (length (a :: l))));
    [|simpl length in *; lia].
  simpl andb. cbv iota. rewrite Nat2Z.id.
  assert (Hnth : forall (l : list A) a,
             nth_error (a :: l) (length l) = Some (last (a :: l) d)).
  { clear. induction l as [|b l IH]; intros a; [reflexivity|].
    change (nth_error (a :: b :: l) (length (b :: l)))
      with (nth_error (b :: l) (length l)).
    rewrite IH. reflexivity. }
  rewrite Hnth. reflexivity.
Qed.

Lemma getitem_last_nil {A : Type} : Py.getitem (@nil A) (-1) = Err IndexError.
Proof. reflexivity. Qed.

Lemma forallb_Forall {A : Type} (f : A -> bool) (l : list A) :
  forallb f l = true <-> Forall (fun a => f a = true) l.
Proof.
  rewrite forallb_forall, Forall_forall. reflexivity.
Qed.

Lemma forallb_flat_map {A B : Type} (f : B -> bool) (g : A -> list B)
  (l : list A) :
  forallb f (flat_map g l) = forallb (fun a => forallb f (g a)) l.
Proof.
  induction l as [|a l IH]; [reflexivity|].
  simpl. rewrite forallb_app, IH. reflexivity.
Qed.

Lemma forallb_map {A B : Type} (f : B -> bool) (g : A -> B) (l : list A) :
  forallb f (map g l) = forallb (fun a => f (g a)) l.
Proof.
  induction l as [|a l IH]; [reflexivity|]. simpl. rewrite IH. reflexivity.
Qed.

(** ** The clause sets of the primitive encoders *)

Ltac bool_cases :=
  repeat match goal with
         | |- context [?rho ?v] =>
             match type of rho with
             | assignment => destruct (rho v)
             end
         end.

Lemma eval_cnf_carry (rho : assignment) (c a b p : string) :
  Sat.eval rho (Sat.cnf_carry c a b p)
  = Bool.eqb (rho c) (maj (rho a) (rho b) (rho p)).
Proof.
  unfold Sat.eval, Sat.cnf_carry, Sat.eval_clause, Sat.eval_literal. simpl.
  destruct (rho c), (rho a), (rho b), (rho p); reflexivity.
Qed.

Lemma eval_cnf_and2 (rho : assignment) (c a b : string) :
  Sat.eval rho (Sat.cnf_and c [a; b]) = Bool.eqb (rho c) (rho a && rho b).
Proof.
  unfold Sat.eval, Sat.cnf_and, Sat.eval_clause, Sat.eval_literal. simpl.
  destruct (rho c), (rho a), (rho b); reflexivity.
Qed.

Lemma eval_cnf_xor2 (rho : assignment) (r a b : string) :
  Sat.eval rho (Sat.cnf_xor r [a; b]) = Bool.eqb (rho r) (xorb (rho a) (rho b)).
Proof.
  unfold Sat.eval, Sat.cnf_xor, Sat.eval_clause, Sat.eval_literal. simpl.
  destruct (rho r), (rho a), (rho b); reflexivity.
Qed.

Lemma eval_cnf_result (rho : assignment) (o a b c m : string) :
  Sat.eval rho (Sat.cnf_result o a b c m)
  = Bool.eqb (rho m) (xorb (rho a) (rho b))
    && Bool.eqb (rho o) (xorb (rho m) (rho c)).
Proof.
  unfold Sat.cnf_result, Sat.eval. rewrite forallb_app.
  change (Sat.eval rho (Sat.cnf_xor m [a; b])
          && Sat.eval rho (Sat.cnf_xor o [m; c])
          = Bool.eqb (rho m) (xorb (rho a) (rho b))
            && Bool.eqb (rho o) (xorb (rho m) (rho c))).
  rewrite !eval_cnf_xor2. reflexivity.
Qed.

Lemma eval_cnf_carry_comp2 (rho : assignment) (c a p : string) :
  Sat.eval rho (Sat.cnf_carry_comp2 c a p)
  = Bool.eqb (rho c) (negb (rho a) && rho p).
Proof.
  unfold Sat.eval, Sat.cnf_carry_comp2, Sat.eval_clause, Sat.eval_literal.
  simpl. destruct (rho c), (rho a), (rho p); reflexivity.
Qed.

Lemma eval_cnf_inequality (rho : assignment) (a b : string) :
  Sat.eval rho (Sat.cnf_inequality a b) = Bool.eqb (rho a) (negb (rho b)).
Proof.
  unfold Sat.eval, Sat.cnf_inequality, Sat.eval_clause, Sat.eval_literal.
  simpl. destruct (rho a), (rho b); reflexivity.
Qed.

Lemma eval_cnf_result_comp2 (rho : assignment) (r a c : string) :
  Sat.eval rho (Sat.cnf_result_comp2 r a c)
  = Bool.eqb (rho r) (xorb (negb (rho a)) (rho c)).
Proof.
  unfold Sat.eval, Sat.cnf_result_comp2, Sat.eval_clause, Sat.eval_literal.
  simpl. destruct (rho r), (rho a), (rho c); reflexivity.
Qed.

Lemma eval_cnf_equivalent2 (rho : assignment) (a b : string) :
  Sat.eval rho (Sat.cnf_equivalent [a; b]) = Bool.eqb (rho a) (rho b).
Proof.
  unfold Sat.eval, Sat.cnf_equivalent, Sat.eval_clause, Sat.eval_literal.
  simpl. destruct (rho a), (rho b); reflexivity.
Qed.

Lemma eqb_true (a b : bool) : Bool.eqb a b = true <-> a = b.
Proof. apply Bool.eqb_true_iff. Qed.

Lemma Forall_iff {A : Type} (P Q : A -> Prop) (l : list A) :
  (forall a, P a <-> Q a) -> Forall P l <-> Forall Q l.
Proof.
  intros H. split; apply Forall_impl; intros a; apply H.
Qed.

(** ** One addition: the constraints and the relations of the chain *)

Lemma and4_iff (A1 A2 A3 A4 B1 B2 B3 B4 : Prop) :
  (A1 <-> B1) -> (A2 <-> B2) -> (A3 <-> B3) -> (A4 <-> B4) ->
  (((A1 /\ A2) /\ A3) /\ A4 <-> B1 /\ B2 /\ B3 /\ B4).
Proof. tauto. Qed.

Lemma sat_Forall (rho : assignment) (cs : list Sat.clause) :
  Forall (fun a => Sat.eval_clause rho a = true) cs <-> Sat.eval rho cs = true.
Proof. symmetry. apply forallb_Forall. Qed.

Section TwoAddenda.

Variables out x y carry : list string.
Hypothesis Hcarry : carry <> [].
Hypothesis Hx : x <> [].
Hypothesis Hy : y <> [].
Hypothesis Hout : out <> [].

Lemma sat_modadd_chain (intermediate : list string) :
  exists cs,
    Modadd.sat_modadd out x y carry intermediate = Ok cs
    /\ forall rho, Sat.eval rho cs = true
                   <-> sat_chain rho out x y carry intermediate.
Proof.
  unfold Modadd.sat_modadd.
  rewrite (getitem_last carry EmptyString Hcarry),
    (getitem_last x EmptyString Hx), (getitem_last y EmptyString Hy),
    (getitem_last out EmptyString Hout).
  cbn [bind]. eexists. split; [reflexivity|].
  intros rho. unfold Sat.eval, sat_chain.
  rewrite !forallb_app, !forallb_flat_map, !andb_true_iff.
  rewrite !forallb_Forall.
  fold (last_id carry) (last_id x) (last_id y) (last_id out).
  apply and4_iff.
  - apply Forall_iff. intros [[[c a] b] p].
    change (Sat.eval rho (Sat.cnf_carry c a b p) = true
            <-> carry_rel rho (c, a, b, p)).
    rewrite eval_cnf_carry, eqb_true. reflexivity.
  - rewrite sat_Forall, eval_cnf_and2, eqb_true. reflexivity.
  - apply Forall_iff. intros [[[[o a] b] c] m].
    change (Sat.eval rho (Sat.cnf_result o a b c m) = true
            <-> intermediate_rel rho (o, a, b, c, m)).
    rewrite eval_cnf_result, andb_true_iff, !eqb_true.
    reflexivity.
  - rewrite sat_Forall, eval_cnf_xor2, eqb_true. reflexivity.
Qed.

Lemma cms_modadd_chain :
  exists cs,
    Modadd.cms_modadd out x y carry = Ok cs
    /\ forall rho, Cms.eval rho cs = true <-> chain rho out x y carry.
Proof.
  unfold Modadd.cms_modadd.
  rewrite (getitem_last carry EmptyString Hcarry),
    (getitem_last x EmptyString Hx), (getitem_last y EmptyString Hy),
    (getitem_last out EmptyString Hout).
  cbn [bind]. eexists. split; [reflexivity|].
  intros rho. unfold Cms.eval, chain.
  rewrite !forallb_app, !forallb_flat_map, !forallb_map, !andb_true_iff.
  rewrite !forallb_Forall.
  fold (last_id carry) (last_id x) (last_id y) (last_id out).
  apply and4_iff.
  - apply Forall_iff. intros [[[c a] b] p].
    rewrite forallb_map.
    change (Sat.eval rho (Sat.cnf_carry c a b p) = true
            <-> carry_rel rho (c, a, b, p)).
    rewrite eval_cnf_carry, eqb_true. reflexivity.
  - rewrite <- forallb_Forall.
    change (Sat.eval rho (Sat.cnf_and (last_id carry) [last_id x; last_id y])
            = true
            <-> rho (last_id carry) = rho (last_id x) && rho (last_id y)).
    rewrite eval_cnf_and2, eqb_true. reflexivity.
  - apply Forall_iff. intros [[[o a] b] c].
    unfold result_rel, xor3. cbn.
    destruct (rho o), (rho a), (rho b), (rho c); cbn; intuition congruence.
  - rewrite <- forallb_Forall. cbn.
    destruct (rho (last_id out)), (rho (last_id x)), (rho (last_id y));
      cbn; intuition congruence.
Qed.

Lemma smt_modadd_chain :
  exists cs,
    Modadd.smt_modadd out x y carry = Ok cs
    /\ forall rho, Smt.eval_all rho cs = true <-> chain rho out x y carry.
Proof.
  unfold Modadd.smt_modadd.
  rewrite (getitem_last carry EmptyString Hcarry),
    (getitem_last x EmptyString Hx), (getitem_last y EmptyString Hy),
    (getitem_last out EmptyString Hout).
  cbn [bind]. eexists. split; [reflexivity|].
  intros rho. unfold Smt.eval_all, chain.
  rewrite !forallb_app, !forallb_map, !andb_true_iff.
  rewrite !forallb_Forall.
  fold (last_id carry) (last_id x) (last_id y) (last_id out).
  apply and4_iff.
  - apply Forall_iff. intros [[[c a] b] p].
    unfold carry_rel, maj. cbn.
    destruct (rho c), (rho a), (rho b), (rho p); cbn; intuition congruence.
  - rewrite <- forallb_Forall. cbn.
    destruct (rho (last_id carry)), (rho (last_id x)), (rho (last_id y));
      cbn; intuition congruence.
  - apply Forall_iff. intros [[[o a] b] c].
    unfold result_rel, xor3. cbn.
    destruct (rho o), (rho a), (rho b), (rho c); cbn; intuition congruence.
  - rewrite <- forallb_Forall. cbn.
    destruct (rho (last_id out)), (rho (last_id x)), (rho (last_id y));
      cbn; intuition congruence.
Qed.

End TwoAddenda.

(** ** The chain determines the carries and the sum *)

Lemma chain_cons (rho : assignment) (o0 o1 x0 x1 y0 y1 c0 c1 : string)
  (os xs ys cs : list string) :
  chain rho (o0 :: o1 :: os) (x0 :: x1 :: xs) (y0 :: y1 :: ys) (c0 :: c1 :: cs)
  <-> carry_rel rho (c0, x1, y1, c1)
      /\ result_rel rho (o0, x0, y0, c0)
      /\ chain rho (o1 :: os) (x1 :: xs) (y1 :: ys) (c1 :: cs).
Proof.
  unfold chain, last_id, Py.slice_from.
  cbn [skipn Py.zip4 last]. rewrite !Forall_cons_iff. tauto.
Qed.

Lemma chain_base (rho : assignment) (o0 o1 x0 x1 y0 y1 c0 : string) :
  chain rho [o0; o1] [x0; x1] [y0; y1] [c0]
  <-> rho c0 = rho x1 && rho y1
      /\ rho o0 = xor3 (rho x0) (rho y0) (rho c0)
      /\ rho o1 = xorb (rho x1) (rho y1).
Proof.
  unfold chain, last_id, Py.slice_from.
  cbn [skipn Py.zip4 last]. rewrite !Forall_cons_iff.
  unfold result_rel. intuition auto using Forall_nil.
Qed.

Lemma carries_step (a b a' b' : bool) (x y : list bool) :
  carries (a :: a' :: x) (b :: b' :: y)
  = maj a' b' (carry_out x y) :: carries (a' :: x) (b' :: y).
Proof. reflexivity. Qed.

Lemma sum_bits_step (a b a' b' : bool) (x y : list bool) :
  sum_bits (a :: a' :: x) (b :: b' :: y)
  = xor3 a b (maj a' b' (carry_out x y)) :: sum_bits (a' :: x) (b' :: y).
Proof. reflexivity. Qed.

Lemma chain_carries (rho : assignment) (carry : list string) :
  forall out x y : list string,
    carry <> [] ->
    length x = S (length carry) ->
    length y = S (length carry) ->
    length out = S (length carry) ->
    chain rho out x y carry
    <-> map rho carry = carries (map rho x) (map rho y)
        /\ map rho out = sum_bits (map rho x) (map rho y).
Proof.
  induction carry as [|c0 cs IH]; intros out x y Hne Hx Hy Ho; [congruence|].
  destruct x as [|x0 [|x1 xs]]; try discriminate Hx.
  destruct y as [|y0 [|y1 ys]]; try discriminate Hy.
  destruct out as [|o0 [|o1 os]]; try discriminate Ho.
  destruct cs as [|c1 cs].
  - destruct xs; try discriminate Hx. destruct ys; try discriminate Hy.
    destruct os; try discriminate Ho.
    rewrite chain_base. cbn. unfold xor3, maj.
    destruct (rho c0), (rho x0), (rho x1), (rho y0), (rho y1), (rho o0),
      (rho o1); cbn; intuition congruence.
  - rewrite chain_cons.
    rewrite (IH (o1 :: os) (x1 :: xs) (y1 :: ys)); try discriminate;
      try (simpl in *; lia).
    destruct xs as [|x2 xs]; try discriminate Hx.
    destruct ys as [|y2 ys]; try discriminate Hy.
    unfold carry_rel, result_rel. cbn [map].
    rewrite (carries_step (rho x0) (rho y0) (rho x1) (rho y1)),
      (sum_bits_step (rho x0) (rho y0) (rho x1) (rho y1)).
    assert (Hhd : forall l,
               rho c1 :: l = carries (rho x1 :: rho x2 :: map rho xs)
                               (rho y1 :: rho y2 :: map rho ys) ->
               rho c1 = carry_out (rho x2 :: map rho xs)
                          (rho y2 :: map rho ys)).
    { intros l Hl. rewrite carries_step in Hl. injection Hl; auto. }
    split.
    + intros (H1 & H2 & H3 & H4). pose proof (Hhd _ H3) as Hc1.
      rewrite <- H3, <- H4, H2, H1, Hc1. split; reflexivity.
    + intros (H1 & H2).
      assert (Hinj : forall (a b : bool) l l',
                 a :: l = b :: l' -> a = b /\ l = l')
        by (intros a b l l' E; split; congruence).
      destruct (Hinj _ _ _ _ H1) as [H1a H1b].
      destruct (Hinj _ _ _ _ H2) as [H2a H2b].
      pose proof (Hhd _ H1b) as Hc1.
      repeat split; try assumption.
      * rewrite H1a, Hc1. reflexivity.
      * rewrite H2a, H1a. reflexivity.
Qed.

Lemma chain_index_cons (rho : assignment) (w : nat)
  (o0 x0 y0 c0 : string) (os xs ys cs : list string) :
  (2 <= w)%nat ->
  chain_by_index rho (S w) (o0 :: os) (x0 :: xs) (y0 :: ys) (c0 :: cs)
  <-> rho c0 = maj (bit rho xs 0) (bit rho ys 0) (bit rho cs 0)
      /\ rho o0 = xor3 (rho x0) (rho y0) (rho c0)
      /\ chain_by_index rho w os xs ys cs.
Proof.
  intros Hw. unfold chain_by_index.
  assert (Hb : forall (a : string) l i, bit rho (a :: l) (S i) = bit rho l i)
    by reflexivity.
  replace (S w - 2)%nat with (S (w - 2)) by lia.
  replace (S w - 1)%nat with (S (w - 1)) by lia.
  rewrite !Hb. split.
  - intros (H1 & H2 & H3 & H4). repeat split; auto.
    + specialize (H1 0%nat). cbn [Nat.add] in H1. rewrite !Hb in H1.
      apply H1. lia.
    + apply (H3 0%nat). lia.
    + intros i Hi. specialize (H1 (S i)). cbn [Nat.add] in H1.
      rewrite !Hb in H1. apply H1. lia.
    + intros i Hi. specialize (H3 (S i)). rewrite !Hb in H3. apply H3. lia.
  - intros (H1 & H2 & H3 & H4 & H5 & H6). repeat split; auto.
    + intros [|i] Hi; cbn [Nat.add]; rewrite !Hb; [exact H1|].
      apply H3. lia.
    + intros [|i] Hi; [exact H2|]. rewrite !Hb. apply H5. lia.
Qed.

Lemma chain_index (rho : assignment) (carry : list string) :
  forall out x y : list string,
    carry <> [] ->
    length x = S (length carry) ->
    length y = S (length carry) ->
    length out = S (length carry) ->
    chain rho out x y carry
    <-> chain_by_index rho (S (length carry)) out x y carry.
Proof.
  induction carry as [|c0 cs IH]; intros out x y Hne Hx Hy Ho; [congruence|].
  destruct x as [|x0 [|x1 xs]]; try discriminate Hx.
  destruct y as [|y0 [|y1 ys]]; try discriminate Hy.
  destruct out as [|o0 [|o1 os]]; try discriminate Ho.
  destruct cs as [|c1 cs].
  - destruct xs; try discriminate Hx. destruct ys; try discriminate Hy.
    destruct os; try discriminate Ho.
    rewrite chain_base. unfold chain_by_index, bit. cbn.
    split.
    + intros (H1 & H2 & H3). repeat split; auto.
      * intros i Hi. lia.
      * intros [|i] Hi; [exact H2 | lia].
    + intros (H1 & H2 & H3 & H4). repeat split; auto.
      apply (H3 0%nat). lia.
  - rewrite chain_cons.
    rewrite (IH (o1 :: os) (x1 :: xs) (y1 :: ys)); try discriminate;
      try (simpl in *; lia).
    rewrite (chain_index_cons rho (S (length (c1 :: cs))))
      by (simpl; lia).
    unfold carry_rel, result_rel, bit. cbn [nth]. tauto.
Qed.

(** ** Ripple-carry addition is addition modulo [2^w] *)

Lemma word_msb_acc (bs : list bool) (acc : Z) :
  fold_left (fun acc b => 2 * acc + Z.b2z b) bs acc
  = acc * 2 ^ Z.of_nat (length bs) + word_msb bs.
Proof.
  unfold word_msb. revert acc.
  induction bs as [|b bs IH]; intros acc.
  - simpl. lia.
  - cbn [fold_left length]. rewrite IH, (IH (2 * 0 + Z.b2z b)).
    rewrite Nat2Z.inj_succ, Z.pow_succ_r by lia. ring.
Qed.

Lemma word_msb_cons (b : bool) (bs : list bool) :
  word_msb (b :: bs) = Z.b2z b * 2 ^ Z.of_nat (length bs) + word_msb bs.
Proof.
  unfold word_msb at 1. cbn [fold_left]. rewrite word_msb_acc. ring.
Qed.

Lemma word_msb_bound (bs : list bool) :
  0 <= word_msb bs < 2 ^ Z.of_nat (length bs).
Proof.
  induction bs as [|b bs IH].
  - cbn. lia.
  - rewrite word_msb_cons. cbn [length].
    rewrite Nat2Z.inj_succ, Z.pow_succ_r by lia.
    destruct b; cbn [Z.b2z]; lia.
Qed.

Lemma length_sum_bits (x y : list bool) :
  length x = length y -> length (sum_bits x y) = length x.
Proof.
  revert y. induction x as [|a x IH]; intros [|b y] H; try discriminate H;
    [reflexivity|].
  cbn [sum_bits length]. rewrite IH; [reflexivity|]. simpl in H. lia.
Qed.

Lemma length_carries (x y : list bool) :
  length x = length y -> S (length (carries x y)) = length x \/ x = [].
Proof.
  revert y. induction x as [|a x IH]; intros [|b y] H; try discriminate H;
    [right; reflexivity|].
  left. destruct x as [|a' x].
  - reflexivity.
  - destruct (IH y) as [E|E]; [simpl in *; lia| |discriminate E].
    change (S (S (length (carries (a' :: x) y))) = S (length (a' :: x))).
    rewrite E. reflexivity.
Qed.

Lemma add_bits (x y : list bool) :
  length x = length y ->
  word_msb (sum_bits x y) + 2 ^ Z.of_nat (length x) * Z.b2z (carry_out x y)
  = word_msb x + word_msb y.
Proof.
  revert y. induction x as [|a x IH]; intros [|b y] H; try discriminate H.
  - cbn. lia.
  - assert (Hl : length x = length y) by (simpl in H; lia).
    cbn [sum_bits carry_out]. rewrite !word_msb_cons.
    rewrite length_sum_bits by assumption.
    specialize (IH y Hl). cbn [length].
    rewrite Nat2Z.inj_succ, Z.pow_succ_r by lia. rewrite <- Hl.
    set (p := 2 ^ Z.of_nat (length x)) in *.
    set (c := carry_out x y) in *.
    assert (Hbits : Z.b2z (xor3 a b c) + 2 * Z.b2z (maj a b c)
                    = Z.b2z a + Z.b2z b + Z.b2z c)
      by (destruct a, b, c; reflexivity).
    nia.
Qed.

Lemma sum_bits_word (x y : list bool) :
  length x = length y ->
  word_msb (sum_bits x y)
  = (word_msb x + word_msb y) mod 2 ^ Z.of_nat (length x).
Proof.
  intros H. pose proof (add_bits x y H) as E.
  pose proof (word_msb_bound (sum_bits x y)) as B.
  rewrite length_sum_bits in B by assumption.
  apply Z.mod_unique with (q := Z.b2z (carry_out x y)).
  - left. exact B.
  - lia.
Qed.

Lemma word_lsb_bound (bs : list bool) :
  0 <= word_lsb bs < 2 ^ Z.of_nat (length bs).
Proof.
  induction bs as [|b bs IH].
  - cbn. lia.
  - cbn [word_lsb length].
    rewrite Nat2Z.inj_succ, Z.pow_succ_r by lia.
    destruct b; cbn [Z.b2z]; lia.
Qed.

Lemma length_sum_lsb (c : bool) (x y : list bool) :
  length x = length y -> length (sum_lsb c x y) = length x.
Proof.
  revert c y. induction x as [|a x IH]; intros c [|b y] H;
    try discriminate H; [reflexivity|].
  cbn [sum_lsb length]. rewrite IH; [reflexivity|]. simpl in H. lia.
Qed.

Lemma add_bits_lsb (c : bool) (x y : list bool) :
  length x = length y ->
  word_lsb (sum_lsb c x y)
  + 2 ^ Z.of_nat (length x) * Z.b2z (carry_out_lsb c x y)
  = word_lsb x + word_lsb y + Z.b2z c.
Proof.
  revert c y. induction x as [|a x IH]; intros c [|b y] H;
    try discriminate H.
  - cbn [sum_lsb carry_out_lsb word_lsb length].
    change (2 ^ Z.of_nat 0) with 1. lia.
  - assert (Hl : length x = length y) by (simpl in H; lia).
    cbn [sum_lsb carry_out_lsb word_lsb length].
    specialize (IH (maj a b c) y Hl).
    rewrite Nat2Z.inj_succ, Z.pow_succ_r by lia.
    set (p := 2 ^ Z.of_nat (length x)) in *.
    assert (Hbits : Z.b2z (xor3 a b c) + 2 * Z.b2z (maj a b c)
                    = Z.b2z a + Z.b2z b + Z.b2z c)
      by (destruct a, b, c; reflexivity).
    rewrite <- Z.mul_assoc.
    set (q := p * Z.b2z (carry_out_lsb (maj a b c) x y)) in *.
    lia.
Qed.

Lemma sum_lsb_word (x y : list bool) :
  length x = length y ->
  word_lsb (sum_lsb false x y)
  = (word_lsb x + word_lsb y) mod 2 ^ Z.of_nat (length x).
Proof.
  intros H. pose proof (add_bits_lsb false x y H) as E.
  pose proof (word_lsb_bound (sum_lsb false x y)) as B.
  rewrite length_sum_lsb in B by assumption.
  apply Z.mod_unique with (q := Z.b2z (carry_out_lsb false x y)).
  - left. exact B.
  - cbn [Z.b2z] in E. lia.
Qed.

(** ** Loops that extend a list of constraints *)

Lemma getitem_nth {A : Type} (l : list A) (i : nat) (d : A) :
  (i < length l)%nat -> Py.getitem l (Z.of_nat i) = Ok (nth i l d).
Proof.
  intros H. apply getitem_nat. apply nth_error_nth'. exact H.
Qed.

Lemma foldM_extend {A C : Type} (body : list C -> A -> result (list C))
  (F : A -> list C) (l : list A) :
  (forall a cs, In a l -> body cs a = Ok (cs ++ F a)) ->
  forall cs0, foldM body l cs0 = Ok (cs0 ++ flat_map F l).
Proof.
  induction l as [|a l IH]; intros H cs0.
  - cbn. rewrite app_nil_r. reflexivity.
  - cbn [foldM flat_map]. rewrite H by (left; reflexivity). cbn [bind].
    rewrite IH by (intros; apply H; right; assumption).
    rewrite app_assoc. reflexivity.
Qed.

(** ** Several additions in the SAT model *)

Section SatSeq.

Variables outputs_ids inputs_ids carries_ids intermediates_ids
  : list (list string).

Let stage_out (i : nat) := nth i outputs_ids [].
Let stage_left (i : nat) :=
  match i with
  | O => nth 0 inputs_ids []
  | S j => nth j outputs_ids []
  end.
Let stage_right (i : nat) := nth (S i) inputs_ids [].
Let stage_carry (i : nat) := nth i carries_ids [].
Let stage_mid (i : nat) := nth i intermediates_ids [].

Hypothesis Hk : (1 <= length outputs_ids)%nat.
Hypothesis Hin : length inputs_ids = S (length outputs_ids).
Hypothesis Hca : length carries_ids = length outputs_ids.
Hypothesis Hmi : length intermediates_ids = length outputs_ids.
Hypothesis Hne_out :
  forall i, (i < length outputs_ids)%nat -> nth i outputs_ids [] <> [].
Hypothesis Hne_in :
  forall i, (i < length inputs_ids)%nat -> nth i inputs_ids [] <> [].
Hypothesis Hne_ca :
  forall i, (i < length carries_ids)%nat -> nth i carries_ids [] <> [].

Lemma sat_modadd_seq_stages :
  exists cs,
    Modadd.sat_modadd_seq outputs_ids inputs_ids carries_ids
      intermediates_ids = Ok cs
    /\ forall rho,
         Sat.eval rho cs = true
         <-> forall i, (i < length outputs_ids)%nat ->
               sat_chain rho (stage_out i) (stage_left i) (stage_right i)
                 (stage_carry i) (stage_mid i).
Proof.
  unfold Modadd.sat_modadd_seq.
  change (Py.getitem outputs_ids 0)
    with (Py.getitem outputs_ids (Z.of_nat 0)).
  change (Py.getitem inputs_ids 0) with (Py.getitem inputs_ids (Z.of_nat 0)).
  change (Py.getitem inputs_ids 1) with (Py.getitem inputs_ids (Z.of_nat 1)).
  change (Py.getitem carries_ids 0)
    with (Py.getitem carries_ids (Z.of_nat 0)).
  change (Py.getitem intermediates_ids 0)
    with (Py.getitem intermediates_ids (Z.of_nat 0)).
  rewrite (getitem_nth outputs_ids 0 []) by lia.
  rewrite (getitem_nth inputs_ids 0 []) by lia.
  rewrite (getitem_nth inputs_ids 1 []) by lia.
  rewrite (getitem_nth carries_ids 0 []) by lia.
  rewrite (getitem_nth intermediates_ids 0 []) by lia.
  cbn [bind].
  destruct (sat_modadd_chain (stage_out 0) (stage_left 0) (stage_right 0)
              (stage_carry 0)) with (intermediate := stage_mid 0)
    as (cs0 & E0 & S0).
  { apply Hne_ca. lia. } { apply Hne_in. lia. } { apply Hne_in. lia. }
  { apply Hne_out. lia. }
  unfold stage_out, stage_left, stage_right, stage_carry, stage_mid in E0.
  rewrite E0. cbn [bind].
  set (F := fun i =>
    unwrap (Modadd.sat_modadd (stage_out i) (stage_left i) (stage_right i)
              (stage_carry i) (stage_mid i))).
  rewrite (foldM_extend _ F).
  - eexists. split; [reflexivity|]. intros rho.
    unfold Sat.eval. rewrite forallb_app, forallb_flat_map, andb_true_iff.
    change (forallb (Sat.eval_clause rho) cs0) with (Sat.eval rho cs0).
    rewrite S0, forallb_forall.
    change (fun a : nat => forallb (Sat.eval_clause rho) (F a))
      with (fun a : nat => Sat.eval rho (F a)).
    split.
    + intros [H0 Hi] [|i] Hlt; [exact H0|].
      specialize (Hi (S i)).
      assert (Hin' : In (S i) (Py.range 1 (length outputs_ids)))
        by (unfold Py.range; apply in_seq; lia).
      specialize (Hi Hin'). unfold F in Hi.
      destruct (sat_modadd_chain (stage_out (S i)) (stage_left (S i))
                  (stage_right (S i)) (stage_carry (S i)))
        with (intermediate := stage_mid (S i)) as (cs & E & Sx).
      { apply Hne_ca. lia. } { apply Hne_out. lia. }
      { apply Hne_in. lia. } { apply Hne_out. lia. }
      rewrite E in Hi. cbn [unwrap] in Hi. apply Sx. exact Hi.
    + intros H. split; [apply (H 0%nat); lia|].
      intros i Hi. unfold Py.range in Hi. apply in_seq in Hi.
      destruct i as [|i]; [lia|]. unfold F.
      destruct (sat_modadd_chain (stage_out (S i)) (stage_left (S i))
                  (stage_right (S i)) (stage_carry (S i)))
        with (intermediate := stage_mid (S i)) as (cs & E & Sx).
      { apply Hne_ca. lia. } { apply Hne_out. lia. }
      { apply Hne_in. lia. } { apply Hne_out. lia. }
      rewrite E. cbn [unwrap]. apply Sx. apply H. lia.
  - intros i cs Hi. unfold Py.range in Hi. apply in_seq in Hi.
    destruct i as [|i]; [lia|]. cbv beta.
    rewrite (getitem_nth outputs_ids (S i) []) by lia.
    replace (Z.of_nat (S i) - 1) with (Z.of_nat i) by lia.
    rewrite (getitem_nth outputs_ids i []) by lia.
    replace (Z.of_nat (S i) + 1) with (Z.of_nat (S (S i))) by lia.
    rewrite (getitem_nth inputs_ids (S (S i)) []) by lia.
    rewrite (getitem_nth carries_ids (S i) []) by lia.
    rewrite (getitem_nth intermediates_ids (S i) []) by lia.
    cbn [bind]. unfold F.
    destruct (sat_modadd_chain (stage_out (S i)) (stage_left (S i))
                (stage_right (S i)) (stage_carry (S i)))
      with (intermediate := stage_mid (S i)) as (cs' & E & Sx).
    { apply Hne_ca. lia. } { apply Hne_out. lia. }
    { apply Hne_in. lia. } { apply Hne_out. lia. }
    unfold stage_out, stage_left, stage_right, stage_carry, stage_mid in *.
    rewrite E. reflexivity.
Qed.

End SatSeq.

(** ** A left fold of additions modulo [m] *)

Lemma sum_list_app (l1 l2 : list Z) :
  sum_list (l1 ++ l2) = sum_list l1 + sum_list l2.
Proof.
  unfold sum_list. induction l1 as [|a l1 IH]; cbn [app fold_right]; lia.
Qed.

Lemma stage_values (m : Z) (f v : nat -> Z) (K : nat) :
  v 0%nat = (f 0%nat + f 1%nat) mod m ->
  (forall i, (S i < K)%nat -> v (S i) = (v i + f (S (S i))) mod m) ->
  forall i, (i < K)%nat -> v i = sum_list (map f (seq 0 (S (S i)))) mod m.
Proof.
  intros H0 HS. induction i as [|i IH]; intros Hi.
  - rewrite H0. cbn. f_equal. lia.
  - rewrite (HS i Hi), IH by lia.
    rewrite (seq_S (S (S i))), map_app, sum_list_app. cbn [Nat.add map].
    unfold sum_list at 3. cbn [fold_right].
    rewrite Z.add_0_r. apply Zplus_mod_idemp_l.
Qed.

Lemma sat_chain_chain (rho : assignment) (out x y carry mid : list string) :
  (length carry <= length mid)%nat ->
  sat_chain rho out x y carry mid -> chain rho out x y carry.
Proof.
  intros Hl (H1 & H2 & H3 & H4). repeat split; try assumption.
  clear H1 H2 H4. revert x y carry mid Hl H3.
  induction out as [|o out IH]; intros [|a x] [|b y] [|c carry] [|m mid] Hl H3;
    cbn [Py.zip4]; try constructor; try (simpl in Hl; lia).
  - cbn [Py.zip5] in H3. apply Forall_cons_iff in H3.
    destruct H3 as [[Hm Ho] _]. unfold result_rel, xor3. rewrite Ho, Hm.
    reflexivity.
  - cbn [Py.zip5] in H3. apply Forall_cons_iff in H3. destruct H3 as [_ H3].
    apply (IH x y carry mid); [simpl in Hl; lia | exact H3].
Qed.

Lemma chain_sum (rho : assignment) (out x y carry : list string) :
  carry <> [] ->
  length x = S (length carry) ->
  length y = S (length carry) ->
  length out = S (length carry) ->
  chain rho out x y carry ->
  word_msb (map rho out)
  = (word_msb (map rho x) + word_msb (map rho y))
      mod 2 ^ Z.of_nat (length out).
Proof.
  intros Hne Hx Hy Ho H.
  apply chain_carries in H; try assumption. destruct H as [_ H].
  rewrite H, sum_bits_word by (rewrite !length_map; lia).
  rewrite length_map, Hx, Ho. reflexivity.
Qed.

(** ** The lists of ids of a MODADD component *)

Lemma length_range (a b : nat) : length (Py.range a b) = (b - a)%nat.
Proof. unfold Py.range. apply length_seq. Qed.

Lemma nth_map_seq {A : Type} (f : nat -> A) (n i : nat) (d : A) :
  (i < n)%nat -> nth i (map f (seq 0 n)) d = f i.
Proof.
  intros H. rewrite (nth_indep _ d (f 0%nat)) by (rewrite length_map, length_seq; lia).
  rewrite map_nth, seq_nth by lia. reflexivity.
Qed.

Lemma length_generate_output_ids (bit_id : string -> nat -> string)
  (c : component) :
  length (snd (generate_output_ids bit_id c)) = output_bit_size c.
Proof.
  unfold generate_output_ids. cbn [snd].
  rewrite length_map, length_range. lia.
Qed.

Lemma length_generate_input_ids (bit_id : string -> nat -> string)
  (c : component) :
  length (input_id_links c) = length (input_bit_positions c) ->
  length (snd (generate_input_ids bit_id c)) = input_bit_size c.
Proof.
  unfold generate_input_ids, input_bit_size. cbn [snd].
  generalize (input_id_links c). generalize (input_bit_positions c).
  induction l as [|p ps IH]; intros [|l ls] H; try discriminate H;
    [reflexivity|].
  cbn [combine flat_map concat fst snd]. rewrite !length_app, length_map.
  rewrite IH by (simpl in H; lia). reflexivity.
Qed.

Lemma length_operand {A : Type} (input_ids : list A) (w k i : nat) :
  length input_ids = (k * w)%nat -> (i < k)%nat ->
  length (operand input_ids w i) = w.
Proof.
  intros Hl Hi. unfold operand, Py.slice.
  rewrite length_firstn, length_skipn, Hl. nia.
Qed.

Section ModaddIds.

Variables (output_ids : list string) (k : nat).
Hypothesis Hk : (2 <= k)%nat.

Lemma length_outputs_ids_of :
  length (Modadd.outputs_ids_of output_ids k) = (k - 1)%nat.
Proof.
  unfold Modadd.outputs_ids_of.
  rewrite length_app, length_map, length_range. cbn [length]. lia.
Qed.

Lemma nth_outputs_ids_of_last :
  nth (k - 2) (Modadd.outputs_ids_of output_ids k) [] = output_ids.
Proof.
  unfold Modadd.outputs_ids_of.
  rewrite app_nth2 by (rewrite length_map, length_range; lia).
  rewrite length_map, length_range.
  replace (k - 2 - (k - 2 - 0))%nat with 0%nat by lia. reflexivity.
Qed.

Lemma length_nth_outputs_ids_of (i : nat) :
  (i < k - 1)%nat ->
  length (nth i (Modadd.outputs_ids_of output_ids k) []) = length output_ids.
Proof.
  intros Hi. destruct (Nat.eq_dec i (k - 2)) as [->|Hne].
  - rewrite nth_outputs_ids_of_last. reflexivity.
  - unfold Modadd.outputs_ids_of, Py.range.
    rewrite app_nth1 by (rewrite length_map, length_seq; lia).
    rewrite nth_map_seq by lia. apply length_map.
Qed.

Lemma length_carries_ids_of :
  length (Modadd.carries_ids_of output_ids k) = (k - 1)%nat.
Proof.
  unfold Modadd.carries_ids_of. rewrite length_map, length_range. lia.
Qed.

Lemma length_nth_carries_ids_of (i : nat) :
  (i < k - 1)%nat ->
  S (length (nth i (Modadd.carries_ids_of output_ids k) []))
  = length output_ids \/ output_ids = [].
Proof.
  intros Hi. unfold Modadd.carries_ids_of, Py.range, Py.but_last.
  rewrite nth_map_seq by lia. rewrite length_map.
  destruct output_ids as [|o os] eqn:E; [right; reflexivity|left].
  rewrite <- E.
  assert (Hex := exists_last (l := output_ids)).
  destruct Hex as (l' & a & ->); [rewrite E; discriminate|].
  rewrite removelast_last, length_app. cbn [length]. lia.
Qed.

Lemma length_intermediates_ids_of :
  length (Modadd.intermediates_ids_of output_ids k) = (k - 1)%nat.
Proof.
  unfold Modadd.intermediates_ids_of. rewrite length_map, length_range. lia.
Qed.

Lemma length_nth_intermediates_ids_of (i : nat) :
  (i < k - 1)%nat ->
  length (nth i (Modadd.intermediates_ids_of output_ids k) [])
  = length output_ids.
Proof.
  intros Hi. unfold Modadd.intermediates_ids_of, Py.range.
  rewrite nth_map_seq by lia. apply length_map.
Qed.

Lemma length_inputs_ids_of (input_ids : list string) (w : nat) :
  length (Modadd.inputs_ids_of input_ids w k) = k.
Proof.
  unfold Modadd.inputs_ids_of. rewrite length_map, length_range. lia.
Qed.

Lemma nth_inputs_ids_of (input_ids : list string) (w i : nat) :
  (i < k)%nat ->
  nth i (Modadd.inputs_ids_of input_ids w k) [] = operand input_ids w i.
Proof.
  intros Hi. unfold Modadd.inputs_ids_of, Py.range.
  rewrite Nat.sub_0_r, nth_map_seq by lia. reflexivity.
Qed.

End ModaddIds.

(** ** MODADD in the SAT model computes the sum of its operands *)

Section SatSound.

Variable bit_id : string -> nat -> string.
Variables (c : component) (k w : nat).
Hypothesis Hwf : well_formed c k w.
Hypothesis Hk : (2 <= k)%nat.
Hypothesis Hw : (2 <= w)%nat.

Let input_ids := snd (generate_input_ids bit_id c).
Let output_ids := snd (generate_output_ids bit_id c).
Let outs := Modadd.outputs_ids_of output_ids k.
Let ins := Modadd.inputs_ids_of input_ids w k.
Let cars := Modadd.carries_ids_of output_ids k.
Let mids := Modadd.intermediates_ids_of output_ids k.

Lemma sat_len_out : length output_ids = w.
Proof.
  unfold output_ids. rewrite length_generate_output_ids. apply Hwf.
Qed.

Lemma sat_len_in : length input_ids = (k * w)%nat.
Proof.
  unfold input_ids. destruct Hwf as (_ & _ & H1 & H2).
  rewrite length_generate_input_ids by assumption. exact H2.
Qed.

Lemma sat_len_car (i : nat) :
  (i < k - 1)%nat -> S (length (nth i cars [])) = w.
Proof.
  intros Hi. destruct (length_nth_carries_ids_of output_ids k Hk i Hi)
    as [E|E].
  - fold cars in E. rewrite E. apply sat_len_out.
  - pose proof sat_len_out as L. rewrite E in L. simpl in L. lia.
Qed.

Lemma sat_stages :
  exists cs,
    Modadd.sat_modadd_seq outs ins cars mids = Ok cs
    /\ forall rho,
         Sat.eval rho cs = true
         <-> forall i, (i < k - 1)%nat ->
               sat_chain rho (nth i outs [])
                 match i with
                 | O => nth 0 ins []
                 | S j => nth j outs []
                 end
                 (nth (S i) ins []) (nth i cars []) (nth i mids []).
Proof.
  pose proof (length_outputs_ids_of output_ids k Hk) as Lo.
  pose proof (length_carries_ids_of output_ids k Hk) as Lc.
  pose proof (length_intermediates_ids_of output_ids k Hk) as Lm.
  pose proof (length_inputs_ids_of k Hk input_ids w) as Li.
  fold outs in Lo. fold cars in Lc. fold mids in Lm. fold ins in Li.
  destruct (sat_modadd_seq_stages outs ins cars mids) as (cs & E & Hst).
  - lia.
  - lia.
  - lia.
  - lia.
  - intros i Hi Hnil.
    pose proof (length_nth_outputs_ids_of output_ids k Hk i) as L.
    fold outs in L. rewrite Hnil, sat_len_out in L. simpl in L. lia.
  - intros i Hi Hnil. unfold ins in Hnil.
    rewrite (nth_inputs_ids_of k Hk) in Hnil by lia.
    pose proof (length_operand input_ids w k i sat_len_in) as L.
    rewrite Hnil in L. simpl in L. lia.
  - intros i Hi Hnil. pose proof (sat_len_car i) as L.
    rewrite Hnil in L. simpl in L. lia.
  - exists cs. split; [exact E|]. intros rho. rewrite Hst, Lo. reflexivity.
Qed.

Lemma sat_stage_sum (rho : assignment) (i : nat) :
  (i < k - 1)%nat ->
  sat_chain rho (nth i outs [])
    match i with
    | O => nth 0 ins []
    | S j => nth j outs []
    end
    (nth (S i) ins []) (nth i cars []) (nth i mids []) ->
  value_msb rho (nth i outs [])
  = (value_msb rho match i with
                   | O => nth 0 ins []
                   | S j => nth j outs []
                   end
     + value_msb rho (operand input_ids w (S i))) mod 2 ^ Z.of_nat w.
Proof.
  intros Hi H.
  pose proof (sat_len_car i Hi) as Lc.
  pose proof (length_nth_outputs_ids_of output_ids k Hk i Hi) as Lo.
  fold outs in Lo. rewrite sat_len_out in Lo.
  pose proof (length_nth_intermediates_ids_of output_ids k Hk i Hi) as Lm.
  fold mids in Lm. rewrite sat_len_out in Lm.
  assert (Ly : length (nth (S i) ins []) = w).
  { unfold ins. rewrite (nth_inputs_ids_of k Hk) by lia.
    apply (length_operand input_ids w k); [apply sat_len_in | lia]. }
  assert (Lx : length match i with
                      | O => nth 0 ins []
                      | S j => nth j outs []
                      end = w).
  { destruct i as [|j].
    - unfold ins. rewrite (nth_inputs_ids_of k Hk) by lia.
      apply (length_operand input_ids w k); [apply sat_len_in | lia].
    - pose proof (length_nth_outputs_ids_of output_ids k Hk j) as L.
      fold outs in L. rewrite L, sat_len_out by lia. reflexivity. }
  apply sat_chain_chain in H; [|lia].
  apply chain_sum in H; try lia.
  - unfold value_msb. rewrite H, Lo. unfold ins.
    rewrite (nth_inputs_ids_of k Hk input_ids w (S i)) by lia. reflexivity.
  - intros E. rewrite E in Lc. simpl in Lc. lia.
Qed.

Lemma sat_constraints_sound :
  exists cs,
    Modadd.sat_constraints bit_id c
    = Ok (concat cars ++ concat mids ++ concat outs, cs)
    /\ (forall rho,
          Sat.eval rho cs = true
          <-> forall i, (i < k - 1)%nat ->
                sat_chain rho (nth i outs [])
                  match i with
                  | O => nth 0 ins []
                  | S j => nth j outs []
                  end
                  (nth (S i) ins []) (nth i cars []) (nth i mids []))
    /\ forall rho,
         Sat.eval rho cs = true ->
         value_msb rho output_ids
         = sum_operands (value_msb rho) input_ids w k mod 2 ^ Z.of_nat w.
Proof.
  destruct sat_stages as (cs & E & Hst).
  exists cs. split; [|split; [exact Hst|]].
  - unfold Modadd.sat_constraints.
    destruct Hwf as (Hd & Ho & _). rewrite Hd. cbn [generate_output_ids fst].
    rewrite Ho.
    fold input_ids output_ids. fold ins cars mids outs.
    rewrite E. reflexivity.
  - intros rho Hs. rewrite Hst in Hs.
    pose (v := fun i => value_msb rho (nth i outs [])).
    pose (f := fun j => value_msb rho (operand input_ids w j)).
    assert (Hv := stage_values (2 ^ Z.of_nat w) f v (k - 1)).
    assert (H0 : v 0%nat = (f 0%nat + f 1%nat) mod 2 ^ Z.of_nat w).
    { unfold v, f. rewrite (sat_stage_sum rho 0) by (try apply Hs; lia).
      unfold ins. rewrite (nth_inputs_ids_of k Hk) by lia. reflexivity. }
    assert (HS : forall i, (S i < k - 1)%nat ->
                   v (S i) = (v i + f (S (S i))) mod 2 ^ Z.of_nat w).
    { intros i Hi. unfold v, f.
      rewrite (sat_stage_sum rho (S i)) by (try apply Hs; lia).
      reflexivity. }
    specialize (Hv H0 HS (k - 2)%nat ltac:(lia)).
    unfold v in Hv. unfold outs in Hv.
    rewrite nth_outputs_ids_of_last in Hv by assumption.
    rewrite Hv. unfold sum_operands, f.
    replace (S (S (k - 2))) with k by lia. reflexivity.
Qed.

End SatSound.

(** ** MODADD in the algebraic model: one addition *)

Lemma lsb_rel_cons (w : nat) (cin a b s c c' : bool) (X Y Z C : list bool) :
  lsb_rel (S (S w)) cin (a :: X) (b :: Y) (s :: Z) (c :: c' :: C)
  <-> c = cin /\ s = xor3 a b c
      /\ lsb_rel (S w) (maj a b c) X Y Z (c' :: C).
Proof.
  unfold lsb_rel. cbn [nth]. split.
  - intros (H1 & H2 & H3). repeat split; auto.
    + apply (H2 0%nat). lia.
    + apply (H3 0%nat). lia.
    + intros i Hi. apply (H2 (S i)). lia.
    + intros i Hi. apply (H3 (S i)). lia.
  - intros (H1 & H2 & H3 & H4 & H5). repeat split; auto.
    + intros [|i] Hi; [exact H2|]. apply H4. lia.
    + intros [|i] Hi; [exact H3|]. apply (H5 i). lia.
Qed.

Lemma lsb_rel_carries (X : list bool) :
  forall (cin : bool) (Y Z C : list bool),
    X <> [] ->
    length Y = length X -> length Z = length X -> length C = length X ->
    lsb_rel (length X) cin X Y Z C
    <-> C = carries_lsb cin X Y /\ Z = sum_lsb cin X Y.
Proof.
  induction X as [|a X IH]; intros cin Y Z C Hne HY HZ HC; [congruence|].
  destruct Y as [|b Y]; try discriminate HY.
  destruct Z as [|s Z]; try discriminate HZ.
  destruct C as [|c C]; try discriminate HC.
  destruct X as [|a' X].
  - destruct Y; try discriminate HY. destruct Z; try discriminate HZ.
    destruct C; try discriminate HC.
    unfold lsb_rel. cbn. split.
    + intros (H1 & H2 & _). rewrite (H2 0%nat) by lia. subst. auto.
    + intros [H1 H2]. injection H1 as ->. injection H2 as ->.
      repeat split; auto.
      * intros [|i] Hi; [reflexivity | lia].
      * intros i Hi. lia.
  - destruct C as [|c' C]; try discriminate HC.
    change (length (a :: a' :: X)) with (S (S (length X))).
    rewrite lsb_rel_cons.
    change (S (length X)) with (length (a' :: X)).
    rewrite IH; try discriminate; try (simpl in *; lia).
    cbn [carries_lsb sum_lsb]. split.
    + intros (-> & -> & -> & ->). split; reflexivity.
    + intros [H1 H2].
      assert (Hinj : forall (u v : bool) l l',
                 u :: l = v :: l' -> u = v /\ l = l')
        by (intros u v l l' E; split; congruence).
      destruct Y as [|b' Y]; try discriminate HY.
      apply Hinj in H1. apply Hinj in H2.
      destruct H1 as [-> H1], H2 as [-> H2]. repeat split; assumption.
Qed.

Lemma eval_pnth (rho : assignment) (l : list Poly.poly) (i : nat) :
  Poly.eval rho (pnth l i) = nth i (map (Poly.eval rho) l) false.
Proof.
  unfold pnth. change false with (Poly.eval rho (Poly.Const false)) at 2.
  rewrite map_nth. reflexivity.
Qed.

Lemma stage_polys_zero (rho : assignment) (w : nat)
  (x y z c : list Poly.poly) :
  Poly.zero rho (stage_polys (S w) x y z c) = true
  <-> lsb_rel (S w) false (map (Poly.eval rho) x) (map (Poly.eval rho) y)
        (map (Poly.eval rho) z) (map (Poly.eval rho) c).
Proof.
  unfold Poly.zero, stage_polys, lsb_rel.
  rewrite forallb_app, forallb_flat_map, andb_true_iff.
  rewrite (forallb_forall _ (Py.range 1 (S w))).
  cbn [forallb Poly.eval pmaj]. rewrite !eval_pnth.
  set (X := map (Poly.eval rho) x). set (Y := map (Poly.eval rho) y).
  set (Z := map (Poly.eval rho) z). set (C := map (Poly.eval rho) c).
  split.
  - intros [H0 H]. rewrite !andb_true_iff, !negb_true_iff in H0.
    destruct H0 as (Hc & Hz & _).
    assert (Hc0 : nth 0 C false = false)
      by (destruct (nth 0 C false); [discriminate Hc | reflexivity]).
    split; [exact Hc0|]. split.
    + intros [|i] Hi.
      * rewrite Hc0 in *. unfold xor3.
        destruct (nth 0 X false), (nth 0 Y false), (nth 0 Z false);
          cbn in Hz |- *; congruence.
      * specialize (H (S i)).
        assert (Hin : In (S i) (Py.range 1 (S w)))
          by (unfold Py.range; apply in_seq; lia).
        specialize (H Hin). cbn [forallb Poly.eval pmaj] in H.
        rewrite !eval_pnth in H. fold X Y Z C in H.
        rewrite !andb_true_iff, !negb_true_iff in H.
        destruct H as (_ & H & _). unfold xor3.
        destruct (nth (S i) X false), (nth (S i) Y false),
          (nth (S i) Z false), (nth (S i) C false); cbn in H |- *; congruence.
    + intros i Hi. specialize (H (S i)).
      assert (Hin : In (S i) (Py.range 1 (S w)))
        by (unfold Py.range; apply in_seq; lia).
      specialize (H Hin). cbn [forallb Poly.eval pmaj] in H.
      rewrite !eval_pnth in H. fold X Y Z C in H.
      rewrite !andb_true_iff, !negb_true_iff in H.
      destruct H as (H & _). replace (S i - 1)%nat with i in H by lia.
      unfold maj.
      destruct (nth (S i) C false), (nth i X false), (nth i Y false),
        (nth i C false); cbn in H |- *; congruence.
  - intros (Hc0 & Hz & Hc). split.
    + rewrite (Hz 0%nat) by lia. rewrite Hc0. unfold xor3.
      destruct (nth 0 X false), (nth 0 Y false); reflexivity.
    + intros i Hi. unfold Py.range in Hi. apply in_seq in Hi.
      destruct i as [|i]; [lia|].
      cbn [forallb Poly.eval pmaj]. rewrite !eval_pnth. fold X Y Z C.
      replace (S i - 1)%nat with i by lia.
      rewrite (Hz (S i)) by lia. rewrite (Hc i) by lia. unfold xor3, maj.
      destruct (nth (S i) X false), (nth (S i) Y false), (nth i X false),
        (nth i Y false), (nth i C false); reflexivity.
Qed.

(** ** MODADD in the algebraic model: the polynomials of a component *)

Lemma getitem_pnth (l : list Poly.poly) (i : nat) :
  (i < length l)%nat -> Py.getitem l (Z.of_nat i) = Ok (pnth l i).
Proof. apply getitem_nth. Qed.

Section Algebraic.

Variables (c : component) (model : algebraic_model) (k w : nat).
Hypothesis Hwf : well_formed c k w.
Hypothesis Hk : (2 <= k)%nat.
Hypothesis Hw : (1 <= w)%nat.

Lemma alg_len_word (tag : string) (n : nat) : length (alg_word c tag n) = w.
Proof using Hwf Hk Hw.
  unfold alg_word. rewrite length_map, length_range.
  destruct Hwf as (_ & -> & _). lia.
Qed.

Lemma alg_len_input : length (alg_input_vars c model) = (k * w)%nat.
Proof using Hwf Hk Hw.
  unfold alg_input_vars. rewrite length_map, length_range.
  destruct Hwf as (_ & _ & _ & ->). lia.
Qed.

Lemma alg_len_output : length (alg_output_vars c model) = w.
Proof using Hwf Hk Hw.
  unfold alg_output_vars. rewrite length_map, length_range.
  destruct Hwf as (_ & -> & _). lia.
Qed.

Lemma alg_len_left (n : nat) : length (alg_left c model n) = w.
Proof using Hwf Hk Hw.
  destruct n as [|n]; cbn [alg_left].
  - unfold Py.slice_to. rewrite length_firstn, alg_len_input.
    destruct Hwf as (_ & -> & _). nia.
  - apply alg_len_word.
Qed.

Lemma alg_len_right (n : nat) :
  (n < k - 1)%nat -> length (alg_right c model n) = w.
Proof using Hwf Hk Hw.
  intros Hn. unfold alg_right, Py.slice.
  rewrite length_firstn, length_skipn, alg_len_input.
  destruct Hwf as (_ & -> & _). nia.
Qed.

Lemma alg_len_result (n : nat) : length (alg_result c model n) = w.
Proof using Hwf Hk Hw.
  unfold alg_result.
  destruct (n =? description_1 c - 1 - 1)%nat;
    [apply alg_len_output | apply alg_len_word].
Qed.

Lemma algebraic_polynomials_stages :
  Modadd.algebraic_polynomials c model
  = Ok (flat_map
          (fun n => stage_polys w (alg_left c model n) (alg_right c model n)
                      (alg_result c model n) (alg_word c "_c" n))
          (Py.range 0 (k - 1))).
Proof using Hwf Hk Hw.
  unfold Modadd.algebraic_polynomials.
  fold (alg_input_vars c model) (alg_output_vars c model).
  assert (Hd : description_1 c = k) by apply Hwf.
  assert (Ho : output_bit_size c = w) by apply Hwf.
  rewrite Hd.
  rewrite (foldM_extend _
             (fun n => stage_polys w (alg_left c model n)
                         (alg_right c model n) (alg_result c model n)
                         (alg_word c "_c" n))); [reflexivity|].
  intros n cs Hn. unfold Py.range in Hn. apply in_seq in Hn.
  cbv beta.
  assert (Hx : (if (n =? 0)%nat
                then Ok (Py.slice_to (alg_input_vars c model)
                           (output_bit_size c))
                else Py.getitem
                       (map (fun n0 =>
                               map (fun i =>
                                      Poly.Var (id c +s "_o"
                                                +s Py.str (Z.of_nat n0)
                                                +s "_" +s Py.str (Z.of_nat i)))
                                 (Py.range 0 (output_bit_size c)))
                          (Py.range 0 (k - 1 - 1)))
                       (Z.of_nat n - 1))
               = Ok (alg_left c model n)).
  { destruct n as [|n]; [reflexivity|].
    change (S n =? 0)%nat with false. cbv iota.
    replace (Z.of_nat (S n) - 1) with (Z.of_nat n) by lia.
    rewrite (getitem_nth _ n []) by (rewrite length_map, length_range; lia).
    unfold Py.range. rewrite nth_map_seq by lia. reflexivity. }
  rewrite Hx. cbn [bind].
  assert (Hz : (if (n =? k - 1 - 1)%nat
                then Ok (alg_output_vars c model)
                else Py.getitem
                       (map (fun n0 =>
                               map (fun i =>
                                      Poly.Var (id c +s "_o"
                                                +s Py.str (Z.of_nat n0)
                                                +s "_" +s Py.str (Z.of_nat i)))
                                 (Py.range 0 (output_bit_size c)))
                          (Py.range 0 (k - 1 - 1)))
                       (Z.of_nat n))
               = Ok (alg_result c model n)).
  { unfold alg_result. rewrite Hd.
    destruct (Nat.eqb_spec n (k - 1 - 1)) as [E|E]; [reflexivity|].
    rewrite (getitem_nth _ n []) by (rewrite length_map, length_range; lia).
    unfold Py.range. rewrite nth_map_seq by lia. reflexivity. }
  rewrite Hz. cbn [bind].
  rewrite (getitem_nth _ n []) by (rewrite length_map, length_range; lia).
  cbn [bind].
  match goal with
  | |- context [nth n ?l []] =>
      replace (nth n l []) with (alg_word c "_c" n)
        by (unfold alg_word, Py.range; rewrite !Nat.sub_0_r;
            rewrite nth_map_seq by lia; reflexivity)
  end.
  fold (alg_right c model n).
  set (x := alg_left c model n). set (y := alg_right c model n).
  set (z := alg_result c model n). set (cr := alg_word c "_c" n).
  assert (Lx : length x = w) by apply alg_len_left.
  assert (Ly : length y = w) by (apply alg_len_right; lia).
  assert (Lz : length z = w) by apply alg_len_result.
  assert (Lc : length cr = w) by apply alg_len_word.
  change 0 with (Z.of_nat 0).
  rewrite !getitem_pnth by lia. cbn [bind].
  rewrite Ho.
  rewrite (foldM_extend _
             (fun i =>
                [Poly.Add (pnth cr i)
                   (pmaj (pnth x (i - 1)) (pnth y (i - 1)) (pnth cr (i - 1)));
                 Poly.Add (Poly.Add (Poly.Add (pnth x i) (pnth y i))
                             (pnth z i)) (pnth cr i)])).
  - unfold stage_polys. rewrite <- !app_assoc. reflexivity.
  - intros i ps Hi. unfold Py.range in Hi. apply in_seq in Hi.
    cbv beta. destruct i as [|i]; [lia|].
    replace (Z.of_nat (S i) - 1) with (Z.of_nat i) by lia.
    rewrite !getitem_pnth by lia. cbn [bind].
    replace (S i - 1)%nat with i by lia.
    rewrite <- app_assoc. reflexivity.
Qed.

End Algebraic.

(** ** MODADD in the algebraic model computes the sum, index 0 least
       significant *)

Lemma pvalue_lsb_vars (rho : assignment) (ids : list string) :
  pvalue_lsb rho (map Poly.Var ids) = value_lsb rho ids.
Proof.
  unfold pvalue_lsb, value_lsb. rewrite map_map. reflexivity.
Qed.

Lemma slice_map {A B : Type} (f : A -> B) (l : list A) (a b : nat) :
  Py.slice (map f l) a b = map f (Py.slice l a b).
Proof.
  unfold Py.slice. rewrite skipn_map, firstn_map. reflexivity.
Qed.

Lemma zero_flat_map {A : Type} (rho : assignment) (F : A -> list Poly.poly)
  (l : list A) :
  Poly.zero rho (flat_map F l) = forallb (fun a => Poly.zero rho (F a)) l.
Proof. unfold Poly.zero. apply forallb_flat_map. Qed.

Section AlgebraicSound.

Variables (c : component) (model : algebraic_model) (k w : nat).
Hypothesis Hwf : well_formed c k w.
Hypothesis Hk : (2 <= k)%nat.
Hypothesis Hw : (1 <= w)%nat.

Lemma alg_vars_names :
  alg_input_vars c model = map Poly.Var (alg_input_names c model)
  /\ alg_output_vars c model = map Poly.Var (alg_output_names c model).
Proof.
  unfold alg_input_vars, alg_output_vars, alg_input_names, alg_output_names.
  rewrite !map_map. split; reflexivity.
Qed.

Lemma alg_left_operand :
  alg_left c model 0
  = map Poly.Var (operand (alg_input_names c model) w 0).
Proof.
  cbn [alg_left]. destruct alg_vars_names as [-> _].
  destruct Hwf as (_ & -> & _).
  unfold operand, Py.slice_to, Py.slice. cbn [Nat.mul skipn].
  rewrite firstn_map. f_equal. f_equal. lia.
Qed.

Lemma alg_right_operand (n : nat) :
  alg_right c model n
  = map Poly.Var (operand (alg_input_names c model) w (S n)).
Proof.
  unfold alg_right. destruct alg_vars_names as [-> _].
  destruct Hwf as (_ & -> & _).
  rewrite slice_map. unfold operand, Py.slice. f_equal.
  replace ((n + 1) * w)%nat with (S n * w)%nat by lia.
  f_equal. lia.
Qed.

Lemma alg_stage_sum (rho : assignment) (n : nat) :
  (n < k - 1)%nat ->
  Poly.zero rho
    (stage_polys w (alg_left c model n) (alg_right c model n)
       (alg_result c model n) (alg_word c "_c" n)) = true ->
  pvalue_lsb rho (alg_result c model n)
  = (pvalue_lsb rho (alg_left c model n)
     + pvalue_lsb rho (alg_right c model n)) mod 2 ^ Z.of_nat w.
Proof.
  intros Hn H.
  pose proof (alg_len_left c model k w Hwf Hk Hw n) as Lx.
  pose proof (alg_len_right c model k w Hwf Hk Hw n Hn) as Ly.
  pose proof (alg_len_result c model k w Hwf Hk Hw n) as Lz.
  pose proof (alg_len_word c k w Hwf Hk Hw "_c" n) as Lc.
  destruct w as [|w']; [lia|].
  apply stage_polys_zero in H.
  rewrite <- Lx in H at 1. rewrite <- (length_map (Poly.eval rho)) in H.
  apply lsb_rel_carries in H; try (rewrite !length_map; lia).
  - destruct H as [_ H]. unfold pvalue_lsb. rewrite H.
    rewrite sum_lsb_word by (rewrite !length_map; lia).
    rewrite length_map, Lx. reflexivity.
  - intros E. apply (f_equal (@length bool)) in E.
    rewrite length_map in E. simpl in E. lia.
Qed.

Lemma algebraic_polynomials_sound :
  exists ps,
    Modadd.algebraic_polynomials c model = Ok ps
    /\ forall rho,
         Poly.zero rho ps = true ->
         value_lsb rho (alg_output_names c model)
         = sum_operands (value_lsb rho) (alg_input_names c model) w k
             mod 2 ^ Z.of_nat w.
Proof.
  eexists. split; [apply (algebraic_polynomials_stages c model k w Hwf Hk Hw)|].
  intros rho Hz. rewrite zero_flat_map, forallb_forall in Hz.
  assert (Hs : forall n, (n < k - 1)%nat ->
    pvalue_lsb rho (alg_result c model n)
    = (pvalue_lsb rho (alg_left c model n)
       + pvalue_lsb rho (alg_right c model n)) mod 2 ^ Z.of_nat w).
  { intros n Hn. apply alg_stage_sum; [exact Hn|]. apply Hz.
    unfold Py.range. apply in_seq. lia. }
  pose (v := fun n => pvalue_lsb rho (alg_result c model n)).
  pose (f := fun j => value_lsb rho (operand (alg_input_names c model) w j)).
  assert (Hd : description_1 c = k) by apply Hwf.
  assert (H0 : v 0%nat = (f 0%nat + f 1%nat) mod 2 ^ Z.of_nat w).
  { unfold v, f. rewrite Hs by lia.
    rewrite alg_left_operand, alg_right_operand, !pvalue_lsb_vars.
    reflexivity. }
  assert (HS : forall i, (S i < k - 1)%nat ->
                 v (S i) = (v i + f (S (S i))) mod 2 ^ Z.of_nat w).
  { intros i Hi. unfold v, f. rewrite Hs by lia.
    rewrite alg_right_operand, pvalue_lsb_vars. cbn [alg_left].
    unfold alg_result. rewrite Hd.
    destruct (Nat.eqb_spec i (k - 1 - 1)) as [E|E]; [lia|]. reflexivity. }
  pose proof (stage_values (2 ^ Z.of_nat w) f v (k - 1) H0 HS (k - 2)%nat
                ltac:(lia)) as Hv.
  unfold v, alg_result in Hv. rewrite Hd in Hv.
  replace (k - 2 =? k - 1 - 1)%nat with true in Hv
    by (symmetry; apply Nat.eqb_eq; lia).
  destruct alg_vars_names as [_ En]. rewrite En, pvalue_lsb_vars in Hv.
  rewrite Hv. unfold sum_operands, f.
  replace (S (S (k - 2))) with k by lia. reflexivity.
Qed.

End AlgebraicSound.

(** ** MODADD in the CP model: one two-term addition *)

Lemma mapM_ok {A B : Type} (f : A -> result B) (g : A -> B) (l : list A) :
  (forall a, In a l -> f a = Ok (g a)) -> mapM f l = Ok (map g l).
Proof.
  induction l as [|a l IH]; intros H; [reflexivity|].
  cbn [mapM map]. rewrite H by (left; reflexivity). cbn [bind].
  rewrite IH by (intros; apply H; right; assumption). reflexivity.
Qed.

Lemma carry_out_skipn (X Y : list bool) (i : nat) :
  length X = length Y -> (i < length X)%nat ->
  carry_out (skipn i X) (skipn i Y)
  = maj (nth i X false) (nth i Y false)
      (carry_out (skipn (S i) X) (skipn (S i) Y)).
Proof.
  revert Y i. induction X as [|a X IH]; intros [|b Y] i HL Hi;
    try discriminate HL; [simpl in Hi; lia|].
  destruct i as [|i]; [reflexivity|].
  cbn [skipn nth]. apply IH; simpl in *; lia.
Qed.

Lemma nth_sum_bits (X Y : list bool) (i : nat) :
  length X = length Y -> (i < length X)%nat ->
  nth i (sum_bits X Y) false
  = xor3 (nth i X false) (nth i Y false)
      (carry_out (skipn (S i) X) (skipn (S i) Y)).
Proof.
  revert Y i. induction X as [|a X IH]; intros [|b Y] i HL Hi;
    try discriminate HL; [simpl in Hi; lia|].
  destruct i as [|i]; [reflexivity|].
  cbn [sum_bits skipn nth]. apply IH; simpl in *; lia.
Qed.

Lemma nth_cp_bits (sigma : Cp.store) (a : string) (w i : nat) :
  (i < w)%nat -> nth i (cp_bits sigma a w) false = cp_bit sigma a i.
Proof. intros H. unfold cp_bits. apply nth_map_seq. exact H. Qed.

Lemma length_cp_bits (sigma : Cp.store) (a : string) (w : nat) :
  length (cp_bits sigma a w) = w.
Proof. unfold cp_bits. rewrite length_map, length_seq. reflexivity. Qed.

Lemma bit_value (z : Z) : z = 0 \/ z = 1 -> z = Z.b2z (z =? 1).
Proof. intros [-> | ->]; reflexivity. Qed.

Section TwoTerms.

Variables (sigma : Cp.store) (input_1 input_2 out : string) (w : nat).
Variables (cs0 : list Cp.constraint) (ds0 : list Cp.declaration).
Hypothesis Hw : (2 <= w)%nat.
Hypothesis Hmodel :
  Forall (Cp.holds sigma)
    (snd (Modadd.cp_twoterms input_1 input_2 out w cs0 ds0)).
Hypothesis H1 : bits01 sigma input_1 w.
Hypothesis H2 : bits01 sigma input_2 w.

Let carry := "carry_" +s out.
Let X := cp_bits sigma input_1 w.
Let Y := cp_bits sigma input_2 w.

Lemma twoterms_constraints :
  (forall n, (1 <= n < w - 1)%nat ->
     sigma carry (Z.of_nat n)
     = (sigma input_1 (Z.of_nat n) * sigma input_2 (Z.of_nat n)
        + sigma input_1 (Z.of_nat n) * sigma carry (Z.of_nat n + 1)
        + sigma carry (Z.of_nat n + 1) * sigma input_2 (Z.of_nat n)) mod 2)
  /\ sigma carry (Z.of_nat w - 1)
     = (sigma input_1 (Z.of_nat w - 1) * sigma input_2 (Z.of_nat w - 1))
         mod 2
  /\ (forall n, (n < w - 1)%nat ->
        sigma out (Z.of_nat n)
        = (sigma input_1 (Z.of_nat n) + sigma input_2 (Z.of_nat n)
           + sigma carry (Z.of_nat n + 1)) mod 2)
  /\ sigma out (Z.of_nat w - 1)
     = (sigma input_1 (Z.of_nat w - 1) + sigma input_2 (Z.of_nat w - 1))
         mod 2
  /\ Forall (Cp.holds sigma) cs0.
Proof using Hw Hmodel.
  unfold Modadd.cp_twoterms in Hmodel. cbn [snd] in Hmodel.
  rewrite !Forall_app in Hmodel.
  destruct Hmodel as ((((H0 & Ha) & Hb) & Hc) & Hd).
  rewrite Forall_map, Forall_forall in Ha, Hc.
  repeat split.
  - intros n Hn. apply (Ha n). unfold Py.range. apply in_seq. lia.
  - inversion Hb; subst. assumption.
  - intros n Hn. apply (Hc n). unfold Py.range. apply in_seq. lia.
  - inversion Hd; subst. assumption.
  - exact H0.
Qed.

Lemma twoterms_carry (j : nat) :
  (j < w - 1)%nat ->
  sigma carry (Z.of_nat (w - 1 - j))
  = Z.b2z (carry_out (skipn (w - 1 - j) X) (skipn (w - 1 - j) Y)).
Proof using Hw Hmodel H1 H2.
  destruct twoterms_constraints as (Ha & Hb & _).
  assert (LX : length X = w) by apply length_cp_bits.
  assert (LY : length Y = w) by apply length_cp_bits.
  induction j as [|j IH]; intros Hj.
  - rewrite Nat.sub_0_r.
    rewrite carry_out_skipn by lia.
    rewrite (skipn_all2 X), (skipn_all2 Y) by lia. cbn [carry_out].
    unfold X, Y. rewrite !nth_cp_bits by lia. unfold cp_bit.
    replace (Z.of_nat (w - 1)) with (Z.of_nat w - 1) by lia. rewrite Hb.
    specialize (H1 (w - 1)%nat ltac:(lia)).
    specialize (H2 (w - 1)%nat ltac:(lia)).
    replace (Z.of_nat (w - 1)) with (Z.of_nat w - 1) in H1, H2 by lia.
    destruct H1 as [-> | ->], H2 as [-> | ->]; reflexivity.
  - rewrite carry_out_skipn by lia.
    replace (S (w - 1 - S j)) with (w - 1 - j)%nat by lia.
    rewrite (Ha (w - 1 - S j)%nat) by lia.
    replace (Z.of_nat (w - 1 - S j) + 1) with (Z.of_nat (w - 1 - j)) by lia.
    unfold X, Y. rewrite !nth_cp_bits by lia. unfold cp_bit.
    specialize (H1 (w - 1 - S j)%nat ltac:(lia)).
    specialize (H2 (w - 1 - S j)%nat ltac:(lia)).
    rewrite IH by lia.
    destruct H1 as [-> | ->], H2 as [-> | ->];
      destruct (carry_out _ _); reflexivity.
Qed.

Lemma twoterms_sum :
  bits01 sigma out w
  /\ cp_bits sigma out w = sum_bits X Y
  /\ cp_value sigma out w
     = (cp_value sigma input_1 w + cp_value sigma input_2 w)
         mod 2 ^ Z.of_nat w.
Proof using Hw Hmodel H1 H2.
  destruct twoterms_constraints as (_ & _ & Hc & Hd & _).
  assert (LX : length X = w) by apply length_cp_bits.
  assert (LY : length Y = w) by apply length_cp_bits.
  assert (Hout : forall i, (i < w)%nat ->
            sigma out (Z.of_nat i) = Z.b2z (nth i (sum_bits X Y) false)).
  { intros i Hi. rewrite nth_sum_bits by lia.
    unfold X, Y. rewrite !nth_cp_bits by lia. fold X Y. unfold cp_bit.
    pose proof (H1 i Hi) as B1. pose proof (H2 i Hi) as B2.
    destruct (Nat.eq_dec i (w - 1)) as [->|Hne].
    - rewrite (skipn_all2 X), (skipn_all2 Y) by lia. cbn [carry_out].
      replace (Z.of_nat (w - 1)) with (Z.of_nat w - 1) in * by lia.
      rewrite Hd. destruct B1 as [-> | ->], B2 as [-> | ->]; reflexivity.
    - rewrite Hc by lia.
      replace (Z.of_nat i + 1) with (Z.of_nat (w - 1 - (w - 2 - i))) by lia.
      rewrite twoterms_carry by lia.
      replace (w - 1 - (w - 2 - i))%nat with (S i) by lia.
      destruct B1 as [-> | ->], B2 as [-> | ->];
        destruct (carry_out _ _); reflexivity. }
  assert (Hbits : cp_bits sigma out w = sum_bits X Y).
  { apply (nth_ext _ _ false false).
    - rewrite length_cp_bits, length_sum_bits; lia.
    - intros i Hi. rewrite length_cp_bits in Hi.
      rewrite nth_cp_bits by lia. unfold cp_bit. rewrite Hout by lia.
      destruct (nth i (sum_bits X Y) false); reflexivity. }
  split; [|split; [exact Hbits|]].
  - intros i Hi. rewrite Hout by lia.
    destruct (nth i (sum_bits X Y) false); [right | left]; reflexivity.
  - unfold cp_value. rewrite Hbits, sum_bits_word by lia.
    rewrite LX. reflexivity.
Qed.

End TwoTerms.

(** ** MODADD in the CP model: two and three operands *)

Lemma length_cp_all_inputs (c : component) :
  length (input_id_links c) = length (input_bit_positions c) ->
  length (cp_all_inputs c) = input_bit_size c.
Proof.
  unfold cp_all_inputs, input_bit_size.
  generalize (input_id_links c). generalize (input_bit_positions c).
  induction l as [|p ps IH]; intros [|l ls] H; try discriminate H;
    [reflexivity|].
  cbn [combine flat_map concat fst snd]. rewrite !length_app, length_map.
  rewrite IH by (simpl in H; lia). reflexivity.
Qed.

Section CpPre.

Variables (c : component) (k w : nat).
Hypothesis Hwf : well_formed c k w.
Hypothesis Hk : (1 <= k)%nat.

Lemma cp_len_inputs : length (cp_all_inputs c) = (k * w)%nat.
Proof using Hwf Hk.
  destruct Hwf as (_ & _ & H1 & H2).
  rewrite length_cp_all_inputs by assumption. exact H2.
Qed.

Lemma cp_floordiv : Py.floordiv (length (cp_all_inputs c)) k = Ok w.
Proof using Hwf Hk.
  rewrite cp_len_inputs. unfold Py.floordiv.
  destruct k as [|k']; [lia|].
  rewrite (Nat.mul_comm (S k') w), Nat.div_mul by lia. reflexivity.
Qed.

Lemma cp_pre_loop (l : list nat) :
  (forall i, In i l -> (i < k)%nat) ->
  forall ds0 cs0,
    foldM
      (fun (st : list Cp.declaration * list Cp.constraint) i =>
         let cp_declarations :=
           fst st ++ [Cp.Array01 0 (Z.of_nat w - 1)
                        (Modadd.pre (id c) (Z.of_nat i))] in
         more <- mapM
                   (fun j =>
                      source <- Py.getitem (cp_all_inputs c)
                                  (Z.of_nat (i * w + j)) ;;
                      Ok (Cp.Eq (Cp.Elem (Modadd.pre (id c) (Z.of_nat i))
                                   (Z.of_nat j))
                            source))
                   (Py.range 0 w) ;;
         Ok (cp_declarations, snd st ++ more))
      l (ds0, cs0)
    = Ok (ds0 ++ map (pre_declaration c w) l,
          cs0 ++ flat_map (pre_equations c w) l).
Proof using Hwf Hk.
  induction l as [|i l IH]; intros Hl ds0 cs0.
  - cbn. rewrite !app_nil_r. reflexivity.
  - cbn [foldM fst snd].
    rewrite (mapM_ok _
               (fun j =>
                  Cp.Eq (Cp.Elem (Modadd.pre (id c) (Z.of_nat i))
                           (Z.of_nat j))
                    (nth (i * w + j) (cp_all_inputs c) (Cp.Lit 0)))).
    + cbn [bind]. rewrite IH by (intros; apply Hl; right; assumption).
      cbn [map flat_map]. rewrite <- !app_assoc.
      unfold pre_equations at 2, Py.range. rewrite Nat.sub_0_r.
      reflexivity.
    + intros j Hj. unfold Py.range in Hj. apply in_seq in Hj.
      assert (Hi : (i < k)%nat) by (apply Hl; left; reflexivity).
      rewrite (getitem_nth _ _ (Cp.Lit 0)) by (rewrite cp_len_inputs; nia).
      reflexivity.
Qed.

Lemma cp_pre_bits (sigma : Cp.store) (i : nat) :
  (i < k)%nat ->
  Forall (Cp.holds sigma) (pre_equations c w i) ->
  cp_bits sigma (Modadd.pre (id c) (Z.of_nat i)) w
  = map (fun e => Cp.eval_expr sigma e =? 1)
      (operand (cp_all_inputs c) w i).
Proof using Hwf Hk.
  intros Hi H. unfold pre_equations in H.
  rewrite Forall_map, Forall_forall in H.
  assert (Lo : length (operand (cp_all_inputs c) w i) = w)
    by (apply (length_operand _ w k); [apply cp_len_inputs | exact Hi]).
  apply (nth_ext _ _ false false).
  - rewrite length_cp_bits, length_map, Lo. reflexivity.
  - intros j Hj. rewrite length_cp_bits in Hj.
    rewrite nth_cp_bits by exact Hj. unfold cp_bit.
    specialize (H j ltac:(apply in_seq; lia)).
    cbn [Cp.holds Cp.eval_expr] in H. rewrite H.
    change false with ((fun e => Cp.eval_expr sigma e =? 1) (Cp.Lit 0)).
    rewrite map_nth. cbv beta. f_equal. f_equal.
    unfold operand, Py.slice.
    rewrite nth_firstn.
    destruct (Nat.ltb_spec j ((i + 1) * w - i * w)); [|nia].
    rewrite nth_skipn. reflexivity.
Qed.

End CpPre.

Section CpSound.

Variables (c : component) (w : nat).
Hypothesis Hw : (2 <= w)%nat.

Let pre (i : nat) := Modadd.pre (id c) (Z.of_nat i).

Lemma cp_constraints_two :
  well_formed c 2 w ->
  Modadd.cp_constraints c
  = Ok (Modadd.cp_twoterms (pre 1) (pre 0) (id c) w
          (pre_equations c w 0 ++ pre_equations c w 1)
          [pre_declaration c w 0; pre_declaration c w 1]).
Proof using Hw.
  intros Hwf. unfold Modadd.cp_constraints. fold (cp_all_inputs c).
  assert (Hd : description_1 c = 2%nat) by apply Hwf.
  assert (Ho : output_bit_size c = w) by apply Hwf.
  rewrite Hd, Ho, (cp_floordiv c 2 w Hwf) by lia. cbn [bind].
  change (Py.range 0 2) with [0%nat; 1%nat].
  rewrite (cp_pre_loop c 2 w Hwf) by (try lia; intros i [<-|[<-|[]]]; lia).
  cbn [bind fst snd app map flat_map Py.range Nat.sub Nat.mul Nat.add seq
         fold_left].
  rewrite app_nil_r. reflexivity.
Qed.

Lemma cp_constraints_three :
  well_formed c 3 w ->
  Modadd.cp_constraints c
  = Ok (let st :=
          Modadd.cp_twoterms (pre 2) (pre 1) (pre 3) w
            (pre_equations c w 0 ++ pre_equations c w 1
             ++ pre_equations c w 2)
            [pre_declaration c w 0; pre_declaration c w 1;
             pre_declaration c w 2; pre_declaration c w 3] in
        Modadd.cp_twoterms (pre 3) (pre 0) (id c) w (snd st) (fst st)).
Proof using Hw.
  intros Hwf. unfold Modadd.cp_constraints. fold (cp_all_inputs c).
  assert (Hd : description_1 c = 3%nat) by apply Hwf.
  assert (Ho : output_bit_size c = w) by apply Hwf.
  rewrite Hd, Ho, (cp_floordiv c 3 w Hwf) by lia. cbn [bind].
  change (Py.range 0 3) with [0%nat; 1%nat; 2%nat].
  rewrite (cp_pre_loop c 3 w Hwf)
    by (try lia; intros i [<-|[<-|[<-|[]]]]; lia).
  cbn [bind fst snd app map flat_map Py.range Nat.sub Nat.mul Nat.add seq
         fold_left].
  rewrite app_nil_r. reflexivity.
Qed.

Lemma declared_bits01 (sigma : Cp.store) (a : string) :
  Cp.declared sigma (Cp.Array01 0 (Z.of_nat w - 1) a) -> bits01 sigma a w.
Proof. intros H i Hi. apply H. lia. Qed.

Lemma cp_sound_two (sigma : Cp.store) :
  well_formed c 2 w ->
  exists ds cs,
    Modadd.cp_constraints c = Ok (ds, cs)
    /\ (Cp.model sigma ds cs ->
        cp_value sigma (id c) w
        = sum_operands (cp_word sigma) (cp_all_inputs c) w 2
            mod 2 ^ Z.of_nat w).
Proof using Hw.
  intros Hwf. rewrite (cp_constraints_two Hwf).
  eexists. eexists. split; [f_equal; apply surjective_pairing|].
  intros [Hds Hcs].
  unfold Modadd.cp_twoterms in Hds. cbn [fst] in Hds.
  apply Forall_app in Hds. destruct Hds as [Hds _].
  inversion Hds as [|d0 ds' D0 Hds']; subst.
  inversion Hds' as [|d1 ds'' D1 _]; subst.
  apply declared_bits01 in D0, D1.
  pose proof (twoterms_constraints sigma _ _ _ w _ _ Hw Hcs)
    as (_ & _ & _ & _ & Hpre).
  apply Forall_app in Hpre. destruct Hpre as [P0 P1].
  pose proof (twoterms_sum sigma _ _ _ w _ _ Hw Hcs D1 D0) as (_ & _ & Hv).
  rewrite Hv. unfold cp_value, pre.
  rewrite (cp_pre_bits c 2 w Hwf ltac:(lia) sigma 0) by (try lia; assumption).
  rewrite (cp_pre_bits c 2 w Hwf ltac:(lia) sigma 1) by (try lia; assumption).
  unfold sum_operands, sum_list, cp_word. cbn [seq map fold_right].
  f_equal. lia.
Qed.

Lemma cp_sound_three (sigma : Cp.store) :
  well_formed c 3 w ->
  exists ds cs,
    Modadd.cp_constraints c = Ok (ds, cs)
    /\ (Cp.model sigma ds cs ->
        cp_value sigma (id c) w
        = sum_operands (cp_word sigma) (cp_all_inputs c) w 3
            mod 2 ^ Z.of_nat w).
Proof using Hw.
  intros Hwf. rewrite (cp_constraints_three Hwf).
  eexists. eexists. split; [f_equal; apply surjective_pairing|].
  cbv zeta. intros [Hds Hcs].
  unfold Modadd.cp_twoterms at 1 in Hds. cbn [fst] in Hds.
  apply Forall_app in Hds. destruct Hds as [Hds _].
  unfold Modadd.cp_twoterms in Hds. cbn [fst] in Hds.
  apply Forall_app in Hds. destruct Hds as [Hds _].
  inversion Hds as [|d0 ds0 D0 Hds0]; subst.
  inversion Hds0 as [|d1 ds1 D1 Hds1]; subst.
  inversion Hds1 as [|d2 ds2 D2 Hds2]; subst.
  inversion Hds2 as [|d3 ds3 D3 _]; subst.
  apply declared_bits01 in D0, D1, D2, D3.
  pose proof (twoterms_constraints sigma _ _ _ w _ _ Hw Hcs)
    as (_ & _ & _ & _ & Hcs1).
  pose proof (twoterms_constraints sigma _ _ _ w _ _ Hw Hcs1)
    as (_ & _ & _ & _ & Hpre).
  apply Forall_app in Hpre. destruct Hpre as [P0 Hpre].
  apply Forall_app in Hpre. destruct Hpre as [P1 P2].
  pose proof (twoterms_sum sigma _ _ _ w _ _ Hw Hcs1 D2 D1)
    as (_ & _ & Hv1).
  pose proof (twoterms_sum sigma _ _ _ w _ _ Hw Hcs D3 D0) as (_ & _ & Hv).
  rewrite Hv, Hv1. unfold cp_value, pre.
  rewrite (cp_pre_bits c 3 w Hwf ltac:(lia) sigma 0) by (try lia; assumption).
  rewrite (cp_pre_bits c 3 w Hwf ltac:(lia) sigma 1) by (try lia; assumption).
  rewrite (cp_pre_bits c 3 w Hwf ltac:(lia) sigma 2) by (try lia; assumption).
  unfold sum_operands, sum_list, cp_word. cbn [seq map fold_right].
  rewrite Zplus_mod_idemp_l. f_equal. lia.
Qed.

End CpSound.

(** ** The relations of the chain, by index *)

Lemma zip5_split (rho : assignment) (out : list string) :
  forall x y carry mid : list string,
    Forall (intermediate_rel rho) (Py.zip5 out x y carry mid)
    -> Forall (mid_rel rho) (Py.zip4 x y carry (firstn (length out) mid)).
Proof.
  induction out as [|o out IH]; intros [|a x] [|b y] [|c carry] [|m mid] H;
    cbn [Py.zip4 firstn length]; try constructor.
  - cbn [Py.zip5] in H. apply Forall_cons_iff in H. apply H.
  - cbn [Py.zip5] in H. apply Forall_cons_iff in H. apply IH, H.
Qed.

Lemma zip5_join (rho : assignment) (out : list string) :
  forall x y carry mid : list string,
    Forall (result_rel rho) (Py.zip4 out x y carry) ->
    Forall (mid_rel rho) (Py.zip4 x y carry (firstn (length out) mid)) ->
    (length carry <= length mid)%nat ->
    Forall (intermediate_rel rho) (Py.zip5 out x y carry mid).
Proof.
  induction out as [|o out IH]; intros [|a x] [|b y] [|c carry] [|m mid] H1 H2 L;
    cbn [Py.zip5]; try constructor; try (simpl in L; lia).
  - cbn [Py.zip4 firstn length] in H1, H2.
    apply Forall_cons_iff in H1. apply Forall_cons_iff in H2.
    destruct H1 as [H1 _], H2 as [H2 _]. unfold result_rel, xor3 in H1.
    unfold mid_rel in H2. split; [exact H2|]. rewrite H1, H2. reflexivity.
  - cbn [Py.zip4 firstn length] in H1, H2.
    apply Forall_cons_iff in H1. apply Forall_cons_iff in H2.
    apply IH; [apply H1 | apply H2 | simpl in L; lia].
Qed.

Lemma mid_rel_index (rho : assignment) (x : list string) :
  forall (y carry mid : list string) (n : nat),
    length carry = n -> (n <= length x)%nat -> (n <= length y)%nat ->
    (n <= length mid)%nat ->
    Forall (mid_rel rho) (Py.zip4 x y carry mid)
    <-> forall i, (i < n)%nat ->
          bit rho mid i = xorb (bit rho x i) (bit rho y i).
Proof.
  induction x as [|a x IH]; intros y carry mid n Lc Lx Ly Lm.
  - assert (n = 0%nat) by (simpl in Lx; lia). subst n.
    cbn [Py.zip4]. split; [intros _ i Hi; lia | constructor].
  - destruct carry as [|c carry].
    + simpl in Lc. subst n. destruct y, mid; cbn [Py.zip4];
        (split; [intros _ i Hi; lia | constructor]).
    + destruct n as [|n]; [discriminate Lc|].
      destruct y as [|b y]; [simpl in Ly; lia|].
      destruct mid as [|m mid]; [simpl in Lm; lia|].
      cbn [Py.zip4]. rewrite Forall_cons_iff.
      rewrite (IH y carry mid n) by (simpl in *; lia).
      unfold mid_rel, bit. split.
      * intros [H0 H] [|i] Hi; cbn [nth]; [exact H0 | apply H; lia].
      * intros H. split; [apply (H 0%nat); lia|].
        intros i Hi. apply (H (S i)). lia.
Qed.

(** C2, as stated, fails: the assignment [x = y = 10], [out = 00],
    [carry = 0] satisfies the constraints of the three models for two bits,
    and no choice of carries makes the relations of the claim hold, because
    they give the first output bit the carry that leaves its own position. *)
Lemma carry_chain_claim_fails :
  exists cms sat smt,
    Modadd.cms_modadd two_out two_x two_y two_carry = Ok cms
    /\ Modadd.sat_modadd two_out two_x two_y two_carry
         two_mid = Ok sat
    /\ Modadd.smt_modadd two_out two_x two_y two_carry = Ok smt
    /\ Cms.eval rho_two_two cms = true
    /\ Sat.eval rho_two_two sat = true
    /\ Smt.eval_all rho_two_two smt = true
    /\ forall c : nat -> bool,
         ~ spec_chain rho_two_two 2 c two_out two_x two_y.
Proof.
  eexists. eexists. eexists.
  split; [reflexivity|]. split; [reflexivity|]. split; [reflexivity|].
  split; [vm_compute; reflexivity|]. split; [vm_compute; reflexivity|].
  split; [vm_compute; reflexivity|].
  intros c (H1 & H2 & H3 & _).
  specialize (H2 0%nat ltac:(lia)). specialize (H3 0%nat ltac:(lia)).
  unfold bit in *. cbn in H1, H2, H3. congruence.
Qed.

(** C2, amended: for words of [w >= 2] bits the constraints of the CMS, SAT
    and SMT models of one addition hold exactly when [carry[w-2]] is
    [AND(x[w-1], y[w-1])], [carry[i]] is [MAJ(x[i+1], y[i+1], carry[i+1])]
    for [i] from [w-3] down to [0], [out[i]] is [XOR(x[i], y[i], carry[i])]
    for [i < w-1], and the last output bit is [XOR(x[w-1], y[w-1])]; the SAT
    model adds [intermediate[i] = XOR(x[i], y[i])] for [i < w-1]. *)
Theorem carry_chain_relations (w : nat)
  (out x y carry intermediate : list string) :
  (2 <= w)%nat ->
  length out = w -> length x = w -> length y = w ->
  S (length carry) = w -> length intermediate = w ->
  exists cms sat smt,
    Modadd.cms_modadd out x y carry = Ok cms
    /\ Modadd.sat_modadd out x y carry intermediate = Ok sat
    /\ Modadd.smt_modadd out x y carry = Ok smt
    /\ forall rho,
         (Cms.eval rho cms = true <-> chain_by_index rho w out x y carry)
         /\ (Smt.eval_all rho smt = true
             <-> chain_by_index rho w out x y carry)
         /\ (Sat.eval rho sat = true
             <-> chain_by_index rho w out x y carry
                 /\ forall i, (i + 1 < w)%nat ->
                      bit rho intermediate i
                      = xorb (bit rho x i) (bit rho y i)).
Proof.
  intros Hw Lo Lx Ly Lc Lm.
  assert (Nc : carry <> []) by (intros ->; simpl in Lc; lia).
  assert (Nx : x <> []) by (intros ->; simpl in Lx; lia).
  assert (Ny : y <> []) by (intros ->; simpl in Ly; lia).
  assert (No : out <> []) by (intros ->; simpl in Lo; lia).
  destruct (cms_modadd_chain out x y carry Nc Nx Ny No) as (cms & E1 & S1).
  destruct (sat_modadd_chain out x y carry Nc Nx Ny No intermediate)
    as (sat & E2 & S2).
  destruct (smt_modadd_chain out x y carry Nc Nx Ny No) as (smt & E3 & S3).
  exists cms, sat, smt. repeat (split; [assumption|]).
  intros rho.
  assert (Hci : chain rho out x y carry
                <-> chain_by_index rho w out x y carry).
  { rewrite <- Lc. apply chain_index; try assumption; lia. }
  split; [rewrite S1; exact Hci|]. split; [rewrite S3; exact Hci|].
  rewrite S2, <- Hci.
  assert (Hmid : Forall (mid_rel rho)
                   (Py.zip4 x y carry (firstn (length out) intermediate))
                 <-> forall i, (i + 1 < w)%nat ->
                       bit rho intermediate i
                       = xorb (bit rho x i) (bit rho y i)).
  { rewrite firstn_all2 by lia.
    rewrite (mid_rel_index rho x y carry intermediate (length carry))
      by lia.
    split; intros H i Hi; apply H; lia. }
  rewrite <- Hmid. split.
  - intros H. split; [apply (sat_chain_chain rho _ _ _ _ intermediate); [lia|exact H]|].
    destruct H as (_ & _ & H & _). apply zip5_split. exact H.
  - intros [(H1 & H2 & H3 & H4) H5]. repeat split; try assumption.
    apply zip5_join; [assumption | assumption | lia].
Qed.

(** The statement above at the words of two bits [two_x] and [two_y]. *)
Lemma carry_chain_relations_witness :
  exists cms sat smt,
    Modadd.cms_modadd two_out two_x two_y two_carry = Ok cms
    /\ Modadd.sat_modadd two_out two_x two_y two_carry
         two_mid = Ok sat
    /\ Modadd.smt_modadd two_out two_x two_y two_carry = Ok smt
    /\ forall rho,
         (Cms.eval rho cms = true
          <-> chain_by_index rho 2 two_out two_x two_y two_carry)
         /\ (Smt.eval_all rho smt = true
             <-> chain_by_index rho 2 two_out two_x two_y two_carry)
         /\ (Sat.eval rho sat = true
             <-> chain_by_index rho 2 two_out two_x two_y two_carry
                 /\ forall i, (i + 1 < 2)%nat ->
                      bit rho two_mid i
                      = xorb (bit rho two_x i) (bit rho two_y i)).
Proof.
  apply (carry_chain_relations 2); reflexivity || lia.
Defined.

(** The product of the table entries at the component [or_two], inputs
    [0; 1; 0; 1] and outputs [1; 1]. *)
Lemma generic_sign_is_table_product_witness :
  Or.generic_sign_linear_constraints or_two [0; 1; 0; 1] [1; 1] =
    Ok (Or.sign_product (firstn (output_bit_size or_two) [0; 1; 0; 1])
          (skipn (output_bit_size or_two) [0; 1; 0; 1]) [1; 1])
  /\ (Forall (fun z => z = 0) [0; 1; 0; 1] -> Forall (fun z => z = 0) [1; 1] ->
      Or.generic_sign_linear_constraints or_two [0; 1; 0; 1] [1; 1] = Ok 1)
  /\ (a <- Py.getitem Or.or_LAT 1 ;; b <- Py.getitem a 1 ;; Py.getitem b 1)
     = Ok 1.
Proof.
  apply (generic_sign_is_table_product or_two [0; 1; 0; 1] [1; 1]);
    try reflexivity;
    repeat (constructor; [unfold is_bit; lia|]); constructor.
Defined.

(** ** Words of one bit *)

Lemma one_bit_raise (bit_id : string -> nat -> string)
  (c : component) :
  well_formed c 2 1 ->
  Modadd.cms_constraints bit_id c = Err IndexError
  /\ Modadd.sat_constraints bit_id c = Err IndexError
  /\ Modadd.smt_constraints bit_id c = Err IndexError
  /\ Modsub.cms_constraints bit_id c = Err IndexError
  /\ Modsub.sat_constraints bit_id c = Err IndexError
  /\ Modsub.smt_constraints bit_id c = Err IndexError.
Proof.
  intros Hwf.
  assert (Hd : description_1 c = 2%nat) by apply Hwf.
  assert (Ho : output_bit_size c = 1%nat) by apply Hwf.
  assert (Li : length (snd (generate_input_ids bit_id c)) = 2%nat).
  { destruct Hwf as (_ & _ & H1 & H2).
    rewrite length_generate_input_ids by assumption. rewrite H2. reflexivity. }
  unfold Modadd.cms_constraints, Modadd.sat_constraints,
    Modadd.smt_constraints, Modsub.cms_constraints, Modsub.sat_constraints,
    Modsub.smt_constraints.
  cbn [generate_output_ids fst snd]. rewrite Hd, Ho.
  destruct (snd (generate_input_ids bit_id c)) as [|a [|b [|? ?]]];
    try discriminate Li.
  repeat split; reflexivity.
Qed.

(** C7: for width 1 and two operands the encoders of the CMS, SAT and SMT
    models of MODADD and MODSUB do not return an artifact: the list of
    carries is empty and its last element is read, which raises
    [IndexError]. *)
Theorem one_bit_encoders_raise (bit_id : string -> nat -> string)
  (c : component) :
  well_formed c 2 1 ->
  Modadd.cms_constraints bit_id c = Err IndexError
  /\ Modadd.sat_constraints bit_id c = Err IndexError
  /\ Modadd.smt_constraints bit_id c = Err IndexError
  /\ Modsub.cms_constraints bit_id c = Err IndexError
  /\ Modsub.sat_constraints bit_id c = Err IndexError
  /\ Modsub.smt_constraints bit_id c = Err IndexError.
Proof. apply one_bit_raise. Qed.

(** The statement above at the component [one_bit]. *)
Lemma one_bit_encoders_raise_witness :
  Modadd.cms_constraints bit_id_03 one_bit = Err IndexError
  /\ Modadd.sat_constraints bit_id_03 one_bit = Err IndexError
  /\ Modadd.smt_constraints bit_id_03 one_bit = Err IndexError
  /\ Modsub.cms_constraints bit_id_03 one_bit = Err IndexError
  /\ Modsub.sat_constraints bit_id_03 one_bit = Err IndexError
  /\ Modsub.smt_constraints bit_id_03 one_bit = Err IndexError.
Proof.
  apply (one_bit_encoders_raise bit_id_03 one_bit).
  repeat split; reflexivity.
Defined.

(** ** The ids returned by the SAT model of OR *)

(** C9: [OR.sat_constraints] does not list the intermediate variables.  For
    every component with at least one output bit the call raises [TypeError]
    (a list of names is added to a single name) before any clause is
    emitted, whatever [cnf_or_seq] is; and the list of ids it returns, when
    it returns, is the list of output bits alone. *)
Theorem or_sat_constraints_ids (bit_id : string -> nat -> string)
  (cnf_or_seq : Py.value -> list string -> list Sat.clause) (c : component) :
  (1 <= output_bit_size c)%nat ->
  Or.sat_constraints bit_id cnf_or_seq c = Err TypeError
  /\ forall (c' : component) ids cs,
       Or.sat_constraints bit_id cnf_or_seq c' = Ok (ids, cs) ->
       ids = snd (generate_output_ids bit_id c').
Proof.
  intros Hw. split.
  - unfold Or.sat_constraints. cbn [generate_output_ids fst snd].
    destruct (output_bit_size c) as [|w] eqn:Ew; [lia|].
    change (Py.range 0 (S w)) with (0%nat :: seq 1 w).
    cbn [foldM map]. change (Z.of_nat 0) with 0.
    rewrite (mapM_ok _
               (fun j => "int_" +s Py.str03 j +s "_" +s bit_id (id c) 0%nat))
      by (intros j _; reflexivity).
    reflexivity.
  - intros c' ids cs H. unfold Or.sat_constraints in H.
    destruct (foldM _ _ _) as [constraints|e]; [|discriminate H].
    cbn [bind] in H. injection H as <- _. reflexivity.
Qed.

(** The statement above at the component [or_three]. *)
Lemma or_sat_constraints_ids_witness :
  Or.sat_constraints bit_id_03 (fun _ _ => []) or_three = Err TypeError
  /\ forall (c' : component) ids cs,
       Or.sat_constraints bit_id_03 (fun _ _ => []) c' = Ok (ids, cs) ->
       ids = snd (generate_output_ids bit_id_03 c').
Proof.
  apply (or_sat_constraints_ids bit_id_03 (fun _ _ => []) or_three).
  cbn. lia.
Defined.

(** ** The polynomials of OR *)

Lemma forallb_ext_in {A : Type} (f g : A -> bool) (l : list A) :
  (forall a, In a l -> f a = g a) -> forallb f l = forallb g l.
Proof.
  induction l as [|a l IH]; intros H; [reflexivity|].
  cbn [forallb]. rewrite (H a) by (left; reflexivity).
  rewrite IH by (intros; apply H; right; assumption). reflexivity.
Qed.

Lemma setitem_all_one (x : list Poly.poly) (i : nat) (v : Poly.poly) :
  (i < length x)%nat ->
  exists x',
    Py.setitem x i v = Ok x'
    /\ length x' = length x
    /\ forall rho, all_one rho x -> Poly.eval rho v = true -> all_one rho x'.
Proof.
  revert i. induction x as [|a x IH]; intros i Hi; [simpl in Hi; lia|].
  destruct i as [|i].
  - exists (v :: x). split; [reflexivity|]. split; [reflexivity|].
    intros rho Hx Hv. inversion Hx; subst. constructor; assumption.
  - destruct (IH i) as (x' & E & L & H); [simpl in Hi; lia|].
    exists (a :: x'). cbn [Py.setitem]. rewrite E. split; [reflexivity|].
    split; [simpl; lia|].
    intros rho Hx Hv. inversion Hx; subst. constructor; [assumption|].
    apply H; assumption.
Qed.

Lemma or_word_loop (word : list Poly.poly) (l : list nat) :
  forall x : list Poly.poly,
    (forall i, In i l -> (i < length x)%nat /\ (i < length word)%nat) ->
    exists x',
      foldM (fun x i =>
               xi <- Py.getitem x (Z.of_nat i) ;;
               wi <- Py.getitem word (Z.of_nat i) ;;
               Py.setitem x i (Or.or_polynomial xi wi))
        l x = Ok x'
      /\ length x' = length x
      /\ forall rho, all_one rho x -> all_one rho x'.
Proof.
  induction l as [|i l IH]; intros x Hl.
  - exists x. split; [reflexivity|]. split; [reflexivity|]. auto.
  - destruct (Hl i (or_introl eq_refl)) as [Hx Hw].
    cbn [foldM].
    rewrite (getitem_nth x i (Poly.Const false)) by exact Hx.
    rewrite (getitem_nth word i (Poly.Const false)) by exact Hw.
    cbn [bind].
    destruct (setitem_all_one x i
                (Or.or_polynomial (nth i x (Poly.Const false))
                   (nth i word (Poly.Const false))) Hx)
      as (x1 & E1 & L1 & H1).
    rewrite E1. cbn [bind].
    destruct (IH x1) as (x' & E & L & H).
    { intros j Hj. rewrite L1. apply Hl. right. exact Hj. }
    exists x'. split; [exact E|]. split; [congruence|].
    intros rho Hx0. apply H, H1; [exact Hx0|].
    assert (Hn : Poly.eval rho (nth i x (Poly.Const false)) = true).
    { unfold all_one in Hx0. rewrite Forall_forall in Hx0.
      apply Hx0. apply nth_In. exact Hx. }
    unfold Or.or_polynomial. cbn [Poly.eval]. rewrite Hn.
    destruct (Poly.eval rho (nth i word (Poly.Const false))); reflexivity.
Qed.

Lemma or_words_loop (n : nat) (words : list (list Poly.poly)) :
  Forall (fun word => length word = n) words ->
  forall x : list Poly.poly,
    length x = n ->
    exists x',
      foldM (fun x word_vars =>
               foldM (fun x i =>
                        xi <- Py.getitem x (Z.of_nat i) ;;
                        wi <- Py.getitem word_vars (Z.of_nat i) ;;
                        Py.setitem x i (Or.or_polynomial xi wi))
                 (Py.range 0 n) x)
        words x = Ok x'
      /\ length x' = n
      /\ forall rho, all_one rho x -> all_one rho x'.
Proof.
  induction words as [|word words IH]; intros Hws x Lx.
  - exists x. split; [reflexivity|]. split; [exact Lx|]. auto.
  - apply Forall_cons_iff in Hws. destruct Hws as [Lw Hws'].
    cbn [foldM].
    destruct (or_word_loop word (Py.range 0 n) x)
      as (x1 & E1 & L1 & H1).
    { intros i Hi. unfold Py.range in Hi. apply in_seq in Hi. lia. }
    rewrite E1. cbn [bind].
    destruct (IH Hws' x1 ltac:(lia)) as (x' & E & L & H).
    exists x'. split; [exact E|]. split; [exact L|].
    intros rho Hx. apply H, H1, Hx.
Qed.

(** C6: the polynomials of OR do not state the boolean OR.  The fold over
    the operands starts from the constant one, and [OR(1, x) = 1], so every
    polynomial is [y_i + 1] in value: an assignment is a common zero exactly
    when every output bit is 1, whatever the inputs are.  With all inputs
    and outputs zero the outputs are the OR of the inputs and the assignment
    is not a common zero. *)
Theorem or_polynomials_force_one (c : component) (model : algebraic_model)
  (k w : nat) :
  well_formed c k w -> (1 <= w)%nat ->
  exists ps,
    Or.algebraic_polynomials c model = Ok ps
    /\ (forall rho,
          Poly.zero rho ps = forallb rho (alg_output_names c model))
    /\ Poly.zero (fun _ => false) ps = false.
Proof.
  intros Hwf Hw.
  assert (Ho : output_bit_size c = w) by apply Hwf.
  assert (Hi : input_bit_size c = (k * w)%nat) by apply Hwf.
  unfold Or.algebraic_polynomials. rewrite Ho, Hi.
  assert (Hstep : Py.range_step (k * w) w
                  = Ok (map (fun q => q * w)%nat
                          (seq 0 ((k * w + w - 1) / w))))
    by (unfold Py.range_step; destruct w; [lia | reflexivity]).
  rewrite Hstep. cbn [bind].
  set (words := map _ (map _ _)).
  assert (Hwords : Forall (fun word => length word = w) words).
  { unfold words. apply Forall_forall. intros word Hin.
    apply in_map_iff in Hin. destruct Hin as (i & <- & Hin).
    apply in_map_iff in Hin. destruct Hin as (q & <- & Hin).
    apply in_seq in Hin.
    assert (Hq : ((k * w + w - 1) / w = k)%nat).
    { symmetry. apply (Nat.div_unique _ _ _ (w - 1)); lia. }
    rewrite Hq in Hin. unfold Py.slice.
    rewrite length_firstn, length_skipn, !length_map, length_range. nia. }
  destruct (or_words_loop w words Hwords
              (map (fun _ => Poly.Const true) (Py.range 0 w)))
    as (x & E & L & H).
  { rewrite length_map, length_range. lia. }
  rewrite E. cbn [bind].
  rewrite (mapM_ok _
             (fun i =>
                Poly.Add
                  (nth i (map Poly.Var
                            (map (fun i0 => id c +s "_" +s output_postfix model
                                            +s Py.str (Z.of_nat i0))
                               (Py.range 0 w)))
                     (Poly.Const false))
                  (nth i x (Poly.Const false)))).
  2:{ intros i Hin. unfold Py.range in Hin. apply in_seq in Hin.
      rewrite (getitem_nth _ i (Poly.Const false))
        by (rewrite !length_map, length_range; lia).
      rewrite (getitem_nth x i (Poly.Const false)) by lia. reflexivity. }
  eexists. split; [reflexivity|].
  assert (Hall : forall rho,
    Poly.zero rho
      (map (fun i =>
              Poly.Add
                (nth i (map Poly.Var
                          (map (fun i0 => id c +s "_" +s output_postfix model
                                          +s Py.str (Z.of_nat i0))
                             (Py.range 0 w)))
                   (Poly.Const false))
                (nth i x (Poly.Const false)))
         (Py.range 0 w))
    = forallb rho (alg_output_names c model)).
  { intros rho. unfold Poly.zero, alg_output_names. rewrite Ho.
    rewrite !forallb_map. unfold Py.range. rewrite Nat.sub_0_r.
    apply forallb_ext_in. intros i Hin. apply in_seq in Hin.
    cbn [Poly.eval].
    assert (Hx : Poly.eval rho (nth i x (Poly.Const false)) = true).
    { assert (Hx1 : all_one rho x).
      { apply (H rho). apply Forall_forall. intros p Hp.
        apply in_map_iff in Hp. destruct Hp as (? & <- & _). reflexivity. }
      unfold all_one in Hx1. rewrite Forall_forall in Hx1.
      apply Hx1. apply nth_In. lia. }
    rewrite Hx.
    rewrite (nth_indep _ (Poly.Const false) (Poly.Var EmptyString))
      by (rewrite !length_map, length_seq; lia).
    rewrite map_nth. cbn [Poly.eval].
    rewrite (nth_map_seq _ w i) by lia.
    destruct (rho _); reflexivity. }
  split; [exact Hall|]. rewrite Hall.
  unfold alg_output_names. rewrite Ho.
  destruct w as [|w']; [lia | reflexivity].
Qed.

(** The statement above at the component [or_two]. *)
Lemma or_polynomials_force_one_witness :
  exists ps,
    Or.algebraic_polynomials or_two
      {| input_postfix := "x"; output_postfix := "y" |} = Ok ps
    /\ (forall rho,
          Poly.zero rho ps
          = forallb rho
              (alg_output_names or_two
                 {| input_postfix := "x"; output_postfix := "y" |}))
    /\ Poly.zero (fun _ => false) ps = false.
Proof.
  apply (or_polynomials_force_one or_two
           {| input_postfix := "x"; output_postfix := "y" |} 2 2).
  - repeat split; reflexivity.
  - lia.
Defined.

(** ** Three operands in the CP model of MODSUB *)

(** C5: for three operands [MODSUB.cp_constraints] emits one reduction only,
    into the staging array [temp_.._0]; the reduction into the output array
    sits inside a loop over [range(1, k - 2)], which is empty for [k = 3],
    so no constraint mentions the output array. *)
Theorem modsub_three_output_unconstrained :
  exists ds cs,
    Modsub.cp_constraints modsub_three = Ok (ds, cs)
    /\ modadd_calls cs = modsub_three_calls
    /\ existsb (cp_mentions (id modsub_three)) cs = false.
Proof.
  eexists. eexists. split; [vm_compute; reflexivity|].
  split; vm_compute; reflexivity.
Qed.

(** ** Four operands in the CP model of MODADD *)

Lemma sigma_four_bit (name : string) (i : Z) :
  sigma_four name i = 0 \/ sigma_four name i = 1.
Proof.
  unfold sigma_four. destruct (_ && _); [right | left]; reflexivity.
Qed.

(** C4: for four operands the reductions of [MODADD.cp_constraints] do not
    form a chain.  Every reduction of the loop takes the raw operand
    [pre_3] as its left operand, only the last staging array reaches the
    output, and the operand [pre_1] is lost: the store in which the second
    operand is 1 and the others are 0 satisfies every declaration and
    constraint with the output 0, while the sum of the operands is 1. *)
Theorem modadd_four_drops_operand :
  exists ds cs,
    Modadd.cp_constraints modadd_four = Ok (ds, cs)
    /\ Cp.model sigma_four ds cs
    /\ cp_value sigma_four (id modadd_four) 2 = 0
    /\ sum_operands (cp_word sigma_four) (cp_all_inputs modadd_four) 2 4
         mod 2 ^ 2 = 1.
Proof.
  eexists. eexists. split; [vm_compute; reflexivity|].
  split; [split|split].
  - repeat (apply Forall_cons;
            [cbn [Cp.declared]; intros; apply sigma_four_bit|]).
    apply Forall_nil.
  - repeat (apply Forall_cons; [vm_compute; reflexivity|]).
    apply Forall_nil.
  - vm_compute. reflexivity.
  - vm_compute. reflexivity.
Qed.

(** ** The two's-complement chain *)

Lemma tc_chain_cons (rho : assignment) (r0 r1 b0 b1 t0 t1 : string)
  (rs bs ts : list string) :
  tc_chain rho (r0 :: r1 :: rs) (b0 :: b1 :: bs) (t0 :: t1 :: ts)
  <-> tc_carry_rel rho (t0, b1, t1)
      /\ tc_result_rel rho (r0, b0, t0)
      /\ tc_chain rho (r1 :: rs) (b1 :: bs) (t1 :: ts).
Proof.
  unfold tc_chain, last_id, Py.slice_from.
  cbn [skipn Py.zip3 last]. rewrite !Forall_cons_iff. tauto.
Qed.

Lemma tc_chain_base (rho : assignment) (r0 r1 b0 b1 t0 : string) :
  tc_chain rho [r0; r1] [b0; b1] [t0]
  <-> rho t0 = negb (rho b1)
      /\ rho r0 = xorb (negb (rho b0)) (rho t0)
      /\ rho r1 = rho b1.
Proof.
  unfold tc_chain, last_id, Py.slice_from.
  cbn [skipn Py.zip3 last]. rewrite !Forall_cons_iff.
  unfold tc_result_rel. intuition auto using Forall_nil.
Qed.

Lemma tc_carries_step (a a' : bool) (b : list bool) :
  tc_carries (a :: a' :: b) = (negb a' && tc_carry_out b) :: tc_carries (a' :: b).
Proof. reflexivity. Qed.

Lemma tc_bits_step (a a' : bool) (b : list bool) :
  tc_bits (a :: a' :: b)
  = xorb (negb a) (negb a' && tc_carry_out b) :: tc_bits (a' :: b).
Proof. reflexivity. Qed.

Lemma tc_chain_bits (rho : assignment) (t : list string) :
  forall r b : list string,
    t <> [] ->
    length b = S (length t) ->
    length r = S (length t) ->
    tc_chain rho r b t
    <-> map rho t = tc_carries (map rho b) /\ map rho r = tc_bits (map rho b).
Proof.
  induction t as [|t0 ts IH]; intros r b Hne Hb Hr; [congruence|].
  destruct b as [|b0 [|b1 bs]]; try discriminate Hb.
  destruct r as [|r0 [|r1 rs]]; try discriminate Hr.
  destruct ts as [|t1 ts].
  - destruct bs; try discriminate Hb. destruct rs; try discriminate Hr.
    rewrite tc_chain_base. cbn.
    destruct (rho t0), (rho b0), (rho b1), (rho r0), (rho r1); cbn;
      intuition congruence.
  - rewrite tc_chain_cons.
    rewrite (IH (r1 :: rs) (b1 :: bs)); try discriminate;
      try (simpl in *; lia).
    destruct bs as [|b2 bs]; try discriminate Hb.
    unfold tc_carry_rel, tc_result_rel. cbn [map].
    rewrite (tc_carries_step (rho b0) (rho b1)),
      (tc_bits_step (rho b0) (rho b1)).
    assert (Hinj : forall (u v : bool) l l',
               u :: l = v :: l' -> u = v /\ l = l')
      by (intros u v l l' E; split; congruence).
    assert (Hhd : forall l,
               rho t1 :: l = tc_carries (rho b1 :: rho b2 :: map rho bs) ->
               rho t1 = tc_carry_out (rho b2 :: map rho bs)).
    { intros l Hl. rewrite tc_carries_step in Hl. apply Hinj in Hl.
      apply Hl. }
    split.
    + intros (H1 & H2 & H3 & H4). pose proof (Hhd _ H3) as Ht1.
      rewrite <- H3, <- H4, H2, H1, Ht1. split; reflexivity.
    + intros (H1 & H2).
      destruct (Hinj _ _ _ _ H1) as [H1a H1b].
      destruct (Hinj _ _ _ _ H2) as [H2a H2b].
      pose proof (Hhd _ H1b) as Ht1.
      repeat split; try assumption.
      * rewrite H1a, Ht1. reflexivity.
      * rewrite H2a, H1a. reflexivity.
Qed.

Lemma length_tc_bits (b : list bool) : length (tc_bits b) = length b.
Proof.
  induction b as [|a b IH]; [reflexivity|]. cbn [tc_bits length].
  rewrite IH. reflexivity.
Qed.

Lemma tc_bits_sum (b : list bool) :
  word_msb (tc_bits b) + 2 ^ Z.of_nat (length b) * Z.b2z (tc_carry_out b)
  = 2 ^ Z.of_nat (length b) - word_msb b.
Proof.
  induction b as [|a b IH].
  - cbn. reflexivity.
  - cbn [tc_bits tc_carry_out]. rewrite !word_msb_cons, length_tc_bits.
    cbn [length]. rewrite Nat2Z.inj_succ, Z.pow_succ_r by lia.
    set (p := 2 ^ Z.of_nat (length b)) in *.
    set (cr := tc_carry_out b) in *.
    assert (Hb : Z.b2z (xorb (negb a) cr) + 2 * Z.b2z (negb a && cr) + Z.b2z a
                 = 1 + Z.b2z cr)
      by (destruct a, cr; reflexivity).
    nia.
Qed.

Lemma tc_bits_word (b : list bool) :
  word_msb (tc_bits b) = (- word_msb b) mod 2 ^ Z.of_nat (length b).
Proof.
  pose proof (tc_bits_sum b) as E.
  pose proof (word_msb_bound (tc_bits b)) as B.
  rewrite length_tc_bits in B.
  apply Z.mod_unique with (q := Z.b2z (tc_carry_out b) - 1).
  - left. exact B.
  - lia.
Qed.

Lemma word_msb_negb (b : list bool) :
  word_msb (map negb b) = 2 ^ Z.of_nat (length b) - 1 - word_msb b.
Proof.
  induction b as [|a b IH].
  - cbn. reflexivity.
  - cbn [map]. rewrite !word_msb_cons, length_map, IH. cbn [length].
    rewrite Nat2Z.inj_succ, Z.pow_succ_r by lia.
    destruct a; cbn [negb Z.b2z]; lia.
Qed.

Lemma word_msb_inj (l1 : list bool) :
  forall l2, length l1 = length l2 -> word_msb l1 = word_msb l2 -> l1 = l2.
Proof.
  induction l1 as [|a l1 IH]; intros [|b l2] L H; try discriminate L;
    [reflexivity|].
  rewrite !word_msb_cons in H.
  assert (L' : length l1 = length l2) by (simpl in L; lia).
  pose proof (word_msb_bound l1) as B1. pose proof (word_msb_bound l2) as B2.
  rewrite L' in B1, H.
  assert (a = b) by (destruct a, b; cbn [Z.b2z] in H; try reflexivity; lia).
  subst b. f_equal. apply IH; [exact L' | lia].
Qed.

(** ** MODSUB in the SAT and SMT models *)

Lemma and4_iff' (A1 A2 A3 A4 B1 B2 B3 B4 : Prop) :
  (A1 <-> B1) -> (A2 <-> B2) -> (A3 <-> B3) -> (A4 <-> B4) ->
  (((A1 /\ A2) /\ A3) /\ A4 <-> B1 /\ B2 /\ B3 /\ B4).
Proof. tauto. Qed.

Lemma length_but_last {A : Type} (l : list A) :
  length (Py.but_last l) = (length l - 1)%nat.
Proof.
  unfold Py.but_last. destruct l as [|a l]; [reflexivity|].
  destruct (exists_last (l := a :: l)) as (l' & z & E); [discriminate|].
  rewrite E, removelast_last, length_app. cbn [length]. lia.
Qed.

Lemma two_complement_chain (r b : list string) :
  (2 <= length b)%nat -> r <> [] ->
  exists cs,
    Modsub.two_complement_sat_constraints r b
    = Ok (map (fun input_id => "twocomp_carry_" +s input_id) (Py.but_last b),
          cs)
    /\ forall rho,
         Sat.eval rho cs = true
         <-> tc_chain rho r b
               (map (fun input_id => "twocomp_carry_" +s input_id)
                  (Py.but_last b)).
Proof.
  intros Hb Hr. unfold Modsub.two_complement_sat_constraints.
  set (t := map _ (Py.but_last b)).
  assert (Ht : t <> []).
  { intros E. apply (f_equal (@length string)) in E.
    unfold t in E. rewrite length_map, length_but_last in E.
    simpl in E. lia. }
  assert (Hb' : b <> []) by (intros ->; simpl in Hb; lia).
  rewrite (getitem_last t EmptyString Ht), (getitem_last b EmptyString Hb'),
    (getitem_last r EmptyString Hr).
  cbn [bind]. eexists. split; [reflexivity|].
  intros rho. unfold Sat.eval, tc_chain.
  rewrite !forallb_app, !forallb_flat_map, !andb_true_iff.
  rewrite !forallb_Forall.
  fold (last_id t) (last_id b) (last_id r).
  apply and4_iff'.
  - apply Forall_iff. intros [[c a] p].
    change (Sat.eval rho (Sat.cnf_carry_comp2 c a p) = true
            <-> tc_carry_rel rho (c, a, p)).
    rewrite eval_cnf_carry_comp2, eqb_true. reflexivity.
  - rewrite sat_Forall, eval_cnf_inequality, eqb_true. reflexivity.
  - apply Forall_iff. intros [[x a] c].
    change (Sat.eval rho (Sat.cnf_result_comp2 x a c) = true
            <-> tc_result_rel rho (x, a, c)).
    rewrite eval_cnf_result_comp2, eqb_true. reflexivity.
  - rewrite sat_Forall, eval_cnf_equivalent2, eqb_true. reflexivity.
Qed.

Lemma modsub_rel_chains (rho : assignment) (w : nat)
  (a b r t carry out : list string) :
  (2 <= w)%nat ->
  length a = w -> length b = w -> length r = w -> length out = w ->
  S (length t) = w -> S (length carry) = w ->
  tc_chain rho r b t /\ chain rho out a r carry
  <-> modsub_rel rho w a b r t carry out.
Proof.
  intros Hw La Lb Lr Lo Lt Lc.
  assert (Nt : t <> []) by (intros ->; simpl in Lt; lia).
  assert (Nc : carry <> []) by (intros ->; simpl in Lc; lia).
  rewrite (tc_chain_bits rho t r b) by (assumption || lia).
  rewrite (chain_carries rho carry out a r) by (assumption || lia).
  unfold modsub_rel, value_msb.
  set (A := map rho a). set (B := map rho b). set (R := map rho r).
  set (O := map rho out).
  assert (LA : length A = w) by (unfold A; rewrite length_map; exact La).
  assert (LB : length B = w) by (unfold B; rewrite length_map; exact Lb).
  assert (LR : length R = w) by (unfold R; rewrite length_map; exact Lr).
  assert (LO : length O = w) by (unfold O; rewrite length_map; exact Lo).
  assert (Hneg : (word_msb (map negb B) + 1) mod 2 ^ Z.of_nat w
                 = word_msb (tc_bits B)).
  { rewrite tc_bits_word, word_msb_negb, LB.
    replace (2 ^ Z.of_nat w - 1 - word_msb B + 1)
      with (- word_msb B + 1 * 2 ^ Z.of_nat w) by ring.
    apply Z_mod_plus_full. }
  assert (Hsum : word_msb (sum_bits A R)
                 = (word_msb A + word_msb R) mod 2 ^ Z.of_nat w)
    by (rewrite sum_bits_word by lia; rewrite LA; reflexivity).
  assert (Hsub : R = tc_bits B ->
                 (word_msb A + word_msb R) mod 2 ^ Z.of_nat w
                 = (word_msb A - word_msb B) mod 2 ^ Z.of_nat w).
  { intros ->. rewrite tc_bits_word, LB, Zplus_mod_idemp_r.
    f_equal. }
  rewrite Hneg. split.
  - intros [[H1 H2] [H3 H4]]. repeat split; try assumption.
    + rewrite H2. reflexivity.
    + rewrite H4, Hsum. apply Hsub, H2.
    + rewrite H4, Hsum. reflexivity.
  - intros (H1 & H2 & H3 & H4 & H5).
    assert (HR : R = tc_bits B)
      by (apply word_msb_inj; [rewrite length_tc_bits; lia | exact H1]).
    repeat split; try assumption.
    apply word_msb_inj; [rewrite length_sum_bits; lia|].
    rewrite Hsum. exact H3.
Qed.

Section ModsubSound.

Variable bit_id : string -> nat -> string.
Variables (c : component) (w : nat).
Hypothesis Hwf : well_formed c 2 w.
Hypothesis Hw : (2 <= w)%nat.

Let a := modsub_a bit_id c.
Let b := modsub_b bit_id c.
Let r := modsub_r bit_id c.
Let t := modsub_t bit_id c.
Let carry := modsub_carry bit_id c.
Let mid := modsub_mid bit_id c.
Let out := snd (generate_output_ids bit_id c).

Lemma modsub_lengths :
  length a = w /\ length b = w /\ length r = w /\ S (length t) = w
  /\ S (length carry) = w /\ length mid = w /\ length out = w.
Proof using Hwf Hw.
  assert (Li : length (snd (generate_input_ids bit_id c)) = (2 * w)%nat).
  { destruct Hwf as (_ & _ & H1 & H2).
    rewrite length_generate_input_ids by assumption. exact H2. }
  assert (Lo : length out = w).
  { unfold out. rewrite length_generate_output_ids. apply Hwf. }
  assert (Hf : fst (generate_output_ids bit_id c) = w) by apply Hwf.
  assert (Lb : length b = w).
  { unfold b, modsub_b, Py.slice_from. rewrite length_skipn, Hf, Li. lia. }
  assert (La : length a = w).
  { unfold a, modsub_a, Py.slice_to. rewrite length_firstn, Hf, Li. lia. }
  unfold r, t, carry, mid, modsub_r, modsub_t, modsub_carry, modsub_mid.
  fold b out.
  rewrite !length_map, !length_but_last, Lb, Lo.
  repeat split; lia.
Qed.

Lemma modsub_sat_chains :
  exists cs,
    Modsub.sat_constraints bit_id c
    = Ok (t ++ r ++ carry ++ mid ++ out, cs)
    /\ forall rho,
         Sat.eval rho cs = true
         <-> tc_chain rho r b t /\ sat_chain rho out a r carry mid.
Proof using Hwf Hw.
  destruct modsub_lengths as (La & Lb & Lr & Lt & Lc & Lm & Lo).
  destruct (two_complement_chain r b) as (cs1 & E1 & S1).
  { lia. } { intros E. rewrite E in Lr. simpl in Lr. lia. }
  destruct (sat_modadd_chain out a r carry) with (intermediate := mid)
    as (cs2 & E2 & S2).
  { intros E. rewrite E in Lc. simpl in Lc. lia. }
  { intros E. rewrite E in La. simpl in La. lia. }
  { intros E. rewrite E in Lr. simpl in Lr. lia. }
  { intros E. rewrite E in Lo. simpl in Lo. lia. }
  exists (cs1 ++ cs2). split.
  - unfold Modsub.sat_constraints.
    fold (modsub_b bit_id c). fold (modsub_r bit_id c). fold b r.
    rewrite E1. cbn [bind fst snd].
    fold (modsub_a bit_id c) (modsub_carry bit_id c) (modsub_mid bit_id c).
    fold a carry mid out. rewrite E2. reflexivity.
  - intros rho. unfold Sat.eval. rewrite forallb_app, andb_true_iff.
    change (forallb (Sat.eval_clause rho) cs1) with (Sat.eval rho cs1).
    change (forallb (Sat.eval_clause rho) cs2) with (Sat.eval rho cs2).
    rewrite S1, S2. reflexivity.
Qed.

Lemma modsub_smt_chains :
  exists cs,
    Modsub.smt_constraints bit_id c = Ok (t ++ r ++ carry ++ out, cs)
    /\ forall rho,
         Smt.eval_all rho cs = true
         <-> tc_chain rho r b t /\ chain rho out a r carry.
Proof using Hwf Hw.
  destruct modsub_lengths as (La & Lb & Lr & Lt & Lc & Lm & Lo).
  destruct (smt_modadd_chain out a r carry) as (cs2 & E2 & S2).
  { intros E. rewrite E in Lc. simpl in Lc. lia. }
  { intros E. rewrite E in La. simpl in La. lia. }
  { intros E. rewrite E in Lr. simpl in Lr. lia. }
  { intros E. rewrite E in Lo. simpl in Lo. lia. }
  assert (Nt : t <> []) by (intros E; rewrite E in Lt; simpl in Lt; lia).
  assert (Nb : b <> []) by (intros E; rewrite E in Lb; simpl in Lb; lia).
  assert (Nr : r <> []) by (intros E; rewrite E in Lr; simpl in Lr; lia).
  unfold Modsub.smt_constraints.
  fold (modsub_b bit_id c). fold (modsub_r bit_id c) (modsub_t bit_id c).
  fold (modsub_a bit_id c) (modsub_carry bit_id c).
  fold a b r t carry out.
  rewrite (getitem_last t EmptyString Nt), (getitem_last b EmptyString Nb),
    (getitem_last r EmptyString Nr).
  cbn [bind]. rewrite E2. cbn [bind].
  eexists. split; [reflexivity|].
  intros rho. unfold Smt.eval_all.
  rewrite forallb_app, andb_true_iff.
  change (forallb (Smt.eval rho) cs2) with (Smt.eval_all rho cs2).
  rewrite S2.
  assert (Htc : forallb (Smt.eval rho)
                  (((map
                       (fun x : string * string * string =>
                          let '(carry_id, input_id, previous_carry_id) := x in
                          Smt.smt_assert
                            (Smt.smt_equivalent (Smt.Var carry_id)
                               (Smt.smt_and
                                  [Smt.smt_not (Smt.Var input_id);
                                   Smt.Var previous_carry_id])))
                       (Py.zip3 t (Py.slice_from b 1) (Py.slice_from t 1))
                     ++ [Smt.smt_assert
                           (Smt.smt_distinct (last t EmptyString)
                              (last b EmptyString))])
                    ++ map
                         (fun x : string * string * string =>
                            let '(result_id, input_id, carry_id) := x in
                            Smt.smt_assert
                              (Smt.smt_equivalent (Smt.Var result_id)
                                 (Smt.smt_xor
                                    [Smt.smt_not (Smt.Var input_id);
                                     Smt.Var carry_id])))
                         (Py.zip3 r b t))
                   ++ [Smt.smt_assert
                         (Smt.smt_equivalent (Smt.Var (last r EmptyString))
                            (Smt.Var (last b EmptyString)))]) = true
                <-> tc_chain rho r b t).
  { unfold tc_chain.
    rewrite !forallb_app, !forallb_map, !andb_true_iff.
    rewrite !forallb_Forall.
    fold (last_id t) (last_id b) (last_id r).
    apply and4_iff'.
    - apply Forall_iff. intros [[x y] p]. unfold tc_carry_rel. cbn.
      destruct (rho x), (rho y), (rho p); cbn; intuition congruence.
    - rewrite <- forallb_Forall.
      cbn [forallb Smt.eval Smt.smt_assert Smt.smt_distinct].
      generalize (rho (last_id t)) (rho (last_id b)).
      intros [] []; cbn; intuition congruence.
    - apply Forall_iff. intros [[x y] p]. unfold tc_result_rel. cbn.
      destruct (rho x), (rho y), (rho p); cbn; intuition congruence.
    - rewrite <- forallb_Forall.
      cbn [forallb Smt.eval Smt.smt_assert Smt.smt_equivalent].
      generalize (rho (last_id r)) (rho (last_id b)).
      intros [] []; cbn; intuition congruence. }
  rewrite Htc. reflexivity.
Qed.

End ModsubSound.

Lemma modsub_constraints_exact (bit_id : string -> nat -> string)
  (c : component) (w : nat) :
  well_formed c 2 w -> (2 <= w)%nat ->
  exists ids_sat cs_sat ids_smt cs_smt,
    Modsub.sat_constraints bit_id c = Ok (ids_sat, cs_sat)
    /\ Modsub.smt_constraints bit_id c = Ok (ids_smt, cs_smt)
    /\ forall rho,
         (Smt.eval_all rho cs_smt = true
          <-> modsub_rel rho w (modsub_a bit_id c) (modsub_b bit_id c)
                (modsub_r bit_id c) (modsub_t bit_id c)
                (modsub_carry bit_id c) (snd (generate_output_ids bit_id c)))
         /\ (Sat.eval rho cs_sat = true
             <-> modsub_rel rho w (modsub_a bit_id c) (modsub_b bit_id c)
                   (modsub_r bit_id c) (modsub_t bit_id c)
                   (modsub_carry bit_id c)
                   (snd (generate_output_ids bit_id c))
                 /\ forall i, (i + 1 < w)%nat ->
                      bit rho (modsub_mid bit_id c) i
                      = xorb (bit rho (modsub_a bit_id c) i)
                          (bit rho (modsub_r bit_id c) i)).
Proof.
  intros Hwf Hw.
  destruct (modsub_lengths bit_id c w Hwf Hw)
    as (La & Lb & Lr & Lt & Lc & Lm & Lo).
  destruct (modsub_sat_chains bit_id c w Hwf Hw) as (cs1 & E1 & S1).
  destruct (modsub_smt_chains bit_id c w Hwf Hw) as (cs2 & E2 & S2).
  eexists. exists cs1. eexists. exists cs2.
  split; [exact E1|]. split; [exact E2|].
  intros rho.
  pose proof (modsub_rel_chains rho w (modsub_a bit_id c) (modsub_b bit_id c)
                (modsub_r bit_id c) (modsub_t bit_id c)
                (modsub_carry bit_id c) (snd (generate_output_ids bit_id c))
                Hw La Lb Lr Lo Lt Lc) as Hrel.
  split; [rewrite S2; exact Hrel|].
  rewrite S1, <- Hrel.
  set (a := modsub_a bit_id c) in *. set (r := modsub_r bit_id c) in *.
  set (carry := modsub_carry bit_id c) in *.
  set (mid := modsub_mid bit_id c) in *.
  set (out := snd (generate_output_ids bit_id c)) in *.
  assert (Hmid : Forall (mid_rel rho)
                   (Py.zip4 a r carry (firstn (length out) mid))
                 <-> forall i, (i + 1 < w)%nat ->
                       bit rho mid i = xorb (bit rho a i) (bit rho r i)).
  { rewrite firstn_all2 by lia.
    rewrite (mid_rel_index rho a r carry mid (length carry)) by lia.
    split; intros H i Hi; apply H; lia. }
  rewrite <- Hmid. split.
  - intros [Htc Hs]. split; [split; [exact Htc|]|].
    + apply (sat_chain_chain rho _ _ _ _ mid); [lia | exact Hs].
    + destruct Hs as (_ & _ & Hs & _). apply zip5_split. exact Hs.
  - intros [[Htc (H1 & H2 & H3 & H4)] H5]. split; [exact Htc|].
    repeat split; try assumption.
    apply zip5_join; [assumption | assumption | lia].
Qed.

Lemma zero_width_raise (bit_id : string -> nat -> string) (c : component) :
  well_formed c 2 0 ->
  Modsub.sat_constraints bit_id c = Err IndexError
  /\ Modsub.smt_constraints bit_id c = Err IndexError.
Proof.
  intros Hwf.
  assert (Ho : output_bit_size c = 0%nat) by apply Hwf.
  assert (Li : length (snd (generate_input_ids bit_id c)) = 0%nat).
  { destruct Hwf as (_ & _ & H1 & H2).
    rewrite length_generate_input_ids by assumption. rewrite H2. reflexivity. }
  unfold Modsub.sat_constraints, Modsub.smt_constraints.
  cbn [generate_output_ids fst snd]. rewrite Ho.
  destruct (snd (generate_input_ids bit_id c)) as [|? ?];
    try discriminate Li.
  split; reflexivity.
Qed.

(** C3: a 2-operand MODSUB component of width [w < 2] gets no constraint
    set: [sat_constraints] and [smt_constraints] raise [IndexError], since
    they read the last element of the empty lists of carries.  For every
    width [w >= 2] both return, and the constraints of the SMT model are
    satisfied exactly by the assignments in which the word [twocomp_result]
    is the complement of the second operand plus one, the output is the
    first operand minus the second modulo [2^w], that is the first operand
    plus [twocomp_result], and the two carry words are the carries of the
    two chains; the constraints of the SAT model are satisfied exactly by
    the same assignments in which moreover every intermediate variable but
    the last is the XOR of the two bits it joins. *)
Theorem modsub_subtraction_from_two_bits
  (bit_id : string -> nat -> string) (c : component) (w : nat) :
  well_formed c 2 w ->
  ((w < 2)%nat ->
   Modsub.sat_constraints bit_id c = Err IndexError
   /\ Modsub.smt_constraints bit_id c = Err IndexError)
  /\ ((2 <= w)%nat ->
      exists ids_sat cs_sat ids_smt cs_smt,
        Modsub.sat_constraints bit_id c = Ok (ids_sat, cs_sat)
        /\ Modsub.smt_constraints bit_id c = Ok (ids_smt, cs_smt)
        /\ forall rho,
             (Smt.eval_all rho cs_smt = true
              <-> modsub_rel rho w (modsub_a bit_id c) (modsub_b bit_id c)
                    (modsub_r bit_id c) (modsub_t bit_id c)
                    (modsub_carry bit_id c)
                    (snd (generate_output_ids bit_id c)))
             /\ (Sat.eval rho cs_sat = true
                 <-> modsub_rel rho w (modsub_a bit_id c) (modsub_b bit_id c)
                       (modsub_r bit_id c) (modsub_t bit_id c)
                       (modsub_carry bit_id c)
                       (snd (generate_output_ids bit_id c))
                     /\ forall i, (i + 1 < w)%nat ->
                          bit rho (modsub_mid bit_id c) i
                          = xorb (bit rho (modsub_a bit_id c) i)
                              (bit rho (modsub_r bit_id c) i))).
Proof.
  intros Hwf. split.
  - intros Hw. destruct w as [|[|w]]; [| |lia].
    + apply zero_width_raise, Hwf.
    + split; apply (one_bit_raise bit_id c Hwf).
  - intros Hw. apply (modsub_constraints_exact bit_id c w Hwf Hw).
Qed.

(** The statement above at the component [one_bit], of one bit. *)
Lemma modsub_subtraction_from_two_bits_witness :
  Modsub.sat_constraints bit_id_03 one_bit = Err IndexError
  /\ Modsub.smt_constraints bit_id_03 one_bit = Err IndexError.
Proof.
  destruct (modsub_subtraction_from_two_bits bit_id_03 one_bit 1)
    as [H _].
  - repeat split; reflexivity.
  - apply H. lia.
Defined.

(** ** The names introduced by the encodings of MODSUB *)

Lemma twocomp_overlap (rho : assignment) (y0 y1 y2 r0 r1 r2 : string) :
  value_msb rho [r0; r1]
  = (word_msb (map negb (map rho [y0; y1])) + 1) mod 2 ^ Z.of_nat 2 ->
  value_msb rho [r1; r2]
  = (word_msb (map negb (map rho [y1; y2])) + 1) mod 2 ^ Z.of_nat 2 ->
  rho y2 = false.
Proof.
  unfold value_msb. cbn [map].
  destruct (rho y0), (rho y1), (rho y2), (rho r0), (rho r1), (rho r2);
    vm_compute; intros H1 H2; try reflexivity;
    try discriminate H1; discriminate H2.
Qed.

(** C8: the names [twocomp_carry_*] and [twocomp_result_*] are derived from
    the ids of the input bits, not from the component.  The components
    [modsub_left] and [modsub_right], with different ids, subtract the same
    word and both introduce [twocomp_carry_y_000].  The components
    [modsub_left] and [modsub_shifted], with different ids, subtract the
    overlapping words [y[0], y[1]] and [y[1], y[2]]: in the SAT and in the
    SMT model both introduce [twocomp_result_y_001], as the last bit of one
    word and the first bit of the other.  Each constraint set alone has a
    model with [y_002 = 1], but the two sets together force [y_002 = 0]. *)
Theorem twocomp_names_overconstrain :
  exists ids_l sat_l ids_s sat_s jds_l smt_l jds_s smt_s ids_r sat_r,
    Modsub.sat_constraints bit_id_03 modsub_left = Ok (ids_l, sat_l)
    /\ Modsub.sat_constraints bit_id_03 modsub_shifted = Ok (ids_s, sat_s)
    /\ Modsub.smt_constraints bit_id_03 modsub_left = Ok (jds_l, smt_l)
    /\ Modsub.smt_constraints bit_id_03 modsub_shifted = Ok (jds_s, smt_s)
    /\ Modsub.sat_constraints bit_id_03 modsub_right = Ok (ids_r, sat_r)
    /\ id modsub_left <> id modsub_right
    /\ In shared_name ids_l /\ In shared_name ids_r
    /\ id modsub_left <> id modsub_shifted
    /\ In shared_result ids_l /\ In shared_result ids_s
    /\ In shared_result jds_l /\ In shared_result jds_s
    /\ (Sat.eval rho_left sat_l = true
        /\ Smt.eval_all rho_left smt_l = true
        /\ rho_left free_input = true)
    /\ (Sat.eval rho_shifted sat_s = true
        /\ Smt.eval_all rho_shifted smt_s = true
        /\ rho_shifted free_input = true)
    /\ (forall rho,
          Sat.eval rho (sat_l ++ sat_s) = true -> rho free_input = false)
    /\ (forall rho,
          Smt.eval_all rho (smt_l ++ smt_s) = true ->
          rho free_input = false).
Proof.
  assert (Wl : well_formed modsub_left 2 2) by (repeat split; reflexivity).
  assert (Ws : well_formed modsub_shifted 2 2)
    by (repeat split; reflexivity).
  destruct (modsub_constraints_exact bit_id_03 modsub_left 2 Wl (le_n 2))
    as (ids_l & sat_l & jds_l & smt_l & E1 & F1 & H1).
  destruct (modsub_constraints_exact bit_id_03 modsub_shifted 2 Ws (le_n 2))
    as (ids_s & sat_s & jds_s & smt_s & E2 & F2 & H2).
  assert (Hover : forall rho,
            modsub_rel rho 2 (modsub_a bit_id_03 modsub_left)
              (modsub_b bit_id_03 modsub_left)
              (modsub_r bit_id_03 modsub_left)
              (modsub_t bit_id_03 modsub_left)
              (modsub_carry bit_id_03 modsub_left)
              (snd (generate_output_ids bit_id_03 modsub_left)) ->
            modsub_rel rho 2 (modsub_a bit_id_03 modsub_shifted)
              (modsub_b bit_id_03 modsub_shifted)
              (modsub_r bit_id_03 modsub_shifted)
              (modsub_t bit_id_03 modsub_shifted)
              (modsub_carry bit_id_03 modsub_shifted)
              (snd (generate_output_ids bit_id_03 modsub_shifted)) ->
            rho free_input = false).
  { intros rho (R1 & _) (R2 & _).
    apply (twocomp_overlap rho "y_000"%string "y_001"%string "y_002"%string
             "twocomp_result_y_000"%string "twocomp_result_y_001"%string
             "twocomp_result_y_002"%string); [exact R1 | exact R2]. }
  exists ids_l, sat_l, ids_s, sat_s, jds_l, smt_l, jds_s, smt_s.
  eexists. eexists.
  split; [exact E1|]. split; [exact E2|]. split; [exact F1|].
  split; [exact F2|]. split; [vm_compute; reflexivity|].
  split; [discriminate|].
  assert (V1 := E1). assert (V2 := E2). assert (G1 := F1). assert (G2 := F2).
  vm_compute in V1, V2, G1, G2.
  injection V1 as <- <-. injection V2 as <- <-.
  injection G1 as <- <-. injection G2 as <- <-.
  split; [vm_compute; tauto|]. split; [vm_compute; tauto|].
  split; [discriminate|].
  split; [vm_compute; tauto|]. split; [vm_compute; tauto|].
  split; [vm_compute; tauto|]. split; [vm_compute; tauto|].
  split; [repeat split; vm_compute; reflexivity|].
  split; [repeat split; vm_compute; reflexivity|].
  split.
  - intros rho H. unfold Sat.eval in H. rewrite forallb_app in H.
    apply andb_true_iff in H. destruct H as [A B].
    apply (H1 rho) in A. apply (H2 rho) in B.
    apply (Hover rho); [apply A | apply B].
  - intros rho H. unfold Smt.eval_all in H. rewrite forallb_app in H.
    apply andb_true_iff in H. destruct H as [A B].
    apply (H1 rho) in A. apply (H2 rho) in B.
    apply (Hover rho); assumption.
Qed.

(** ** The encodings of MODADD and the order of the bits *)

(** C1, as stated, fails: with both operands the word [01] and the output
    [00], the polynomials of the algebraic model all vanish, yet with index
    0 most significant the operands are 1 and 1 and the output is 0, not 2.
    The algebraic model adds with index 0 least significant. *)
Lemma algebraic_order_differs :
  exists ps,
    Modadd.algebraic_polynomials add_two xy_model = Ok ps
    /\ Poly.zero rho_low_bits ps = true
    /\ value_msb rho_low_bits (alg_output_names add_two xy_model)
       <> sum_operands (value_msb rho_low_bits)
            (alg_input_names add_two xy_model) 2 2 mod 2 ^ 2.
Proof.
  eexists. split; [vm_compute; reflexivity|].
  split; [vm_compute; reflexivity|].
  vm_compute. discriminate.
Qed.

(** ** Extending an assignment on fresh variables *)

Lemma lookup_none (names : list string) (values : list bool) (v : string) :
  ~ In v names -> lookup (combine names values) v = None.
Proof.
  revert values. induction names as [|n names IH]; intros [|b values] H;
    try reflexivity.
  cbn [combine lookup]. destruct (String.eqb_spec n v) as [->|Hne].
  - exfalso. apply H. left. reflexivity.
  - apply IH. intros Hin. apply H. right. exact Hin.
Qed.

Lemma extend_outside (rho : assignment) (names : list string)
  (values : list bool) (v : string) :
  ~ In v names -> extend rho names values v = rho v.
Proof.
  intros H. unfold extend. rewrite lookup_none by exact H. reflexivity.
Qed.

Lemma extend_names (rho : assignment) (names : list string) :
  forall values : list bool,
    NoDup names -> length names = length values ->
    map (extend rho names values) names = values.
Proof.
  induction names as [|n names IH]; intros [|b values] Hnd Hl;
    try discriminate Hl; [reflexivity|].
  inversion Hnd as [|? ? Hn Hnd']; subst.
  cbn [map]. f_equal.
  - unfold extend. cbn [combine lookup]. rewrite String.eqb_refl. reflexivity.
  - rewrite <- (IH values Hnd') at 2 by (simpl in Hl; lia).
    apply map_ext_in. intros v Hv. unfold extend. cbn [combine lookup].
    destruct (String.eqb_spec n v) as [->|Hne]; [contradiction|reflexivity].
Qed.

Lemma extend_map_outside (rho : assignment) (names : list string)
  (values : list bool) (l : list string) :
  (forall v, In v l -> ~ In v names) ->
  map (extend rho names values) l = map rho l.
Proof.
  intros H. apply map_ext_in. intros v Hv. apply extend_outside, H, Hv.
Qed.

Lemma app_eq_length {A : Type} (l1 : list A) :
  forall l2 u1 u2 : list A,
    length l1 = length u1 -> l1 ++ l2 = u1 ++ u2 -> l1 = u1 /\ l2 = u2.
Proof.
  induction l1 as [|a l1 IH]; intros l2 [|b u1] u2 L H; try discriminate L.
  - split; [reflexivity | exact H].
  - cbn [app] in H. injection H as -> H.
    destruct (IH l2 u1 u2) as [-> ->]; [simpl in L; lia | exact H|].
    split; reflexivity.
Qed.

Lemma map_concat_nth {A B : Type} (f : A -> B) (L : list (list A)) :
  forall UL : list (list B),
    length L = length UL ->
    (forall n, (n < length L)%nat ->
       length (nth n L []) = length (nth n UL [])) ->
    map f (concat L) = concat UL ->
    forall n, (n < length L)%nat -> map f (nth n L []) = nth n UL [].
Proof.
  induction L as [|l L IH]; intros [|u UL] HL Hn H n Hlt;
    try discriminate HL; [simpl in Hlt; lia|].
  cbn [concat] in H. rewrite map_app in H.
  apply app_eq_length in H;
    [|rewrite length_map; apply (Hn 0%nat); simpl; lia].
  destruct H as [H0 H']. destruct n as [|n]; [exact H0|].
  cbn [nth]. apply IH; try assumption.
  - simpl in HL. lia.
  - intros m Hm. apply (Hn (S m)). simpl. lia.
  - simpl in Hlt. lia.
Qed.

Lemma length_concat_eq {A B : Type} (L : list (list A)) :
  forall UL : list (list B),
    length L = length UL ->
    (forall n, (n < length L)%nat ->
       length (nth n L []) = length (nth n UL [])) ->
    length (concat L) = length (concat UL).
Proof.
  induction L as [|l L IH]; intros [|u UL] HL Hn; try discriminate HL;
    [reflexivity|].
  cbn [concat]. rewrite !length_app. f_equal.
  - apply (Hn 0%nat). simpl. lia.
  - apply IH; [simpl in HL; lia|].
    intros m Hm. apply (Hn (S m)). simpl. lia.
Qed.

(** ** Every assignment of the operands extends to a model: SAT *)

Lemma In_operand {A : Type} (input_ids : list A) (w i : nat) (v : A) :
  In v (operand input_ids w i) -> In v input_ids.
Proof.
  unfold operand, Py.slice. intros H.
  rewrite <- (firstn_skipn (i * w) input_ids). apply in_or_app. right.
  set (l := skipn (i * w) input_ids) in *.
  rewrite <- (firstn_skipn ((i + 1) * w - i * w) l). apply in_or_app. left.
  exact H.
Qed.

Lemma length_xor_bits (x y : list bool) :
  length x = length y -> length (xor_bits x y) = length x.
Proof.
  revert y. induction x as [|a x IH]; intros [|b y] H; try discriminate H;
    [reflexivity|].
  cbn [xor_bits length]. rewrite IH; [reflexivity | simpl in H; lia].
Qed.

Lemma mid_of_values (rho : assignment) (x : list string) :
  forall y carry mid : list string,
    map rho mid = xor_bits (map rho x) (map rho y) ->
    Forall (mid_rel rho) (Py.zip4 x y carry mid).
Proof.
  induction x as [|a x IH]; intros [|b y] [|c carry] [|m mid] H;
    cbn [Py.zip4]; try constructor.
  - cbn [map xor_bits] in H. unfold mid_rel. congruence.
  - cbn [map xor_bits] in H. apply IH. congruence.
Qed.

Lemma sat_chain_of_values (rho : assignment)
  (out x y carry mid : list string) :
  carry <> [] ->
  length x = S (length carry) -> length y = S (length carry) ->
  length out = S (length carry) -> length mid = S (length carry) ->
  map rho carry = carries (map rho x) (map rho y) ->
  map rho out = sum_bits (map rho x) (map rho y) ->
  map rho mid = xor_bits (map rho x) (map rho y) ->
  sat_chain rho out x y carry mid.
Proof.
  intros Hne Lx Ly Lo Lm Hc Ho Hm.
  assert (Hch : chain rho out x y carry)
    by (apply chain_carries; try assumption; split; assumption).
  destruct Hch as (H1 & H2 & H3 & H4).
  repeat split; try assumption.
  apply zip5_join; [exact H3 | | lia].
  rewrite firstn_all2 by lia. apply mid_of_values. exact Hm.
Qed.

Section SatComplete.

Variable bit_id : string -> nat -> string.
Variables (c : component) (k w : nat).
Hypothesis Hwf : well_formed c k w.
Hypothesis Hk : (2 <= k)%nat.
Hypothesis Hw : (2 <= w)%nat.

Let input_ids := snd (generate_input_ids bit_id c).
Let output_ids := snd (generate_output_ids bit_id c).
Let outs := Modadd.outputs_ids_of output_ids k.
Let ins := Modadd.inputs_ids_of input_ids w k.
Let cars := Modadd.carries_ids_of output_ids k.
Let mids := Modadd.intermediates_ids_of output_ids k.
Let ids := concat cars ++ concat mids ++ concat outs.

Hypothesis Hnodup : NoDup ids.
Hypothesis Hfresh : forall v, In v input_ids -> ~ In v ids.

Variable rho : assignment.

Let right_bits (n : nat) := map rho (operand input_ids w (S n)).

Let left_bits :=
  partial_sum sum_bits (fun i => map rho (operand input_ids w i)).

Let carry_values :=
  map (fun n => carries (left_bits n) (right_bits n)) (seq 0 (k - 1)).
Let mid_values :=
  map (fun n => xor_bits (left_bits n) (right_bits n)) (seq 0 (k - 1)).
Let out_values :=
  map (fun n => sum_bits (left_bits n) (right_bits n)) (seq 0 (k - 1)).
Let values := concat carry_values ++ concat mid_values ++ concat out_values.
Let rho' := extend rho ids values.

Lemma len_right (n : nat) : (n < k - 1)%nat -> length (right_bits n) = w.
Proof using Hwf Hk Hw.
  intros Hn. unfold right_bits. rewrite length_map.
  apply (length_operand _ w k); [|lia].
  apply (sat_len_in bit_id c k w Hwf).
Qed.

Lemma len_left (n : nat) : (n < k)%nat -> length (left_bits n) = w.
Proof using Hwf Hk Hw.
  unfold left_bits. induction n as [|n IH]; intros Hn.
  - cbn [partial_sum]. rewrite length_map.
    apply (length_operand _ w k); [|lia].
    apply (sat_len_in bit_id c k w Hwf).
  - cbn [partial_sum]. fold (right_bits n).
    rewrite length_sum_bits; rewrite IH by lia;
      [reflexivity|]. rewrite len_right by lia. reflexivity.
Qed.

Lemma len_carries_w (x y : list bool) :
  length x = w -> length y = w -> S (length (carries x y)) = w.
Proof using Hk Hw.
  intros Lx Ly. destruct (length_carries x y) as [E|E]; [lia|lia|].
  subst x. simpl in Lx. lia.
Qed.

Lemma sat_chunks :
  (forall n, (n < k - 1)%nat ->
     map rho' (nth n cars []) = carries (left_bits n) (right_bits n))
  /\ (forall n, (n < k - 1)%nat ->
        map rho' (nth n mids []) = xor_bits (left_bits n) (right_bits n))
  /\ (forall n, (n < k - 1)%nat ->
        map rho' (nth n outs []) = sum_bits (left_bits n) (right_bits n)).
Proof using Hwf Hk Hw Hnodup.
  pose proof (length_outputs_ids_of output_ids k Hk) as Lo.
  pose proof (length_carries_ids_of output_ids k Hk) as Lc.
  pose proof (length_intermediates_ids_of output_ids k Hk) as Lm.
  fold outs in Lo. fold cars in Lc. fold mids in Lm.
  assert (Lcv : length carry_values = (k - 1)%nat)
    by (unfold carry_values; rewrite length_map, length_seq; reflexivity).
  assert (Lmv : length mid_values = (k - 1)%nat)
    by (unfold mid_values; rewrite length_map, length_seq; reflexivity).
  assert (Lov : length out_values = (k - 1)%nat)
    by (unfold out_values; rewrite length_map, length_seq; reflexivity).
  assert (Nc : forall n, (n < k - 1)%nat ->
            nth n carry_values []
            = carries (left_bits n) (right_bits n))
    by (intros n Hn; unfold carry_values;
        apply (nth_map_seq
                 (fun n => carries (left_bits n) (right_bits n)));
        exact Hn).
  assert (Nm : forall n, (n < k - 1)%nat ->
            nth n mid_values []
            = xor_bits (left_bits n) (right_bits n))
    by (intros n Hn; unfold mid_values;
        apply (nth_map_seq
                 (fun n => xor_bits (left_bits n) (right_bits n)));
        exact Hn).
  assert (No : forall n, (n < k - 1)%nat ->
            nth n out_values []
            = sum_bits (left_bits n) (right_bits n))
    by (intros n Hn; unfold out_values;
        apply (nth_map_seq
                 (fun n => sum_bits (left_bits n) (right_bits n)));
        exact Hn).
  assert (Hlc : forall n, (n < length cars)%nat ->
            length (nth n cars []) = length (nth n carry_values [])).
  { intros n Hn. rewrite Nc by lia.
    pose proof (sat_len_car bit_id c k w Hwf Hk Hw n ltac:(lia)) as L1.
    fold output_ids cars in L1.
    pose proof (len_carries_w (left_bits n) (right_bits n)
                  (len_left n ltac:(lia)) (len_right n ltac:(lia))) as L2.
    lia. }
  assert (Hlm : forall n, (n < length mids)%nat ->
            length (nth n mids []) = length (nth n mid_values [])).
  { intros n Hn. rewrite Nm by lia.
    pose proof (length_nth_intermediates_ids_of output_ids k Hk n
                  ltac:(lia)) as L1.
    fold mids in L1. rewrite L1.
    rewrite length_xor_bits
      by (rewrite len_left, len_right by lia; reflexivity).
    rewrite len_left by lia.
    apply (sat_len_out bit_id c k w Hwf). }
  assert (Hlo : forall n, (n < length outs)%nat ->
            length (nth n outs []) = length (nth n out_values [])).
  { intros n Hn. rewrite No by lia.
    pose proof (length_nth_outputs_ids_of output_ids k Hk n
                  ltac:(lia)) as L1.
    fold outs in L1. rewrite L1.
    rewrite length_sum_bits
      by (rewrite len_left, len_right by lia; reflexivity).
    rewrite len_left by lia.
    apply (sat_len_out bit_id c k w Hwf). }
  assert (Hall : map rho' ids = values).
  { unfold rho'. apply extend_names; [exact Hnodup|].
    unfold ids, values. rewrite !length_app.
    rewrite (length_concat_eq cars carry_values) by (lia || exact Hlc).
    rewrite (length_concat_eq mids mid_values) by (lia || exact Hlm).
    rewrite (length_concat_eq outs out_values) by (lia || exact Hlo).
    reflexivity. }
  unfold ids, values in Hall. rewrite !map_app in Hall.
  apply app_eq_length in Hall;
    [|rewrite length_map; apply length_concat_eq; [lia | exact Hlc]].
  destruct Hall as [Hc Hall].
  apply app_eq_length in Hall;
    [|rewrite length_map; apply length_concat_eq; [lia | exact Hlm]].
  destruct Hall as [Hm Ho].
  split; [|split]; intros n Hn.
  - rewrite <- Nc by exact Hn.
    apply map_concat_nth; try assumption; lia.
  - rewrite <- Nm by exact Hn.
    apply map_concat_nth; try assumption; lia.
  - rewrite <- No by exact Hn.
    apply map_concat_nth; try assumption; lia.
Qed.

Lemma sat_operand_unchanged (i : nat) :
  map rho' (operand input_ids w i) = map rho (operand input_ids w i).
Proof using Hfresh.
  unfold rho'. apply extend_map_outside. intros v Hv. apply Hfresh.
  apply (In_operand input_ids w i v Hv).
Qed.

Lemma sat_left_values (n : nat) :
  (n < k - 1)%nat ->
  map rho' match n with
           | O => nth 0 ins []
           | S j => nth j outs []
           end = left_bits n.
Proof using Hwf Hk Hw Hnodup Hfresh.
  intros Hn. destruct n as [|n].
  - unfold ins. rewrite (nth_inputs_ids_of k Hk) by lia.
    apply sat_operand_unchanged.
  - destruct sat_chunks as (_ & _ & Ho). rewrite Ho by lia. reflexivity.
Qed.

Lemma sat_extension :
  exists rho1,
    (forall v, ~ In v ids -> rho1 v = rho v)
    /\ exists cs,
         Modadd.sat_constraints bit_id c = Ok (ids, cs)
         /\ Sat.eval rho1 cs = true.
Proof using Hwf Hk Hw Hnodup Hfresh.
  destruct (sat_constraints_sound bit_id c k w Hwf Hk Hw)
    as (cs & E & Hst & _).
  exists rho'. split; [|exists cs; split; [exact E|]].
  - intros v Hv. unfold rho'. apply extend_outside, Hv.
  - apply Hst. intros n Hn.
    fold input_ids output_ids. fold outs ins cars mids.
    destruct sat_chunks as (Hc & Hm & Ho).
    pose proof (sat_len_car bit_id c k w Hwf Hk Hw n Hn) as Lc.
    fold output_ids cars in Lc.
    assert (Lx : length match n with
                        | O => nth 0 ins []
                        | S j => nth j outs []
                        end = w).
    { rewrite <- (length_map rho'), sat_left_values by exact Hn.
      apply len_left. lia. }
    assert (Ly : length (nth (S n) ins []) = w).
    { unfold ins. rewrite (nth_inputs_ids_of k Hk) by lia.
      apply (length_operand _ w k); [|lia].
      apply (sat_len_in bit_id c k w Hwf). }
    assert (Ry : map rho' (nth (S n) ins []) = right_bits n).
    { unfold ins. rewrite (nth_inputs_ids_of k Hk) by lia.
      apply sat_operand_unchanged. }
    apply sat_chain_of_values.
    + intros E0. rewrite E0 in Lc. simpl in Lc. lia.
    + lia.
    + lia.
    + rewrite <- (length_map rho'), Ho by exact Hn.
      rewrite length_sum_bits
        by (rewrite len_left, len_right by lia; reflexivity).
      rewrite len_left by lia. lia.
    + rewrite <- (length_map rho'), Hm by exact Hn.
      rewrite length_xor_bits
        by (rewrite len_left, len_right by lia; reflexivity).
      rewrite len_left by lia. lia.
    + rewrite sat_left_values, Ry by exact Hn. apply Hc, Hn.
    + rewrite sat_left_values, Ry by exact Hn. apply Ho, Hn.
    + rewrite sat_left_values, Ry by exact Hn. apply Hm, Hn.
Qed.

End SatComplete.

(** ** The models of the SAT encoding are exactly the sums *)

Lemma mem_In (v : string) (l : list string) : mem v l = true <-> In v l.
Proof.
  unfold mem. rewrite existsb_exists. split.
  - intros (x & Hx & E). apply String.eqb_eq in E. subst. exact Hx.
  - intros H. exists v. split; [exact H | apply String.eqb_refl].
Qed.

Lemma distinct_NoDup (l : list string) : distinct l = true -> NoDup l.
Proof.
  induction l as [|v l IH]; intros H; [constructor|].
  cbn [distinct] in H. apply andb_true_iff in H. destruct H as [H1 H2].
  constructor; [|apply IH, H2].
  intros Hin. apply mem_In in Hin. rewrite Hin in H1. discriminate H1.
Qed.

Lemma disjoint_In (l1 l2 : list string) :
  disjoint l1 l2 = true -> forall v, In v l1 -> ~ In v l2.
Proof.
  unfold disjoint. rewrite forallb_forall. intros H v H1 H2.
  specialize (H v H1). apply mem_In in H2. rewrite H2 in H. discriminate H.
Qed.

Lemma agree_map (l : list string) (rho rho' : assignment) :
  agree l rho rho' <-> map rho' l = map rho l.
Proof. unfold agree. symmetry. apply map_ext_in_iff. Qed.

Lemma agree_operands (value : list bool -> Z) (l : list string)
  (rho rho' : assignment) (w k : nat) :
  agree l rho rho' ->
  sum_operands (fun ids => value (map rho' ids)) l w k
  = sum_operands (fun ids => value (map rho ids)) l w k.
Proof.
  intros H. unfold sum_operands. f_equal. apply map_ext. intros i.
  f_equal. apply agree_map. intros v Hv. apply H.
  apply (In_operand l w i v Hv).
Qed.

Lemma sat_constraints_exact (bit_id : string -> nat -> string)
  (c : component) (k w : nat) :
  well_formed c k w -> (2 <= k)%nat -> (2 <= w)%nat ->
  let input_ids := snd (generate_input_ids bit_id c) in
  let output_ids := snd (generate_output_ids bit_id c) in
  let ids := concat (Modadd.carries_ids_of output_ids k)
             ++ concat (Modadd.intermediates_ids_of output_ids k)
             ++ concat (Modadd.outputs_ids_of output_ids k) in
  NoDup ids ->
  (forall v, In v input_ids -> ~ In v ids) ->
  exists cs,
    Modadd.sat_constraints bit_id c = Ok (ids, cs)
    /\ forall rho,
         (exists rho', agree (input_ids ++ output_ids) rho rho'
                       /\ Sat.eval rho' cs = true)
         <-> value_msb rho output_ids
             = sum_operands (value_msb rho) input_ids w k mod 2 ^ Z.of_nat w.
Proof.
  intros Hwf Hk Hw input_ids output_ids ids Hnd Hfresh.
  destruct (sat_constraints_sound bit_id c k w Hwf Hk Hw)
    as (cs & E & _ & Hsum).
  exists cs. split; [exact E|]. intros rho. split.
  - intros (rho' & Ha & He). apply Hsum in He.
    fold input_ids output_ids in He.
    assert (Hi : agree input_ids rho rho')
      by (intros v Hv; apply Ha, in_or_app; left; exact Hv).
    assert (Ho : agree output_ids rho rho')
      by (intros v Hv; apply Ha, in_or_app; right; exact Hv).
    unfold value_msb in He |- *.
    apply agree_map in Ho. rewrite Ho in He. rewrite He.
    rewrite (agree_operands word_msb input_ids rho rho' w k Hi).
    reflexivity.
  - intros Hv.
    destruct (sat_extension bit_id c k w Hwf Hk Hw Hnd Hfresh rho)
      as (rho' & Hout & cs' & E' & He).
    fold output_ids ids in E'. rewrite E in E'. injection E' as <-.
    assert (Hi : agree input_ids rho rho')
      by (intros v Hin; apply Hout, Hfresh, Hin).
    exists rho'. split; [|exact He].
    intros v Hin. apply in_app_or in Hin. destruct Hin as [Hin|Hin];
      [apply Hi, Hin|].
    revert v Hin. apply agree_map. apply word_msb_inj;
      [rewrite !length_map; reflexivity|].
    apply Hsum in He. fold input_ids output_ids in He.
    unfold value_msb in He, Hv. rewrite He, Hv.
    rewrite (agree_operands word_msb input_ids rho rho' w k Hi).
    reflexivity.
Qed.

(** ** Every assignment of the operands extends to a common zero *)

Lemma length_carries_lsb (c : bool) (x y : list bool) :
  length x = length y -> length (carries_lsb c x y) = length x.
Proof.
  revert c y. induction x as [|a x IH]; intros c [|b y] H;
    try discriminate H; [reflexivity|].
  cbn [carries_lsb length]. rewrite IH; [reflexivity|]. simpl in H. lia.
Qed.

Lemma word_lsb_inj (l1 : list bool) :
  forall l2, length l1 = length l2 -> word_lsb l1 = word_lsb l2 -> l1 = l2.
Proof.
  induction l1 as [|a l1 IH]; intros [|b l2] L H; try discriminate L;
    [reflexivity|].
  cbn [word_lsb] in H.
  assert (Hab : a = b) by (destruct a, b; cbn [Z.b2z] in H; try reflexivity; lia).
  subst b. f_equal. apply IH; [simpl in L; lia | lia].
Qed.

Lemma extend_chunks (rho : assignment) (L : list (list string))
  (UL : list (list bool)) :
  NoDup (concat L) -> length L = length UL ->
  (forall n, (n < length L)%nat ->
     length (nth n L []) = length (nth n UL [])) ->
  forall n, (n < length L)%nat ->
    map (extend rho (concat L) (concat UL)) (nth n L []) = nth n UL [].
Proof.
  intros Hnd HL Hn. apply map_concat_nth; try assumption.
  apply extend_names; [assumption | apply length_concat_eq; assumption].
Qed.

Lemma alg_word_vars (c : component) (tag : string) (n : nat) :
  alg_word c tag n = map Poly.Var (alg_word_names c tag n).
Proof. unfold alg_word, alg_word_names. rewrite map_map. reflexivity. Qed.

Lemma alg_result_vars (c : component) (model : algebraic_model) (n : nat) :
  alg_result c model n = map Poly.Var (alg_result_names c model n).
Proof.
  unfold alg_result, alg_result_names.
  destruct (n =? description_1 c - 1 - 1)%nat.
  - unfold alg_output_vars, alg_output_names. rewrite map_map. reflexivity.
  - apply alg_word_vars.
Qed.

Lemma eval_vars (rho : assignment) (l : list string) :
  map (Poly.eval rho) (map Poly.Var l) = map rho l.
Proof. rewrite map_map. reflexivity. Qed.

Lemma stage_polys_zero_pos (rho : assignment) (w : nat)
  (x y z c : list Poly.poly) :
  (1 <= w)%nat ->
  Poly.zero rho (stage_polys w x y z c) = true
  <-> lsb_rel w false (map (Poly.eval rho) x) (map (Poly.eval rho) y)
        (map (Poly.eval rho) z) (map (Poly.eval rho) c).
Proof.
  intros Hw. destruct w as [|w]; [lia|]. apply stage_polys_zero.
Qed.

Section AlgebraicComplete.

Variables (c : component) (model : algebraic_model) (k w : nat).
Hypothesis Hwf : well_formed c k w.
Hypothesis Hk : (2 <= k)%nat.
Hypothesis Hw : (1 <= w)%nat.

Let input_names := alg_input_names c model.
Let ids := alg_new_names c model.

Hypothesis Hnodup : NoDup ids.
Hypothesis Hfresh : forall v, In v input_names -> ~ In v ids.

Variable rho : assignment.

Let right_bits (n : nat) := map rho (operand input_names w (S n)).
Let left_bits :=
  partial_sum (sum_lsb false) (fun i => map rho (operand input_names w i)).
Let carry_value (n : nat) := carries_lsb false (left_bits n) (right_bits n).
Let out_value (n : nat) := sum_lsb false (left_bits n) (right_bits n).
Let chunks :=
  map (alg_word_names c "_c") (seq 0 (k - 1))
  ++ map (alg_result_names c model) (seq 0 (k - 1)).
Let values := map carry_value (seq 0 (k - 1)) ++ map out_value (seq 0 (k - 1)).
Let rho' := extend rho ids (concat values).

Lemma alg_len_names : length input_names = (k * w)%nat.
Proof using Hwf Hk Hw.
  unfold input_names, alg_input_names. rewrite length_map, length_range.
  destruct Hwf as (_ & _ & _ & ->). lia.
Qed.

Lemma alg_len_right_bits (n : nat) :
  (n < k - 1)%nat -> length (right_bits n) = w.
Proof using Hwf Hk Hw.
  intros Hn. unfold right_bits. rewrite length_map.
  apply (length_operand _ w k); [apply alg_len_names | lia].
Qed.

Lemma alg_len_left_bits (n : nat) :
  (n < k)%nat -> length (left_bits n) = w.
Proof using Hwf Hk Hw.
  unfold left_bits. induction n as [|n IH]; intros Hn.
  - cbn [partial_sum]. rewrite length_map.
    apply (length_operand _ w k); [apply alg_len_names | lia].
  - cbn [partial_sum]. fold (right_bits n).
    rewrite length_sum_lsb; rewrite IH by lia; [reflexivity|].
    rewrite alg_len_right_bits by lia. reflexivity.
Qed.

Lemma alg_len_word_names (tag : string) (n : nat) :
  length (alg_word_names c tag n) = w.
Proof using Hwf Hk Hw.
  unfold alg_word_names. rewrite length_map, length_range.
  destruct Hwf as (_ & -> & _). lia.
Qed.

Lemma alg_len_result_names (n : nat) :
  length (alg_result_names c model n) = w.
Proof using Hwf Hk Hw.
  rewrite <- (length_map Poly.Var), <- alg_result_vars.
  apply (alg_len_result c model k w Hwf Hk Hw).
Qed.

Lemma alg_chunks (n : nat) :
  (n < k - 1)%nat ->
  map rho' (alg_word_names c "_c" n) = carry_value n
  /\ map rho' (alg_result_names c model n) = out_value n.
Proof using Hwf Hk Hw Hnodup.
  intros Hn.
  assert (Hd : description_1 c = k) by apply Hwf.
  assert (Hids : ids = concat chunks)
    by (unfold ids, alg_new_names, chunks; rewrite Hd; reflexivity).
  assert (LL : length chunks = (2 * (k - 1))%nat)
    by (unfold chunks; rewrite length_app, !length_map, length_seq; lia).
  assert (LU : length values = (2 * (k - 1))%nat)
    by (unfold values; rewrite length_app, !length_map, length_seq; lia).
  assert (N1 : forall i, (i < k - 1)%nat ->
            nth i chunks [] = alg_word_names c "_c" i
            /\ nth i values [] = carry_value i).
  { intros i Hi. unfold chunks, values.
    rewrite !app_nth1 by (rewrite length_map, length_seq; exact Hi).
    rewrite (nth_map_seq (alg_word_names c "_c")) by exact Hi.
    rewrite (nth_map_seq carry_value) by exact Hi. split; reflexivity. }
  assert (N2 : forall i, (i < k - 1)%nat ->
            nth (k - 1 + i) chunks [] = alg_result_names c model i
            /\ nth (k - 1 + i) values [] = out_value i).
  { intros i Hi. unfold chunks, values.
    rewrite !app_nth2 by (rewrite length_map, length_seq; lia).
    rewrite !length_map, length_seq.
    replace (k - 1 + i - (k - 1))%nat with i by lia.
    rewrite (nth_map_seq (alg_result_names c model)) by exact Hi.
    rewrite (nth_map_seq out_value) by exact Hi. split; reflexivity. }
  assert (Hlen : forall i, (i < length chunks)%nat ->
            length (nth i chunks []) = length (nth i values [])).
  { intros i Hi. destruct (Nat.lt_ge_cases i (k - 1)) as [Hlt|Hge].
    - destruct (N1 i Hlt) as [-> ->]. unfold carry_value.
      rewrite alg_len_word_names, length_carries_lsb;
        rewrite alg_len_left_bits by lia; [reflexivity|].
      rewrite alg_len_right_bits by lia. reflexivity.
    - replace i with (k - 1 + (i - (k - 1)))%nat by lia.
      destruct (N2 (i - (k - 1))%nat ltac:(lia)) as [-> ->].
      unfold out_value.
      rewrite alg_len_result_names, length_sum_lsb;
        rewrite alg_len_left_bits by lia; [reflexivity|].
      rewrite alg_len_right_bits by lia. reflexivity. }
  assert (Hall : forall i, (i < length chunks)%nat ->
            map rho' (nth i chunks []) = nth i values []).
  { unfold rho'. rewrite Hids. apply extend_chunks;
      [rewrite <- Hids; exact Hnodup | lia | exact Hlen]. }
  split.
  - destruct (N1 n Hn) as [<- <-]. apply Hall. lia.
  - destruct (N2 n Hn) as [<- <-]. apply Hall. lia.
Qed.

Lemma alg_operand_unchanged (i : nat) :
  map rho' (operand input_names w i) = map rho (operand input_names w i).
Proof using Hfresh.
  unfold rho'. apply extend_map_outside. intros v Hv. apply Hfresh.
  apply (In_operand input_names w i v Hv).
Qed.

Lemma alg_left_values (n : nat) :
  (n < k - 1)%nat ->
  map (Poly.eval rho') (alg_left c model n) = left_bits n.
Proof using Hwf Hk Hw Hnodup Hfresh.
  intros Hn. destruct n as [|n].
  - rewrite (alg_left_operand c model k w Hwf Hk Hw), eval_vars.
    apply alg_operand_unchanged.
  - cbn [alg_left].
    assert (Hd : description_1 c = k) by apply Hwf.
    assert (E : alg_word c "_o" n = alg_result c model n).
    { unfold alg_result. rewrite Hd.
      destruct (Nat.eqb_spec n (k - 1 - 1)); [lia | reflexivity]. }
    rewrite E, alg_result_vars, eval_vars.
    destruct (alg_chunks n ltac:(lia)) as [_ ->]. reflexivity.
Qed.

Lemma alg_extension :
  exists rho1,
    (forall v, ~ In v ids -> rho1 v = rho v)
    /\ exists ps,
         Modadd.algebraic_polynomials c model = Ok ps
         /\ Poly.zero rho1 ps = true.
Proof using Hwf Hk Hw Hnodup Hfresh.
  exists rho'. split; [intros v Hv; unfold rho'; apply extend_outside, Hv|].
  eexists. split;
    [apply (algebraic_polynomials_stages c model k w Hwf Hk Hw)|].
  rewrite zero_flat_map, forallb_forall. intros n Hn.
  unfold Py.range in Hn. apply in_seq in Hn.
  assert (Hlt : (n < k - 1)%nat) by lia.
  destruct (alg_chunks n Hlt) as [Hc Ho].
  assert (LX : length (left_bits n) = w) by (apply alg_len_left_bits; lia).
  assert (LY : length (right_bits n) = w)
    by (apply alg_len_right_bits; exact Hlt).
  apply stage_polys_zero_pos; [exact Hw|].
  rewrite alg_left_values by exact Hlt.
  rewrite (alg_right_operand c model k w Hwf Hk Hw), eval_vars.
  rewrite alg_operand_unchanged. fold (right_bits n).
  rewrite alg_result_vars, alg_word_vars, !eval_vars, Hc, Ho.
  rewrite <- LX at 1. apply lsb_rel_carries.
  - intros E. rewrite E in LX. simpl in LX. lia.
  - lia.
  - unfold out_value. rewrite length_sum_lsb; lia.
  - unfold carry_value. rewrite length_carries_lsb; lia.
  - split; reflexivity.
Qed.

End AlgebraicComplete.

Lemma algebraic_polynomials_exact (c : component) (model : algebraic_model)
  (k w : nat) :
  well_formed c k w -> (2 <= k)%nat -> (1 <= w)%nat ->
  let input_names := alg_input_names c model in
  let output_names := alg_output_names c model in
  NoDup (alg_new_names c model) ->
  (forall v, In v input_names -> ~ In v (alg_new_names c model)) ->
  exists ps,
    Modadd.algebraic_polynomials c model = Ok ps
    /\ forall rho,
         (exists rho', agree (input_names ++ output_names) rho rho'
                       /\ Poly.zero rho' ps = true)
         <-> value_lsb rho output_names
             = sum_operands (value_lsb rho) input_names w k
                 mod 2 ^ Z.of_nat w.
Proof.
  intros Hwf Hk Hw input_names output_names Hnd Hfresh.
  destruct (algebraic_polynomials_sound c model k w Hwf Hk Hw)
    as (ps & E & Hsum).
  exists ps. split; [exact E|]. intros rho. split.
  - intros (rho' & Ha & He). apply Hsum in He.
    fold input_names output_names in He.
    assert (Hi : agree input_names rho rho')
      by (intros v Hv; apply Ha, in_or_app; left; exact Hv).
    assert (Ho : agree output_names rho rho')
      by (intros v Hv; apply Ha, in_or_app; right; exact Hv).
    unfold value_lsb in He |- *.
    apply agree_map in Ho. rewrite Ho in He. rewrite He.
    rewrite (agree_operands word_lsb input_names rho rho' w k Hi).
    reflexivity.
  - intros Hv.
    destruct (alg_extension c model k w Hwf Hk Hw Hnd Hfresh rho)
      as (rho' & Hout & ps' & E' & He).
    rewrite E in E'. injection E' as <-.
    assert (Hi : agree input_names rho rho')
      by (intros v Hin; apply Hout, Hfresh, Hin).
    exists rho'. split; [|exact He].
    intros v Hin. apply in_app_or in Hin. destruct Hin as [Hin|Hin];
      [apply Hi, Hin|].
    revert v Hin. apply agree_map. apply word_lsb_inj;
      [rewrite !length_map; reflexivity|].
    apply Hsum in He. fold input_names output_names in He.
    unfold value_lsb in He, Hv. rewrite He, Hv.
    rewrite (agree_operands word_lsb input_names rho rho' w k Hi).
    reflexivity.
Qed.

(** ** Every 0/1 assignment of the operands extends to a CP solution *)

Lemma cp_extend_out (sigma : Cp.store) (binds : list (string * (Z -> Z)))
  (a : string) (i : Z) :
  ~ In a (map fst binds) -> cp_extend sigma binds a i = sigma a i.
Proof.
  induction binds as [|[b f] binds IH]; intros H; [reflexivity|].
  cbn [cp_extend]. destruct (String.eqb_spec a b) as [->|Hne].
  - exfalso. apply H. left. reflexivity.
  - apply IH. intros Hin. apply H. right. exact Hin.
Qed.

Lemma cp_extend_in (sigma : Cp.store) (binds : list (string * (Z -> Z)))
  (a : string) (f : Z -> Z) (i : Z) :
  NoDup (map fst binds) -> In (a, f) binds -> cp_extend sigma binds a i = f i.
Proof.
  induction binds as [|[b g] binds IH]; intros Hnd Hin; [destruct Hin|].
  cbn [map fst] in Hnd. inversion Hnd as [|? ? Hb Hnd']; subst.
  cbn [cp_extend]. destruct Hin as [E|Hin].
  - injection E as -> ->. rewrite String.eqb_refl. reflexivity.
  - destruct (String.eqb_spec a b) as [->|Hne].
    + exfalso. apply Hb. apply (in_map fst) in Hin. exact Hin.
    + apply IH; assumption.
Qed.

Lemma In_cp_all_inputs (c : component) (e : Cp.expr) :
  In e (cp_all_inputs c) ->
  exists l p, e = Cp.Elem l p /\ In l (input_id_links c).
Proof.
  unfold cp_all_inputs. intros H. apply in_flat_map in H.
  destruct H as ([l ps] & Hin & He). apply in_map_iff in He.
  destruct He as (p & <- & _). exists l, (Z.of_nat p).
  split; [reflexivity|]. apply in_combine_l in Hin. exact Hin.
Qed.

Lemma cp_agree_inputs (c : component) (sigma sigma' : Cp.store) :
  cp_agree (input_id_links c) sigma sigma' ->
  forall e, In e (cp_all_inputs c) ->
    Cp.eval_expr sigma' e = Cp.eval_expr sigma e.
Proof.
  intros H e He. apply In_cp_all_inputs in He.
  destruct He as (l & p & -> & Hl). cbn [Cp.eval_expr]. apply H, Hl.
Qed.

Lemma cp_bits_word_fn (sigma : Cp.store) (a : string) (w : nat)
  (l : list bool) :
  length l = w ->
  (forall j, (j < w)%nat -> sigma a (Z.of_nat j) = word_fn l (Z.of_nat j)) ->
  cp_bits sigma a w = l /\ bits01 sigma a w.
Proof.
  intros Hl H. split.
  - apply (nth_ext _ _ false false); [rewrite length_cp_bits; lia|].
    intros j Hj. rewrite length_cp_bits in Hj.
    rewrite nth_cp_bits by exact Hj. unfold cp_bit. rewrite H by exact Hj.
    unfold word_fn. rewrite Nat2Z.id. destruct (nth j l false); reflexivity.
  - intros j Hj. rewrite H by exact Hj. unfold word_fn.
    destruct (nth _ l false); [right | left]; reflexivity.
Qed.

Section TwoTermsComplete.

Variables (sigma : Cp.store) (input_1 input_2 out : string) (w : nat).
Variables (cs0 : list Cp.constraint) (ds0 : list Cp.declaration).
Hypothesis Hw : (2 <= w)%nat.
Hypothesis H1 : bits01 sigma input_1 w.
Hypothesis H2 : bits01 sigma input_2 w.

Let carry := "carry_" +s out.
Let X := cp_bits sigma input_1 w.
Let Y := cp_bits sigma input_2 w.

Hypothesis Hcarry :
  forall j, (1 <= j < w)%nat ->
    sigma carry (Z.of_nat j) = carry_fn X Y (Z.of_nat j).
Hypothesis Hout :
  forall j, (j < w)%nat ->
    sigma out (Z.of_nat j) = word_fn (sum_bits X Y) (Z.of_nat j).
Hypothesis Hcs0 : Forall (Cp.holds sigma) cs0.

Lemma twoterms_input_bit (a : string) (j : nat) :
  bits01 sigma a w -> (j < w)%nat ->
  sigma a (Z.of_nat j) = Z.b2z (nth j (cp_bits sigma a w) false).
Proof using Type.
  intros H Hj. rewrite nth_cp_bits by exact Hj. unfold cp_bit.
  apply bit_value, H, Hj.
Qed.

Lemma twoterms_complete :
  Forall (Cp.holds sigma)
    (snd (Modadd.cp_twoterms input_1 input_2 out w cs0 ds0))
  /\ Cp.declared sigma (Cp.Array01 1 (Z.of_nat w - 1) carry).
Proof using Hw H1 H2 Hcarry Hout Hcs0.
  assert (LX : length X = w) by apply length_cp_bits.
  assert (LY : length Y = w) by apply length_cp_bits.
  assert (Hc : forall j, (1 <= j < w)%nat ->
            sigma carry (Z.of_nat j)
            = Z.b2z (carry_out (skipn j X) (skipn j Y))).
  { intros j Hj. rewrite Hcarry by exact Hj. unfold carry_fn.
    rewrite Nat2Z.id. reflexivity. }
  assert (Ho : forall j, (j < w)%nat ->
            sigma out (Z.of_nat j) = Z.b2z (nth j (sum_bits X Y) false)).
  { intros j Hj. rewrite Hout by exact Hj. unfold word_fn.
    rewrite Nat2Z.id. reflexivity. }
  assert (Hlast : Z.of_nat w - 1 = Z.of_nat (w - 1)) by lia.
  split.
  - unfold Modadd.cp_twoterms. cbn [snd]. fold carry.
    rewrite !Forall_app. repeat split.
    + exact Hcs0.
    + rewrite Forall_map, Forall_forall. intros n Hn.
      unfold Py.range in Hn. apply in_seq in Hn.
      cbn [Cp.holds Cp.eval_expr].
      replace (Z.of_nat n + 1) with (Z.of_nat (S n)) by lia.
      rewrite !Hc by lia.
      rewrite (twoterms_input_bit input_1 n H1) by lia.
      rewrite (twoterms_input_bit input_2 n H2) by lia.
      fold X Y. rewrite (carry_out_skipn X Y n) by lia.
      destruct (nth n X false), (nth n Y false), (carry_out _ _);
        reflexivity.
    + constructor; [|constructor]. cbn [Cp.holds Cp.eval_expr].
      rewrite Hlast, Hc by lia.
      rewrite (twoterms_input_bit input_1 (w - 1) H1) by lia.
      rewrite (twoterms_input_bit input_2 (w - 1) H2) by lia.
      fold X Y. rewrite (carry_out_skipn X Y (w - 1)) by lia.
      rewrite (skipn_all2 X), (skipn_all2 Y) by lia. cbn [carry_out].
      destruct (nth (w - 1) X false), (nth (w - 1) Y false); reflexivity.
    + rewrite Forall_map, Forall_forall. intros n Hn.
      unfold Py.range in Hn. apply in_seq in Hn.
      cbn [Cp.holds Cp.eval_expr].
      replace (Z.of_nat n + 1) with (Z.of_nat (S n)) by lia.
      rewrite Hc, Ho by lia.
      rewrite (twoterms_input_bit input_1 n H1) by lia.
      rewrite (twoterms_input_bit input_2 n H2) by lia.
      fold X Y. rewrite (nth_sum_bits X Y n) by lia.
      destruct (nth n X false), (nth n Y false), (carry_out _ _);
        reflexivity.
    + constructor; [|constructor]. cbn [Cp.holds Cp.eval_expr].
      rewrite Hlast, Ho by lia.
      rewrite (twoterms_input_bit input_1 (w - 1) H1) by lia.
      rewrite (twoterms_input_bit input_2 (w - 1) H2) by lia.
      fold X Y. rewrite (nth_sum_bits X Y (w - 1)) by lia.
      rewrite (skipn_all2 X), (skipn_all2 Y) by lia. cbn [carry_out].
      destruct (nth (w - 1) X false), (nth (w - 1) Y false); reflexivity.
  - cbn [Cp.declared]. intros i Hi.
    replace i with (Z.of_nat (Z.to_nat i)) by lia.
    rewrite Hc by lia. destruct (carry_out _ _); [right | left]; reflexivity.
Qed.

End TwoTermsComplete.

Lemma twoterms_stage (sigma : Cp.store) (input_1 input_2 out : string)
  (w : nat) (cs0 : list Cp.constraint) (ds0 : list Cp.declaration)
  (X Y : list bool) :
  (2 <= w)%nat -> length X = w -> length Y = w ->
  (forall j, sigma input_1 j = word_fn X j) ->
  (forall j, sigma input_2 j = word_fn Y j) ->
  (forall j, sigma ("carry_" +s out) j = carry_fn X Y j) ->
  (forall j, (j < w)%nat ->
     sigma out (Z.of_nat j) = word_fn (sum_bits X Y) (Z.of_nat j)) ->
  Forall (Cp.holds sigma) cs0 ->
  Forall (Cp.holds sigma)
    (snd (Modadd.cp_twoterms input_1 input_2 out w cs0 ds0))
  /\ Cp.declared sigma (Cp.Array01 1 (Z.of_nat w - 1) ("carry_" +s out)).
Proof.
  intros Hw LX LY H1 H2 Hc Ho Hcs0.
  destruct (cp_bits_word_fn sigma input_1 w X LX (fun j _ => H1 _))
    as [E1 B1].
  destruct (cp_bits_word_fn sigma input_2 w Y LY (fun j _ => H2 _))
    as [E2 B2].
  apply twoterms_complete; try assumption.
  - intros j Hj. rewrite E1, E2. apply Hc.
  - intros j Hj. rewrite E1, E2. apply Ho, Hj.
Qed.

Lemma nth_operand {A : Type} (l : list A) (w i j : nat) (d : A) :
  (j < w)%nat -> nth j (operand l w i) d = nth (i * w + j) l d.
Proof.
  intros Hj. unfold operand, Py.slice. rewrite nth_firstn.
  destruct (Nat.ltb_spec j ((i + 1) * w - i * w)); [|nia].
  rewrite nth_skipn. reflexivity.
Qed.

Section CpPreComplete.

Variables (c : component) (k w : nat).
Hypothesis Hwf : well_formed c k w.
Hypothesis Hk : (1 <= k)%nat.
Variables (sigma sigma' : Cp.store).
Hypothesis Hin01 : inputs01 sigma (cp_all_inputs c).
Hypothesis Hagree : cp_agree (input_id_links c) sigma sigma'.

Lemma length_cp_operand_bits (i : nat) :
  (i < k)%nat -> length (cp_operand_bits sigma c w i) = w.
Proof using Hwf Hk.
  intros Hi. unfold cp_operand_bits. rewrite length_map.
  apply (length_operand _ w k); [apply (cp_len_inputs c k w Hwf Hk) | exact Hi].
Qed.

Lemma cp_pre_complete (i : nat) :
  (i < k)%nat ->
  (forall j, sigma' (Modadd.pre (id c) (Z.of_nat i)) j
             = word_fn (cp_operand_bits sigma c w i) j) ->
  Cp.declared sigma' (pre_declaration c w i)
  /\ Forall (Cp.holds sigma') (pre_equations c w i).
Proof using Hwf Hk Hin01 Hagree.
  intros Hi H.
  pose proof (length_cp_operand_bits i Hi) as L.
  destruct (cp_bits_word_fn sigma' _ w _ L (fun j _ => H _)) as [_ B].
  split.
  - unfold pre_declaration. cbn [Cp.declared]. intros j Hj.
    replace j with (Z.of_nat (Z.to_nat j)) by lia. apply B. lia.
  - unfold pre_equations. rewrite Forall_map, Forall_forall.
    intros j Hj. apply in_seq in Hj. cbn [Cp.holds Cp.eval_expr].
    rewrite H. unfold word_fn, cp_operand_bits. rewrite Nat2Z.id.
    change false with ((fun e => Cp.eval_expr sigma e =? 1) (Cp.Lit 0)).
    rewrite map_nth. cbv beta. rewrite nth_operand by lia.
    assert (Hin : In (nth (i * w + j) (cp_all_inputs c) (Cp.Lit 0))
                    (cp_all_inputs c))
      by (apply nth_In; rewrite (cp_len_inputs c k w Hwf Hk); nia).
    rewrite (cp_agree_inputs c sigma sigma' Hagree _ Hin).
    unfold inputs01 in Hin01. rewrite Forall_forall in Hin01.
    symmetry. apply bit_value, Hin01, Hin.
Qed.

End CpPreComplete.

Lemma cp_agree_value (sigma sigma' : Cp.store) (a : string) (w : nat) :
  (forall i, sigma' a i = sigma a i) ->
  cp_bits sigma' a w = cp_bits sigma a w.
Proof.
  intros H. unfold cp_bits. apply map_ext. intros j. unfold cp_bit.
  rewrite H. reflexivity.
Qed.

Lemma cp_agree_operands (c : component) (sigma sigma' : Cp.store)
  (w k : nat) :
  cp_agree (input_id_links c) sigma sigma' ->
  sum_operands (cp_word sigma') (cp_all_inputs c) w k
  = sum_operands (cp_word sigma) (cp_all_inputs c) w k.
Proof.
  intros H. unfold sum_operands. f_equal. apply map_ext. intros i.
  unfold cp_word. f_equal. apply map_ext_in. intros e He.
  rewrite (cp_agree_inputs c sigma sigma' H); [reflexivity|].
  apply (In_operand _ w i e He).
Qed.

Lemma bits01_word (sigma : Cp.store) (a : string) (w : nat) (l : list bool) :
  bits01 sigma a w -> length l = w -> cp_value sigma a w = word_msb l ->
  forall j, (j < w)%nat -> sigma a (Z.of_nat j) = word_fn l (Z.of_nat j).
Proof.
  intros B L E j Hj. unfold word_fn. rewrite Nat2Z.id.
  rewrite (twoterms_input_bit sigma w a j B Hj). f_equal. f_equal.
  apply word_msb_inj; [rewrite length_cp_bits; lia | exact E].
Qed.

Section CpComplete.

Variables (c : component) (w : nat).
Hypothesis Hw : (2 <= w)%nat.
Variable sigma : Cp.store.
Hypothesis Hin01 : inputs01 sigma (cp_all_inputs c).
Hypothesis Hout01 : bits01 sigma (id c) w.
Hypothesis Hnodup : NoDup (cp_new_names c).
Hypothesis Hid : ~ In (id c) (cp_new_names c).
Hypothesis Hlinks :
  forall l, In l (input_id_links c) -> ~ In l (cp_new_names c).

Let pre (i : nat) := Modadd.pre (id c) (Z.of_nat i).
Let P (i : nat) := cp_operand_bits sigma c w i.

Lemma cp_extension_two :
  well_formed c 2 w ->
  cp_value sigma (id c) w
  = sum_operands (cp_word sigma) (cp_all_inputs c) w 2 mod 2 ^ Z.of_nat w ->
  exists sigma',
    cp_agree (id c :: input_id_links c) sigma sigma'
    /\ exists ds cs,
         Modadd.cp_constraints c = Ok (ds, cs) /\ Cp.model sigma' ds cs.
Proof using Hw Hin01 Hout01 Hnodup Hid Hlinks.
  intros Hwf Hv.
  assert (Hd : description_1 c = 2%nat) by apply Hwf.
  pose (binds := [(pre 0, word_fn (P 0)); (pre 1, word_fn (P 1));
                  ("carry_" +s id c, carry_fn (P 1) (P 0))]).
  assert (Hnames : map fst binds = cp_new_names c)
    by (unfold cp_new_names; rewrite Hd; reflexivity).
  pose (sigma' := cp_extend sigma binds).
  assert (Hnd : NoDup (map fst binds)) by (rewrite Hnames; exact Hnodup).
  assert (Aid : forall i, sigma' (id c) i = sigma (id c) i)
    by (intros i; apply cp_extend_out; rewrite Hnames; exact Hid).
  assert (Ain : cp_agree (input_id_links c) sigma sigma')
    by (intros l Hl i; apply cp_extend_out; rewrite Hnames;
        apply Hlinks, Hl).
  assert (E0 : forall j, sigma' (pre 0) j = word_fn (P 0) j)
    by (intros j; apply cp_extend_in; [exact Hnd | left; reflexivity]).
  assert (E1 : forall j, sigma' (pre 1) j = word_fn (P 1) j)
    by (intros j; apply cp_extend_in;
        [exact Hnd | right; left; reflexivity]).
  assert (Ec : forall j, sigma' ("carry_" +s id c) j
                         = carry_fn (P 1) (P 0) j)
    by (intros j; apply cp_extend_in;
        [exact Hnd | right; right; left; reflexivity]).
  assert (L0 : length (P 0) = w)
    by (apply (length_cp_operand_bits c 2 w Hwf); lia).
  assert (L1 : length (P 1) = w)
    by (apply (length_cp_operand_bits c 2 w Hwf); lia).
  destruct (cp_pre_complete c 2 w Hwf ltac:(lia) sigma sigma' Hin01 Ain 0
              ltac:(lia) E0) as [D0 Q0].
  destruct (cp_pre_complete c 2 w Hwf ltac:(lia) sigma sigma' Hin01 Ain 1
              ltac:(lia) E1) as [D1 Q1].
  exists sigma'. split.
  { intros a [<-|Ha] i; [apply Aid | apply Ain, Ha]. }
  rewrite (cp_constraints_two c w Hw Hwf).
  eexists. eexists. split; [f_equal; apply surjective_pairing|].
  assert (Ho : forall j, (j < w)%nat ->
            sigma' (id c) (Z.of_nat j)
            = word_fn (sum_bits (P 1) (P 0)) (Z.of_nat j)).
  { intros j Hj. rewrite Aid.
    apply (bits01_word sigma (id c) w); try assumption.
    - rewrite length_sum_bits; lia.
    - rewrite Hv, sum_bits_word, L1 by lia. f_equal.
      unfold sum_operands, sum_list, cp_word. cbn [seq map fold_right].
      unfold P, cp_operand_bits. lia. }
  destruct (twoterms_stage sigma' (pre 1) (pre 0) (id c) w
              (pre_equations c w 0 ++ pre_equations c w 1)
              [pre_declaration c w 0; pre_declaration c w 1]
              (P 1) (P 0) Hw L1 L0 E1 E0 Ec Ho) as [Hcs Hdc].
  { apply Forall_app. split; assumption. }
  split; [|exact Hcs].
  unfold Modadd.cp_twoterms. cbn [fst]. apply Forall_app. split.
  - apply Forall_cons; [exact D0|]. apply Forall_cons; [exact D1|].
    apply Forall_nil.
  - apply Forall_cons; [exact Hdc | apply Forall_nil].
Qed.

Lemma cp_extension_three :
  well_formed c 3 w ->
  cp_value sigma (id c) w
  = sum_operands (cp_word sigma) (cp_all_inputs c) w 3 mod 2 ^ Z.of_nat w ->
  exists sigma',
    cp_agree (id c :: input_id_links c) sigma sigma'
    /\ exists ds cs,
         Modadd.cp_constraints c = Ok (ds, cs) /\ Cp.model sigma' ds cs.
Proof using Hw Hin01 Hout01 Hnodup Hid Hlinks.
  intros Hwf Hv.
  assert (Hd : description_1 c = 3%nat) by apply Hwf.
  pose (S1 := sum_bits (P 2) (P 1)).
  pose (binds := [(pre 0, word_fn (P 0)); (pre 1, word_fn (P 1));
                  (pre 2, word_fn (P 2)); (pre 3, word_fn S1);
                  ("carry_" +s pre 3, carry_fn (P 2) (P 1));
                  ("carry_" +s id c, carry_fn S1 (P 0))]).
  assert (Hnames : map fst binds = cp_new_names c)
    by (unfold cp_new_names; rewrite Hd; reflexivity).
  pose (sigma' := cp_extend sigma binds).
  assert (Hnd : NoDup (map fst binds)) by (rewrite Hnames; exact Hnodup).
  assert (Aid : forall i, sigma' (id c) i = sigma (id c) i)
    by (intros i; apply cp_extend_out; rewrite Hnames; exact Hid).
  assert (Ain : cp_agree (input_id_links c) sigma sigma')
    by (intros l Hl i; apply cp_extend_out; rewrite Hnames;
        apply Hlinks, Hl).
  assert (Hbind : forall a f, In (a, f) binds ->
                    forall j, sigma' a j = f j)
    by (intros a f Hin j; apply cp_extend_in; assumption).
  assert (E0 : forall j, sigma' (pre 0) j = word_fn (P 0) j)
    by (apply Hbind; cbn; auto).
  assert (E1 : forall j, sigma' (pre 1) j = word_fn (P 1) j)
    by (apply Hbind; cbn; auto).
  assert (E2 : forall j, sigma' (pre 2) j = word_fn (P 2) j)
    by (apply Hbind; cbn; auto).
  assert (E3 : forall j, sigma' (pre 3) j = word_fn S1 j)
    by (apply Hbind; cbn; auto 6).
  assert (Ec1 : forall j, sigma' ("carry_" +s pre 3) j
                          = carry_fn (P 2) (P 1) j)
    by (apply Hbind; cbn; auto 7).
  assert (Ec2 : forall j, sigma' ("carry_" +s id c) j
                          = carry_fn S1 (P 0) j)
    by (apply Hbind; cbn; auto 8).
  assert (L0 : length (P 0) = w)
    by (apply (length_cp_operand_bits c 3 w Hwf); lia).
  assert (L1 : length (P 1) = w)
    by (apply (length_cp_operand_bits c 3 w Hwf); lia).
  assert (L2 : length (P 2) = w)
    by (apply (length_cp_operand_bits c 3 w Hwf); lia).
  assert (LS : length S1 = w)
    by (unfold S1; rewrite length_sum_bits; lia).
  destruct (cp_pre_complete c 3 w Hwf ltac:(lia) sigma sigma' Hin01 Ain 0
              ltac:(lia) E0) as [D0 Q0].
  destruct (cp_pre_complete c 3 w Hwf ltac:(lia) sigma sigma' Hin01 Ain 1
              ltac:(lia) E1) as [D1 Q1].
  destruct (cp_pre_complete c 3 w Hwf ltac:(lia) sigma sigma' Hin01 Ain 2
              ltac:(lia) E2) as [D2 Q2].
  assert (D3 : Cp.declared sigma' (pre_declaration c w 3)).
  { destruct (cp_bits_word_fn sigma' _ w _ LS (fun j _ => E3 _)) as [_ B].
    unfold pre_declaration. cbn [Cp.declared]. intros j Hj.
    replace j with (Z.of_nat (Z.to_nat j)) by lia. apply B. lia. }
  exists sigma'. split.
  { intros a [<-|Ha] i; [apply Aid | apply Ain, Ha]. }
  rewrite (cp_constraints_three c w Hw Hwf). cbv zeta.
  eexists. eexists. split; [f_equal; apply surjective_pairing|].
  assert (Ho : forall j, (j < w)%nat ->
            sigma' (id c) (Z.of_nat j)
            = word_fn (sum_bits S1 (P 0)) (Z.of_nat j)).
  { intros j Hj. rewrite Aid.
    apply (bits01_word sigma (id c) w); try assumption.
    - rewrite length_sum_bits; lia.
    - rewrite Hv, sum_bits_word, LS by lia. unfold S1.
      rewrite sum_bits_word, L2 by lia.
      rewrite Zplus_mod_idemp_l. f_equal.
      unfold sum_operands, sum_list, cp_word. cbn [seq map fold_right].
      unfold P, cp_operand_bits. lia. }
  destruct (twoterms_stage sigma' (pre 2) (pre 1) (pre 3) w
              (pre_equations c w 0 ++ pre_equations c w 1
               ++ pre_equations c w 2)
              [pre_declaration c w 0; pre_declaration c w 1;
               pre_declaration c w 2; pre_declaration c w 3]
              (P 2) (P 1) Hw L2 L1 E2 E1 Ec1 (fun j _ => E3 _))
    as [Hcs1 Hdc1].
  { rewrite !Forall_app. repeat split; assumption. }
  destruct (twoterms_stage sigma' (pre 3) (pre 0) (id c) w _
              (fst (Modadd.cp_twoterms (pre 2) (pre 1) (pre 3) w
                      (pre_equations c w 0 ++ pre_equations c w 1
                       ++ pre_equations c w 2)
                      [pre_declaration c w 0; pre_declaration c w 1;
                       pre_declaration c w 2; pre_declaration c w 3]))
              S1 (P 0) Hw LS L0 E3 E0 Ec2 Ho Hcs1) as [Hcs2 Hdc2].
  split; [|exact Hcs2].
  unfold Modadd.cp_twoterms. cbn [fst]. rewrite !Forall_app.
  split; [split|].
  - apply Forall_cons; [exact D0|]. apply Forall_cons; [exact D1|].
    apply Forall_cons; [exact D2|]. apply Forall_cons; [exact D3|].
    apply Forall_nil.
  - apply Forall_cons; [exact Hdc1 | apply Forall_nil].
  - apply Forall_cons; [exact Hdc2 | apply Forall_nil].
Qed.

End CpComplete.

Lemma cp_constraints_exact (c : component) (k w : nat) :
  well_formed c k w -> (2 <= k <= 3)%nat -> (2 <= w)%nat ->
  NoDup (cp_new_names c) ->
  ~ In (id c) (cp_new_names c) ->
  (forall l, In l (input_id_links c) -> ~ In l (cp_new_names c)) ->
  exists ds cs,
    Modadd.cp_constraints c = Ok (ds, cs)
    /\ forall sigma,
         inputs01 sigma (cp_all_inputs c) -> bits01 sigma (id c) w ->
         (exists sigma',
            cp_agree (id c :: input_id_links c) sigma sigma'
            /\ Cp.model sigma' ds cs)
         <-> cp_value sigma (id c) w
             = sum_operands (cp_word sigma) (cp_all_inputs c) w k
                 mod 2 ^ Z.of_nat w.
Proof.
  intros Hwf Hk Hw Hnd Hid Hlinks.
  assert (Hsound : forall sigma',
            exists ds cs,
              Modadd.cp_constraints c = Ok (ds, cs)
              /\ (Cp.model sigma' ds cs ->
                  cp_value sigma' (id c) w
                  = sum_operands (cp_word sigma') (cp_all_inputs c) w k
                      mod 2 ^ Z.of_nat w)).
  { intros sigma'. assert (Hk' : k = 2%nat \/ k = 3%nat) by lia.
    destruct Hk' as [-> | ->];
      [apply cp_sound_two | apply cp_sound_three]; assumption. }
  destruct (Hsound (fun _ _ => 0)) as (ds & cs & E & _).
  exists ds, cs. split; [exact E|]. intros sigma I O. split.
  - intros (sigma' & Ha & Hm).
    destruct (Hsound sigma') as (ds' & cs' & E' & Hs).
    rewrite E in E'. injection E' as <- <-. specialize (Hs Hm).
    assert (Ain : cp_agree (input_id_links c) sigma sigma')
      by (intros l Hl; apply Ha; right; exact Hl).
    unfold cp_value in Hs |- *.
    rewrite (cp_agree_value sigma sigma' (id c) w) in Hs
      by (apply Ha; left; reflexivity).
    rewrite Hs, (cp_agree_operands c sigma sigma' w k Ain). reflexivity.
  - intros Hv.
    assert (Hext : exists sigma',
              cp_agree (id c :: input_id_links c) sigma sigma'
              /\ exists ds' cs',
                   Modadd.cp_constraints c = Ok (ds', cs')
                   /\ Cp.model sigma' ds' cs').
    { assert (Hk' : k = 2%nat \/ k = 3%nat) by lia.
      destruct Hk' as [-> | ->];
        [apply (cp_extension_two c w Hw sigma)
        | apply (cp_extension_three c w Hw sigma)]; assumption. }
    destruct Hext as (sigma' & Ha & ds' & cs' & E' & Hm).
    rewrite E in E'. injection E' as <- <-.
    exists sigma'. split; assumption.
Qed.

(** ** The three encodings of MODADD and the sum of the operands *)

(** C1, amended.  Take a MODADD component with [k >= 2] operands of
    [w >= 1] bits whose encodings introduce distinct variables, none of them
    a variable of an operand.
    - For [w >= 2], [sat_constraints] returns clauses such that an assignment
      of the operand and output bits extends to a model of the clauses
      exactly when the output word is the sum of the operands modulo [2^w],
      index 0 being the most significant bit.
    - [algebraic_polynomials] returns polynomials such that an assignment of
      the operand and output variables extends to a common zero exactly when
      the output word is the sum of the operands modulo [2^w], index 0 being
      the LEAST significant bit.
    - For [w >= 2] and [k <= 3], [cp_constraints] returns a model such that a
      0/1 assignment of the operand and output arrays extends to a solution
      exactly when the output word is the sum of the operands modulo [2^w],
      index 0 being the most significant bit. *)
Theorem modadd_encodings_sum (bit_id : string -> nat -> string)
  (c : component) (model : algebraic_model) (k w : nat) :
  well_formed c k w -> (2 <= k)%nat -> (1 <= w)%nat ->
  let input_ids := snd (generate_input_ids bit_id c) in
  let output_ids := snd (generate_output_ids bit_id c) in
  let input_names := alg_input_names c model in
  let output_names := alg_output_names c model in
  ((2 <= w)%nat ->
   distinct (sat_new_ids bit_id c) = true ->
   disjoint input_ids (sat_new_ids bit_id c) = true ->
   exists cs,
     Modadd.sat_constraints bit_id c = Ok (sat_new_ids bit_id c, cs)
     /\ forall rho,
          (exists rho', agree (input_ids ++ output_ids) rho rho'
                        /\ Sat.eval rho' cs = true)
          <-> value_msb rho output_ids
              = sum_operands (value_msb rho) input_ids w k
                  mod 2 ^ Z.of_nat w)
  /\ (distinct (alg_new_names c model) = true ->
      disjoint input_names (alg_new_names c model) = true ->
      exists ps,
        Modadd.algebraic_polynomials c model = Ok ps
        /\ forall rho,
             (exists rho', agree (input_names ++ output_names) rho rho'
                           /\ Poly.zero rho' ps = true)
             <-> value_lsb rho output_names
                 = sum_operands (value_lsb rho) input_names w k
                     mod 2 ^ Z.of_nat w)
  /\ ((2 <= w)%nat -> (k <= 3)%nat ->
      distinct (id c :: cp_new_names c) = true ->
      disjoint (input_id_links c) (cp_new_names c) = true ->
      exists ds cs,
        Modadd.cp_constraints c = Ok (ds, cs)
        /\ forall sigma,
             inputs01 sigma (cp_all_inputs c) -> bits01 sigma (id c) w ->
             (exists sigma',
                cp_agree (id c :: input_id_links c) sigma sigma'
                /\ Cp.model sigma' ds cs)
             <-> cp_value sigma (id c) w
                 = sum_operands (cp_word sigma) (cp_all_inputs c) w k
                     mod 2 ^ Z.of_nat w).
Proof.
  intros Hwf Hk Hw input_ids output_ids input_names output_names.
  assert (Hd : description_1 c = k) by apply Hwf.
  split; [|split].
  - intros Hw2 Hdis Hfresh. unfold sat_new_ids in *. rewrite Hd in *.
    apply (sat_constraints_exact bit_id c k w Hwf Hk Hw2).
    + apply distinct_NoDup, Hdis.
    + apply disjoint_In, Hfresh.
  - intros Hdis Hfresh.
    apply (algebraic_polynomials_exact c model k w Hwf Hk Hw).
    + apply distinct_NoDup, Hdis.
    + apply disjoint_In, Hfresh.
  - intros Hw2 Hk3 Hdis Hfresh.
    cbn [distinct] in Hdis. apply andb_true_iff in Hdis.
    destruct Hdis as [Hid Hdis].
    apply (cp_constraints_exact c k w Hwf ltac:(lia) Hw2).
    + apply distinct_NoDup, Hdis.
    + intros Hin. apply mem_In in Hin. rewrite Hin in Hid. discriminate Hid.
    + apply disjoint_In, Hfresh.
Qed.

(** The statement above at the component [add_two], of two operands of
    two bits, with the names [bit_id_03] and the model [xy_model]. *)
Lemma modadd_encodings_sum_witness :
  (exists cs,
     Modadd.sat_constraints bit_id_03 add_two
     = Ok (sat_new_ids bit_id_03 add_two, cs)
     /\ forall rho,
          (exists rho',
             agree (snd (generate_input_ids bit_id_03 add_two)
                    ++ snd (generate_output_ids bit_id_03 add_two)) rho rho'
             /\ Sat.eval rho' cs = true)
          <-> value_msb rho (snd (generate_output_ids bit_id_03 add_two))
              = sum_operands (value_msb rho)
                  (snd (generate_input_ids bit_id_03 add_two)) 2 2
                  mod 2 ^ Z.of_nat 2)
  /\ (exists ps,
        Modadd.algebraic_polynomials add_two xy_model = Ok ps
        /\ forall rho,
             (exists rho',
                agree (alg_input_names add_two xy_model
                       ++ alg_output_names add_two xy_model) rho rho'
                /\ Poly.zero rho' ps = true)
             <-> value_lsb rho (alg_output_names add_two xy_model)
                 = sum_operands (value_lsb rho)
                     (alg_input_names add_two xy_model) 2 2
                     mod 2 ^ Z.of_nat 2)
  /\ (exists ds cs,
        Modadd.cp_constraints add_two = Ok (ds, cs)
        /\ forall sigma,
             inputs01 sigma (cp_all_inputs add_two) ->
             bits01 sigma (id add_two) 2 ->
             (exists sigma',
                cp_agree (id add_two :: input_id_links add_two) sigma sigma'
                /\ Cp.model sigma' ds cs)
             <-> cp_value sigma (id add_two) 2
                 = sum_operands (cp_word sigma) (cp_all_inputs add_two) 2 2
                     mod 2 ^ Z.of_nat 2).
Proof.
  destruct (modadd_encodings_sum bit_id_03 add_two xy_model 2 2)
    as (Hsat & Halg & Hcp).
  - repeat split; reflexivity.
  - lia.
  - lia.
  - split; [|split].
    + apply Hsat; [lia | vm_compute; reflexivity | vm_compute; reflexivity].
    + apply Halg; vm_compute; reflexivity.
    + apply Hcp; [lia | lia | vm_compute; reflexivity
                 | vm_compute; reflexivity].
Defined.

(** ** OR in the SMT model *)

Lemma every_skipn {A : Type} (step : nat) (l : list A) :
  forall s, Py.every s step l = Py.every 0 step (skipn s l).
Proof.
  induction l as [|a l IH]; intros [|s]; try reflexivity.
  cbn [Py.every skipn]. apply IH.
Qed.

Lemma skipn_nth_cons {A : Type} (l : list A) (d : A) :
  forall s, (s < length l)%nat -> skipn s l = nth s l d :: skipn (S s) l.
Proof.
  induction l as [|a l IH]; intros [|s] H; try (simpl in H; lia);
    [reflexivity|].
  cbn [skipn nth]. apply IH. simpl in H. lia.
Qed.

Lemma every_cons_step {A : Type} (step s : nat) (l : list A) (d : A) :
  (s < step)%nat -> (step <= length l)%nat ->
  Py.every s step l = nth s l d :: Py.every s step (skipn step l).
Proof.
  intros Hs Hl. rewrite (every_skipn step l s).
  rewrite (skipn_nth_cons l d s) by lia. cbn [Py.every].
  rewrite (every_skipn step (skipn (S s) l)), skipn_skipn.
  rewrite (every_skipn step (skipn step l) s), skipn_skipn.
  f_equal. f_equal. f_equal. lia.
Qed.

Lemma every_operands {A : Type} (w i : nat) (d : A) :
  (i < w)%nat ->
  forall (k : nat) (l : list A),
    length l = (k * w)%nat ->
    Py.slice_step l i w = map (fun j => nth i (operand l w j) d) (seq 0 k).
Proof.
  intros Hi. unfold Py.slice_step.
  induction k as [|k IH]; intros l Hl.
  - destruct l; [reflexivity | discriminate Hl].
  - rewrite (every_cons_step w i l d) by lia.
    rewrite (IH (skipn w l)) by (rewrite length_skipn; lia).
    cbn [seq map]. f_equal.
    + rewrite nth_operand by exact Hi. reflexivity.
    + rewrite <- seq_shift, map_map. apply map_ext. intros j.
      rewrite !nth_operand by exact Hi. rewrite nth_skipn. f_equal. lia.
Qed.

Lemma length_flat_map_const {A B : Type} (F : A -> list B) (n : nat)
  (l : list A) :
  (forall a, length (F a) = n) ->
  length (flat_map F l) = (length l * n)%nat.
Proof.
  intros H. induction l as [|a l IH]; [reflexivity|].
  cbn [flat_map length]. rewrite length_app, H, IH. lia.
Qed.

Lemma existsb_map {A B : Type} (f : B -> bool) (g : A -> B) (l : list A) :
  existsb f (map g l) = existsb (fun a => f (g a)) l.
Proof.
  induction l as [|a l IH]; [reflexivity|].
  cbn [map existsb]. rewrite IH. reflexivity.
Qed.

(** X1: for a component with [k >= 2] operands of [w] bits,
    [OR.smt_constraints] does not raise; it returns the ids of the output
    bits and one assert per output bit, and the asserts hold exactly when
    every output bit is the OR of the bits at the same position of all the
    operands. *)
Theorem or_smt_constraints_bitwise (bit_id : string -> nat -> string)
  (c : component) (k w : nat) :
  well_formed c k w -> (2 <= k)%nat ->
  let input_ids := snd (generate_input_ids bit_id c) in
  let output_ids := snd (generate_output_ids bit_id c) in
  exists cs,
    Or.smt_constraints bit_id c = Ok (output_ids, cs)
    /\ length cs = w
    /\ forall rho,
         Smt.eval_all rho cs = true
         <-> forall i, (i < w)%nat ->
               bit rho output_ids i
               = existsb (fun j => bit rho (operand input_ids w j) i)
                   (seq 0 k).
Proof.
  intros Hwf Hk input_ids output_ids.
  assert (Ho : output_bit_size c = w) by apply Hwf.
  assert (Lo : length output_ids = w)
    by (unfold output_ids; rewrite length_generate_output_ids; exact Ho).
  assert (Li : length input_ids = (k * w)%nat).
  { unfold input_ids. destruct Hwf as (_ & _ & H1 & H2).
    rewrite length_generate_input_ids by assumption. exact H2. }
  pose (F := fun i : nat =>
    [Smt.smt_assert
       (Smt.smt_equivalent (Smt.Var (nth i output_ids EmptyString))
          (Smt.smt_or (map Smt.Var (Py.slice_step input_ids i w))))]).
  exists (flat_map F (Py.range 0 w)). split; [|split].
  - unfold Or.smt_constraints. cbn [generate_output_ids fst]. rewrite Ho.
    fold input_ids output_ids.
    rewrite (foldM_extend _ F); [reflexivity|].
    intros i cs Hin. unfold Py.range in Hin. apply in_seq in Hin.
    cbv beta. rewrite (getitem_nth output_ids i EmptyString) by lia.
    reflexivity.
  - rewrite (length_flat_map_const F 1) by reflexivity.
    rewrite length_range. lia.
  - intros rho. unfold Smt.eval_all.
    rewrite forallb_flat_map, forallb_forall. unfold Py.range.
    split.
    + intros H i Hi. specialize (H i ltac:(apply in_seq; lia)).
      unfold F in H.
      cbn [forallb Smt.eval Smt.smt_assert Smt.smt_equivalent Smt.smt_or]
        in H.
      rewrite andb_true_r in H. apply eqb_prop in H.
      unfold bit. rewrite H, existsb_map.
      rewrite (every_operands w i EmptyString Hi k input_ids Li).
      rewrite existsb_map. reflexivity.
    + intros H i Hi. apply in_seq in Hi. unfold F.
      cbn [forallb Smt.eval Smt.smt_assert Smt.smt_equivalent Smt.smt_or].
      rewrite andb_true_r. specialize (H i ltac:(lia)). unfold bit in H.
      rewrite H, existsb_map.
      rewrite (every_operands w i EmptyString ltac:(lia) k input_ids Li).
      rewrite existsb_map. apply eqb_reflx.
Qed.

(** The statement above at the component [or_two]. *)
Lemma or_smt_constraints_bitwise_witness :
  exists cs,
    Or.smt_constraints bit_id_03 or_two
    = Ok (snd (generate_output_ids bit_id_03 or_two), cs)
    /\ length cs = 2%nat
    /\ forall rho,
         Smt.eval_all rho cs = true
         <-> forall i, (i < 2)%nat ->
               bit rho (snd (generate_output_ids bit_id_03 or_two)) i
               = existsb
                   (fun j =>
                      bit rho
                        (operand (snd (generate_input_ids bit_id_03 or_two))
                           2 j) i)
                   (seq 0 2).
Proof.
  apply (or_smt_constraints_bitwise bit_id_03 or_two 2 2);
    [repeat split; reflexivity | lia].
Defined.

(** ** MODADD in the CMS and SMT models: several additions *)

Section ChainEncoding.

Variable bit_id : string -> nat -> string.
Variables (c : component) (k w : nat).
Hypothesis Hwf : well_formed c k w.
Hypothesis Hk : (2 <= k)%nat.
Hypothesis Hw : (2 <= w)%nat.

Variable C : Type.
Variable ev : assignment -> C -> bool.
Variable two : list string -> list string -> list string -> list string
               -> result (list C).
Hypothesis Htwo :
  forall out x y carry : list string,
    carry <> [] -> x <> [] -> y <> [] -> out <> [] ->
    exists cs,
      two out x y carry = Ok cs
      /\ forall rho, forallb (ev rho) cs = true <-> chain rho out x y carry.

Let input_ids := snd (generate_input_ids bit_id c).
Let output_ids := snd (generate_output_ids bit_id c).
Let outs := Modadd.outputs_ids_of output_ids k.
Let ins := Modadd.inputs_ids_of input_ids w k.
Let cars := Modadd.carries_ids_of output_ids k.
Let left (i : nat) :=
  match i with
  | O => nth 0 ins []
  | S j => nth j outs []
  end.

Lemma chain_len_outs (i : nat) :
  (i < k - 1)%nat -> length (nth i outs []) = w.
Proof using Hwf Hk Hw.
  intros Hi. unfold outs.
  rewrite (length_nth_outputs_ids_of output_ids k Hk i Hi).
  apply (sat_len_out bit_id c k w Hwf).
Qed.

Lemma chain_len_ins (i : nat) : (i < k)%nat -> length (nth i ins []) = w.
Proof using Hwf Hk Hw.
  intros Hi. unfold ins. rewrite (nth_inputs_ids_of k Hk) by exact Hi.
  apply (length_operand input_ids w k); [|exact Hi].
  apply (sat_len_in bit_id c k w Hwf).
Qed.

Lemma chain_len_left (i : nat) : (i < k - 1)%nat -> length (left i) = w.
Proof using Hwf Hk Hw.
  intros Hi. destruct i as [|j]; cbn [left].
  - apply chain_len_ins. lia.
  - apply chain_len_outs. lia.
Qed.

Lemma chain_len_cars (i : nat) :
  (i < k - 1)%nat -> S (length (nth i cars [])) = w.
Proof using Hwf Hk Hw.
  intros Hi. apply (sat_len_car bit_id c k w Hwf Hk Hw i Hi).
Qed.

Lemma nonempty_length {A : Type} (l : list A) (n : nat) :
  length l = S n -> l <> [].
Proof using Type. intros H E. rewrite E in H. discriminate H. Qed.

Lemma chain_stages :
  exists cs,
    modadd_seq_of two outs ins cars = Ok cs
    /\ forall rho,
         forallb (ev rho) cs = true
         <-> forall i, (i < k - 1)%nat ->
               chain rho (nth i outs []) (left i) (nth (S i) ins [])
                 (nth i cars []).
Proof using Hwf Hk Hw Htwo.
  pose proof (length_outputs_ids_of output_ids k Hk) as Lo.
  pose proof (length_carries_ids_of output_ids k Hk) as Lc.
  pose proof (length_inputs_ids_of k Hk input_ids w) as Li.
  fold outs in Lo. fold cars in Lc. fold ins in Li.
  assert (Hst : forall i, (i < k - 1)%nat ->
            exists cs,
              two (nth i outs []) (left i) (nth (S i) ins []) (nth i cars [])
              = Ok cs
              /\ forall rho,
                   forallb (ev rho) cs = true
                   <-> chain rho (nth i outs []) (left i) (nth (S i) ins [])
                         (nth i cars [])).
  { intros i Hi. apply Htwo.
    - pose proof (chain_len_cars i Hi) as L. intros E. rewrite E in L.
      simpl in L. lia.
    - apply (nonempty_length _ (w - 1)). rewrite chain_len_left by exact Hi.
      lia.
    - apply (nonempty_length _ (w - 1)). rewrite chain_len_ins by lia. lia.
    - apply (nonempty_length _ (w - 1)). rewrite chain_len_outs by exact Hi.
      lia. }
  unfold modadd_seq_of.
  change (Py.getitem outs 0) with (Py.getitem outs (Z.of_nat 0)).
  change (Py.getitem ins 0) with (Py.getitem ins (Z.of_nat 0)).
  change (Py.getitem ins 1) with (Py.getitem ins (Z.of_nat 1)).
  change (Py.getitem cars 0) with (Py.getitem cars (Z.of_nat 0)).
  rewrite (getitem_nth outs 0 []), (getitem_nth ins 0 []),
    (getitem_nth ins 1 []), (getitem_nth cars 0 []) by lia.
  cbn [bind].
  destruct (Hst 0%nat ltac:(lia)) as (cs0 & E0 & S0).
  cbn [left] in E0. rewrite E0. cbn [bind].
  set (F := fun i =>
    unwrap (two (nth i outs []) (left i) (nth (S i) ins []) (nth i cars []))).
  rewrite (foldM_extend _ F).
  - eexists. split; [reflexivity|]. intros rho.
    rewrite forallb_app, forallb_flat_map, andb_true_iff.
    rewrite S0, forallb_forall. split.
    + intros [H0 Hi] [|i] Hlt; [exact H0|].
      specialize (Hi (S i) ltac:(unfold Py.range; apply in_seq; lia)).
      unfold F in Hi. destruct (Hst (S i) Hlt) as (cs & E & Sx).
      rewrite E in Hi. cbn [unwrap] in Hi. apply Sx, Hi.
    + intros H. split; [apply (H 0%nat); lia|].
      intros i Hi. unfold Py.range in Hi. apply in_seq in Hi.
      destruct i as [|i]; [lia|]. unfold F.
      destruct (Hst (S i) ltac:(lia)) as (cs & E & Sx).
      rewrite E. cbn [unwrap]. apply Sx, H. lia.
  - intros i cs Hi. unfold Py.range in Hi. apply in_seq in Hi.
    destruct i as [|i]; [lia|]. cbv beta.
    rewrite (getitem_nth outs (S i) []) by lia.
    replace (Z.of_nat (S i) - 1) with (Z.of_nat i) by lia.
    rewrite (getitem_nth outs i []) by lia.
    replace (Z.of_nat (S i) + 1) with (Z.of_nat (S (S i))) by lia.
    rewrite (getitem_nth ins (S (S i)) []) by lia.
    rewrite (getitem_nth cars (S i) []) by lia.
    cbn [bind]. unfold F.
    destruct (Hst (S i) ltac:(lia)) as (cs' & E & Sx).
    cbn [left] in E. cbn [left]. rewrite E. reflexivity.
Qed.

Lemma chain_stage_sum (rho : assignment) (i : nat) :
  (i < k - 1)%nat ->
  chain rho (nth i outs []) (left i) (nth (S i) ins []) (nth i cars []) ->
  value_msb rho (nth i outs [])
  = (value_msb rho (left i) + value_msb rho (operand input_ids w (S i)))
      mod 2 ^ Z.of_nat w.
Proof using Hwf Hk Hw.
  intros Hi H.
  pose proof (chain_len_cars i Hi) as Lc.
  pose proof (chain_len_outs i Hi) as Lo.
  pose proof (chain_len_left i Hi) as Lx.
  pose proof (chain_len_ins (S i) ltac:(lia)) as Ly.
  apply chain_sum in H; try lia.
  - unfold value_msb. rewrite H, Lo. unfold ins.
    rewrite (nth_inputs_ids_of k Hk input_ids w (S i)) by lia. reflexivity.
  - intros E. rewrite E in Lc. simpl in Lc. lia.
Qed.

Lemma chain_sound (rho : assignment) :
  (forall i, (i < k - 1)%nat ->
     chain rho (nth i outs []) (left i) (nth (S i) ins []) (nth i cars [])) ->
  value_msb rho output_ids
  = sum_operands (value_msb rho) input_ids w k mod 2 ^ Z.of_nat w.
Proof using Hwf Hk Hw.
  intros Hs.
  pose (v := fun i => value_msb rho (nth i outs [])).
  pose (f := fun j => value_msb rho (operand input_ids w j)).
  assert (H0 : v 0%nat = (f 0%nat + f 1%nat) mod 2 ^ Z.of_nat w).
  { unfold v, f. rewrite (chain_stage_sum rho 0) by (try apply Hs; lia).
    cbn [left]. unfold ins. rewrite (nth_inputs_ids_of k Hk) by lia.
    reflexivity. }
  assert (HS : forall i, (S i < k - 1)%nat ->
                 v (S i) = (v i + f (S (S i))) mod 2 ^ Z.of_nat w).
  { intros i Hi. unfold v, f.
    rewrite (chain_stage_sum rho (S i)) by (try apply Hs; lia).
    reflexivity. }
  pose proof (stage_values (2 ^ Z.of_nat w) f v (k - 1) H0 HS (k - 2)%nat
                ltac:(lia)) as Hv.
  unfold v, outs in Hv. rewrite nth_outputs_ids_of_last in Hv by assumption.
  fold output_ids in Hv. rewrite Hv. unfold sum_operands, f.
  replace (S (S (k - 2))) with k by lia. reflexivity.
Qed.

Let ids := concat cars ++ concat outs.

Hypothesis Hnodup : NoDup ids.
Hypothesis Hfresh : forall v, In v input_ids -> ~ In v ids.

Section Extension.

Variable rho : assignment.

Let right_bits (n : nat) := map rho (operand input_ids w (S n)).
Let left_bits :=
  partial_sum sum_bits (fun i => map rho (operand input_ids w i)).
Let carry_value (n : nat) := carries (left_bits n) (right_bits n).
Let out_value (n : nat) := sum_bits (left_bits n) (right_bits n).
Let values := map carry_value (seq 0 (k - 1)) ++ map out_value (seq 0 (k - 1)).
Let rho' := extend rho ids (concat values).

Lemma chain_len_right_bits (n : nat) :
  (n < k - 1)%nat -> length (right_bits n) = w.
Proof using Hwf Hk Hw.
  intros Hn. unfold right_bits. rewrite length_map.
  apply (length_operand _ w k); [|lia]. apply (sat_len_in bit_id c k w Hwf).
Qed.

Lemma chain_len_left_bits (n : nat) :
  (n < k)%nat -> length (left_bits n) = w.
Proof using Hwf Hk Hw.
  unfold left_bits. induction n as [|n IH]; intros Hn.
  - cbn [partial_sum]. rewrite length_map.
    apply (length_operand _ w k); [|lia]. apply (sat_len_in bit_id c k w Hwf).
  - cbn [partial_sum]. fold (right_bits n).
    rewrite length_sum_bits; rewrite IH by lia; [reflexivity|].
    rewrite chain_len_right_bits by lia. reflexivity.
Qed.

Lemma chain_chunks (n : nat) :
  (n < k - 1)%nat ->
  map rho' (nth n cars []) = carry_value n
  /\ map rho' (nth n outs []) = out_value n.
Proof using Hwf Hk Hw Hnodup.
  intros Hn.
  pose proof (length_outputs_ids_of output_ids k Hk) as Lo.
  pose proof (length_carries_ids_of output_ids k Hk) as Lc.
  fold outs in Lo. fold cars in Lc.
  assert (Hids : ids = concat (cars ++ outs))
    by (unfold ids; rewrite concat_app; reflexivity).
  assert (LL : length (cars ++ outs) = (2 * (k - 1))%nat)
    by (rewrite length_app; lia).
  assert (LU : length values = (2 * (k - 1))%nat)
    by (unfold values; rewrite length_app, !length_map, length_seq; lia).
  assert (N1 : forall i, (i < k - 1)%nat ->
            nth i (cars ++ outs) [] = nth i cars []
            /\ nth i values [] = carry_value i).
  { intros i Hi. unfold values. rewrite app_nth1 by lia.
    rewrite app_nth1 by (rewrite length_map, length_seq; exact Hi).
    rewrite (nth_map_seq carry_value) by exact Hi. split; reflexivity. }
  assert (N2 : forall i, (i < k - 1)%nat ->
            nth (k - 1 + i) (cars ++ outs) [] = nth i outs []
            /\ nth (k - 1 + i) values [] = out_value i).
  { intros i Hi. unfold values. rewrite app_nth2 by lia.
    rewrite app_nth2 by (rewrite length_map, length_seq; lia).
    rewrite Lc, !length_map, length_seq.
    replace (k - 1 + i - (k - 1))%nat with i by lia.
    rewrite (nth_map_seq out_value) by exact Hi. split; reflexivity. }
  assert (Hlen : forall i, (i < length (cars ++ outs))%nat ->
            length (nth i (cars ++ outs) []) = length (nth i values [])).
  { intros i Hi. destruct (Nat.lt_ge_cases i (k - 1)) as [Hlt|Hge].
    - destruct (N1 i Hlt) as [-> ->]. unfold carry_value.
      pose proof (chain_len_cars i Hlt) as L1.
      destruct (length_carries (left_bits i) (right_bits i)) as [E|E].
      + rewrite chain_len_left_bits, chain_len_right_bits by lia.
        reflexivity.
      + rewrite chain_len_left_bits in E by lia. lia.
      + pose proof (chain_len_left_bits i ltac:(lia)) as L2.
        rewrite E in L2. simpl in L2. lia.
    - replace i with (k - 1 + (i - (k - 1)))%nat by lia.
      destruct (N2 (i - (k - 1))%nat ltac:(lia)) as [-> ->].
      unfold out_value.
      rewrite chain_len_outs by lia.
      rewrite length_sum_bits; rewrite chain_len_left_bits by lia;
        [reflexivity|].
      rewrite chain_len_right_bits by lia. reflexivity. }
  assert (Hall : forall i, (i < length (cars ++ outs))%nat ->
            map rho' (nth i (cars ++ outs) []) = nth i values []).
  { unfold rho'. rewrite Hids. apply extend_chunks;
      [rewrite <- Hids; exact Hnodup | lia | exact Hlen]. }
  split.
  - destruct (N1 n Hn) as [<- <-]. apply Hall. lia.
  - destruct (N2 n Hn) as [<- <-]. apply Hall. lia.
Qed.

Lemma chain_operand_unchanged (i : nat) :
  map rho' (operand input_ids w i) = map rho (operand input_ids w i).
Proof using Hfresh.
  unfold rho'. apply extend_map_outside. intros v Hv. apply Hfresh.
  apply (In_operand input_ids w i v Hv).
Qed.

Lemma chain_left_values (n : nat) :
  (n < k - 1)%nat -> map rho' (left n) = left_bits n.
Proof using Hwf Hk Hw Hnodup Hfresh.
  intros Hn. destruct n as [|n]; cbn [left].
  - unfold ins. rewrite (nth_inputs_ids_of k Hk) by lia.
    apply chain_operand_unchanged.
  - destruct (chain_chunks n ltac:(lia)) as [_ ->]. reflexivity.
Qed.

Lemma chain_extension :
  exists rho1,
    (forall v, ~ In v ids -> rho1 v = rho v)
    /\ forall i, (i < k - 1)%nat ->
         chain rho1 (nth i outs []) (left i) (nth (S i) ins [])
           (nth i cars []).
Proof using Hwf Hk Hw Hnodup Hfresh.
  exists rho'. split; [intros v Hv; unfold rho'; apply extend_outside, Hv|].
  intros n Hn.
  destruct (chain_chunks n Hn) as [Hc Ho].
  pose proof (chain_len_cars n Hn) as Lc.
  pose proof (chain_len_outs n Hn) as Lo.
  pose proof (chain_len_left n Hn) as Lx.
  pose proof (chain_len_ins (S n) ltac:(lia)) as Ly.
  assert (Ry : map rho' (nth (S n) ins []) = right_bits n).
  { unfold ins. rewrite (nth_inputs_ids_of k Hk) by lia.
    apply chain_operand_unchanged. }
  apply chain_carries; try lia.
  - intros E. rewrite E in Lc. simpl in Lc. lia.
  - rewrite chain_left_values, Ry by exact Hn. split; assumption.
Qed.

End Extension.

Lemma chain_exact :
  exists cs,
    modadd_seq_of two outs ins cars = Ok cs
    /\ forall rho,
         (exists rho', agree (input_ids ++ output_ids) rho rho'
                       /\ forallb (ev rho') cs = true)
         <-> value_msb rho output_ids
             = sum_operands (value_msb rho) input_ids w k mod 2 ^ Z.of_nat w.
Proof using Hwf Hk Hw Htwo Hnodup Hfresh.
  destruct chain_stages as (cs & E & Hst).
  exists cs. split; [exact E|]. intros rho. split.
  - intros (rho' & Ha & He). rewrite Hst in He. apply chain_sound in He.
    assert (Hi : agree input_ids rho rho')
      by (intros v Hv; apply Ha, in_or_app; left; exact Hv).
    assert (Ho : agree output_ids rho rho')
      by (intros v Hv; apply Ha, in_or_app; right; exact Hv).
    unfold value_msb in He |- *.
    apply agree_map in Ho. rewrite Ho in He. rewrite He.
    rewrite (agree_operands word_msb input_ids rho rho' w k Hi).
    reflexivity.
  - intros Hv. destruct (chain_extension rho) as (rho' & Hout & Hch).
    assert (Hi : agree input_ids rho rho')
      by (intros v Hin; apply Hout, Hfresh, Hin).
    exists rho'. split; [|apply Hst, Hch].
    intros v Hin. apply in_app_or in Hin. destruct Hin as [Hin|Hin];
      [apply Hi, Hin|].
    revert v Hin. apply agree_map. apply word_msb_inj;
      [rewrite !length_map; reflexivity|].
    pose proof (chain_sound rho' Hch) as He.
    unfold value_msb in He, Hv. rewrite He, Hv.
    rewrite (agree_operands word_msb input_ids rho rho' w k Hi).
    reflexivity.
Qed.

End ChainEncoding.

(** X2: for a MODADD component with [k >= 2] operands of [w >= 2] bits
    whose new variables are distinct and differ from those of the operands,
    [smt_constraints] returns the carries and the outputs of the stages as
    ids, and asserts such that an assignment of the operand and output bits
    extends to a model exactly when the output word is the sum of the [k]
    operands modulo [2^w], index 0 being the most significant bit. *)
Theorem modadd_smt_constraints_sum (bit_id : string -> nat -> string)
  (c : component) (k w : nat) :
  well_formed c k w -> (2 <= k)%nat -> (2 <= w)%nat ->
  let input_ids := snd (generate_input_ids bit_id c) in
  let output_ids := snd (generate_output_ids bit_id c) in
  distinct (chain_new_ids bit_id c) = true ->
  disjoint input_ids (chain_new_ids bit_id c) = true ->
  exists cs,
    Modadd.smt_constraints bit_id c = Ok (chain_new_ids bit_id c, cs)
    /\ forall rho,
         (exists rho', agree (input_ids ++ output_ids) rho rho'
                       /\ Smt.eval_all rho' cs = true)
         <-> value_msb rho output_ids
             = sum_operands (value_msb rho) input_ids w k mod 2 ^ Z.of_nat w.
Proof.
  intros Hwf Hk Hw input_ids output_ids Hdis Hfresh.
  assert (Hd : description_1 c = k) by apply Hwf.
  assert (Ho : output_bit_size c = w) by apply Hwf.
  unfold chain_new_ids in *. rewrite Hd in *.
  destruct (chain_exact bit_id c k w Hwf Hk Hw Smt.term Smt.eval
              Modadd.smt_modadd smt_modadd_chain
              (distinct_NoDup _ Hdis) (disjoint_In _ _ Hfresh))
    as (cs & E & H).
  exists cs. split; [|exact H].
  unfold Modadd.smt_constraints. rewrite Hd.
  cbn [generate_output_ids fst]. rewrite Ho.
  change (Modadd.smt_modadd_seq ?a ?b ?d)
    with (modadd_seq_of Modadd.smt_modadd a b d).
  rewrite E. reflexivity.
Qed.

(** The statement above at the component [add_two], with the names
    [bit_id_03]. *)
Lemma modadd_smt_constraints_sum_witness :
  exists cs,
    Modadd.smt_constraints bit_id_03 add_two
    = Ok (chain_new_ids bit_id_03 add_two, cs)
    /\ forall rho,
         (exists rho',
            agree (snd (generate_input_ids bit_id_03 add_two)
                   ++ snd (generate_output_ids bit_id_03 add_two)) rho rho'
            /\ Smt.eval_all rho' cs = true)
         <-> value_msb rho (snd (generate_output_ids bit_id_03 add_two))
             = sum_operands (value_msb rho)
                 (snd (generate_input_ids bit_id_03 add_two)) 2 2
                 mod 2 ^ Z.of_nat 2.
Proof.
  apply (modadd_smt_constraints_sum bit_id_03 add_two 2 2);
    [repeat split; reflexivity | lia | lia | vm_compute; reflexivity
    | vm_compute; reflexivity].
Defined.

(** X3: for a MODADD component with [k >= 2] operands of [w >= 2] bits
    whose new variables are distinct and differ from those of the operands,
    [cms_constraints] returns the carries and the outputs of the stages as
    ids, and clauses and XOR lines such that an assignment of the operand
    and output bits extends to a model exactly when the output word is the
    sum of the [k] operands modulo [2^w], index 0 being the most significant
    bit. *)
Theorem modadd_cms_constraints_sum (bit_id : string -> nat -> string)
  (c : component) (k w : nat) :
  well_formed c k w -> (2 <= k)%nat -> (2 <= w)%nat ->
  let input_ids := snd (generate_input_ids bit_id c) in
  let output_ids := snd (generate_output_ids bit_id c) in
  distinct (chain_new_ids bit_id c) = true ->
  disjoint input_ids (chain_new_ids bit_id c) = true ->
  exists cs,
    Modadd.cms_constraints bit_id c = Ok (chain_new_ids bit_id c, cs)
    /\ forall rho,
         (exists rho', agree (input_ids ++ output_ids) rho rho'
                       /\ Cms.eval rho' cs = true)
         <-> value_msb rho output_ids
             = sum_operands (value_msb rho) input_ids w k mod 2 ^ Z.of_nat w.
Proof.
  intros Hwf Hk Hw input_ids output_ids Hdis Hfresh.
  assert (Hd : description_1 c = k) by apply Hwf.
  assert (Ho : output_bit_size c = w) by apply Hwf.
  unfold chain_new_ids in *. rewrite Hd in *.
  destruct (chain_exact bit_id c k w Hwf Hk Hw Cms.constraint
              Cms.eval_constraint Modadd.cms_modadd cms_modadd_chain
              (distinct_NoDup _ Hdis) (disjoint_In _ _ Hfresh))
    as (cs & E & H).
  exists cs. split; [|exact H].
  unfold Modadd.cms_constraints. rewrite Hd.
  cbn [generate_output_ids fst]. rewrite Ho.
  change (Modadd.cms_modadd_seq ?a ?b ?d)
    with (modadd_seq_of Modadd.cms_modadd a b d).
  rewrite E. reflexivity.
Qed.

(** The statement above at the component [add_two], with the names
    [bit_id_03]. *)
Lemma modadd_cms_constraints_sum_witness :
  exists cs,
    Modadd.cms_constraints bit_id_03 add_two
    = Ok (chain_new_ids bit_id_03 add_two, cs)
    /\ forall rho,
         (exists rho',
            agree (snd (generate_input_ids bit_id_03 add_two)
                   ++ snd (generate_output_ids bit_id_03 add_two)) rho rho'
            /\ Cms.eval rho' cs = true)
         <-> value_msb rho (snd (generate_output_ids bit_id_03 add_two))
             = sum_operands (value_msb rho)
                 (snd (generate_input_ids bit_id_03 add_two)) 2 2
                 mod 2 ^ Z.of_nat 2.
Proof.
  apply (modadd_cms_constraints_sum bit_id_03 add_two 2 2);
    [repeat split; reflexivity | lia | lia | vm_compute; reflexivity
    | vm_compute; reflexivity].
Defined.

(** ** MODSUB in the CMS model *)

Lemma eval_cms_clauses (rho : assignment) (cs : list Sat.clause) :
  Cms.eval rho (map Cms.Clause cs) = Sat.eval rho cs.
Proof. unfold Cms.eval, Sat.eval. rewrite forallb_map. reflexivity. Qed.

(** X4: for a 2-operand MODSUB component of [w >= 2] bits,
    [cms_constraints] returns the ids of the two's-complement carries, the
    two's-complement result, the carries and the output, and constraints
    satisfied exactly by the assignments in which the word [twocomp_result]
    is the complement of the second operand plus one, the output is the
    first operand minus the second modulo [2^w], and the two carry words are
    the carries of the two chains. *)
Theorem modsub_cms_constraints_subtraction
  (bit_id : string -> nat -> string) (c : component) (w : nat) :
  well_formed c 2 w -> (2 <= w)%nat ->
  exists cs,
    Modsub.cms_constraints bit_id c
    = Ok (modsub_t bit_id c ++ modsub_r bit_id c ++ modsub_carry bit_id c
          ++ snd (generate_output_ids bit_id c), cs)
    /\ forall rho,
         Cms.eval rho cs = true
         <-> modsub_rel rho w (modsub_a bit_id c) (modsub_b bit_id c)
               (modsub_r bit_id c) (modsub_t bit_id c)
               (modsub_carry bit_id c) (snd (generate_output_ids bit_id c)).
Proof.
  intros Hwf Hw.
  destruct (modsub_lengths bit_id c w Hwf Hw)
    as (La & Lb & Lr & Lt & Lc & Lm & Lo).
  destruct (two_complement_chain (modsub_r bit_id c) (modsub_b bit_id c))
    as (cs1 & E1 & S1).
  { lia. } { intros E. rewrite E in Lr. simpl in Lr. lia. }
  destruct (cms_modadd_chain (snd (generate_output_ids bit_id c))
              (modsub_a bit_id c) (modsub_r bit_id c)
              (modsub_carry bit_id c)) as (cs2 & E2 & S2).
  { intros E. rewrite E in Lc. simpl in Lc. lia. }
  { intros E. rewrite E in La. simpl in La. lia. }
  { intros E. rewrite E in Lr. simpl in Lr. lia. }
  { intros E. rewrite E in Lo. simpl in Lo. lia. }
  exists (map Cms.Clause cs1 ++ cs2). split.
  - unfold Modsub.cms_constraints.
    fold (modsub_b bit_id c). fold (modsub_r bit_id c).
    rewrite E1. cbn [bind fst snd].
    fold (modsub_a bit_id c) (modsub_carry bit_id c) (modsub_t bit_id c).
    rewrite E2. reflexivity.
  - intros rho. unfold Cms.eval. rewrite forallb_app, andb_true_iff.
    change (forallb (Cms.eval_constraint rho) (map Cms.Clause cs1))
      with (Cms.eval rho (map Cms.Clause cs1)).
    change (forallb (Cms.eval_constraint rho) cs2) with (Cms.eval rho cs2).
    rewrite eval_cms_clauses, S1, S2.
    apply modsub_rel_chains; assumption.
Qed.

(** The statement above at the component [modsub_left], of two bits. *)
Lemma modsub_cms_constraints_subtraction_witness :
  exists cs,
    Modsub.cms_constraints bit_id_03 modsub_left
    = Ok (modsub_t bit_id_03 modsub_left ++ modsub_r bit_id_03 modsub_left
          ++ modsub_carry bit_id_03 modsub_left
          ++ snd (generate_output_ids bit_id_03 modsub_left), cs)
    /\ forall rho,
         Cms.eval rho cs = true
         <-> modsub_rel rho 2 (modsub_a bit_id_03 modsub_left)
               (modsub_b bit_id_03 modsub_left)
               (modsub_r bit_id_03 modsub_left)
               (modsub_t bit_id_03 modsub_left)
               (modsub_carry bit_id_03 modsub_left)
               (snd (generate_output_ids bit_id_03 modsub_left)).
Proof.
  apply (modsub_cms_constraints_subtraction bit_id_03 modsub_left 2);
    [repeat split; reflexivity | lia].
Defined.

(** ** The sign of an OR component is -1, 0 or 1 *)

Lemma table_entry_cases (a b o : Z) :
  is_bit a -> is_bit b -> is_bit o ->
  (Or.table_entry a b o = -1 \/ Or.table_entry a b o = 0
   \/ Or.table_entry a b o = 1)
  /\ (Or.table_entry a b o = 0 <-> o = 0 /\ (a = 1 \/ b = 1)).
Proof.
  intros [-> | ->] [-> | ->] [-> | ->]; cbn; split; try lia;
    split; try lia; intros [H1 [H2|H2]]; lia.
Qed.

Lemma sign_product_cons (a b o : Z) (l r out : list Z) :
  Or.sign_product (a :: l) (b :: r) (o :: out)
  = Or.table_entry a b o * Or.sign_product l r out.
Proof. reflexivity. Qed.

Lemma sign_product_cases (l : list Z) :
  forall r out : list Z,
    length r = length l -> length out = length l ->
    Forall is_bit l -> Forall is_bit r -> Forall is_bit out ->
    (Or.sign_product l r out = -1 \/ Or.sign_product l r out = 0
     \/ Or.sign_product l r out = 1)
    /\ (Or.sign_product l r out = 0
        <-> exists i, (i < length l)%nat /\ nth i out 0 = 0
                      /\ (nth i l 0 = 1 \/ nth i r 0 = 1)).
Proof.
  induction l as [|a l IH]; intros [|b r] [|o out] Lr Lo Bl Br Bo;
    try discriminate Lr; try discriminate Lo.
  - split; [right; right; reflexivity|]. split; [discriminate|].
    intros (i & Hi & _). simpl in Hi. lia.
  - apply Forall_cons_iff in Bl, Br, Bo.
    destruct Bl as [Ba Bl], Br as [Bb Br], Bo as [Bo Bout].
    destruct (IH r out) as [Hr Hz]; try assumption;
      try (simpl in Lr, Lo; lia).
    destruct (table_entry_cases a b o Ba Bb Bo) as [Ht Htz].
    rewrite sign_product_cons. split; [nia|]. split.
    + intros H. apply Z.mul_eq_0 in H. destruct H as [H|H].
      * exists 0%nat. cbn [nth length]. apply Htz in H. split; [lia|exact H].
      * apply Hz in H. destruct H as (i & Hi & H). exists (S i).
        cbn [nth length]. split; [lia | exact H].
    + intros ([|i] & Hi & H); cbn [nth length] in *.
      * apply Htz in H. rewrite H. reflexivity.
      * assert (E : Or.sign_product l r out = 0)
          by (apply Hz; exists i; split; [lia | exact H]).
        rewrite E. lia.
Qed.

(** X5: for 0/1 lists of the sizes of a 2-operand OR component,
    [generic_sign_linear_constraints] returns -1, 0 or 1, and it returns 0
    exactly when at some position the output bit is 0 while one of the two
    input bits is 1. *)
Theorem generic_sign_zero (c : component) (inputs outputs : list Z) :
  input_bit_size c = (2 * output_bit_size c)%nat ->
  length inputs = input_bit_size c ->
  length outputs = output_bit_size c ->
  Forall is_bit inputs ->
  Forall is_bit outputs ->
  exists sign,
    Or.generic_sign_linear_constraints c inputs outputs = Ok sign
    /\ (sign = -1 \/ sign = 0 \/ sign = 1)
    /\ (sign = 0
        <-> exists i, (i < output_bit_size c)%nat /\ nth i outputs 0 = 0
                      /\ (nth i inputs 0 = 1
                          \/ nth (output_bit_size c + i) inputs 0 = 1)).
Proof.
  intros Hsz Hli Hlo Bi Bo.
  set (w := output_bit_size c) in *.
  assert (Hhalf : (input_bit_size c / 2 = w)%nat).
  { rewrite Hsz. rewrite Nat.mul_comm. apply Nat.div_mul. lia. }
  assert (Hmain : Or.generic_sign_linear_constraints c inputs outputs =
    Ok (Or.sign_product (firstn w inputs) (skipn w inputs) outputs)).
  { unfold Or.generic_sign_linear_constraints, Py.range.
    rewrite Hhalf. fold w. rewrite Nat.sub_0_r.
    rewrite (sign_loop inputs outputs w Bi Bo) by lia.
    rewrite Nat.add_0_r. simpl skipn. f_equal. lia. }
  assert (Bl : Forall is_bit (firstn w inputs)
               /\ Forall is_bit (skipn w inputs)).
  { rewrite <- (firstn_skipn w inputs) in Bi. apply Forall_app in Bi.
    exact Bi. }
  destruct Bl as [Bl Br].
  assert (Ll : length (firstn w inputs) = w)
    by (rewrite length_firstn; lia).
  destruct (sign_product_cases (firstn w inputs) (skipn w inputs) outputs)
    as [Hr Hz]; try assumption; try (rewrite length_skipn; lia); try lia.
  eexists. split; [exact Hmain|]. split; [exact Hr|].
  rewrite Hz, Ll. split; intros (i & Hi & Ho & H); exists i;
    (split; [exact Hi|]); (split; [exact Ho|]).
  - rewrite nth_firstn, nth_skipn in H.
    destruct (Nat.ltb_spec i w); [exact H | lia].
  - rewrite nth_firstn, nth_skipn.
    destruct (Nat.ltb_spec i w); [exact H | lia].
Qed.

(** The statement above at the component [or_two], inputs [0; 1; 0; 1]
    and outputs [1; 1]. *)
Lemma generic_sign_zero_witness :
  exists sign,
    Or.generic_sign_linear_constraints or_two [0; 1; 0; 1] [1; 1] = Ok sign
    /\ (sign = -1 \/ sign = 0 \/ sign = 1)
    /\ (sign = 0
        <-> exists i, (i < output_bit_size or_two)%nat
                      /\ nth i [1; 1] 0 = 0
                      /\ (nth i [0; 1; 0; 1] 0 = 1
                          \/ nth (output_bit_size or_two + i) [0; 1; 0; 1] 0
                             = 1)).
Proof.
  apply (generic_sign_zero or_two [0; 1; 0; 1] [1; 1]);
    try reflexivity; repeat constructor; unfold is_bit; lia.
Defined.

(** ** MODADD with fewer than two operands *)

(** X6: when the operand count of a MODADD component is below 2, whatever
    its wiring and width, [sat_constraints], [smt_constraints] and
    [cms_constraints] raise [IndexError]: the first addition reads the
    operands number 0 and 1. *)
Theorem modadd_few_operands_raise (bit_id : string -> nat -> string)
  (c : component) :
  (description_1 c < 2)%nat ->
  Modadd.sat_constraints bit_id c = Err IndexError
  /\ Modadd.smt_constraints bit_id c = Err IndexError
  /\ Modadd.cms_constraints bit_id c = Err IndexError.
Proof.
  intros Hk.
  unfold Modadd.sat_constraints, Modadd.smt_constraints,
    Modadd.cms_constraints, Modadd.sat_modadd_seq, Modadd.smt_modadd_seq,
    Modadd.cms_modadd_seq, Modadd.outputs_ids_of, Modadd.inputs_ids_of.
  destruct (description_1 c) as [|[|n]]; [| |lia];
    repeat split; reflexivity.
Qed.

(** The statement above at the component [add_one]. *)
Lemma modadd_few_operands_raise_witness :
  Modadd.sat_constraints bit_id_03 add_one = Err IndexError
  /\ Modadd.smt_constraints bit_id_03 add_one = Err IndexError
  /\ Modadd.cms_constraints bit_id_03 add_one = Err IndexError.
Proof.
  apply (modadd_few_operands_raise bit_id_03 add_one). simpl. lia.
Defined.

(** ** The polynomials of MODADD are quadratic *)

Lemma pdegree_pnth (l : list Poly.poly) (i : nat) :
  Forall (fun p => (pdegree p <= 1)%nat) l -> (pdegree (pnth l i) <= 1)%nat.
Proof.
  intros H. unfold pnth. destruct (nth_in_or_default i l (Poly.Const false))
    as [Hin | ->]; [|cbn; lia].
  rewrite Forall_forall in H. apply H, Hin.
Qed.

Lemma pdegree_vars (l : list string) :
  Forall (fun p => (pdegree p <= 1)%nat) (map Poly.Var l).
Proof. apply Forall_map, Forall_forall. intros v _. cbn. lia. Qed.

Lemma stage_polys_quadratic (w : nat) (x y z c : list Poly.poly) :
  Forall (fun p => (pdegree p <= 1)%nat) x ->
  Forall (fun p => (pdegree p <= 1)%nat) y ->
  Forall (fun p => (pdegree p <= 1)%nat) z ->
  Forall (fun p => (pdegree p <= 1)%nat) c ->
  length (stage_polys w x y z c) = (2 + 2 * (w - 1))%nat
  /\ Forall (fun p => (pdegree p <= 2)%nat) (stage_polys w x y z c).
Proof.
  intros Hx Hy Hz Hc. unfold stage_polys. split.
  - rewrite length_app, (length_flat_map_const _ 2) by reflexivity.
    rewrite length_range. cbn [length]. lia.
  - assert (D : forall l i, Forall (fun p => (pdegree p <= 1)%nat) l ->
                  (pdegree (pnth l i) <= 1)%nat)
      by (intros; apply pdegree_pnth; assumption).
    apply Forall_app. split.
    + pose proof (D x 0%nat Hx). pose proof (D y 0%nat Hy).
      pose proof (D z 0%nat Hz). pose proof (D c 0%nat Hc).
      apply Forall_cons; [cbn [pdegree]; lia|].
      apply Forall_cons; [cbn [pdegree]; lia | apply Forall_nil].
    + apply Forall_flat_map, Forall_forall. intros i _.
      pose proof (D x i Hx). pose proof (D y i Hy). pose proof (D z i Hz).
      pose proof (D c i Hc). pose proof (D x (i - 1)%nat Hx).
      pose proof (D y (i - 1)%nat Hy). pose proof (D c (i - 1)%nat Hc).
      apply Forall_cons; [cbn [pdegree pmaj]; lia|].
      apply Forall_cons; [cbn [pdegree]; lia | apply Forall_nil].
Qed.

(** X7: for a MODADD component with [k >= 2] operands of [w >= 1] bits,
    [algebraic_polynomials] returns [2 * w * (k - 1)] polynomials, two for
    every bit of every addition, and each of them has degree at most 2. *)
Theorem modadd_polynomials_quadratic (c : component)
  (model : algebraic_model) (k w : nat) :
  well_formed c k w -> (2 <= k)%nat -> (1 <= w)%nat ->
  exists ps,
    Modadd.algebraic_polynomials c model = Ok ps
    /\ length ps = (2 * w * (k - 1))%nat
    /\ Forall (fun p => (pdegree p <= 2)%nat) ps.
Proof.
  intros Hwf Hk Hw.
  eexists. split;
    [apply (algebraic_polynomials_stages c model k w Hwf Hk Hw)|].
  assert (Hst : forall n,
            length (stage_polys w (alg_left c model n) (alg_right c model n)
                      (alg_result c model n) (alg_word c "_c" n))
            = (2 + 2 * (w - 1))%nat
            /\ Forall (fun p => (pdegree p <= 2)%nat)
                 (stage_polys w (alg_left c model n) (alg_right c model n)
                    (alg_result c model n) (alg_word c "_c" n))).
  { intros n. apply stage_polys_quadratic.
    - destruct n as [|n]; cbn [alg_left].
      + destruct (alg_vars_names c model) as [-> _].
        unfold Py.slice_to. rewrite firstn_map. apply pdegree_vars.
      + rewrite alg_word_vars. apply pdegree_vars.
    - unfold alg_right. destruct (alg_vars_names c model) as [-> _].
      rewrite slice_map. apply pdegree_vars.
    - rewrite alg_result_vars. apply pdegree_vars.
    - rewrite alg_word_vars. apply pdegree_vars. }
  split.
  - rewrite (length_flat_map_const _ (2 + 2 * (w - 1)))
      by (intros n; apply Hst).
    rewrite length_range. nia.
  - apply Forall_flat_map, Forall_forall. intros n _. apply Hst.
Qed.

(** The statement above at the component [add_two] and the model
    [xy_model]. *)
Lemma modadd_polynomials_quadratic_witness :
  exists ps,
    Modadd.algebraic_polynomials add_two xy_model = Ok ps
    /\ length ps = (2 * 2 * (2 - 1))%nat
    /\ Forall (fun p => (pdegree p <= 2)%nat) ps.
Proof.
  apply (modadd_polynomials_quadratic add_two xy_model 2 2);
    [repeat split; reflexivity | lia | lia].
Defined.

(** ** The variables of the clauses of MODADD *)

Lemma clause_vars_app (cs1 cs2 : list Sat.clause) :
  clause_vars (cs1 ++ cs2) = clause_vars cs1 ++ clause_vars cs2.
Proof. unfold clause_vars. apply flat_map_app. Qed.

Lemma xor_clauses_vars (vars : list string) :
  forall parity, incl (clause_vars (Sat.xor_clauses vars parity)) vars.
Proof.
  induction vars as [|v vs IH]; intros parity x Hx.
  - destruct parity; cbn in Hx; contradiction.
  - cbn [Sat.xor_clauses] in Hx. rewrite clause_vars_app in Hx.
    unfold clause_vars in Hx. rewrite !flat_map_concat_map, !map_map in Hx.
    rewrite <- !flat_map_concat_map in Hx.
    apply in_app_or in Hx.
    destruct Hx as [Hx|Hx]; apply in_flat_map in Hx;
      destruct Hx as (cl & Hcl & Hx); cbn [map snd Sat.neg Sat.pos] in Hx;
      (destruct Hx as [<-|Hx]; [left; reflexivity|]); right;
      eapply IH; unfold clause_vars; apply in_flat_map;
      exists cl; split; eassumption.
Qed.

Lemma getitem_ok {A : Type} (l : list A) (i : Z) (a : A) :
  Py.getitem l i = Ok a -> In a l.
Proof.
  unfold Py.getitem.
  destruct ((0 <=? (if i <? 0 then i + Z.of_nat (length l) else i))
            && ((if i <? 0 then i + Z.of_nat (length l) else i)
                <? Z.of_nat (length l))); [|discriminate].
  destruct (nth_error l _) eqn:E; [|discriminate].
  intros H. injection H as <-. apply (nth_error_In _ _ E).
Qed.

Lemma getitem_ok_nth {A : Type} (l : list A) (i : Z) (a d : A) :
  Py.getitem l i = Ok a -> 0 <= i ->
  (Z.to_nat i < length l)%nat /\ nth (Z.to_nat i) l d = a.
Proof.
  unfold Py.getitem. intros H Hi.
  destruct (Z.ltb_spec i 0); [lia|].
  destruct (Z.leb_spec 0 i); [|lia].
  destruct (Z.ltb_spec i (Z.of_nat (length l))); [|discriminate H].
  cbn [andb] in H. destruct (nth_error l (Z.to_nat i)) eqn:E;
    [|discriminate H].
  injection H as <-. split; [lia|]. apply nth_error_nth. exact E.
Qed.

Lemma zip4_In {A B C D : Type} (la : list A) :
  forall (lb : list B) (lc : list C) (ld : list D) a b c d,
    In (a, b, c, d) (Py.zip4 la lb lc ld) ->
    In a la /\ In b lb /\ In c lc /\ In d ld.
Proof.
  induction la as [|a0 la IH]; intros [|b0 lb] [|c0 lc] [|d0 ld] a b c d H;
    cbn [Py.zip4] in H; try contradiction.
  destruct H as [H|H].
  - injection H as <- <- <- <-. repeat split; left; reflexivity.
  - apply IH in H. destruct H as (H1 & H2 & H3 & H4).
    repeat split; right; assumption.
Qed.

Lemma zip5_In {A B C D E : Type} (la : list A) :
  forall (lb : list B) (lc : list C) (ld : list D) (le : list E) a b c d e,
    In (a, b, c, d, e) (Py.zip5 la lb lc ld le) ->
    In a la /\ In b lb /\ In c lc /\ In d ld /\ In e (firstn (length ld) le).
Proof.
  induction la as [|a0 la IH];
    intros [|b0 lb] [|c0 lc] [|d0 ld] [|e0 le] a b c d e H;
    cbn [Py.zip5] in H; try contradiction.
  destruct H as [H|H].
  - injection H as <- <- <- <- <-. repeat split; left; reflexivity.
  - apply IH in H. destruct H as (H1 & H2 & H3 & H4 & H5).
    repeat split; right; assumption.
Qed.

Lemma In_slice_from {A : Type} (l : list A) (n : nat) (a : A) :
  In a (Py.slice_from l n) -> In a l.
Proof.
  unfold Py.slice_from. intros H. rewrite <- (firstn_skipn n l).
  apply in_or_app. right. exact H.
Qed.

Lemma clause_vars_flat_map {A : Type} (F : A -> list Sat.clause)
  (l : list A) (vars : list string) :
  (forall a, In a l -> incl (clause_vars (F a)) vars) ->
  incl (clause_vars (flat_map F l)) vars.
Proof.
  intros H v Hv. unfold clause_vars in Hv. apply in_flat_map in Hv.
  destruct Hv as (cl & Hcl & Hv). apply in_flat_map in Hcl.
  destruct Hcl as (a & Ha & Hcl). apply (H a Ha).
  unfold clause_vars. apply in_flat_map. exists cl. split; assumption.
Qed.

Lemma sat_modadd_vars (out x y carry mid : list string)
  (cs : list Sat.clause) :
  Modadd.sat_modadd out x y carry mid = Ok cs ->
  incl (clause_vars cs) (sat_stage_vars out x y carry mid).
Proof.
  unfold Modadd.sat_modadd, sat_stage_vars.
  destruct (Py.getitem carry (-1)) as [cl|] eqn:Ec; [|discriminate].
  destruct (Py.getitem x (-1)) as [xl|] eqn:Ex; [|discriminate].
  destruct (Py.getitem y (-1)) as [yl|] eqn:Ey; [|discriminate].
  destruct (Py.getitem out (-1)) as [ol|] eqn:Eo; [|discriminate].
  cbn [bind]. intros H. injection H as <-.
  apply getitem_ok in Ec, Ex, Ey, Eo.
  rewrite !clause_vars_app.
  apply incl_app; [apply incl_app; [apply incl_app|]|].
  - apply clause_vars_flat_map. intros [[[c0 a] b] p] Ht.
    apply zip4_In in Ht. destruct Ht as (H1 & H2 & H3 & H4).
    apply (In_slice_from x 1) in H2. apply (In_slice_from y 1) in H3.
    apply (In_slice_from carry 1) in H4.
    intros v Hv. rewrite !in_app_iff. cbn in Hv.
    intuition (subst; auto).
  - intros v Hv. rewrite !in_app_iff. cbn in Hv. intuition (subst; auto).
  - apply clause_vars_flat_map. intros [[[[o a] b] c0] m] Ht.
    apply zip5_In in Ht. destruct Ht as (H1 & H2 & H3 & H4 & H5).
    unfold Sat.cnf_result, Sat.cnf_xor. rewrite clause_vars_app.
    apply incl_app; intros v Hv; apply xor_clauses_vars in Hv;
      rewrite !in_app_iff; cbn in Hv; intuition (subst; auto).
  - unfold Sat.cnf_xor. intros v Hv. apply xor_clauses_vars in Hv.
    rewrite !in_app_iff. cbn in Hv. intuition (subst; auto).
Qed.

Lemma sat_modadd_seq_vars
  (outputs_ids inputs_ids carries_ids intermediates_ids : list (list string))
  (cs : list Sat.clause) :
  Modadd.sat_modadd_seq outputs_ids inputs_ids carries_ids intermediates_ids
  = Ok cs ->
  forall v, In v (clause_vars cs) ->
    exists i,
      (i < length outputs_ids)%nat
      /\ In v (sat_stage_vars (nth i outputs_ids [])
                 match i with
                 | O => nth 0 inputs_ids []
                 | S j => nth j outputs_ids []
                 end
                 (nth (S i) inputs_ids []) (nth i carries_ids [])
                 (nth i intermediates_ids [])).
Proof.
  unfold Modadd.sat_modadd_seq.
  destruct (Py.getitem outputs_ids 0) as [o0|] eqn:Eo; [|discriminate].
  destruct (Py.getitem inputs_ids 0) as [x0|] eqn:Ex; [|discriminate].
  destruct (Py.getitem inputs_ids 1) as [y0|] eqn:Ey; [|discriminate].
  destruct (Py.getitem carries_ids 0) as [c0|] eqn:Ec; [|discriminate].
  destruct (Py.getitem intermediates_ids 0) as [m0|] eqn:Em; [|discriminate].
  cbn [bind].
  destruct (Modadd.sat_modadd o0 x0 y0 c0 m0) as [cs0|] eqn:E0;
    [|discriminate].
  cbn [bind].
  apply (getitem_ok_nth _ _ _ []) in Eo, Ex, Ey, Ec, Em; try lia.
  change (Z.to_nat 0) with 0%nat in *. change (Z.to_nat 1) with 1%nat in *.
  destruct Eo as [Lo <-], Ex as [_ <-], Ey as [_ <-], Ec as [_ <-],
    Em as [_ <-].
  assert (Hloop : forall l cs1 cs2,
            (forall i, In i l -> (1 <= i)%nat) ->
            foldM
              (fun constraints i =>
                 output_i <- Py.getitem outputs_ids (Z.of_nat i) ;;
                 output_prev <- Py.getitem outputs_ids (Z.of_nat i - 1) ;;
                 input_next <- Py.getitem inputs_ids (Z.of_nat i + 1) ;;
                 carry_i <- Py.getitem carries_ids (Z.of_nat i) ;;
                 intermediate_i <- Py.getitem intermediates_ids (Z.of_nat i) ;;
                 more <- Modadd.sat_modadd output_i output_prev input_next
                           carry_i intermediate_i ;;
                 Ok (constraints ++ more)) l cs1 = Ok cs2 ->
            forall v, In v (clause_vars cs2) ->
              In v (clause_vars cs1)
              \/ exists j,
                   (S j < length outputs_ids)%nat
                   /\ In v (sat_stage_vars (nth (S j) outputs_ids [])
                              (nth j outputs_ids [])
                              (nth (S (S j)) inputs_ids [])
                              (nth (S j) carries_ids [])
                              (nth (S j) intermediates_ids []))).
  { induction l as [|i l IH]; intros cs1 cs2 Hl H v Hv.
    - cbn in H. injection H as <-. left. exact Hv.
    - cbn [foldM] in H.
      destruct (Py.getitem outputs_ids (Z.of_nat i)) as [oi|] eqn:E1;
        [|discriminate].
      destruct (Py.getitem outputs_ids (Z.of_nat i - 1)) as [op|] eqn:E2;
        [|discriminate].
      destruct (Py.getitem inputs_ids (Z.of_nat i + 1)) as [yn|] eqn:E3;
        [|discriminate].
      destruct (Py.getitem carries_ids (Z.of_nat i)) as [ci|] eqn:E4;
        [|discriminate].
      destruct (Py.getitem intermediates_ids (Z.of_nat i)) as [mi|] eqn:E5;
        [|discriminate].
      cbn [bind] in H.
      destruct (Modadd.sat_modadd oi op yn ci mi) as [more|] eqn:E6;
        [|discriminate].
      cbn [bind] in H.
      assert (Hi : (1 <= i)%nat) by (apply Hl; left; reflexivity).
      apply (getitem_ok_nth _ _ _ []) in E1, E2, E3, E4, E5; try lia.
      rewrite Nat2Z.id in E1, E4, E5.
      replace (Z.to_nat (Z.of_nat i - 1)) with (i - 1)%nat in E2 by lia.
      replace (Z.to_nat (Z.of_nat i + 1)) with (S i) in E3 by lia.
      destruct E1 as [L1 <-], E2 as [_ <-], E3 as [_ <-], E4 as [_ <-],
        E5 as [_ <-].
      destruct (IH _ _ (fun j Hj => Hl j (or_intror Hj)) H v Hv)
        as [Hv1|Hv1]; [|right; exact Hv1].
      rewrite clause_vars_app in Hv1. apply in_app_or in Hv1.
      destruct Hv1 as [Hv1|Hv1]; [left; exact Hv1|].
      right. destruct i as [|j]; [lia|]. exists j. split; [exact L1|].
      apply (sat_modadd_vars _ _ _ _ _ _ E6) in Hv1.
      replace (S j - 1)%nat with j in Hv1 by lia. exact Hv1. }
  intros H v Hv.
  destruct (Hloop _ _ _ (fun i Hi => proj1 (proj1 (in_seq _ _ _) Hi)) H v Hv)
    as [Hv0 | (j & Hj & Hv1)].
  - exists 0%nat. split; [exact Lo|].
    apply (sat_modadd_vars _ _ _ _ _ _ E0). exact Hv0.
  - exists (S j). split; [exact Hj | exact Hv1].
Qed.

Lemma In_nth_concat {A : Type} (L : list (list A)) (i : nat) (a : A) :
  In a (nth i L []) -> In a (concat L).
Proof.
  intros H. apply in_concat. exists (nth i L []). split; [|exact H].
  destruct (Nat.lt_ge_cases i (length L)) as [Hlt|Hge].
  - apply nth_In, Hlt.
  - rewrite nth_overflow in H by exact Hge. destruct H.
Qed.

Lemma In_firstn {A : Type} (l : list A) (n : nat) (a : A) :
  In a (firstn n l) -> In a l.
Proof.
  intros H. rewrite <- (firstn_skipn n l). apply in_or_app. left. exact H.
Qed.

Section SatVariables.

Variable bit_id : string -> nat -> string.
Variables (c : component) (k w : nat).
Hypothesis Hwf : well_formed c k w.
Hypothesis Hk : (2 <= k)%nat.
Hypothesis Hw : (2 <= w)%nat.

Let input_ids := snd (generate_input_ids bit_id c).
Let output_ids := snd (generate_output_ids bit_id c).
Let outs := Modadd.outputs_ids_of output_ids k.
Let ins := Modadd.inputs_ids_of input_ids w k.
Let cars := Modadd.carries_ids_of output_ids k.
Let mids := Modadd.intermediates_ids_of output_ids k.
Let ids := concat cars ++ concat mids ++ concat outs.

Lemma sat_stage_places (cs : list Sat.clause) :
  Modadd.sat_constraints bit_id c = Ok (ids, cs) ->
  forall v, In v (clause_vars cs) ->
    In v input_ids \/ In v (concat cars) \/ In v (concat outs)
    \/ exists i, (i < k - 1)%nat
                 /\ In v (firstn (length (nth i cars [])) (nth i mids [])).
Proof using Hwf Hk Hw.
  intros E v Hv.
  destruct (sat_stages bit_id c k w Hwf Hk Hw) as (cs' & E' & _).
  assert (Ecs : cs' = cs).
  { unfold Modadd.sat_constraints in E.
    destruct Hwf as (Hd & Ho & _). rewrite Hd in E.
    cbn [generate_output_ids fst] in E. rewrite Ho in E.
    fold input_ids output_ids in E. fold ins cars mids outs in E.
    fold input_ids output_ids ins cars mids outs in E'.
    rewrite E' in E. cbn [bind] in E. injection E as <-. reflexivity. }
  subst cs'. fold input_ids output_ids ins cars mids outs in E'.
  destruct (sat_modadd_seq_vars _ _ _ _ _ E' v Hv) as (i & Hi & Hin).
  pose proof (length_outputs_ids_of output_ids k Hk) as Lo.
  fold outs in Lo. rewrite Lo in Hi.
  unfold sat_stage_vars in Hin. rewrite !in_app_iff in Hin.
  assert (Hins : forall j, In v (nth j ins []) -> In v input_ids).
  { intros j Hj. destruct (Nat.lt_ge_cases j k) as [Hlt|Hge].
    - unfold ins in Hj. rewrite (nth_inputs_ids_of k Hk) in Hj by exact Hlt.
      apply (In_operand input_ids w j v Hj).
    - rewrite nth_overflow in Hj; [destruct Hj|].
      unfold ins. rewrite (length_inputs_ids_of k Hk). exact Hge. }
  destruct Hin as [H|[H|[H|[H|H]]]].
  - right. right. left. apply (In_nth_concat outs i v H).
  - destruct i as [|j].
    + left. apply (Hins 0%nat H).
    + right. right. left. apply (In_nth_concat outs j v H).
  - left. apply (Hins (S i) H).
  - right. left. apply (In_nth_concat cars i v H).
  - right. right. right. exists i. split; assumption.
Qed.

End SatVariables.

(** X8: for a MODADD component with [k >= 2] operands of [w >= 2] bits,
    every variable that occurs in a clause returned by [sat_constraints] is
    an id of an operand bit or one of the returned ids: the clauses mention
    no variable that the encoder does not list. *)
Theorem modadd_sat_clauses_closed (bit_id : string -> nat -> string)
  (c : component) (k w : nat) :
  well_formed c k w -> (2 <= k)%nat -> (2 <= w)%nat ->
  exists cs,
    Modadd.sat_constraints bit_id c = Ok (sat_new_ids bit_id c, cs)
    /\ incl (clause_vars cs)
         (snd (generate_input_ids bit_id c) ++ sat_new_ids bit_id c).
Proof.
  intros Hwf Hk Hw.
  assert (Hd : description_1 c = k) by apply Hwf.
  destruct (sat_constraints_sound bit_id c k w Hwf Hk Hw) as (cs & E & _).
  unfold sat_new_ids. rewrite Hd.
  exists cs. split; [exact E|]. intros v Hv.
  destruct (sat_stage_places bit_id c k w Hwf Hk Hw cs E v Hv)
    as [H|[H|[H|(i & Hi & H)]]]; rewrite !in_app_iff.
  - left. exact H.
  - right. left. exact H.
  - right. right. right. exact H.
  - right. right. left. apply In_firstn in H.
    apply (In_nth_concat _ i v H).
Qed.

(** The statement above at the component [add_two]. *)
Lemma modadd_sat_clauses_closed_witness :
  exists cs,
    Modadd.sat_constraints bit_id_03 add_two
    = Ok (sat_new_ids bit_id_03 add_two, cs)
    /\ incl (clause_vars cs)
         (snd (generate_input_ids bit_id_03 add_two)
          ++ sat_new_ids bit_id_03 add_two).
Proof.
  apply (modadd_sat_clauses_closed bit_id_03 add_two 2 2);
    [repeat split; reflexivity | lia | lia].
Defined.

(** ** The last intermediate variable of an addition is free *)

Lemma NoDup_app_disjoint {A : Type} (l1 l2 : list A) :
  NoDup (l1 ++ l2) -> forall a, In a l1 -> ~ In a l2.
Proof.
  induction l1 as [|x l1 IH]; intros H a Ha; [destruct Ha|].
  cbn [app] in H. inversion H as [|? ? Hx Hnd]; subst.
  destruct Ha as [<-|Ha].
  - intros Hin. apply Hx, in_or_app. right. exact Hin.
  - apply IH; assumption.
Qed.

Lemma NoDup_concat_nth {A : Type} (L : list (list A)) :
  NoDup (concat L) -> forall i, NoDup (nth i L []).
Proof.
  induction L as [|l L IH]; intros H [|i]; cbn [nth]; try constructor.
  - cbn [concat] in H. apply NoDup_app_remove_r in H. exact H.
  - cbn [concat] in H. apply NoDup_app_remove_l in H. apply IH, H.
Qed.

Lemma NoDup_concat_disjoint {A : Type} (L : list (list A)) :
  NoDup (concat L) ->
  forall i j a, i <> j -> In a (nth i L []) -> ~ In a (nth j L []).
Proof.
  induction L as [|l L IH]; intros H i j a Hij Hi Hj.
  - destruct i; destruct Hi.
  - cbn [concat] in H. destruct i as [|i], j as [|j]; cbn [nth] in Hi, Hj.
    + congruence.
    + apply (NoDup_app_disjoint _ _ H a Hi). apply (In_nth_concat L j a Hj).
    + apply (NoDup_app_disjoint _ _ H a Hj). apply (In_nth_concat L i a Hi).
    + apply NoDup_app_remove_l in H.
      apply (IH H i j a); [congruence | exact Hi | exact Hj].
Qed.

Lemma last_not_in_firstn {A : Type} (l : list A) (n : nat) (d : A) :
  NoDup l -> length l = S n -> ~ In (last l d) (firstn n l).
Proof.
  intros Hnd Hl.
  assert (Hne : l <> []) by (intros ->; discriminate Hl).
  rewrite (app_removelast_last d Hne) in Hnd.
  assert (Hlen : length (removelast l) = n).
  { pose proof (f_equal (@length A) (app_removelast_last d Hne)) as E.
    rewrite length_app in E. cbn [length] in E. lia. }
  assert (Hf : firstn n l = removelast l).
  { rewrite (app_removelast_last d Hne) at 1.
    rewrite firstn_app, Hlen, Nat.sub_diag, firstn_all2 by lia.
    cbn [firstn]. apply app_nil_r. }
  rewrite Hf. intros Hin.
  apply (NoDup_app_disjoint _ _ Hnd _ Hin). left. reflexivity.
Qed.

Lemma eval_clause_vars (rho rho' : assignment) (cs : list Sat.clause) :
  (forall v, In v (clause_vars cs) -> rho' v = rho v) ->
  Sat.eval rho' cs = Sat.eval rho cs.
Proof.
  intros H. unfold Sat.eval. apply forallb_ext_in. intros cl Hcl.
  unfold Sat.eval_clause.
  assert (Hl : forall l, In l cl ->
            Sat.eval_literal rho' l = Sat.eval_literal rho l).
  { intros [s v] Hl. unfold Sat.eval_literal. cbn [fst snd].
    rewrite H; [reflexivity|]. unfold clause_vars. apply in_flat_map.
    exists cl. split; [exact Hcl|]. apply (in_map snd _ _ Hl). }
  clear Hcl. induction cl as [|l cl IH]; [reflexivity|].
  cbn [existsb]. rewrite Hl by (left; reflexivity).
  rewrite IH by (intros; apply Hl; right; assumption). reflexivity.
Qed.

(** X9: [MODADD.sat_constraints] lists [w] intermediate variables for
    every addition but its clauses use only the first [w - 1] of them.  For
    a component with [k >= 2] operands of [w >= 2] bits whose new variables
    are distinct and differ from those of the operands, the last
    intermediate variable of every addition is among the returned ids,
    occurs in no clause, and can take either value in any model. *)
Theorem modadd_sat_last_intermediate_free
  (bit_id : string -> nat -> string) (c : component) (k w : nat) :
  well_formed c k w -> (2 <= k)%nat -> (2 <= w)%nat ->
  distinct (sat_new_ids bit_id c) = true ->
  disjoint (snd (generate_input_ids bit_id c)) (sat_new_ids bit_id c) = true ->
  exists cs,
    Modadd.sat_constraints bit_id c = Ok (sat_new_ids bit_id c, cs)
    /\ forall i, (i < k - 1)%nat ->
         let m :=
           last_id
             (nth i (Modadd.intermediates_ids_of
                       (snd (generate_output_ids bit_id c)) k) []) in
         In m (sat_new_ids bit_id c)
         /\ ~ In m (clause_vars cs)
         /\ forall rho b, Sat.eval (extend rho [m] [b]) cs = Sat.eval rho cs.
Proof.
  intros Hwf Hk Hw Hdis Hfresh.
  assert (Hd : description_1 c = k) by apply Hwf.
  destruct (sat_constraints_sound bit_id c k w Hwf Hk Hw) as (cs & E & _).
  unfold sat_new_ids in *. rewrite Hd in *.
  set (output_ids := snd (generate_output_ids bit_id c)) in *.
  set (input_ids := snd (generate_input_ids bit_id c)) in *.
  set (cars := Modadd.carries_ids_of output_ids k) in *.
  set (mids := Modadd.intermediates_ids_of output_ids k) in *.
  set (outs := Modadd.outputs_ids_of output_ids k) in *.
  apply distinct_NoDup in Hdis.
  pose proof (disjoint_In _ _ Hfresh) as Hfr.
  exists cs. split; [exact E|]. intros i Hi.
  set (m := last_id (nth i mids [])).
  pose proof (length_nth_intermediates_ids_of output_ids k Hk i Hi) as Lm.
  fold mids in Lm.
  pose proof (sat_len_out bit_id c k w Hwf) as Lout.
  fold output_ids in Lout. rewrite Lout in Lm.
  assert (Hm : In m (nth i mids [])).
  { unfold m, last_id.
    rewrite (app_removelast_last EmptyString (l := nth i mids [])) at 2
      by (intros E0; rewrite E0 in Lm; simpl in Lm; lia).
    apply in_or_app. right. left. reflexivity. }
  assert (Hmc : In m (concat mids)) by (apply (In_nth_concat mids i m Hm)).
  assert (Hmid : In m (concat cars ++ concat mids ++ concat outs))
    by (rewrite !in_app_iff; right; left; exact Hmc).
  assert (Hnot : ~ In m (clause_vars cs)).
  { intros Hv.
    destruct (sat_stage_places bit_id c k w Hwf Hk Hw cs E m Hv)
      as [H|[H|[H|(j & Hj & H)]]].
    - apply (Hfr m H Hmid).
    - apply (NoDup_app_disjoint _ _ Hdis m H). apply in_or_app. left.
      exact Hmc.
    - apply NoDup_app_remove_l in Hdis.
      apply (NoDup_app_disjoint _ _ Hdis m Hmc H).
    - apply NoDup_app_remove_l, NoDup_app_remove_r in Hdis.
      destruct (Nat.eq_dec j i) as [->|Hne].
      + pose proof (sat_len_car bit_id c k w Hwf Hk Hw i Hi) as Lc.
        fold output_ids cars in Lc.
        apply (last_not_in_firstn (nth i mids []) (length (nth i cars []))
                 EmptyString); [apply NoDup_concat_nth, Hdis | lia | exact H].
      + apply In_firstn in H.
        apply (NoDup_concat_disjoint mids Hdis j i m Hne H Hm). }
  split; [exact Hmid|]. split; [exact Hnot|].
  intros rho b. apply eval_clause_vars. intros v Hv.
  apply extend_outside. intros [<-|[]]. apply Hnot, Hv.
Qed.

(** The statement above at the component [add_two], with the names
    [bit_id_03]. *)
Lemma modadd_sat_last_intermediate_free_witness :
  exists cs,
    Modadd.sat_constraints bit_id_03 add_two
    = Ok (sat_new_ids bit_id_03 add_two, cs)
    /\ forall i, (i < 2 - 1)%nat ->
         let m :=
           last_id
             (nth i (Modadd.intermediates_ids_of
                       (snd (generate_output_ids bit_id_03 add_two)) 2) []) in
         In m (sat_new_ids bit_id_03 add_two)
         /\ ~ In m (clause_vars cs)
         /\ forall rho b, Sat.eval (extend rho [m] [b]) cs = Sat.eval rho cs.
Proof.
  apply (modadd_sat_last_intermediate_free bit_id_03 add_two 2 2);
    [repeat split; reflexivity | lia | lia | vm_compute; reflexivity
    | vm_compute; reflexivity].
Defined.

(** ** The shifted words of the XOR-differential model of MODADD *)

Lemma shi_names_app (ds1 ds2 : list Modadd.xdp_declaration) :
  shi_names (ds1 ++ ds2) = shi_names ds1 ++ shi_names ds2.
Proof. unfold shi_names. apply flat_map_app. Qed.

Lemma NoDup_snoc {A : Type} (l : list A) (a : A) :
  NoDup l -> ~ In a l -> NoDup (l ++ [a]).
Proof.
  intros Hnd Hin. apply NoDup_app; [exact Hnd | repeat constructor; auto|].
  intros x Hx [<-|[]]. exact (Hin Hx).
Qed.

Section ShiftStep.

Variables (hi : Z) (x : string).

Let shift (st : list Modadd.xdp_declaration * list string) :=
  if negb (existsb (String.eqb x) (snd st))
  then (fst st ++ [Modadd.ShiftDecl hi x], snd st ++ [x])
  else st.

Lemma shift_invariant (st : list Modadd.xdp_declaration * list string) :
  shi_names (fst st) = snd st -> NoDup (snd st) ->
  shi_names (fst (shift st)) = snd (shift st)
  /\ NoDup (snd (shift st))
  /\ incl (snd st) (snd (shift st))
  /\ In x (snd (shift st)).
Proof using Type.
  intros Hs Hnd. unfold shift.
  destruct (existsb (String.eqb x) (snd st)) eqn:E; cbn [negb fst snd].
  - apply mem_In in E. repeat split; try assumption. apply incl_refl.
  - assert (Hx : ~ In x (snd st)).
    { intros Hin. apply mem_In in Hin. unfold mem in Hin.
      rewrite Hin in E. discriminate E. }
    rewrite shi_names_app, Hs. cbn. repeat split.
    + apply NoDup_snoc; assumption.
    + apply incl_appl, incl_refl.
    + apply in_or_app. right. left. reflexivity.
Qed.

End ShiftStep.

Lemma xdp_step_invariant
  (st : list Modadd.xdp_declaration * list Modadd.xdp_constraint
        * list string) (call : xdp_call) :
  shi_names (fst (fst st)) = snd st -> NoDup (snd st) ->
  shi_names (fst (fst (xdp_step st call))) = snd (xdp_step st call)
  /\ NoDup (snd (xdp_step st call))
  /\ incl (snd st) (snd (xdp_step st call))
  /\ In (call_inp1 call) (snd (xdp_step st call))
  /\ In (call_inp2 call) (snd (xdp_step st call))
  /\ In (call_out call) (snd (xdp_step st call))
  /\ length (snd (fst (xdp_step st call))) = S (length (snd (fst st))).
Proof.
  intros Hs Hnd.
  unfold xdp_step, Modadd.cp_twoterms_xor_differential_probability.
  cbn [fst snd].
  set (hi := call_inplen call - 1).
  destruct (shift_invariant hi (call_inp1 call) (fst (fst st), snd st) Hs Hnd)
    as (S1 & N1 & I1 & M1).
  cbv zeta in S1, N1, I1, M1.
  set (st1 := if negb (existsb (String.eqb (call_inp1 call)) (snd st))
              then _ else _) in *.
  cbn [fst snd] in S1, N1, I1, M1.
  destruct (shift_invariant hi (call_inp2 call) st1 S1 N1)
    as (S2 & N2 & I2 & M2).
  cbv zeta in S2, N2, I2, M2.
  set (st2 := if negb (existsb (String.eqb (call_inp2 call)) (snd st1))
              then _ else _) in *.
  destruct (shift_invariant hi (call_out call) st2 S2 N2)
    as (S3 & N3 & I3 & M3).
  cbv zeta in S3, N3, I3, M3.
  set (st3 := if negb (existsb (String.eqb (call_out call)) (snd st2))
              then _ else _) in *.
  repeat split.
  - rewrite shi_names_app, S3. cbn. apply app_nil_r.
  - exact N3.
  - intros v Hv. apply I3, I2, I1, Hv.
  - apply I3, I2, M1.
  - apply I3, M2.
  - exact M3.
  - rewrite length_app. cbn [length]. lia.
Qed.

Lemma xdp_run_invariant (calls : list xdp_call) :
  forall st,
    shi_names (fst (fst st)) = snd st -> NoDup (snd st) ->
    let st' := fold_left xdp_step calls st in
    shi_names (fst (fst st')) = snd st'
    /\ NoDup (snd st')
    /\ incl (snd st) (snd st')
    /\ (forall call, In call calls ->
          In (call_inp1 call) (snd st') /\ In (call_inp2 call) (snd st')
          /\ In (call_out call) (snd st'))
    /\ length (snd (fst st')) = (length (snd (fst st)) + length calls)%nat.
Proof.
  induction calls as [|call calls IH]; intros st Hs Hnd; cbn [fold_left].
  - split; [exact Hs|]. split; [exact Hnd|]. split; [apply incl_refl|].
    split; [intros call []|]. cbn [length]. lia.
  - destruct (xdp_step_invariant st call Hs Hnd)
      as (S1 & N1 & I1 & M1 & M2 & M3 & L1).
    destruct (IH (xdp_step st call) S1 N1) as (S2 & N2 & I2 & M & L2).
    cbv zeta in S2, N2, I2, M, L2.
    split; [exact S2|]. split; [exact N2|].
    split; [intros v Hv; apply I2, I1, Hv|]. split.
    + intros call0 [<-|H]; [|apply (M call0 H)].
      split; [apply I2, M1|]. split; [apply I2, M2 | apply I2, M3].
    + rewrite L2, L1. cbn [length]. lia.
Qed.

(** X10: over any sequence of calls of
    [cp_twoterms_xor_differential_probability] that starts from an empty
    model, the words with a declared shift [Shi_x] are exactly the words of
    [modadd_twoterms_mant], in the same order; no shift is declared twice;
    every word named in a call has its shift declared; and every call adds
    one constraint. *)
Theorem xdp_shift_declared_once (calls : list xdp_call) :
  let st := xdp_run calls in
  shi_names (fst (fst st)) = snd st
  /\ NoDup (shi_names (fst (fst st)))
  /\ (forall call, In call calls ->
        In (call_inp1 call) (shi_names (fst (fst st)))
        /\ In (call_inp2 call) (shi_names (fst (fst st)))
        /\ In (call_out call) (shi_names (fst (fst st))))
  /\ length (snd (fst st)) = length calls.
Proof.
  destruct (xdp_run_invariant calls ([], [], []) eq_refl (NoDup_nil _))
    as (S1 & N1 & _ & M & L).
  cbv zeta in S1, N1, M, L. cbv zeta. unfold xdp_run.
  rewrite S1. split; [reflexivity|]. split; [exact N1|].
  split; [exact M | exact L].
Qed.

(** ** OR in the CP model of the linear mask propagation *)

Lemma lin_tables_loop (mk : nat -> Z -> Or.lin_constraint) (n : nat) :
  forall a cs0 p0,
    fold_left
      (fun (st : list Or.lin_constraint * Z) i =>
         (fst st ++ [mk i (snd st)], snd st + 1))
      (seq a n) (cs0, p0)
    = (cs0 ++ map (fun i => mk i (p0 + Z.of_nat (i - a))) (seq a n),
       p0 + Z.of_nat n).
Proof.
  induction n as [|n IH]; intros a cs0 p0; cbn [seq fold_left map fst snd].
  - rewrite app_nil_r, Z.add_0_r. reflexivity.
  - rewrite IH. rewrite <- app_assoc. cbn [app].
    rewrite Nat.sub_diag, Z.add_0_r. f_equal; [|lia]. f_equal. f_equal.
    apply map_ext_in. intros i Hi. apply in_seq in Hi. f_equal. lia.
Qed.

Lemma flat_map_map_list {A B C : Type} (f : B -> list C) (g : A -> B)
  (l : list A) :
  flat_map f (map g l) = flat_map (fun x => f (g x)) l.
Proof.
  induction l as [|x l IH]; [reflexivity|]. cbn [map flat_map].
  rewrite IH. reflexivity.
Qed.

Lemma map_flat_map_list {A B C : Type} (f : A -> list B) (g : B -> C)
  (l : list A) :
  map g (flat_map f l) = flat_map (fun x => map g (f x)) l.
Proof.
  induction l as [|x l IH]; [reflexivity|]. cbn [flat_map].
  rewrite map_app, IH. reflexivity.
Qed.

Lemma In_strided (k w n : nat) : In n (strided k w) <-> (n < k * w)%nat.
Proof.
  unfold strided. rewrite in_flat_map. split.
  - intros (i & Hi & H). apply in_map_iff in H. destruct H as (j & <- & Hj).
    apply in_seq in Hi, Hj. nia.
  - intros H. assert (Hw : (0 < w)%nat) by nia.
    exists (n mod w)%nat. split.
    + apply in_seq. pose proof (Nat.mod_upper_bound n w). lia.
    + apply in_map_iff. exists (n / w)%nat. split.
      * pose proof (Nat.div_mod_eq n w). lia.
      * apply in_seq. split; [lia|]. cbn [Nat.add].
        apply Nat.Div0.div_lt_upper_bound. lia.
Qed.

Lemma length_strided (k w : nat) : length (strided k w) = (w * k)%nat.
Proof.
  unfold strided. rewrite (length_flat_map_const _ k).
  - rewrite length_seq. reflexivity.
  - intros i. rewrite length_map, length_seq. reflexivity.
Qed.

Lemma NoDup_strided (k w : nat) : NoDup (strided k w).
Proof.
  apply (NoDup_incl_NoDup (l := seq 0 (k * w))).
  - apply seq_NoDup.
  - rewrite length_strided, length_seq. lia.
  - intros n Hn. apply in_seq in Hn. apply In_strided. lia.
Qed.

Lemma NoDup_map_of_nat (l : list nat) : NoDup l -> NoDup (map Z.of_nat l).
Proof.
  intros H. apply NoDup_map_NoDup_ForallPairs; [|exact H].
  intros x y _ _ E. lia.
Qed.

Section LinearTables.

Variables (c : component) (k w : nat) (model : Or.lin_model).
Hypothesis Hwf : well_formed c k w.
Hypothesis Hk : (1 <= k)%nat.

Let table (i : nat) : Or.lin_constraint :=
  Or.Table
    (map (fun j => (id c +s "_i", Z.of_nat (i + w * j))) (seq 0 k)
     ++ [(id c +s "_o", Z.of_nat i); ("p_" +s id c, Z.of_nat i)])
    ("and" +s Py.str (Z.of_nat k) +s "inputs_LAT").

Lemma lin_constraints_ok :
  Or.cp_xor_linear_mask_propagation_constraints c model
  = Ok ([Or.ArrayInt 0 (Z.of_nat w - 1) ("p_" +s id c);
         Or.ArrayBit 0 (Z.of_nat (k * w) - 1) (id c +s "_i");
         Or.ArrayBit 0 (Z.of_nat w - 1) (id c +s "_o")],
        map table (seq 0 w)
        ++ [Or.ProbSum (Or.model_c model) ("p_" +s id c)],
        {| Or.model_c := Or.model_c model + 1;
           Or.component_and_probability :=
             Or.dict_set
               (Or.dict_set (Or.component_and_probability model) (id c) 0)
               (id c) (Or.model_c model) |}).
Proof using Hwf Hk.
  destruct Hwf as (Hd & Ho & _ & Hi).
  unfold Or.cp_xor_linear_mask_propagation_constraints.
  rewrite Hd, Ho, Hi.
  assert (Hdiv : Py.floordiv (k * w) k = Ok w).
  { unfold Py.floordiv. destruct k as [|k']; [lia|].
    rewrite (Nat.mul_comm (S k') w), Nat.div_mul by lia. reflexivity. }
  rewrite Hdiv. cbn [bind Or.model_c Or.component_and_probability].
  unfold Py.range. rewrite !Nat.sub_0_r.
  rewrite (lin_tables_loop
             (fun i p =>
                Or.Table
                  (map (fun j => (id c +s "_i", Z.of_nat (i + w * j)))
                     (seq 0 k)
                   ++ [(id c +s "_o", Z.of_nat i); ("p_" +s id c, p)])
                  ("and" +s Py.str (Z.of_nat k) +s "inputs_LAT"))).
  cbn [fst snd app]. f_equal. f_equal. f_equal. f_equal.
  apply map_ext_in. intros i _. unfold table.
  rewrite Nat.sub_0_r, Z.add_0_l. reflexivity.
Qed.

Lemma lin_table_inputs :
  flat_map (fun t => firstn k (table_cells t)) (map table (seq 0 w))
  = map (fun n => (id c +s "_i", Z.of_nat n)) (strided k w).
Proof using Hk.
  rewrite flat_map_map_list. unfold strided.
  rewrite map_flat_map_list. apply flat_map_ext. intros i.
  unfold table. cbn [table_cells].
  rewrite firstn_app, length_map, length_seq, Nat.sub_diag.
  cbn [firstn]. rewrite app_nil_r, firstn_all2, map_map
    by (rewrite length_map, length_seq; lia).
  reflexivity.
Qed.

End LinearTables.

(** X11: for a component of [k >= 1] operands of [w] bits and a model whose
    counter is [n], [cp_xor_linear_mask_propagation_constraints] returns [w]
    table constraints followed by [constraint p[n] = sum(p_<id>);], sets
    the counter to [n + 1] and records [n] for the component, leaving the
    other entries of [component_and_probability] as they were.  Table [i]
    ends with the cells [<id>_o[i]] and [p_<id>[i]]; the [k] cells before
    them are cells of [<id>_i], and over all tables their indices are the
    indices [0 .. k*w - 1] of the declared array [<id>_i], each read
    once. *)
Theorem or_linear_tables_partition (c : component) (k w : nat)
  (model : Or.lin_model) :
  well_formed c k w -> (1 <= k)%nat ->
  exists ds tables model',
    Or.cp_xor_linear_mask_propagation_constraints c model
    = Ok (ds,
          tables ++ [Or.ProbSum (Or.model_c model) ("p_" +s id c)],
          model')
    /\ Or.model_c model' = Or.model_c model + 1
    /\ Or.component_and_probability model' (id c)
       = Some (Or.model_c model)
    /\ (forall key, key <> id c ->
          Or.component_and_probability model' key
          = Or.component_and_probability model key)
    /\ In (Or.ArrayBit 0 (Z.of_nat (k * w) - 1) (id c +s "_i")) ds
    /\ length tables = w
    /\ (forall i, (i < w)%nat ->
          skipn k (table_cells (nth i tables (Or.ProbSum 0 "")))
          = [(id c +s "_o", Z.of_nat i); ("p_" +s id c, Z.of_nat i)])
    /\ let cells := flat_map (fun t => firstn k (table_cells t)) tables in
       Forall (fun cell => fst cell = id c +s "_i") cells
       /\ NoDup (map snd cells)
       /\ (forall n, In n (map snd cells) <-> 0 <= n < Z.of_nat (k * w)).
Proof.
  intros Hwf Hk. eexists _, _, _.
  split; [apply (lin_constraints_ok c k w model Hwf Hk)|].
  cbn [Or.model_c Or.component_and_probability].
  split; [reflexivity|]. split.
  { unfold Or.dict_set. rewrite String.eqb_refl. reflexivity. }
  split.
  { intros key Hkey. unfold Or.dict_set.
    destruct (String.eqb_spec key (id c)) as [E|_]; [contradiction|].
    reflexivity. }
  split; [right; left; reflexivity|].
  split; [rewrite length_map, length_seq; reflexivity|].
  split.
  { intros i Hi.
    rewrite nth_map_seq by exact Hi. cbn [table_cells].
    rewrite skipn_app, length_map, length_seq, Nat.sub_diag.
    rewrite skipn_all2 by (rewrite length_map, length_seq; lia).
    reflexivity. }
  cbv zeta. rewrite (lin_table_inputs c k w Hk). split; [|split].
  - apply Forall_forall. intros cell H. apply in_map_iff in H.
    destruct H as (n & <- & _). reflexivity.
  - rewrite map_map. cbn [snd]. apply NoDup_map_of_nat, NoDup_strided.
  - intros n. rewrite map_map. cbn [snd]. rewrite in_map_iff. split.
    + intros (m & <- & Hm). apply In_strided in Hm. lia.
    + intros Hn. exists (Z.to_nat n). split; [lia|].
      apply In_strided. lia.
Qed.

Lemma or_linear_tables_partition_witness :
  exists ds tables model',
    Or.cp_xor_linear_mask_propagation_constraints or_two
      {| Or.model_c := 5; Or.component_and_probability := fun _ => None |}
    = Ok (ds, tables ++ [Or.ProbSum 5 ("p_" +s id or_two)], model')
    /\ Or.model_c model' = 6
    /\ length tables = 2%nat.
Proof.
  destruct (or_linear_tables_partition or_two 2 2
              {| Or.model_c := 5;
                 Or.component_and_probability := fun _ => None |})
    as (ds & tables & model' & H & Hc & _ & _ & _ & Hl & _).
  - repeat split.
  - lia.
  - exists ds, tables, model'. split; [exact H|]. split; assumption.
Defined.

(** ** OR in the CP model *)

Lemma map_nth_seq {A B : Type} (g : A -> B) (l : list A) (d : A) :
  map (fun j => g (nth j l d)) (seq 0 (length l)) = map g l.
Proof.
  induction l as [|a l IH]; [reflexivity|].
  cbn [length seq map nth]. f_equal.
  rewrite <- seq_shift, map_map. exact IH.
Qed.

Lemma combine_nth_seq {A B : Type} (la : list A) (lb : list B) (da : A)
  (db : B) :
  length la = length lb ->
  combine la lb
  = map (fun i => (nth i la da, nth i lb db)) (seq 0 (length la)).
Proof.
  revert lb. induction la as [|a la IH]; intros [|b lb] H;
    try discriminate H; [reflexivity|].
  cbn [combine length seq map nth]. f_equal.
  rewrite <- seq_shift, map_map. apply IH. simpl in H. lia.
Qed.

Lemma foldM_extend2 {A C D : Type}
  (body : list C * list D -> A -> result (list C * list D))
  (F : A -> list C) (G : A -> list D) (l : list A) :
  (forall a st, In a l -> body st a = Ok (fst st ++ F a, snd st ++ G a)) ->
  forall st0,
    foldM body l st0
    = Ok (fst st0 ++ flat_map F l, snd st0 ++ flat_map G l).
Proof.
  induction l as [|a l IH]; intros H st0; cbn [foldM flat_map].
  - rewrite !app_nil_r. destruct st0; reflexivity.
  - rewrite H by (left; reflexivity). cbn [bind].
    rewrite IH by (intros; apply H; right; assumption).
    cbn [fst snd]. rewrite <- !app_assoc. reflexivity.
Qed.

Lemma foldM_raises {A S : Type} (body : S -> A -> result S) (l1 l2 : list A)
  (a : A) (s s' : S) (e : exn) :
  foldM body l1 s = Ok s' -> body s' a = Err e ->
  foldM body (l1 ++ a :: l2) s = Err e.
Proof.
  revert s. induction l1 as [|b l1 IH]; intros s H1 H2; cbn [app foldM].
  - cbn in H1. injection H1 as ->. rewrite H2. reflexivity.
  - cbn [foldM] in H1. destruct (body s b) as [s1|e1]; [|discriminate H1].
    cbn [bind] in *. apply IH; assumption.
Qed.

(** The loop that collects [all_inputs], over the first [n] links. *)
Lemma or_all_inputs_loop (c : component) (n : nat) :
  (n <= length (input_id_links c))%nat ->
  (n <= length (input_bit_positions c))%nat ->
  foldM
    (fun all_inputs i =>
       positions <- Py.getitem (input_bit_positions c) (Z.of_nat i) ;;
       more <- mapM
                 (fun j =>
                    link <- Py.getitem (input_id_links c) (Z.of_nat i) ;;
                    positions <- Py.getitem (input_bit_positions c)
                                   (Z.of_nat i) ;;
                    position <- Py.getitem positions (Z.of_nat j) ;;
                    Ok (Cp.Elem link (Z.of_nat position)))
                 (Py.range 0 (length positions)) ;;
       Ok (all_inputs ++ more))
    (seq 0 n) []
  = Ok (flat_map
          (fun i =>
             map (fun position =>
                    Cp.Elem (nth i (input_id_links c) EmptyString)
                      (Z.of_nat position))
               (nth i (input_bit_positions c) []))
          (seq 0 n)).
Proof.
  intros H1 H2.
  rewrite (foldM_extend _
             (fun i =>
                map (fun position =>
                       Cp.Elem (nth i (input_id_links c) EmptyString)
                         (Z.of_nat position))
                  (nth i (input_bit_positions c) []))).
  - reflexivity.
  - intros i cs Hi. apply in_seq in Hi.
    rewrite (getitem_nth _ _ []) by lia. cbn [bind].
    rewrite (mapM_ok _
               (fun j =>
                  Cp.Elem (nth i (input_id_links c) EmptyString)
                    (Z.of_nat (nth j (nth i (input_bit_positions c) [])
                                 0%nat)))).
    + cbn [bind]. unfold Py.range. rewrite Nat.sub_0_r.
      rewrite (map_nth_seq
                 (fun position =>
                    Cp.Elem (nth i (input_id_links c) EmptyString)
                      (Z.of_nat position))).
      reflexivity.
    + intros j Hj. unfold Py.range in Hj. apply in_seq in Hj. cbv beta.
      rewrite (getitem_nth _ _ EmptyString) by lia. cbn [bind].
      rewrite (getitem_nth _ _ 0%nat) by lia. reflexivity.
Qed.

Lemma or_all_inputs (c : component) :
  length (input_id_links c) = length (input_bit_positions c) ->
  flat_map
    (fun i =>
       map (fun position =>
              Cp.Elem (nth i (input_id_links c) EmptyString)
                (Z.of_nat position))
         (nth i (input_bit_positions c) []))
    (seq 0 (length (input_id_links c)))
  = cp_all_inputs c.
Proof.
  intros H. unfold cp_all_inputs.
  rewrite (combine_nth_seq _ _ EmptyString [] H), flat_map_map_list.
  reflexivity.
Qed.

Lemma flat_map_singleton {A B : Type} (f : A -> B) (l : list A) :
  flat_map (fun a => [f a]) l = map f l.
Proof.
  induction l as [|a l IH]; [reflexivity|]. cbn [flat_map map app].
  rewrite IH. reflexivity.
Qed.

Lemma or_acc_temp (c : component) (k n : nat) :
  (n <> k - 1)%nat -> or_acc c k n = Or.temp (id c) (Z.of_nat n - 1).
Proof.
  intros H. unfold or_acc.
  destruct (Nat.eqb_spec n (k - 1)); [contradiction | reflexivity].
Qed.

Lemma or_acc_last (c : component) (k : nat) : or_acc c k (k - 1) = id c.
Proof. unfold or_acc. rewrite Nat.eqb_refl. reflexivity. Qed.

Section OrCp.

Variables (c : component) (k w : nat).
Hypothesis Hwf : well_formed c k w.
Hypothesis Hk : (2 <= k)%nat.

Lemma or_cp_constraints_ok :
  Or.cp_constraints c
  = Ok (Cp.Array01 0 (Z.of_nat w - 1) (id c)
        :: map (pre_declaration c w) (seq 0 k)
        ++ map (fun i => Cp.Array01 0 (Z.of_nat w - 1)
                           (Or.temp (id c) (Z.of_nat i)))
             (seq 0 (k - 2)),
        map Or.Equation (flat_map (pre_equations c w) (seq 0 k))
        ++ map (fun t => Or.OrCall (fst (fst t)) (snd (fst t)) (snd t))
             (or_chain c k)).
Proof using Hwf Hk.
  destruct Hwf as (Hd & Ho & Hl & Hi).
  unfold Or.cp_constraints, Py.range. rewrite !Nat.sub_0_r.
  rewrite or_all_inputs_loop by lia. cbn [bind].
  rewrite (or_all_inputs c Hl), Hd, Ho.
  rewrite (cp_floordiv c k w Hwf) by lia. cbn [bind].
  rewrite (foldM_extend2 _
             (fun i => [pre_declaration c w i])
             (fun i => map Or.Equation (pre_equations c w i))).
  - cbn [bind fst snd app].
    rewrite flat_map_singleton, <- map_flat_map_list.
    destruct (Nat.eqb_spec k 2) as [E|E].
    + f_equal. f_equal. f_equal. unfold or_chain. rewrite E.
      reflexivity.
    + destruct (Nat.ltb_spec 2 k) as [_|]; [|lia].
      f_equal. f_equal. rewrite <- !app_assoc. f_equal.
      unfold or_chain. cbn [map fst snd app]. f_equal.
      { rewrite or_acc_temp by lia. reflexivity. }
      replace (k - 2)%nat with (S (k - 2 - 1)) at 2 by lia.
      rewrite seq_S, map_app, map_app, map_map. cbn [map fst snd].
      f_equal.
      * apply map_ext_in. intros n Hn. apply in_seq in Hn.
        rewrite !or_acc_temp by lia. f_equal. f_equal. lia.
      * replace (1 + (k - 2 - 1) + 1)%nat with (k - 1)%nat by lia.
        rewrite or_acc_last, or_acc_temp by lia.
        f_equal. f_equal; f_equal; lia.
  - intros i st Hi'. apply in_seq in Hi'.
    rewrite (mapM_ok _
               (fun j =>
                  Or.Equation
                    (Cp.Eq (Cp.Elem (Modadd.pre (id c) (Z.of_nat i))
                              (Z.of_nat j))
                       (nth (i * w + j) (cp_all_inputs c) (Cp.Lit 0))))).
    + cbn [bind]. unfold pre_equations, pre_declaration.
      rewrite map_map, Nat.sub_0_r. reflexivity.
    + intros j Hj. rewrite Nat.sub_0_r in Hj. apply in_seq in Hj.
      cbv beta.
      rewrite (getitem_nth _ _ (Cp.Lit 0))
        by (rewrite (cp_len_inputs c k w Hwf); nia).
      reflexivity.
Qed.

End OrCp.

Section OrChain.

Variables (c : component) (k : nat) (X : Type) (V : string -> X)
  (f : X -> X -> X) (holds : string -> string -> string -> Prop).
Hypothesis Hf : forall a b r, holds a b r -> V r = f (V a) (V b).

Lemma or_chain_fold (m : nat) :
  forall a,
    Forall (fun t => holds (fst (fst t)) (snd (fst t)) (snd t))
      (map (fun n =>
              (Modadd.pre (id c) (Z.of_nat n + 1), or_acc c k n,
               or_acc c k (n + 1)))
         (seq a m)) ->
    V (or_acc c k (a + m))
    = fold_left (fun x n => f (V (Modadd.pre (id c) (Z.of_nat n))) x)
        (seq (a + 1) m) (V (or_acc c k a)).
Proof using Hf.
  induction m as [|m IH]; intros a H.
  - rewrite Nat.add_0_r. reflexivity.
  - cbn [seq map] in H. apply Forall_cons_iff in H. destruct H as [H0 H].
    cbn [fst snd] in H0. apply Hf in H0.
    replace (a + S m)%nat with (S a + m)%nat by lia.
    rewrite (IH (S a) H).
    replace (S a + 1)%nat with (S (a + 1)) by lia. cbn [seq fold_left].
    f_equal. replace (S a) with (a + 1)%nat by lia. rewrite H0.
    rewrite Nat2Z.inj_add. reflexivity.
Qed.

End OrChain.

Lemma or_calls_app (cs1 cs2 : list Or.cp_constraint) :
  or_calls (cs1 ++ cs2) = or_calls cs1 ++ or_calls cs2.
Proof. apply flat_map_app. Qed.

Lemma or_equations_app (cs1 cs2 : list Or.cp_constraint) :
  or_equations (cs1 ++ cs2) = or_equations cs1 ++ or_equations cs2.
Proof. apply flat_map_app. Qed.

Lemma or_calls_equations (es : list Cp.constraint) :
  or_calls (map Or.Equation es) = []
  /\ or_equations (map Or.Equation es) = es.
Proof.
  induction es as [|e es [IH1 IH2]]; [split; reflexivity|].
  split; cbn; [exact IH1 | rewrite <- IH2 at 2; reflexivity].
Qed.

Lemma or_calls_calls (ts : list (string * string * string)) :
  or_calls (map (fun t => Or.OrCall (fst (fst t)) (snd (fst t)) (snd t)) ts)
  = ts
  /\ or_equations
       (map (fun t => Or.OrCall (fst (fst t)) (snd (fst t)) (snd t)) ts)
     = [].
Proof.
  induction ts as [|[[a b] r] ts [IH1 IH2]]; [split; reflexivity|].
  split; cbn; [rewrite <- IH1 at 2; reflexivity | exact IH2].
Qed.

Lemma getitem_length {A : Type} (l : list A) :
  Py.getitem l (Z.of_nat (length l)) = Err IndexError.
Proof.
  unfold Py.getitem.
  destruct (Z.ltb_spec (Z.of_nat (length l)) 0); [lia|].
  destruct (Z.ltb_spec (Z.of_nat (length l)) (Z.of_nat (length l)));
    [lia|].
  rewrite andb_false_r. reflexivity.
Qed.

(** X12: for a component of [k >= 2] operands of [w] bits, [cp_constraints]
    of OR returns the equations that copy the operands into the arrays
    [pre_<id>_i], followed by [k - 1] calls of the predicate [or]; every
    array a call names is declared over [0 .. w - 1].  The calls are a left
    fold over the operands: for any reading [V] of the arrays under which a
    call [or(a, b, r)] that holds gives [V r = f (V a) (V b)], the output is
    [f pre_(k-1) (... (f pre_2 (f pre_0 pre_1)))], with every operand used
    once. *)
Theorem or_cp_constraints_fold (c : component) (k w : nat) (X : Type)
  (V : string -> X) (f : X -> X -> X)
  (holds : string -> string -> string -> Prop) :
  well_formed c k w -> (2 <= k)%nat ->
  (forall a b r, holds a b r -> V r = f (V a) (V b)) ->
  exists ds cs,
    Or.cp_constraints c = Ok (ds, cs)
    /\ or_equations cs = flat_map (pre_equations c w) (seq 0 k)
    /\ or_calls cs = or_chain c k
    /\ length (or_calls cs) = (k - 1)%nat
    /\ (forall a b r, In (a, b, r) (or_calls cs) ->
          In (Cp.Array01 0 (Z.of_nat w - 1) a) ds
          /\ In (Cp.Array01 0 (Z.of_nat w - 1) b) ds
          /\ In (Cp.Array01 0 (Z.of_nat w - 1) r) ds)
    /\ (Forall (fun t => holds (fst (fst t)) (snd (fst t)) (snd t))
          (or_calls cs) ->
        V (id c)
        = fold_left (fun x n => f (V (Modadd.pre (id c) (Z.of_nat n))) x)
            (seq 2 (k - 2))
            (f (V (Modadd.pre (id c) 0)) (V (Modadd.pre (id c) 1)))).
Proof.
  intros Hwf Hk Hf. eexists _, _.
  split; [apply (or_cp_constraints_ok c k w Hwf Hk)|].
  rewrite or_equations_app, or_calls_app.
  destruct (or_calls_equations (flat_map (pre_equations c w) (seq 0 k)))
    as [-> ->].
  destruct (or_calls_calls (or_chain c k)) as [-> ->].
  rewrite app_nil_r. cbn [app].
  split; [reflexivity|]. split; [reflexivity|]. split.
  { unfold or_chain. cbn [length]. rewrite length_map, length_seq. lia. }
  assert (Hpre : forall n, (n < k)%nat ->
            In (Cp.Array01 0 (Z.of_nat w - 1)
                  (Modadd.pre (id c) (Z.of_nat n)))
              (Cp.Array01 0 (Z.of_nat w - 1) (id c)
               :: map (pre_declaration c w) (seq 0 k)
               ++ map (fun i => Cp.Array01 0 (Z.of_nat w - 1)
                                  (Or.temp (id c) (Z.of_nat i)))
                    (seq 0 (k - 2)))).
  { intros n Hn. right. apply in_or_app. left.
    apply in_map_iff. exists n. split; [reflexivity|]. apply in_seq. lia. }
  assert (Hacc : forall n, (1 <= n <= k - 1)%nat ->
            In (Cp.Array01 0 (Z.of_nat w - 1) (or_acc c k n))
              (Cp.Array01 0 (Z.of_nat w - 1) (id c)
               :: map (pre_declaration c w) (seq 0 k)
               ++ map (fun i => Cp.Array01 0 (Z.of_nat w - 1)
                                  (Or.temp (id c) (Z.of_nat i)))
                    (seq 0 (k - 2)))).
  { intros n Hn. unfold or_acc. destruct (Nat.eqb_spec n (k - 1)).
    - left. reflexivity.
    - right. apply in_or_app. right. apply in_map_iff.
      exists (n - 1)%nat. split; [|apply in_seq; lia].
      f_equal. f_equal. lia. }
  split.
  { intros a b r [H|H].
    - injection H as <- <- <-.
      split; [apply (Hpre 0%nat); lia|].
      split; [apply (Hpre 1%nat); lia | apply Hacc; lia].
    - apply in_map_iff in H. destruct H as (n & H & Hn).
      apply in_seq in Hn. injection H as <- <- <-.
      replace (Z.of_nat n + 1) with (Z.of_nat (n + 1)) by lia.
      split; [apply Hpre; lia|]. split; apply Hacc; lia. }
  intros H. unfold or_chain in H. apply Forall_cons_iff in H.
  destruct H as [H0 H]. cbn [fst snd] in H0. apply Hf in H0.
  apply (or_chain_fold c k X V f holds Hf) in H.
  replace (1 + (k - 2))%nat with (k - 1)%nat in H by lia.
  rewrite or_acc_last in H. rewrite H, H0. reflexivity.
Qed.

Lemma or_cp_constraints_fold_witness :
  exists ds cs,
    Or.cp_constraints or_two = Ok (ds, cs)
    /\ or_calls cs = or_chain or_two 2.
Proof.
  destruct (or_cp_constraints_fold or_two 2 2 nat String.length Nat.max
              (fun a b r =>
                 String.length r
                 = Nat.max (String.length a) (String.length b)))
    as (ds & cs & H & _ & Hc & _).
  - repeat split.
  - lia.
  - intros a b r H. exact H.
  - exists ds, cs. split; assumption.
Defined.

(** X13: when the component has fewer lists of bit positions than input
    links, [cp_constraints] of OR raises [IndexError] while it collects
    the inputs. *)
Theorem or_cp_constraints_unpaired (c : component) :
  (length (input_bit_positions c) < length (input_id_links c))%nat ->
  Or.cp_constraints c = Err IndexError.
Proof.
  intros H. unfold Or.cp_constraints, Py.range. rewrite !Nat.sub_0_r.
  set (m := length (input_bit_positions c)) in *.
  replace (length (input_id_links c))
    with (m + S (length (input_id_links c) - m - 1))%nat by lia.
  rewrite seq_app. cbn [seq Nat.add].
  rewrite (foldM_raises _ _ _ _ _ _ IndexError
             (or_all_inputs_loop c m ltac:(lia) ltac:(lia))).
  - reflexivity.
  - unfold m. rewrite getitem_length. reflexivity.
Qed.

Lemma or_cp_constraints_unpaired_witness :
  Or.cp_constraints or_unpaired = Err IndexError.
Proof.
  apply (or_cp_constraints_unpaired or_unpaired). simpl. lia.
Defined.

(** X14: the CP encoders divide the number of input bits by the operand
    count [description[1]]: when it is 0, [cp_constraints] of OR and of
    MODADD and [cp_xor_linear_mask_propagation_constraints] raise
    [ZeroDivisionError]. *)
Theorem cp_encoders_zero_operands (c : component) (model : Or.lin_model) :
  description_1 c = 0%nat ->
  (length (input_id_links c) <= length (input_bit_positions c))%nat ->
  Or.cp_constraints c = Err ZeroDivisionError
  /\ Or.cp_xor_linear_mask_propagation_constraints c model
     = Err ZeroDivisionError
  /\ Modadd.cp_constraints c = Err ZeroDivisionError.
Proof.
  intros Hd Hl. split; [|split].
  - unfold Or.cp_constraints, Py.range. rewrite !Nat.sub_0_r.
    rewrite or_all_inputs_loop by lia. cbn [bind]. rewrite Hd.
    reflexivity.
  - unfold Or.cp_xor_linear_mask_propagation_constraints. rewrite Hd.
    reflexivity.
  - unfold Modadd.cp_constraints. rewrite Hd. reflexivity.
Qed.

Lemma cp_encoders_zero_operands_witness :
  Or.cp_constraints or_none = Err ZeroDivisionError
  /\ Or.cp_xor_linear_mask_propagation_constraints or_none
       {| Or.model_c := 0; Or.component_and_probability := fun _ => None |}
     = Err ZeroDivisionError
  /\ Modadd.cp_constraints or_none = Err ZeroDivisionError.
Proof.
  apply (cp_encoders_zero_operands or_none); [reflexivity | simpl; lia].
Defined.

(** ** MODADD in the CP model: any number of operands *)

Lemma twoterms_split (input_1 input_2 out : string) (w : nat)
  (cs : list Cp.constraint) (ds : list Cp.declaration) :
  Modadd.cp_twoterms input_1 input_2 out w cs ds
  = (ds ++ [twoterms_declaration out w],
     cs ++ twoterms_added input_1 input_2 out w).
Proof.
  unfold twoterms_added, twoterms_declaration, Modadd.cp_twoterms.
  cbn [snd app]. rewrite <- !app_assoc. reflexivity.
Qed.

Lemma twoterms_loop (A B O : nat -> string) (w : nat) (l : list nat) :
  forall ds cs,
    fold_left
      (fun (st : list Cp.declaration * list Cp.constraint) i =>
         Modadd.cp_twoterms (A i) (B i) (O i) w (snd st) (fst st))
      l (ds, cs)
    = (ds ++ map (fun i => twoterms_declaration (O i) w) l,
       cs ++ flat_map (fun i => twoterms_added (A i) (B i) (O i) w) l).
Proof.
  induction l as [|i l IH]; intros ds cs; cbn [fold_left map flat_map].
  - rewrite !app_nil_r. reflexivity.
  - cbn [fst snd]. rewrite twoterms_split, IH, <- !app_assoc. reflexivity.
Qed.

Section CpGeneral.

Variables (c : component) (k w : nat).
Hypothesis Hwf : well_formed c k w.
Hypothesis Hk : (2 <= k)%nat.

Let pre (i : nat) : string := Modadd.pre (id c) (Z.of_nat i).

Lemma cp_constraints_general :
  Modadd.cp_constraints c
  = Ok (map (pre_declaration c w) (seq 0 k)
        ++ map (pre_declaration c w) (seq k (k - 2))
        ++ map (fun i => twoterms_declaration (pre (k + i)) w)
             (seq 0 (k - 2))
        ++ [twoterms_declaration (id c) w],
        flat_map (pre_equations c w) (seq 0 k)
        ++ flat_map
             (fun i =>
                twoterms_added (pre (k - 1)) (pre (i + 1)) (pre (k + i)) w)
             (seq 0 (k - 2))
        ++ twoterms_added (pre (2 * k - 3)) (pre 0) (id c) w).
Proof using Hwf Hk.
  unfold Modadd.cp_constraints. fold (cp_all_inputs c).
  assert (Hd : description_1 c = k) by apply Hwf.
  assert (Ho : output_bit_size c = w) by apply Hwf.
  rewrite Hd, Ho, (cp_floordiv c k w Hwf) by lia. cbn [bind].
  replace (Py.range 0 k) with (seq 0 k)
    by (unfold Py.range; rewrite Nat.sub_0_r; reflexivity).
  rewrite (cp_pre_loop c k w Hwf)
    by (try lia; intros i Hi; apply in_seq in Hi; lia).
  cbn [bind fst snd app]. unfold Py.range. rewrite !Nat.sub_0_r.
  rewrite (twoterms_loop (fun _ => Modadd.pre (id c) (Z.of_nat k - 1))
             (fun i => Modadd.pre (id c) (Z.of_nat i + 1))
             (fun i => Modadd.pre (id c) (Z.of_nat k + Z.of_nat i))).
  cbn [fst snd]. rewrite twoterms_split. rewrite <- !app_assoc. unfold pre.
  replace (2 * k - 2 - k)%nat with (k - 2)%nat by lia.
  replace (Z.of_nat k - 1) with (Z.of_nat (k - 1)) by lia.
  replace (2 * Z.of_nat k - 3) with (Z.of_nat (2 * k - 3)) by lia.
  f_equal. f_equal.
  - f_equal. f_equal. f_equal. apply map_ext. intros i.
    rewrite Nat2Z.inj_add. reflexivity.
  - f_equal. f_equal. apply flat_map_ext. intros i.
    rewrite !Nat2Z.inj_add. reflexivity.
Qed.

Hypothesis Hk3 : (3 <= k)%nat.
Hypothesis Hw : (2 <= w)%nat.

Lemma cp_sound_general (sigma : Cp.store) (ds : list Cp.declaration)
  (cs : list Cp.constraint) :
  Modadd.cp_constraints c = Ok (ds, cs) -> Cp.model sigma ds cs ->
  cp_value sigma (id c) w = cp_three_sum sigma c w k mod 2 ^ Z.of_nat w.
Proof using Hwf Hk Hk3 Hw.
  intros E [Hds Hcs]. rewrite cp_constraints_general in E.
  injection E as <- <-.
  rewrite !Forall_app in Hds, Hcs.
  destruct Hds as (D1 & D2 & _). destruct Hcs as (C1 & C2 & C3).
  rewrite Forall_map, Forall_forall in D1, D2.
  rewrite Forall_flat_map, Forall_forall in C1, C2.
  assert (B : forall i, (i < 2 * k - 2)%nat -> bits01 sigma (pre i) w).
  { intros i Hi. apply (declared_bits01 w Hw).
    destruct (Nat.lt_ge_cases i k).
    - apply D1, in_seq. lia.
    - apply D2, in_seq. lia. }
  assert (Pv : forall i, (i < k)%nat ->
            cp_bits sigma (pre i) w
            = map (fun e => Cp.eval_expr sigma e =? 1)
                (operand (cp_all_inputs c) w i)).
  { intros i Hi. apply (cp_pre_bits c k w Hwf ltac:(lia) sigma i Hi).
    apply C1, in_seq. lia. }
  change (k + (k + 0) - 3)%nat with (2 * k - 3)%nat in C3.
  specialize (C2 (k - 3)%nat ltac:(apply in_seq; lia)).
  replace (k - 3 + 1)%nat with (k - 2)%nat in C2 by lia.
  replace (k + (k - 3))%nat with (2 * k - 3)%nat in C2 by lia.
  pose proof (twoterms_sum sigma _ _ _ w [] [] Hw C2
                (B (k - 1)%nat ltac:(lia)) (B (k - 2)%nat ltac:(lia)))
    as (_ & _ & V1).
  pose proof (twoterms_sum sigma _ _ _ w [] [] Hw C3
                (B (2 * k - 3)%nat ltac:(lia)) (B 0%nat ltac:(lia)))
    as (_ & _ & V2).
  rewrite V2, V1. unfold cp_value.
  rewrite (Pv 0%nat), (Pv (k - 1)%nat), (Pv (k - 2)%nat) by lia.
  unfold cp_three_sum, cp_word. rewrite Zplus_mod_idemp_l. f_equal. lia.
Qed.

End CpGeneral.

Section CpGeneralComplete.

Variables (c : component) (k w : nat).
Hypothesis Hwf : well_formed c k w.
Hypothesis Hk : (3 <= k)%nat.
Hypothesis Hw : (2 <= w)%nat.
Variable sigma : Cp.store.
Hypothesis Hin01 : inputs01 sigma (cp_all_inputs c).
Hypothesis Hout01 : bits01 sigma (id c) w.
Hypothesis Hnodup : NoDup (cp_new_names c).
Hypothesis Hid : ~ In (id c) (cp_new_names c).
Hypothesis Hlinks :
  forall l, In l (input_id_links c) -> ~ In l (cp_new_names c).

Let pre (i : nat) := Modadd.pre (id c) (Z.of_nat i).
Let P (i : nat) := cp_operand_bits sigma c w i.
Let Q (i : nat) :=
  if (i <? k)%nat then P i else sum_bits (P (k - 1)) (P (i - k + 1)).

Lemma cp_extension_general :
  cp_value sigma (id c) w = cp_three_sum sigma c w k mod 2 ^ Z.of_nat w ->
  exists sigma',
    cp_agree (id c :: input_id_links c) sigma sigma'
    /\ exists ds cs,
         Modadd.cp_constraints c = Ok (ds, cs) /\ Cp.model sigma' ds cs.
Proof using Hwf Hk Hw Hin01 Hout01 Hnodup Hid Hlinks.
  intros Hv.
  assert (Hd : description_1 c = k) by apply Hwf.
  pose (binds :=
          map (fun i => (pre i, word_fn (Q i))) (seq 0 (2 * k - 2))
          ++ map (fun i => ("carry_" +s pre (k + i),
                            carry_fn (P (k - 1)) (P (i + 1))))
               (seq 0 (k - 2))
          ++ [("carry_" +s id c, carry_fn (Q (2 * k - 3)) (P 0))]).
  assert (Hnames : map fst binds = cp_new_names c).
  { unfold binds, cp_new_names. rewrite Hd, !map_app, !map_map.
    cbn [fst map]. unfold Py.range. rewrite !Nat.sub_0_r. reflexivity. }
  pose (sigma' := cp_extend sigma binds).
  assert (Hnd : NoDup (map fst binds)) by (rewrite Hnames; exact Hnodup).
  assert (Aid : forall i, sigma' (id c) i = sigma (id c) i)
    by (intros i; apply cp_extend_out; rewrite Hnames; exact Hid).
  assert (Ain : cp_agree (input_id_links c) sigma sigma')
    by (intros l Hl i; apply cp_extend_out; rewrite Hnames;
        apply Hlinks, Hl).
  assert (Hbind : forall a f, In (a, f) binds ->
                    forall j, sigma' a j = f j)
    by (intros a f Hin j; apply cp_extend_in; assumption).
  assert (Epre : forall i, (i < 2 * k - 2)%nat ->
            forall j, sigma' (pre i) j = word_fn (Q i) j).
  { intros i Hi. apply Hbind. unfold binds. apply in_or_app. left.
    apply in_map_iff. exists i. split; [reflexivity | apply in_seq; lia]. }
  assert (Ecar : forall i, (i < k - 2)%nat ->
            forall j, sigma' ("carry_" +s pre (k + i)) j
                      = carry_fn (P (k - 1)) (P (i + 1)) j).
  { intros i Hi. apply Hbind. unfold binds. apply in_or_app. right.
    apply in_or_app. left. apply in_map_iff. exists i.
    split; [reflexivity | apply in_seq; lia]. }
  assert (Efin : forall j, sigma' ("carry_" +s id c) j
                           = carry_fn (Q (2 * k - 3)) (P 0) j).
  { apply Hbind. unfold binds. apply in_or_app. right. apply in_or_app.
    right. left. reflexivity. }
  assert (LP : forall i, (i < k)%nat -> length (P i) = w)
    by (intros i Hi; apply (length_cp_operand_bits c k w Hwf); lia).
  assert (QP : forall i, (i < k)%nat -> Q i = P i).
  { intros i Hi. unfold Q. destruct (Nat.ltb_spec i k); [reflexivity | lia]. }
  assert (QS : forall i, (i < k - 2)%nat ->
            Q (k + i) = sum_bits (P (k - 1)) (P (i + 1))).
  { intros i Hi. unfold Q. destruct (Nat.ltb_spec (k + i) k); [lia|].
    replace (k + i - k + 1)%nat with (i + 1)%nat by lia. reflexivity. }
  assert (LS : forall i, (i < k - 2)%nat ->
            length (sum_bits (P (k - 1)) (P (i + 1))) = w)
    by (intros i Hi; rewrite length_sum_bits; rewrite !LP by lia; lia).
  assert (Hpre : forall i, (i < k)%nat ->
            Cp.declared sigma' (pre_declaration c w i)
            /\ Forall (Cp.holds sigma') (pre_equations c w i)).
  { intros i Hi.
    apply (cp_pre_complete c k w Hwf ltac:(lia) sigma sigma' Hin01 Ain i Hi).
    intros j. rewrite (Epre i) by lia. rewrite QP by lia. reflexivity. }
  assert (Hstage : forall i, (i < k - 2)%nat ->
            Forall (Cp.holds sigma')
              (twoterms_added (pre (k - 1)) (pre (i + 1)) (pre (k + i)) w)
            /\ Cp.declared sigma' (twoterms_declaration (pre (k + i)) w)).
  { intros i Hi.
    apply (twoterms_stage sigma' (pre (k - 1)) (pre (i + 1)) (pre (k + i))
             w [] [] (P (k - 1)) (P (i + 1)) Hw).
    - apply LP. lia.
    - apply LP. lia.
    - intros j. rewrite (Epre (k - 1)%nat), QP by lia. reflexivity.
    - intros j. rewrite (Epre (i + 1)%nat), QP by lia. reflexivity.
    - apply Ecar, Hi.
    - intros j _. rewrite (Epre (k + i)%nat), QS by lia. reflexivity.
    - apply Forall_nil. }
  assert (Qlast : Q (2 * k - 3) = sum_bits (P (k - 1)) (P (k - 2))).
  { replace (2 * k - 3)%nat with (k + (k - 3))%nat by lia.
    rewrite QS by lia. replace (k - 3 + 1)%nat with (k - 2)%nat by lia.
    reflexivity. }
  assert (LQ : length (Q (2 * k - 3)) = w).
  { rewrite Qlast, length_sum_bits; rewrite !LP by lia; lia. }
  assert (Ho : forall j, (j < w)%nat ->
            sigma' (id c) (Z.of_nat j)
            = word_fn (sum_bits (Q (2 * k - 3)) (P 0)) (Z.of_nat j)).
  { intros j Hj. rewrite Aid.
    apply (bits01_word sigma (id c) w); try assumption.
    - rewrite length_sum_bits; rewrite ?LQ, ?LP by lia; lia.
    - assert (L0 : length (P 0) = w) by (apply LP; lia).
      assert (L1 : length (P (k - 1)) = w) by (apply LP; lia).
      assert (L2 : length (P (k - 2)) = w) by (apply LP; lia).
      rewrite Hv. rewrite sum_bits_word by (rewrite LQ, L0; reflexivity).
      rewrite LQ, Qlast.
      rewrite sum_bits_word by (rewrite L1, L2; reflexivity). rewrite L1.
      rewrite Zplus_mod_idemp_l. f_equal.
      unfold cp_three_sum, cp_word, P, cp_operand_bits. lia. }
  destruct (twoterms_stage sigma' (pre (2 * k - 3)) (pre 0) (id c) w [] []
              (Q (2 * k - 3)) (P 0) Hw LQ (LP 0%nat ltac:(lia)))
    as [Hcs Hdc].
  { apply Epre. lia. }
  { intros j. rewrite (Epre 0%nat), QP by lia. reflexivity. }
  { exact Efin. }
  { exact Ho. }
  { apply Forall_nil. }
  exists sigma'. split.
  { intros a [<-|Ha] i; [apply Aid | apply Ain, Ha]. }
  rewrite (cp_constraints_general c k w Hwf ltac:(lia)).
  eexists. eexists. split; [reflexivity|]. split.
  - rewrite !Forall_app. split; [|split; [|split]].
    + rewrite Forall_map, Forall_forall. intros i Hi. apply in_seq in Hi.
      apply Hpre. lia.
    + rewrite Forall_map, Forall_forall. intros i Hi. apply in_seq in Hi.
      assert (L : length (Q i) = w).
      { replace i with (k + (i - k))%nat by lia. rewrite QS by lia.
        apply LS. lia. }
      destruct (cp_bits_word_fn sigma' (pre i) w (Q i) L
                  (fun j _ => Epre i ltac:(lia) _)) as [_ B].
      unfold pre_declaration. cbn [Cp.declared]. intros j Hj.
      replace j with (Z.of_nat (Z.to_nat j)) by lia. apply B. lia.
    + rewrite Forall_map, Forall_forall. intros i Hi. apply in_seq in Hi.
      apply Hstage. lia.
    + apply Forall_cons; [exact Hdc | apply Forall_nil].
  - rewrite !Forall_app. split; [|split].
    + rewrite Forall_flat_map, Forall_forall. intros i Hi.
      apply in_seq in Hi. apply Hpre. lia.
    + rewrite Forall_flat_map, Forall_forall. intros i Hi.
      apply in_seq in Hi. apply Hstage. lia.
    + exact Hcs.
Qed.

End CpGeneralComplete.

Lemma cp_agree_three_sum (c : component) (sigma sigma' : Cp.store)
  (w k : nat) :
  cp_agree (input_id_links c) sigma sigma' ->
  cp_three_sum sigma' c w k = cp_three_sum sigma c w k.
Proof.
  intros H.
  assert (E : forall i,
            cp_word sigma' (operand (cp_all_inputs c) w i)
            = cp_word sigma (operand (cp_all_inputs c) w i)).
  { intros i. unfold cp_word. f_equal. apply map_ext_in. intros e He.
    rewrite (cp_agree_inputs c sigma sigma' H); [reflexivity|].
    apply (In_operand _ w i e He). }
  unfold cp_three_sum. rewrite !E. reflexivity.
Qed.

(** X15: for a MODADD component of [k >= 3] operands of [w >= 2] bits whose
    CP encoding introduces distinct arrays, none of them the output or an
    input source, [cp_constraints] returns a model such that a 0/1
    assignment of the operand and output arrays extends to a solution
    exactly when the output word is the sum, modulo [2^w], of the operands
    0, [k - 2] and [k - 1], index 0 being the most significant bit.  For
    [k >= 4] the operands 1 to [k - 3] do not reach the output. *)
Theorem modadd_cp_three_operands_reach_output (c : component) (k w : nat) :
  well_formed c k w -> (3 <= k)%nat -> (2 <= w)%nat ->
  distinct (id c :: cp_new_names c) = true ->
  disjoint (input_id_links c) (cp_new_names c) = true ->
  exists ds cs,
    Modadd.cp_constraints c = Ok (ds, cs)
    /\ forall sigma,
         inputs01 sigma (cp_all_inputs c) -> bits01 sigma (id c) w ->
         (exists sigma',
            cp_agree (id c :: input_id_links c) sigma sigma'
            /\ Cp.model sigma' ds cs)
         <-> cp_value sigma (id c) w
             = cp_three_sum sigma c w k mod 2 ^ Z.of_nat w.
Proof.
  intros Hwf Hk Hw Hdis Hfresh.
  cbn [distinct] in Hdis. apply andb_true_iff in Hdis.
  destruct Hdis as [Hid Hdis].
  assert (Hnid : ~ In (id c) (cp_new_names c)).
  { intros Hin. apply mem_In in Hin. rewrite Hin in Hid. discriminate Hid. }
  eexists. eexists.
  split; [apply (cp_constraints_general c k w Hwf ltac:(lia))|].
  intros sigma I O. split.
  - intros (sigma' & Ha & Hm).
    assert (Ain : cp_agree (input_id_links c) sigma sigma')
      by (intros l Hl; apply Ha; right; exact Hl).
    pose proof (cp_sound_general c k w Hwf ltac:(lia) Hk Hw sigma' _ _
                  (cp_constraints_general c k w Hwf ltac:(lia)) Hm) as Hs.
    unfold cp_value in Hs |- *.
    rewrite (cp_agree_value sigma sigma' (id c) w) in Hs
      by (apply Ha; left; reflexivity).
    rewrite Hs, (cp_agree_three_sum c sigma sigma' w k Ain). reflexivity.
  - intros Hv.
    destruct (cp_extension_general c k w Hwf Hk Hw sigma I O
                (distinct_NoDup _ Hdis) Hnid (disjoint_In _ _ Hfresh) Hv)
      as (sigma' & Ha & ds' & cs' & E' & Hm).
    rewrite (cp_constraints_general c k w Hwf ltac:(lia)) in E'.
    injection E' as <- <-.
    exists sigma'. split; assumption.
Qed.

Lemma modadd_cp_three_operands_reach_output_witness :
  exists ds cs,
    Modadd.cp_constraints modadd_four = Ok (ds, cs)
    /\ forall sigma,
         inputs01 sigma (cp_all_inputs modadd_four) ->
         bits01 sigma (id modadd_four) 2 ->
         (exists sigma',
            cp_agree (id modadd_four :: input_id_links modadd_four)
              sigma sigma'
            /\ Cp.model sigma' ds cs)
         <-> cp_value sigma (id modadd_four) 2
             = cp_three_sum sigma modadd_four 2 4 mod 2 ^ Z.of_nat 2.
Proof.
  apply (modadd_cp_three_operands_reach_output modadd_four 4 2).
  - repeat split.
  - lia.
  - lia.
  - vm_compute. reflexivity.
  - vm_compute. reflexivity.
Defined.

(** ** MODADD in the CP model: a single operand *)

Lemma append_inv_head (s a b : string) : s +s a = s +s b -> a = b.
Proof.
  induction s as [|ch s IH]; intros H; [exact H|].
  cbn [String.append] in H. injection H as H. apply IH, H.
Qed.

(** X16: for a MODADD component with a single operand, where the SAT, SMT
    and CMS encoders raise, [cp_constraints] returns a model: its only
    reduction adds the operand to the array [pre_<id>_-1], which the
    constraints read and no declaration declares. *)
Theorem modadd_cp_one_operand_undeclared (c : component) (w : nat) :
  well_formed c 1 w ->
  exists ds cs,
    Modadd.cp_constraints c = Ok (ds, cs)
    /\ map declaration_name ds
       = [Modadd.pre (id c) 0; "carry_" +s id c]
    /\ In (Modadd.pre (id c) (-1)) (flat_map constraint_arrays cs)
    /\ ~ In (Modadd.pre (id c) (-1)) (map declaration_name ds).
Proof.
  intros Hwf. unfold Modadd.cp_constraints. fold (cp_all_inputs c).
  assert (Hd : description_1 c = 1%nat) by apply Hwf.
  assert (Ho : output_bit_size c = w) by apply Hwf.
  rewrite Hd, Ho, (cp_floordiv c 1 w Hwf) by lia. cbn [bind].
  change (Py.range 0 1) with [0%nat].
  rewrite (cp_pre_loop c 1 w Hwf) by (try lia; intros i [<-|[]]; lia).
  cbn [bind fst snd app map flat_map Py.range Nat.sub Nat.mul Nat.add seq
         fold_left].
  rewrite twoterms_split. eexists. eexists. split; [reflexivity|].
  split; [reflexivity|]. split.
  - rewrite flat_map_app. apply in_or_app. right.
    unfold twoterms_added, Modadd.cp_twoterms. cbn [snd].
    rewrite !flat_map_app. apply in_or_app. right.
    cbn [flat_map constraint_arrays expr_arrays app].
    right. left. reflexivity.
  - cbn [map declaration_name pre_declaration twoterms_declaration app].
    unfold pre_declaration, twoterms_declaration, Modadd.pre.
    cbn [map declaration_name]. intros [H|[H|[]]].
    + cbn [String.append] in H. injection H as H.
      apply append_inv_head in H. discriminate H.
    + cbn [String.append] in H. discriminate H.
Qed.

Lemma modadd_cp_one_operand_undeclared_witness :
  exists ds cs,
    Modadd.cp_constraints add_one = Ok (ds, cs)
    /\ In (Modadd.pre (id add_one) (-1)) (flat_map constraint_arrays cs)
    /\ ~ In (Modadd.pre (id add_one) (-1)) (map declaration_name ds).
Proof.
  destruct (modadd_cp_one_operand_undeclared add_one 2)
    as (ds & cs & H & _ & H1 & H2).
  - repeat split.
  - exists ds, cs. split; [exact H|]. split; assumption.
Defined.

(** ** MODSUB in the CP model: two operands *)

Lemma length_one_word (w : nat) : (1 <= w)%nat -> length (one_word w) = w.
Proof.
  intros H. unfold one_word. rewrite length_app, repeat_length.
  cbn [length]. lia.
Qed.

Lemma word_msb_one (w : nat) : word_msb (one_word w) = 1.
Proof.
  unfold one_word, word_msb. rewrite fold_left_app.
  assert (E : fold_left (fun acc b => 2 * acc + Z.b2z b)
                (repeat false (w - 1)) 0 = 0).
  { induction (w - 1)%nat as [|n IH]; [reflexivity|].
    cbn [repeat fold_left Z.b2z]. exact IH. }
  rewrite E. reflexivity.
Qed.

Lemma nth_one_word (w j : nat) :
  (j < w)%nat -> nth j (one_word w) false = (j =? w - 1)%nat.
Proof.
  intros H. unfold one_word.
  destruct (Nat.eqb_spec j (w - 1)) as [->|Hne].
  - rewrite app_nth2 by (rewrite repeat_length; lia).
    rewrite repeat_length, Nat.sub_diag. reflexivity.
  - rewrite app_nth1 by (rewrite repeat_length; lia).
    apply nth_repeat.
Qed.

Lemma constant_values (w j : nat) :
  (j < w)%nat ->
  nth_error (repeat 0 (w - 1) ++ [1]) j
  = Some (Z.b2z (nth j (one_word w) false)).
Proof.
  intros H. rewrite nth_one_word by exact H.
  destruct (Nat.eqb_spec j (w - 1)) as [->|Hne].
  - rewrite nth_error_app2 by (rewrite repeat_length; lia).
    rewrite repeat_length, Nat.sub_diag. reflexivity.
  - rewrite nth_error_app1 by (rewrite repeat_length; lia).
    rewrite nth_error_repeat by lia. reflexivity.
Qed.

Lemma cp_bits_constant (sigma : Cp.store) (a : string) (w : nat) :
  (1 <= w)%nat ->
  Cp.declared sigma
    (Cp.Array01Init 0 (Z.of_nat w - 1) a (repeat 0 (w - 1) ++ [1])) ->
  cp_bits sigma a w = one_word w.
Proof.
  intros Hw H. cbn [Cp.declared] in H.
  apply (nth_ext _ _ false false).
  - rewrite length_cp_bits, length_one_word; lia.
  - intros j Hj. rewrite length_cp_bits in Hj.
    rewrite nth_cp_bits by exact Hj. unfold cp_bit.
    specialize (H (Z.of_nat j) ltac:(lia)).
    rewrite Z.sub_0_r, Nat2Z.id, constant_values in H by exact Hj.
    injection H as H. rewrite <- H.
    destruct (nth j (one_word w) false); reflexivity.
Qed.

Lemma cp_bits_complement (sigma : Cp.store) (a b : string) (w : nat) :
  bits01 sigma b w ->
  (forall n, (n < w)%nat ->
     sigma a (Z.of_nat n) = (sigma b (Z.of_nat n) + 1) mod 2) ->
  cp_bits sigma a w = map negb (cp_bits sigma b w).
Proof.
  intros B H. unfold cp_bits. rewrite map_map. apply map_ext_in.
  intros n Hn. apply in_seq in Hn. unfold cp_bit. rewrite H by lia.
  destruct (B n ltac:(lia)) as [-> | ->]; reflexivity.
Qed.

Lemma modsub_equations (call : Cp.store -> string -> string -> string -> Prop)
  (sigma : Cp.store) (es : list Cp.constraint) :
  Forall (modsub_holds call sigma) (map Modsub.Equation es)
  <-> Forall (Cp.holds sigma) es.
Proof. rewrite Forall_map. reflexivity. Qed.

Section CpModsub.

Variables (c : component) (w : nat).
Hypothesis Hwf : well_formed c 2 w.
Hypothesis Hw : (1 <= w)%nat.

Let pre (i : nat) : string := Modadd.pre (id c) (Z.of_nat i).
Let pm : string := "pre_minus_" +s pre 1.
Let m : string := "minus_" +s pre 1.
Let constant : string := "constant_" +s id c.

Lemma modsub_cp_constraints_two :
  Modsub.cp_constraints c
  = Ok ([Cp.Array01Init 0 (Z.of_nat w - 1) constant
           (repeat 0 (w - 1) ++ [1]);
         Cp.Array01 0 (Z.of_nat w - 1) (id c);
         pre_declaration c w 0;
         pre_declaration c w 1;
         Cp.Array01 0 (Z.of_nat w - 1) pm;
         Cp.Array01 0 (Z.of_nat w - 1) m],
        map Modsub.Equation (pre_equations c w 0 ++ pre_equations c w 1)
        ++ map (fun n =>
                  Modsub.Equation
                    (Cp.Eq (Cp.Elem pm (Z.of_nat n))
                       (Cp.Mod2
                          (Cp.Add (Cp.Elem (pre 1) (Z.of_nat n))
                             (Cp.Lit 1)))))
             (seq 0 w)
        ++ [Modsub.ModaddCall pm constant m;
            Modsub.ModaddCall (pre 0) m (id c)]).
Proof using Hwf Hw.
  unfold Modsub.cp_constraints.
  assert (Hd : description_1 c = 2%nat) by apply Hwf.
  assert (Ho : output_bit_size c = w) by apply Hwf.
  assert (Hl : length (input_id_links c) = length (input_bit_positions c))
    by apply Hwf.
  replace (Py.range 0 (length (input_id_links c)))
    with (seq 0 (length (input_id_links c)))
    by (unfold Py.range; rewrite Nat.sub_0_r; reflexivity).
  rewrite or_all_inputs_loop by lia. cbn [bind].
  rewrite (or_all_inputs c Hl).
  rewrite Hd, Ho, (cp_floordiv c 2 w Hwf) by lia. cbn [bind].
  change (Py.range 0 2) with [0%nat; 1%nat].
  rewrite (foldM_extend2 _
             (fun i => [pre_declaration c w i])
             (fun i => map Modsub.Equation (pre_equations c w i))).
  - cbn [bind fst snd app flat_map Py.range Nat.sub map Nat.eqb seq].
    unfold Modsub.cp_twoterms. cbn [fst snd app].
    rewrite app_nil_r, <- !app_assoc, map_app. unfold Py.range.
    rewrite Nat.sub_0_r. rewrite <- !app_assoc. reflexivity.
  - intros i st Hi.
    assert (Hi' : (i < 2)%nat) by (destruct Hi as [<-|[<-|[]]]; lia).
    rewrite (mapM_ok _
               (fun j =>
                  Modsub.Equation
                    (Cp.Eq (Cp.Elem (Modadd.pre (id c) (Z.of_nat i))
                              (Z.of_nat j))
                       (nth (i * w + j) (cp_all_inputs c) (Cp.Lit 0))))).
    + cbn [bind]. unfold pre_equations, pre_declaration, Py.range.
      rewrite map_map, Nat.sub_0_r. reflexivity.
    + intros j Hj. unfold Py.range in Hj. rewrite Nat.sub_0_r in Hj.
      apply in_seq in Hj. cbv beta.
      rewrite (getitem_nth _ _ (Cp.Lit 0))
        by (rewrite (cp_len_inputs c 2 w Hwf); nia).
      reflexivity.
Qed.

Variable call : Cp.store -> string -> string -> string -> Prop.
Hypothesis Hcall : adds_words w call.

Lemma modsub_cp_sound (sigma : Cp.store) (ds : list Cp.declaration)
  (cs : list Modsub.cp_constraint) :
  Modsub.cp_constraints c = Ok (ds, cs) ->
  Forall (Cp.declared sigma) ds -> Forall (modsub_holds call sigma) cs ->
  cp_value sigma (id c) w
  = (cp_word sigma (operand (cp_all_inputs c) w 0)
     - cp_word sigma (operand (cp_all_inputs c) w 1)) mod 2 ^ Z.of_nat w.
Proof using Hwf Hw Hcall.
  intros E Hds Hcs. rewrite modsub_cp_constraints_two in E.
  injection E as <- <-.
  rewrite !Forall_cons_iff in Hds.
  destruct Hds as (Dc & _ & D0 & D1 & Dpm & Dm & _).
  rewrite !Forall_app in Hcs. destruct Hcs as (He & Hpm & Hcalls).
  apply modsub_equations in He. apply Forall_app in He.
  destruct He as [E0 E1].
  rewrite Forall_map, Forall_forall in Hpm.
  rewrite !Forall_cons_iff in Hcalls. destruct Hcalls as (C1 & C2 & _).
  cbn [modsub_holds] in C1, C2. apply Hcall in C1, C2.
  assert (B1 : bits01 sigma (pre 1) w)
    by (intros i Hi; apply D1; lia).
  assert (Vc : cp_value sigma constant w = 1)
    by (unfold cp_value; rewrite (cp_bits_constant sigma constant w Hw Dc);
        apply word_msb_one).
  assert (Vpm : cp_value sigma pm w
                = 2 ^ Z.of_nat w - 1 - cp_value sigma (pre 1) w).
  { unfold cp_value. rewrite (cp_bits_complement sigma pm (pre 1) w B1).
    - rewrite word_msb_negb, length_cp_bits. reflexivity.
    - intros n Hn. apply (Hpm n). apply in_seq. lia. }
  rewrite C2, C1, Vpm, Vc. unfold cp_value, pre.
  rewrite (cp_pre_bits c 2 w Hwf ltac:(lia) sigma 0) by (try lia; assumption).
  rewrite (cp_pre_bits c 2 w Hwf ltac:(lia) sigma 1) by (try lia; assumption).
  unfold cp_word. rewrite Zplus_mod_idemp_r.
  set (a := word_msb _). set (b := word_msb _).
  replace (a + (2 ^ Z.of_nat w - 1 - b + 1))
    with (a - b + 1 * 2 ^ Z.of_nat w) by ring.
  apply Z_mod_plus_full.
Qed.

End CpModsub.

Section CpModsubComplete.

Variables (c : component) (w : nat).
Hypothesis Hwf : well_formed c 2 w.
Hypothesis Hw : (1 <= w)%nat.
Variable call : Cp.store -> string -> string -> string -> Prop.
Hypothesis Hcall : adds_words w call.
Variable sigma : Cp.store.
Hypothesis Hin01 : inputs01 sigma (cp_all_inputs c).
Hypothesis Hout01 : bits01 sigma (id c) w.
Hypothesis Hnodup : NoDup (cp_modsub_names c).
Hypothesis Hid : ~ In (id c) (cp_modsub_names c).
Hypothesis Hlinks :
  forall l, In l (input_id_links c) -> ~ In l (cp_modsub_names c).

Let pre (i : nat) : string := Modadd.pre (id c) (Z.of_nat i).
Let pm : string := "pre_minus_" +s pre 1.
Let m : string := "minus_" +s pre 1.
Let constant : string := "constant_" +s id c.
Let P (i : nat) := cp_operand_bits sigma c w i.

Lemma modsub_cp_extension :
  cp_value sigma (id c) w
  = (cp_word sigma (operand (cp_all_inputs c) w 0)
     - cp_word sigma (operand (cp_all_inputs c) w 1)) mod 2 ^ Z.of_nat w ->
  exists sigma',
    cp_agree (id c :: input_id_links c) sigma sigma'
    /\ exists ds cs,
         Modsub.cp_constraints c = Ok (ds, cs)
         /\ Forall (Cp.declared sigma') ds
         /\ Forall (modsub_holds call sigma') cs.
Proof using Hwf Hw Hcall Hin01 Hout01 Hnodup Hid Hlinks.
  intros Hv.
  pose (M := sum_bits (map negb (P 1)) (one_word w)).
  pose (binds := [(constant, word_fn (one_word w));
                  (pre 0, word_fn (P 0)); (pre 1, word_fn (P 1));
                  (pm, word_fn (map negb (P 1))); (m, word_fn M)]).
  assert (Hnames : map fst binds = cp_modsub_names c) by reflexivity.
  pose (sigma' := cp_extend sigma binds).
  assert (Hnd : NoDup (map fst binds)) by (rewrite Hnames; exact Hnodup).
  assert (Aid : forall i, sigma' (id c) i = sigma (id c) i)
    by (intros i; apply cp_extend_out; rewrite Hnames; exact Hid).
  assert (Ain : cp_agree (input_id_links c) sigma sigma')
    by (intros l Hl i; apply cp_extend_out; rewrite Hnames;
        apply Hlinks, Hl).
  assert (Hbind : forall a f, In (a, f) binds ->
                    forall j, sigma' a j = f j)
    by (intros a f Hin j; apply cp_extend_in; assumption).
  assert (Ec : forall j, sigma' constant j = word_fn (one_word w) j)
    by (apply Hbind; cbn; auto).
  assert (E0 : forall j, sigma' (pre 0) j = word_fn (P 0) j)
    by (apply Hbind; cbn; auto).
  assert (E1 : forall j, sigma' (pre 1) j = word_fn (P 1) j)
    by (apply Hbind; cbn; auto).
  assert (Epm : forall j, sigma' pm j = word_fn (map negb (P 1)) j)
    by (apply Hbind; cbn; auto 6).
  assert (Em : forall j, sigma' m j = word_fn M j)
    by (apply Hbind; cbn; auto 7).
  assert (L0 : length (P 0) = w)
    by (apply (length_cp_operand_bits c 2 w Hwf); lia).
  assert (L1 : length (P 1) = w)
    by (apply (length_cp_operand_bits c 2 w Hwf); lia).
  assert (Lone : length (one_word w) = w) by (apply length_one_word, Hw).
  assert (Ln : length (map negb (P 1)) = w)
    by (rewrite length_map; exact L1).
  assert (LM : length M = w)
    by (unfold M; rewrite length_sum_bits; lia).
  destruct (cp_pre_complete c 2 w Hwf ltac:(lia) sigma sigma' Hin01 Ain 0
              ltac:(lia) E0) as [D0 Q0].
  destruct (cp_pre_complete c 2 w Hwf ltac:(lia) sigma sigma' Hin01 Ain 1
              ltac:(lia) E1) as [D1 Q1].
  destruct (cp_bits_word_fn sigma' constant w _ Lone (fun j _ => Ec _))
    as [Vc _].
  destruct (cp_bits_word_fn sigma' (pre 0) w _ L0 (fun j _ => E0 _))
    as [V0 _].
  destruct (cp_bits_word_fn sigma' pm w _ Ln (fun j _ => Epm _))
    as [Vpm Bpm].
  destruct (cp_bits_word_fn sigma' m w _ LM (fun j _ => Em _))
    as [Vm Bm].
  assert (Hdecl : forall a, bits01 sigma' a w ->
            Cp.declared sigma' (Cp.Array01 0 (Z.of_nat w - 1) a)).
  { intros a B. cbn [Cp.declared]. intros j Hj.
    replace j with (Z.of_nat (Z.to_nat j)) by lia. apply B. lia. }
  exists sigma'. split.
  { intros a [<-|Ha] i; [apply Aid | apply Ain, Ha]. }
  rewrite (modsub_cp_constraints_two c w Hwf Hw).
  eexists. eexists. split; [reflexivity|]. split.
  - apply Forall_cons.
    { cbn [Cp.declared]. intros i Hi. fold constant. rewrite Ec.
      unfold word_fn. rewrite Z.sub_0_r. apply constant_values. lia. }
    apply Forall_cons.
    { apply Hdecl. intros j Hj. rewrite Aid. apply Hout01, Hj. }
    apply Forall_cons; [exact D0|]. apply Forall_cons; [exact D1|].
    apply Forall_cons; [apply Hdecl, Bpm|].
    apply Forall_cons; [apply Hdecl, Bm | apply Forall_nil].
  - rewrite !Forall_app. split; [|split].
    + apply modsub_equations. apply Forall_app. split; assumption.
    + rewrite Forall_map, Forall_forall. intros n Hn. apply in_seq in Hn.
      cbn [modsub_holds Cp.holds Cp.eval_expr]. fold pm. fold (pre 1).
      rewrite Epm, E1. unfold word_fn. rewrite Nat2Z.id.
      change false with (negb true) at 1. rewrite map_nth.
      destruct (nth n (P 1) true) eqn:En;
        rewrite (nth_indep _ false true) by lia; rewrite En; reflexivity.
    + apply Forall_cons; [|apply Forall_cons; [|apply Forall_nil]];
        cbn [modsub_holds]; apply Hcall; unfold cp_value.
      * unfold m, pm, constant, pre in Vm, Vpm, Vc.
        rewrite Vm, Vpm, Vc. unfold M.
        rewrite sum_bits_word by lia. rewrite Ln. reflexivity.
      * unfold m, pre in Vm, V0.
        rewrite (cp_agree_value sigma sigma' (id c) w Aid).
        fold (cp_value sigma (id c) w). rewrite Hv, V0, Vm. unfold M.
        rewrite sum_bits_word by lia.
        rewrite Ln, word_msb_one, word_msb_negb, L1, Zplus_mod_idemp_r.
        unfold cp_word, P, cp_operand_bits.
        set (a := word_msb _). set (b := word_msb _).
        replace (a + (2 ^ Z.of_nat w - 1 - b + 1))
          with (a - b + 1 * 2 ^ Z.of_nat w) by ring.
        symmetry. apply Z_mod_plus_full.
Qed.

End CpModsubComplete.

(** X17: take a 2-operand MODSUB component of [w >= 1] bits whose CP
    encoding introduces distinct arrays, none of them the output or an
    input source, and read a call [modadd(a, b, r)] as the addition of two
    arrays of [w] bits modulo [2^w].  Then [cp_constraints] returns a model
    such that a 0/1 assignment of the operand and output arrays extends to
    a solution exactly when the output word is the first operand minus the
    second modulo [2^w], index 0 being the most significant bit. *)
Theorem modsub_cp_constraints_subtraction (c : component) (w : nat)
  (call : Cp.store -> string -> string -> string -> Prop) :
  well_formed c 2 w -> (1 <= w)%nat -> adds_words w call ->
  distinct (id c :: cp_modsub_names c) = true ->
  disjoint (input_id_links c) (cp_modsub_names c) = true ->
  exists ds cs,
    Modsub.cp_constraints c = Ok (ds, cs)
    /\ forall sigma,
         inputs01 sigma (cp_all_inputs c) -> bits01 sigma (id c) w ->
         (exists sigma',
            cp_agree (id c :: input_id_links c) sigma sigma'
            /\ Forall (Cp.declared sigma') ds
            /\ Forall (modsub_holds call sigma') cs)
         <-> cp_value sigma (id c) w
             = (cp_word sigma (operand (cp_all_inputs c) w 0)
                - cp_word sigma (operand (cp_all_inputs c) w 1))
                 mod 2 ^ Z.of_nat w.
Proof.
  intros Hwf Hw Hcall Hdis Hfresh.
  cbn [distinct] in Hdis. apply andb_true_iff in Hdis.
  destruct Hdis as [Hid Hdis].
  assert (Hnid : ~ In (id c) (cp_modsub_names c)).
  { intros Hin. apply mem_In in Hin. rewrite Hin in Hid. discriminate Hid. }
  eexists. eexists.
  split; [apply (modsub_cp_constraints_two c w Hwf Hw)|].
  intros sigma I O. split.
  - intros (sigma' & Ha & Hds & Hcs).
    assert (Ain : cp_agree (input_id_links c) sigma sigma')
      by (intros l Hl; apply Ha; right; exact Hl).
    pose proof (modsub_cp_sound c w Hwf Hw call Hcall sigma' _ _
                  (modsub_cp_constraints_two c w Hwf Hw) Hds Hcs) as Hs.
    unfold cp_value in Hs |- *.
    rewrite (cp_agree_value sigma sigma' (id c) w) in Hs
      by (apply Ha; left; reflexivity).
    rewrite Hs. f_equal. f_equal; unfold cp_word; f_equal;
      apply map_ext_in; intros e He;
      (rewrite (cp_agree_inputs c sigma sigma' Ain); [reflexivity|]);
      apply (In_operand _ w _ e He).
  - intros Hv.
    destruct (modsub_cp_extension c w Hwf Hw call Hcall sigma I O
                (distinct_NoDup _ Hdis) Hnid (disjoint_In _ _ Hfresh) Hv)
      as (sigma' & Ha & ds' & cs' & E' & Hds & Hcs).
    rewrite (modsub_cp_constraints_two c w Hwf Hw) in E'.
    injection E' as <- <-.
    exists sigma'. split; [exact Ha|]. split; assumption.
Qed.

Lemma modsub_cp_constraints_subtraction_witness :
  exists ds cs,
    Modsub.cp_constraints modsub_left = Ok (ds, cs)
    /\ forall sigma,
         inputs01 sigma (cp_all_inputs modsub_left) ->
         bits01 sigma (id modsub_left) 2 ->
         (exists sigma',
            cp_agree (id modsub_left :: input_id_links modsub_left)
              sigma sigma'
            /\ Forall (Cp.declared sigma') ds
            /\ Forall
                 (modsub_holds
                    (fun s a b r =>
                       cp_value s r 2
                       = (cp_value s a 2 + cp_value s b 2) mod 2 ^ Z.of_nat 2)
                    sigma') cs)
         <-> cp_value sigma (id modsub_left) 2
             = (cp_word sigma (operand (cp_all_inputs modsub_left) 2 0)
                - cp_word sigma (operand (cp_all_inputs modsub_left) 2 1))
                 mod 2 ^ Z.of_nat 2.
Proof.
  apply (modsub_cp_constraints_subtraction modsub_left 2).
  - repeat split.
  - lia.
  - intros s a b r. split; intros H; exact H.
  - vm_compute. reflexivity.
  - vm_compute. reflexivity.
Defined.

(** ** MODSUB in the CP model: unpaired input links *)

(** X18: when the component has fewer lists of bit positions than input
    links, [cp_constraints] of MODSUB raises [IndexError] while it collects
    the inputs, as [cp_constraints] of OR does. *)
Theorem modsub_cp_constraints_unpaired (c : component) :
  (length (input_bit_positions c) < length (input_id_links c))%nat ->
  Modsub.cp_constraints c = Err IndexError.
Proof.
  intros H. unfold Modsub.cp_constraints, Py.range. rewrite !Nat.sub_0_r.
  set (m := length (input_bit_positions c)) in *.
  replace (length (input_id_links c))
    with (m + S (length (input_id_links c) - m - 1))%nat by lia.
  rewrite seq_app. cbn [seq Nat.add].
  rewrite (foldM_raises _ _ _ _ _ _ IndexError
             (or_all_inputs_loop c m ltac:(lia) ltac:(lia))).
  - reflexivity.
  - unfold m. rewrite getitem_length. reflexivity.
Qed.

Lemma modsub_cp_constraints_unpaired_witness :
  Modsub.cp_constraints or_unpaired = Err IndexError.
Proof.
  apply (modsub_cp_constraints_unpaired or_unpaired). simpl. lia.
Defined.
